(** * Thread-local storage areas with copy-on-write pages (tls.c)

    A shallow embedding of [tls.c]: the process-wide globals, the malloc'ed
    descriptors and page objects, and the mmap'ed pages are an explicit
    state; every API function is a state transformer that can also end the
    process ([exit(1)]), trap on a refused memory access, or leave the
    behaviour undefined (dangling or out-of-range dereference). *)

From stdpp Require Import gmap list fin_maps.
From Stdlib Require Import ZArith Lia.
From Stdlib.Strings Require Import Byte.

Local Open Scope Z_scope.

(** ** Data model *)

Definition HASH_SIZE : Z := 4096.

(** [unsigned int] arithmetic wraps modulo 2^32. *)
Definition u32 (z : Z) : Z := z mod 2 ^ 32.

Definition NULL : Z := 0.

(** [struct page]: start address of the mapping and the sharing counter. *)
Record page := mkPage { address : Z; ref_count : Z }.

(** [TLS]: owner, size in bytes, number of pages, array of page pointers. *)
Record TLS := mkTLS { tid : Z; size : Z; page_num : Z; pages : list Z }.

(** [struct hash_element]; the [next] field is the tail of the chain. *)
Record hash_element := mkElem { elem_tid : Z; elem_tls : Z }.

(** Protections used by the source: [0], [PROT_WRITE], [PROT_READ|PROT_WRITE]. *)
Inductive prot := PROT_NONE | PROT_WRITE | PROT_READ_WRITE.

(** One anonymous private mapping of one page. *)
Record mapping := mkMapping { m_prot : prot; m_bytes : list byte }.

Inductive sighandler := SIG_DFL | SA_tls_handle_page_fault.

Inductive signal := SIGSEGV | SIGBUS.

(** The globals of [tls.c], the C heap split by object type, the page
    mappings keyed by base address, and the answers the operating system
    will give to the coming allocation requests ([false]: the request
    fails; an exhausted list grants every request). *)
Record tls_state := mkState {
  hash_table : list (list hash_element);
  initialized : Z;
  page_size : Z;
  sigbus_action : sighandler;
  sigsegv_action : sighandler;
  tls_heap : gmap Z TLS;
  page_heap : gmap Z page;
  mem : gmap Z mapping;
  oracle : list bool
}.

Definition with_hash_table (h : list (list hash_element)) (s : tls_state) :=
  mkState h (initialized s) (page_size s) (sigbus_action s) (sigsegv_action s)
          (tls_heap s) (page_heap s) (mem s) (oracle s).
Definition with_tls_heap (h : gmap Z TLS) (s : tls_state) :=
  mkState (hash_table s) (initialized s) (page_size s) (sigbus_action s)
          (sigsegv_action s) h (page_heap s) (mem s) (oracle s).
Definition with_page_heap (h : gmap Z page) (s : tls_state) :=
  mkState (hash_table s) (initialized s) (page_size s) (sigbus_action s)
          (sigsegv_action s) (tls_heap s) h (mem s) (oracle s).
Definition with_mem (m : gmap Z mapping) (s : tls_state) :=
  mkState (hash_table s) (initialized s) (page_size s) (sigbus_action s)
          (sigsegv_action s) (tls_heap s) (page_heap s) m (oracle s).
Definition with_oracle (o : list bool) (s : tls_state) :=
  mkState (hash_table s) (initialized s) (page_size s) (sigbus_action s)
          (sigsegv_action s) (tls_heap s) (page_heap s) (mem s) o.

(** The state of a fresh process: zeroed globals, nothing allocated. *)
Definition initial_state (o : list bool) : tls_state :=
  mkState (replicate (Z.to_nat HASH_SIZE) []) 0 0 SIG_DFL SIG_DFL ∅ ∅ ∅ o.

(** ** Outcomes and the state monad of the embedding *)

Inductive outcome (A : Type) : Type :=
| Ret (a : A) (s : tls_state)   (* the call returns *)
| Exit (code : Z)               (* [exit(code)]: the process ends *)
| Trap (addr : Z)               (* access refused by the page protection *)
| Undef.                        (* undefined behaviour *)
Arguments Ret {A} a s.
Arguments Exit {A} code.
Arguments Trap {A} addr.
Arguments Undef {A}.

Definition M (A : Type) : Type := tls_state → outcome A.

Definition ret {A} (a : A) : M A := λ s, Ret a s.

Definition bind {A B} (m : M A) (k : A → M B) : M B :=
  λ s, match m s with
       | Ret a s' => k a s'
       | Exit c => Exit c
       | Trap a => Trap a
       | Undef => Undef
       end.

Notation "x <- m ;; k" := (bind m (λ x, k))
  (at level 100, m at next level, right associativity).
Notation "m ;;; k" := (bind m (λ _, k))
  (at level 100, right associativity).

Definition get : M tls_state := λ s, Ret s s.
Definition modify (f : tls_state → tls_state) : M unit := λ s, Ret tt (f s).
Definition undef {A} : M A := λ _, Undef.
Definition exit {A} (code : Z) : M A := λ _, Exit code.
Definition trap {A} (addr : Z) : M A := λ _, Trap addr.

(** [for (i = i0; i < i0 + n; i++) body(i)] *)
Fixpoint for_range (body : Z → M unit) (i : Z) (n : nat) : M unit :=
  match n with
  | O => ret tt
  | S n' => body i ;;; for_range body (i + 1) n'
  end.

(** ** The operating system and the C library *)

(** Does the next allocation request succeed?  The answer is the head of
    the list of coming answers; an exhausted list grants. *)
Definition os_grant : M bool :=
  λ s, Ret (hd true (oracle s)) (with_oracle (tl (oracle s)) s).

(** A key above every key in use (and above [NULL]). *)
Definition fresh_key {V} (m : gmap Z V) : Z :=
  1 + foldr Z.max 0 (elements (dom m)).

(** A page-aligned base address above every mapping in use. *)
Definition fresh_base (ps : Z) (m : gmap Z mapping) : Z :=
  ps * (1 + foldr Z.max 0 ((λ a, a / ps) <$> elements (dom m))).

(** [calloc(1, sizeof(TLS))]: [None] is the NULL result. *)
Definition calloc_TLS : M (option Z) :=
  ok <- os_grant ;;
  if ok : bool then
    s <- get ;;
    let t := fresh_key (tls_heap s) in
    modify (with_tls_heap (<[t := mkTLS 0 0 0 []]> (tls_heap s))) ;;;
    ret (Some t)
  else ret None.

(** [calloc(n, sizeof(struct page* ))] for the array hanging off
    descriptor [t]: the array lives inside the descriptor record. *)
Definition calloc_pages (t : Z) (n : Z) : M bool :=
  ok <- os_grant ;;
  if ok : bool then
    s <- get ;;
    match tls_heap s !! t with
    | Some d =>
        modify (with_tls_heap
          (<[t := mkTLS (tid d) (size d) (page_num d) (replicate (Z.to_nat n) NULL)]>
             (tls_heap s))) ;;;
        ret true
    | None => undef
    end
  else ret false.

(** [malloc(sizeof(struct page))] / [calloc(1, sizeof(struct page))] *)
Definition alloc_page : M (option Z) :=
  ok <- os_grant ;;
  if ok : bool then
    s <- get ;;
    let p := fresh_key (page_heap s) in
    modify (with_page_heap (<[p := mkPage 0 0]> (page_heap s))) ;;;
    ret (Some p)
  else ret None.

(** [free] of a descriptor (with its page array) and of a page object. *)
Definition free_TLS (t : Z) : M unit :=
  s <- get ;;
  match tls_heap s !! t with
  | Some _ => modify (with_tls_heap (delete t (tls_heap s)))
  | None => undef
  end.

Definition free_page (p : Z) : M unit :=
  s <- get ;;
  match page_heap s !! p with
  | Some _ => modify (with_page_heap (delete p (page_heap s)))
  | None => undef
  end.

(** [mmap(0, page_size, pr, MAP_ANON | MAP_PRIVATE, 0, 0)]: a zero-filled
    page; [None] is [MAP_FAILED]. *)
Definition mmap (pr : prot) : M (option Z) :=
  ok <- os_grant ;;
  if ok : bool then
    s <- get ;;
    let a := fresh_base (page_size s) (mem s) in
    modify (with_mem (<[a := mkMapping pr (replicate (Z.to_nat (page_size s)) x00)]> (mem s))) ;;;
    ret (Some a)
  else ret None.

(** [munmap(a, page_size)]; the source ignores the result. *)
Definition munmap (a : Z) : M unit :=
  s <- get ;; modify (with_mem (delete a (mem s))).

(** [mprotect(a, page_size, pr)]: 0, or -1 when nothing is mapped at [a]. *)
Definition mprotect (a : Z) (pr : prot) : M Z :=
  s <- get ;;
  match mem s !! a with
  | Some m => modify (with_mem (<[a := mkMapping pr (m_bytes m)]> (mem s))) ;;; ret 0
  | None => ret (-1)
  end.

Definition readable (pr : prot) : bool :=
  match pr with PROT_READ_WRITE => true | _ => false end.
Definition writable (pr : prot) : bool :=
  match pr with PROT_NONE => false | _ => true end.

(** [*((char* )a + off)] as an rvalue. *)
Definition load (a off : Z) : M byte :=
  s <- get ;;
  match mem s !! a with
  | Some m =>
      if readable (m_prot m) then
        match m_bytes m !! Z.to_nat off with
        | Some b => ret b
        | None => trap (a + off)
        end
      else trap (a + off)
  | None => trap (a + off)
  end.

(** [*((char* )a + off) = b] *)
Definition store (a off : Z) (b : byte) : M unit :=
  s <- get ;;
  match mem s !! a with
  | Some m =>
      if writable (m_prot m) && bool_decide (Z.to_nat off < length (m_bytes m))%nat then
        modify (with_mem (<[a := mkMapping (m_prot m) (<[Z.to_nat off := b]> (m_bytes m))]> (mem s)))
      else trap (a + off)
  | None => trap (a + off)
  end.

(** [memcpy(dst, src, page_size)] between two page mappings. *)
Definition memcpy_page (dst src : Z) : M unit :=
  s <- get ;;
  match mem s !! src, mem s !! dst with
  | Some ms, Some md =>
      if readable (m_prot ms) then
        if writable (m_prot md) then
          modify (with_mem (<[dst := mkMapping (m_prot md) (m_bytes ms)]> (mem s)))
        else trap dst
      else trap src
  | None, _ => trap src
  | _, None => trap dst
  end.

(** Dereferences of heap pointers. *)
Definition deref_TLS (t : Z) : M TLS :=
  s <- get ;; match tls_heap s !! t with Some d => ret d | None => undef end.

Definition deref_page (p : Z) : M page :=
  s <- get ;; match page_heap s !! p with Some pg => ret pg | None => undef end.

(** [tls->pages[i]] *)
Definition tls_page (t : Z) (i : Z) : M Z :=
  d <- deref_TLS t ;;
  match pages d !! Z.to_nat i with Some p => ret p | None => undef end.

(** [tls->pages[i] = p] *)
Definition set_tls_page (t : Z) (i : Z) (p : Z) : M unit :=
  d <- deref_TLS t ;;
  if bool_decide (Z.to_nat i < length (pages d))%nat then
    s <- get ;;
    modify (with_tls_heap
      (<[t := mkTLS (tid d) (size d) (page_num d) (<[Z.to_nat i := p]> (pages d))]>
         (tls_heap s)))
  else undef.

(** [p->address = a], [p->ref_count = c] *)
Definition set_page (p : Z) (pg : page) : M unit :=
  s <- get ;;
  match page_heap s !! p with
  | Some _ => modify (with_page_heap (<[p := pg]> (page_heap s)))
  | None => undef
  end.

Definition set_address (p : Z) (a : Z) : M unit :=
  pg <- deref_page p ;; set_page p (mkPage a (ref_count pg)).

Definition set_ref_count (p : Z) (c : Z) : M unit :=
  pg <- deref_page p ;; set_page p (mkPage (address pg) c).

(** [buffer[cnt]] and [buffer[cnt] = b] on the caller's buffer. *)
Definition buffer_get (buffer : list byte) (cnt : Z) : M byte :=
  match buffer !! Z.to_nat cnt with Some b => ret b | None => undef end.

Definition buffer_set (buffer : list byte) (cnt : Z) (b : byte) : M (list byte) :=
  if bool_decide (Z.to_nat cnt < length buffer)%nat
  then ret (<[Z.to_nat cnt := b]> buffer) else undef.

(** ** The registry scans *)

(** [while (elem != NULL) { if (pthread_equal(elem->tid, t)) ...; elem = elem->next; }] *)
Fixpoint chain_find (t : Z) (chain : list hash_element) : option hash_element :=
  match chain with
  | [] => None
  | e :: next => if elem_tid e =? t then Some e else chain_find t next
  end.

(** [for (i = 0; i < HASH_SIZE; i++)] around [chain_find], leaving both
    loops at the first hit. *)
Fixpoint table_find (t : Z) (ht : list (list hash_element)) : option hash_element :=
  match ht with
  | [] => None
  | chain :: rest =>
      match chain_find t chain with
      | Some e => Some e
      | None => table_find t rest
      end
  end.

(** The unlinking loop of [tls_destroy] on one chain: the first element of
    the caller is taken out. *)
Fixpoint chain_remove (t : Z) (chain : list hash_element) : list hash_element :=
  match chain with
  | [] => []
  | e :: next => if elem_tid e =? t then next else e :: chain_remove t next
  end.

(** The scan of [tls_clone] on one chain: [acc] is
    [(current_tls, target_tls)]; the walk leaves the chain at the caller's
    element and records every element of the target on the way. *)
Fixpoint clone_scan_chain (cur tgt : Z) (chain : list hash_element)
    (acc : option Z * option Z) : option Z * option Z :=
  match chain with
  | [] => acc
  | e :: next =>
      if elem_tid e =? cur then (Some (elem_tls e), acc.2)
      else clone_scan_chain cur tgt next
             (if elem_tid e =? tgt then (acc.1, Some (elem_tls e)) else acc)
  end.

Definition clone_scan (cur tgt : Z) (ht : list (list hash_element)) : option Z * option Z :=
  foldl (λ acc chain, clone_scan_chain cur tgt chain acc) (None, None) ht.

(** Every element of the table, bucket by bucket. *)
Definition all_elems (s : tls_state) : list hash_element := concat (hash_table s).

(** ** The program *)

Inductive fault_result :=
| ThreadExit              (* [pthread_exit(NULL)]: only the caller ends *)
| Raised (sig : signal).  (* default disposition restored, signal re-raised *)

Section TLS.

(** What [getpagesize()] answers on this machine. *)
Variable getpagesize : Z.

Definition hash_table_insert (t : Z) (tls : Z) : M unit :=
  let hash_index := t mod HASH_SIZE in
  ok <- os_grant ;;
  if ok : bool then
    s <- get ;;
    match hash_table s !! Z.to_nat hash_index with
    | Some chain =>
        modify (with_hash_table
                  (<[Z.to_nat hash_index := mkElem t tls :: chain]> (hash_table s)))
    | None => undef
    end
  else exit 1.

Definition tls_init : M unit :=
  modify (λ s, mkState (hash_table s) 1 getpagesize
                       SA_tls_handle_page_fault SA_tls_handle_page_fault
                       (tls_heap s) (page_heap s) (mem s) (oracle s)).

(** [for (j = 0; j < tls->page_num; j++)] of the handler; [true] when
    [pthread_exit] is reached. *)
Fixpoint fault_scan_pages (self : Z) (e : hash_element) (p_fault : Z)
    (j : Z) (n : nat) : M bool :=
  match n with
  | O => ret false
  | S n' =>
      p <- tls_page (elem_tls e) j ;;
      pg <- deref_page p ;;
      if (address pg =? p_fault) && (self =? elem_tid e) then ret true
      else fault_scan_pages self e p_fault (j + 1) n'
  end.

Fixpoint fault_scan_chain (self : Z) (p_fault : Z) (chain : list hash_element) : M bool :=
  match chain with
  | [] => ret false
  | e :: next =>
      d <- deref_TLS (elem_tls e) ;;
      hit <- fault_scan_pages self e p_fault 0 (Z.to_nat (page_num d)) ;;
      if hit : bool then ret true else fault_scan_chain self p_fault next
  end.

Fixpoint fault_scan_table (self : Z) (p_fault : Z) (ht : list (list hash_element)) : M bool :=
  match ht with
  | [] => ret false
  | chain :: rest =>
      hit <- fault_scan_chain self p_fault chain ;;
      if hit : bool then ret true else fault_scan_table self p_fault rest
  end.

Definition tls_handle_page_fault (self : Z) (sig : signal) (si_addr : Z) : M fault_result :=
  s <- get ;;
  let p_fault := Z.land si_addr (Z.lnot (page_size s - 1)) in
  hit <- fault_scan_table self p_fault (hash_table s) ;;
  if hit : bool then ret ThreadExit
  else
    modify (λ s, mkState (hash_table s) (initialized s) (page_size s) SIG_DFL SIG_DFL
                         (tls_heap s) (page_heap s) (mem s) (oracle s)) ;;;
    ret (Raised sig).

(** The unwinding loop of [tls_create]:
    [for (j = 0; j < i; j++) { munmap(tls->pages[j]->address); free(tls->pages[j]); }] *)
Definition create_unwind (t : Z) (i : Z) : M unit :=
  for_range (λ j, p <- tls_page t j ;; pg <- deref_page p ;;
                  munmap (address pg) ;;; free_page p) 0 (Z.to_nat i).

(** The allocation loop of [tls_create] from index [i], [n] rounds to go;
    [false] when the function has unwound and returns -1. *)
Fixpoint create_pages (t : Z) (i : Z) (n : nat) : M bool :=
  match n with
  | O => ret true
  | S n' =>
      op <- alloc_page ;;
      match op with
      | None => create_unwind t i ;;; free_TLS t ;;; ret false
      | Some p =>
          oa <- mmap PROT_NONE ;;
          match oa with
          | None => free_page p ;;; create_unwind t i ;;; free_TLS t ;;; ret false
          | Some a =>
              set_address p a ;;;
              set_ref_count p 1 ;;;
              set_tls_page t i p ;;;
              create_pages t (i + 1) n'
          end
      end
  end.

Definition tls_create (self : Z) (sz : Z) : M Z :=
  s0 <- get ;;
  (if initialized s0 =? 0 then tls_init else ret tt) ;;;
  s <- get ;;
  match table_find self (hash_table s) with
  | Some _ => ret (-1)
  | None =>
      if sz <=? 0 then ret (-1)
      else
        ot <- calloc_TLS ;;
        match ot with
        | None => ret (-1)
        | Some t =>
            let n := u32 (sz + page_size s - 1) / page_size s in
            modify (λ s, with_tls_heap (<[t := mkTLS self sz n []]> (tls_heap s)) s) ;;;
            ok <- calloc_pages t n ;;
            if ok : bool then
              built <- create_pages t 0 (Z.to_nat n) ;;
              if built : bool then hash_table_insert self t ;;; ret 0
              else ret (-1)
            else free_TLS t ;;; ret (-1)
        end
  end.

(** One round of the clean-up loop of [tls_destroy]. *)
Definition destroy_page (t : Z) (i : Z) : M unit :=
  p <- tls_page t i ;;
  pg <- deref_page p ;;
  if ref_count pg =? 1 then munmap (address pg) ;;; free_page p
  else set_ref_count p (ref_count pg - 1).

Definition tls_destroy (self : Z) : M Z :=
  s <- get ;;
  match table_find self (hash_table s) with
  | None => ret (-1)
  | Some e =>
      let t := elem_tls e in
      d <- deref_TLS t ;;
      for_range (destroy_page t) 0 (Z.to_nat (page_num d)) ;;;
      modify (λ s, with_hash_table (chain_remove self <$> hash_table s) s) ;;;
      free_TLS t ;;;
      ret 0
  end.

Definition tls_protect (p : Z) : M unit :=
  pg <- deref_page p ;;
  r <- mprotect (address pg) PROT_NONE ;;
  if r =? 0 then ret tt else exit 1.

Definition tls_unprotect (p : Z) : M unit :=
  pg <- deref_page p ;;
  r <- mprotect (address pg) PROT_READ_WRITE ;;
  if r =? 0 then ret tt else exit 1.

(** [for (i = 0; i < tls->page_num; i++) tls_unprotect(tls->pages[i]);] *)
Definition unprotect_all (t : Z) (n : Z) : M unit :=
  for_range (λ i, p <- tls_page t i ;; tls_unprotect p) 0 (Z.to_nat n).

Definition protect_all (t : Z) (n : Z) : M unit :=
  for_range (λ i, p <- tls_page t i ;; tls_protect p) 0 (Z.to_nat n).

(** The copy loop of [tls_read]: [n] rounds from [(cnt, idx)]. *)
Fixpoint read_bytes (t : Z) (n : nat) (cnt idx : Z) (buffer : list byte) : M (list byte) :=
  match n with
  | O => ret buffer
  | S n' =>
      s <- get ;;
      let pn := idx / page_size s in
      let poff := idx mod page_size s in
      p <- tls_page t pn ;;
      pg <- deref_page p ;;
      b <- load (address pg) poff ;;
      buffer' <- buffer_set buffer cnt b ;;
      read_bytes t n' (cnt + 1) (idx + 1) buffer'
  end.

Definition tls_read (self : Z) (offset len : Z) (buffer : list byte) : M (Z * list byte) :=
  s <- get ;;
  match table_find self (hash_table s) with
  | None => ret (-1, buffer)
  | Some e =>
      let t := elem_tls e in
      d <- deref_TLS t ;;
      if u32 (offset + len) >? size d then ret (-1, buffer)
      else
        unprotect_all t (page_num d) ;;;
        out <- read_bytes t (Z.to_nat (u32 (offset + len) - offset)) 0 offset buffer ;;
        protect_all t (page_num d) ;;;
        ret (0, out)
  end.

(** The copy-on-write step of [tls_write] on slot [pn] holding page [p];
    [false] when an allocation failed and the function returns -1. *)
Definition cow_split (t : Z) (pn : Z) (p : Z) : M bool :=
  ocopy <- alloc_page ;;
  match ocopy with
  | None => ret false
  | Some copy =>
      onew <- mmap PROT_WRITE ;;
      match onew with
      | None => free_page copy ;;; ret false
      | Some new_page =>
          pg <- deref_page p ;;
          memcpy_page new_page (address pg) ;;;
          set_address copy new_page ;;;
          set_ref_count copy 1 ;;;
          set_tls_page t pn copy ;;;
          set_ref_count p (ref_count pg - 1) ;;;
          tls_protect p ;;;
          ret true
      end
  end.

(** [if (idx % page_size == 0 || idx == offset) { ... }] of the write loop:
    the copy-on-write condition, looked at once per page. *)
Definition cow_check (t : Z) (offset idx : Z) : M bool :=
  s <- get ;;
  if (idx mod page_size s =? 0) || (idx =? offset) then
    p <- tls_page t (idx / page_size s) ;;
    pg <- deref_page p ;;
    if ref_count pg >? 1 then cow_split t (idx / page_size s) p else ret true
  else ret true.

(** The write loop of [tls_write]: [n] rounds from [(cnt, idx)]; [false]
    when the function returns -1 from inside the loop. *)
Fixpoint write_bytes (t : Z) (offset : Z) (buffer : list byte)
    (n : nat) (cnt idx : Z) : M bool :=
  match n with
  | O => ret true
  | S n' =>
      s <- get ;;
      let pn := idx / page_size s in
      let poff := idx mod page_size s in
      ok <- cow_check t offset idx ;;
      if ok : bool then
        p <- tls_page t pn ;;
        pg <- deref_page p ;;
        b <- buffer_get buffer cnt ;;
        store (address pg) poff b ;;;
        write_bytes t offset buffer n' (cnt + 1) (idx + 1)
      else ret false
  end.

Definition tls_write (self : Z) (offset len : Z) (buffer : list byte) : M Z :=
  s <- get ;;
  match table_find self (hash_table s) with
  | None => ret (-1)
  | Some e =>
      let t := elem_tls e in
      d <- deref_TLS t ;;
      if u32 (offset + len) >? size d then ret (-1)
      else
        unprotect_all t (page_num d) ;;;
        ok <- write_bytes t offset buffer (Z.to_nat (u32 (offset + len) - offset)) 0 offset ;;
        if ok : bool then protect_all t (page_num d) ;;; ret 0
        else ret (-1)
  end.

(** One round of the sharing loop of [tls_clone]. *)
Definition clone_page (new_tls target_tls : Z) (i : Z) : M unit :=
  p <- tls_page target_tls i ;;
  set_tls_page new_tls i p ;;;
  q <- tls_page new_tls i ;;
  pg <- deref_page q ;;
  set_ref_count q (ref_count pg + 1).

Definition tls_clone (self : Z) (target : Z) : M Z :=
  s <- get ;;
  match clone_scan self target (hash_table s) with
  | (Some _, _) => ret (-1)
  | (None, None) => ret (-1)
  | (None, Some target_tls) =>
      onew <- calloc_TLS ;;
      match onew with
      | None => ret (-1)
      | Some new_tls =>
          d <- deref_TLS target_tls ;;
          modify (λ s, with_tls_heap
                         (<[new_tls := mkTLS self (size d) (page_num d) []]> (tls_heap s)) s) ;;;
          ok <- calloc_pages new_tls (page_num d) ;;
          if ok : bool then
            for_range (clone_page new_tls target_tls) 0 (Z.to_nat (page_num d)) ;;;
            hash_table_insert self new_tls ;;;
            ret 0
          else free_TLS new_tls ;;; ret (-1)
      end
  end.

End TLS.

(** ** Specification vocabulary *)

(** The number of descriptors whose page array references page object [p]. *)
Definition holders (h : gmap Z TLS) (p : Z) : nat :=
  length (filter (λ x : Z * TLS, p ∈ pages x.2) (map_to_list h)).

Definition indic (p : Z) (d : TLS) : nat :=
  if decide (p ∈ pages d) then 1%nat else 0%nat.

(** The descriptor registered for a thread. *)
Definition lsa_of (s : tls_state) (self : Z) : option Z :=
  elem_tls <$> table_find self (hash_table s).

(** Byte [i] of the storage area of descriptor [t], through the page array. *)
Definition lsa_byte (s : tls_state) (t : Z) (i : Z) : option byte :=
  d ← tls_heap s !! t;
  p ← pages d !! Z.to_nat (i / page_size s);
  pg ← page_heap s !! p;
  m ← mem s !! address pg;
  m_bytes m !! Z.to_nat (i mod page_size s).

(** The protection of page object [p]. *)
Definition page_prot (s : tls_state) (p : Z) : option prot :=
  pg ← page_heap s !! p;
  m ← mem s !! address pg;
  Some (m_prot m).

(** The state [tls_init] produces. *)
Definition init_state (gp : Z) (s : tls_state) : tls_state :=
  mkState (hash_table s) 1 gp SA_tls_handle_page_fault SA_tls_handle_page_fault
          (tls_heap s) (page_heap s) (mem s) (oracle s).

(** The state the handler leaves when it re-raises the signal. *)
Definition default_actions (s : tls_state) : tls_state :=
  mkState (hash_table s) (initialized s) (page_size s) SIG_DFL SIG_DFL
          (tls_heap s) (page_heap s) (mem s) (oracle s).

(** The faulting page belongs to a descriptor registered for thread [self]. *)
Definition own_page_at (s : tls_state) (self : Z) (a : Z) : Prop :=
  ∃ e d p pg, e ∈ all_elems s ∧ elem_tid e = self ∧
    tls_heap s !! elem_tls e = Some d ∧ p ∈ pages d ∧
    page_heap s !! p = Some pg ∧ address pg = a.

(** The faulting page belongs to some registered descriptor. *)
Definition lsa_page_at (s : tls_state) (a : Z) : Prop :=
  ∃ e d p pg, e ∈ all_elems s ∧
    tls_heap s !! elem_tls e = Some d ∧ p ∈ pages d ∧
    page_heap s !! p = Some pg ∧ address pg = a.

(** The state invariant kept between API calls. *)
Record wf (gp : Z) (s : tls_state) : Prop := mkWf {
  wf_buckets : length (hash_table s) = Z.to_nat HASH_SIZE;
  wf_tids : NoDup (elem_tid <$> all_elems s);
  wf_elem : ∀ e, e ∈ all_elems s →
      ∃ d, tls_heap s !! elem_tls e = Some d ∧ tid d = elem_tid e;
  wf_registered : ∀ t d, tls_heap s !! t = Some d → mkElem (tid d) t ∈ all_elems s;
  wf_desc : ∀ t d, tls_heap s !! t = Some d →
      page_num d = Z.of_nat (length (pages d)) ∧ NoDup (pages d) ∧
      ∀ p, p ∈ pages d → is_Some (page_heap s !! p);
  wf_count : ∀ p pg, page_heap s !! p = Some pg →
      ref_count pg = Z.of_nat (holders (tls_heap s) p) ∧ 1 ≤ ref_count pg;
  wf_mapped : ∀ p pg, page_heap s !! p = Some pg →
      ∃ m, mem s !! address pg = Some m ∧ length (m_bytes m) = Z.to_nat (page_size s);
  wf_addr : ∀ p q pg qg, page_heap s !! p = Some pg → page_heap s !! q = Some qg →
      address pg = address qg → p = q;
  wf_init : (initialized s = 0 ∧ tls_heap s = ∅) ∨ (initialized s ≠ 0 ∧ page_size s = gp)
}.

(** States a process can be in between API calls: any thread may call any
    operation with arguments of its C type, and the operating system may
    answer allocation requests as it likes. *)
Inductive reachable (gp : Z) : tls_state → Prop :=
| reach_start o : reachable gp (initial_state o)
| reach_os s o : reachable gp s → reachable gp (with_oracle o s)
| reach_create s self sz r s' :
    reachable gp s → 0 ≤ sz < 2 ^ 32 →
    tls_create gp self sz s = Ret r s' → reachable gp s'
| reach_destroy s self r s' :
    reachable gp s → tls_destroy self s = Ret r s' → reachable gp s'
| reach_read s self offset len buffer r s' :
    reachable gp s → 0 ≤ offset < 2 ^ 32 → 0 ≤ len < 2 ^ 32 →
    tls_read self offset len buffer s = Ret r s' → reachable gp s'
| reach_write s self offset len buffer r s' :
    reachable gp s → 0 ≤ offset < 2 ^ 32 → 0 ≤ len < 2 ^ 32 →
    tls_write self offset len buffer s = Ret r s' → reachable gp s'
| reach_clone s self target r s' :
    reachable gp s → tls_clone self target s = Ret r s' → reachable gp s'.

(** During [tls_read] and [tls_write] every page of the descriptor is open:
    read+write, or write-only for a private copy made by the running call. *)
Definition page_open (s : tls_state) (p : Z) : Prop :=
  ∃ pg m, page_heap s !! p = Some pg ∧ mem s !! address pg = Some m ∧
    (m_prot m = PROT_READ_WRITE ∨ (m_prot m = PROT_WRITE ∧ ref_count pg = 1)).

(** Closed forms of the protection loops. *)
Definition set_prot (pr : prot) (m : mapping) : mapping := mkMapping pr (m_bytes m).

Definition page_addr (ph : gmap Z page) (p : Z) : Z :=
  default 0 (address <$> ph !! p).

Definition protect_list (pr : prot) (addrs : list Z) (m : gmap Z mapping) : gmap Z mapping :=
  foldl (λ m a, alter (set_prot pr) a m) m addrs.

(** [tls_protect] and [tls_unprotect] differ in the protection only. *)
Definition tls_setprot (pr : prot) (p : Z) : M unit :=
  pg <- deref_page p ;;
  r <- mprotect (address pg) pr ;;
  if r =? 0 then ret tt else exit 1.

(** ** Scenario states *)

(** The state an operation leaves (the state itself when it does not return). *)
Definition exec {A} (m : M A) (s : tls_state) : tls_state :=
  match m s with Ret _ s' => s' | _ => s end.

(** Thread 1 creates an 8192-byte area on a machine with 4096-byte pages. *)
Definition st_created : tls_state := exec (tls_create 4096 1 8192) (initial_state []).

(** ... and writes "hello" at offset 0. *)
Definition hello : list byte := [x68; x65; x6c; x6c; x6f].
Definition st_written : tls_state := exec (tls_write 1 0 5 hello) st_created.

(** ... and thread 2 clones it. *)
Definition st_cloned : tls_state := exec (tls_clone 2 1) st_written.

(** The operating system will grant two allocations and refuse the third. *)
Definition st_cloned_low_memory : tls_state := with_oracle [true; true; false] st_cloned.

(** Thread 2 then writes across the page boundary and runs out of memory at
    the second page. *)
Definition st_cow_failed : tls_state :=
  exec (tls_write 2 4095 2 [x41; x42]) st_cloned_low_memory.

(** ** Statements of the specification as worded, for the counterexamples *)

(** A fault on a page of any registered descriptor ends the faulting thread only. *)
Definition kills_thread_on_any_lsa_page (s : tls_state) (self : Z) (sig : signal) (si_addr : Z) : Prop :=
  lsa_page_at s (Z.land si_addr (Z.lnot (page_size s - 1))) →
  ∃ s', tls_handle_page_fault self sig si_addr s = Ret ThreadExit s'.

(** An operation that is the first API call of the process leaves the
    process initialised. *)
Definition first_call_initializes {A} (gp : Z) (op : M A) : Prop :=
  ∀ o, ∃ r s', op (initial_state o) = Ret r s' ∧
    initialized s' = 1 ∧ page_size s' = gp ∧
    sigbus_action s' = SA_tls_handle_page_fault ∧
    sigsegv_action s' = SA_tls_handle_page_fault.

(** Every page of descriptor [t] is mapped read+write. *)
Definition all_pages_read_write (s : tls_state) (t : Z) : Prop :=
  ∀ d p, tls_heap s !! t = Some d → p ∈ pages d → page_prot s p = Some PROT_READ_WRITE.

(** A write inside the area that returns -1 leaves every page of the
    caller's descriptor read+write. *)
Definition failed_write_leaves_read_write (s : tls_state) (self offset len : Z)
    (buffer : list byte) : Prop :=
  ∀ e d s', table_find self (hash_table s) = Some e →
    tls_heap s !! elem_tls e = Some d → u32 (offset + len) ≤ size d →
    tls_write self offset len buffer s = Ret (-1) s' →
    all_pages_read_write s' (elem_tls e).

(** Two memories hold the same bytes at the same addresses (protections may differ). *)
Definition same_bytes (m m' : gmap Z mapping) : Prop :=
  ∀ a, m_bytes <$> m' !! a = m_bytes <$> m !! a.

(** The bytes of the mapping behind a page object. *)
Definition page_bytes (s : tls_state) (p : Z) : option (list byte) :=
  pg ← page_heap s !! p;
  m ← mem s !! address pg;
  Some (m_bytes m).

(** Every page of descriptor [t] is mapped read+write with a full page of bytes. *)
Definition pages_readable (s : tls_state) (t : Z) : Prop :=
  ∀ d p, tls_heap s !! t = Some d → p ∈ pages d →
    ∃ pg m, page_heap s !! p = Some pg ∧ mem s !! address pg = Some m ∧
      m_prot m = PROT_READ_WRITE ∧ length (m_bytes m) = Z.to_nat (page_size s).

(** The [n] bytes from [idx] on lie inside the page array, and the caller's
    buffer has room for them from [cnt] on. *)
Definition range_ok (npages : nat) (ps : Z) (buflen : nat) (n : nat) (cnt idx : Z) : Prop :=
  ∀ k, (k < n)%nat →
    (Z.to_nat cnt + k < buflen)%nat ∧
    (Z.to_nat ((idx + Z.of_nat k) / ps) < npages)%nat.

(** The state a completed [tls_read] leaves: the pages of the descriptor
    unprotected, then protected again. *)
Definition read_final (s : tls_state) (d : TLS) : tls_state :=
  with_mem (protect_list PROT_NONE (page_addr (page_heap s) <$> pages d)
             (protect_list PROT_READ_WRITE (page_addr (page_heap s) <$> pages d) (mem s))) s.

(** Every page of descriptor [t] is open. *)
Definition pages_open (s : tls_state) (t : Z) : Prop :=
  ∀ d p, tls_heap s !! t = Some d → p ∈ pages d → page_open s p.

(** Inside a page the write loop relies on the check made when the page was
    entered: the page under [idx] is not shared. *)
Definition cur_exclusive (s : tls_state) (t : Z) (offset idx : Z) : Prop :=
  idx mod page_size s ≠ 0 → idx ≠ offset →
  ∀ d p pg, tls_heap s !! t = Some d →
    pages d !! Z.to_nat (idx / page_size s) = Some p →
    page_heap s !! p = Some pg → ref_count pg ≤ 1.

(** What a write by descriptor [t] may change: nothing outside [t]'s own
    page array, pages and bytes. *)
Record write_rel (t : Z) (s s' : tls_state) : Prop := mkWriteRel {
  wr_table : hash_table s' = hash_table s;
  wr_init : initialized s' = initialized s;
  wr_ps : page_size s' = page_size s;
  wr_sigbus : sigbus_action s' = sigbus_action s;
  wr_sigsegv : sigsegv_action s' = sigsegv_action s;
  wr_desc : ∀ d, tls_heap s !! t = Some d →
      ∃ d', tls_heap s' !! t = Some d' ∧ tid d' = tid d ∧ size d' = size d ∧
            page_num d' = page_num d ∧ length (pages d') = length (pages d);
  wr_others : ∀ t2, t2 ≠ t → tls_heap s' !! t2 = tls_heap s !! t2;
  wr_frame : ∀ t2 i, t2 ≠ t → lsa_byte s' t2 i = lsa_byte s t2 i
}.

(** The state after a copy-on-write split of page [p] in slot [pn] of
    descriptor [t]. *)
Definition cow_state (s : tls_state) (t : Z) (d : TLS) (pn : Z) (p : Z) (pg : page)
    (m : mapping) : tls_state :=
  let c := fresh_key (page_heap s) in
  let a := fresh_base (page_size s) (mem s) in
  mkState (hash_table s) (initialized s) (page_size s) (sigbus_action s) (sigsegv_action s)
    (<[t := mkTLS (tid d) (size d) (page_num d) (<[Z.to_nat pn := c]> (pages d))]> (tls_heap s))
    (<[p := mkPage (address pg) (ref_count pg - 1)]> (<[c := mkPage a 1]> (page_heap s)))
    (alter (set_prot PROT_NONE) (address pg) (<[a := mkMapping PROT_WRITE (m_bytes m)]> (mem s)))
    (tl (tl (oracle s))).

(** Closed form of the clean-up loop of [tls_destroy] on the page objects
    and the mappings. *)
Definition release_page (st : gmap Z page * gmap Z mapping) (p : Z) :
    gmap Z page * gmap Z mapping :=
  match st.1 !! p with
  | Some pg =>
      if ref_count pg =? 1 then (delete p st.1, delete (address pg) st.2)
      else (<[p := mkPage (address pg) (ref_count pg - 1)]> st.1, st.2)
  | None => st
  end.

Definition release_pages (l : list Z) (st : gmap Z page * gmap Z mapping) :
    gmap Z page * gmap Z mapping :=
  foldl release_page st l.

(** The state a successful [tls_destroy] leaves. *)
Definition destroy_state (s : tls_state) (self : Z) (t : Z) (d : TLS) : tls_state :=
  mkState (chain_remove self <$> hash_table s) (initialized s) (page_size s)
          (sigbus_action s) (sigsegv_action s)
          (delete t (tls_heap s))
          (release_pages (pages d) (page_heap s, mem s)).1
          (release_pages (pages d) (page_heap s, mem s)).2
          (oracle s).

(** What the clean-up loop leaves of a page object. *)
Definition released (pg : page) : option page :=
  if ref_count pg =? 1 then None else Some (mkPage (address pg) (ref_count pg - 1)).

(** Closed form of the sharing loop of [tls_clone] on the page objects. *)
Definition share_page (ph : gmap Z page) (p : Z) : gmap Z page :=
  match ph !! p with
  | Some pg => <[p := mkPage (address pg) (ref_count pg + 1)]> ph
  | None => ph
  end.

Definition share_pages (l : list Z) (ph : gmap Z page) : gmap Z page :=
  foldl share_page ph l.

Definition shared (pg : page) : page := mkPage (address pg) (ref_count pg + 1).

(** The state a successful [tls_clone] of descriptor [dt] leaves. *)
Definition clone_state (s : tls_state) (self : Z) (dt : TLS) : tls_state :=
  let t := fresh_key (tls_heap s) in
  let b := Z.to_nat (self mod HASH_SIZE) in
  mkState (<[b := mkElem self t :: default [] (hash_table s !! b)]> (hash_table s))
          (initialized s) (page_size s) (sigbus_action s) (sigsegv_action s)
          (<[t := mkTLS self (size dt) (page_num dt) (pages dt)]> (tls_heap s))
          (share_pages (pages dt) (page_heap s)) (mem s)
          (tl (tl (tl (oracle s)))).

(** Closed form of the unwinding loop of [tls_create]. *)
Definition delete_list {V} (ks : list Z) (m : gmap Z V) : gmap Z V :=
  foldl (λ m k, delete k m) m ks.

(** A fresh, fully protected, zero-filled page. *)
Definition fresh_mapping (ps : Z) : mapping :=
  mkMapping PROT_NONE (replicate (Z.to_nat ps) x00).

(** The state while [tls_create] builds descriptor [t]: [cl] lists the page
    objects created so far with the addresses of their mappings, [rest]
    slots of the array are still NULL, and [ph0], [mem0] are the page
    objects and the mappings from before the loop. *)
Record building (ph0 : gmap Z page) (mem0 : gmap Z mapping) (t : Z) (dsc : TLS)
    (cl : list (Z * Z)) (rest : nat) (s : tls_state) : Prop := mkBuilding {
  bd_desc : tls_heap s !! t =
            Some (mkTLS (tid dsc) (size dsc) (page_num dsc) (cl.*1 ++ replicate rest NULL));
  bd_new : ∀ p a, (p, a) ∈ cl →
      page_heap s !! p = Some (mkPage a 1) ∧
      mem s !! a = Some (fresh_mapping (page_size s)) ∧
      ph0 !! p = None ∧ mem0 !! a = None;
  bd_old_pages : ∀ q, q ∉ cl.*1 → page_heap s !! q = ph0 !! q;
  bd_old_mem : ∀ b, b ∉ cl.*2 → mem s !! b = mem0 !! b;
  bd_nodup1 : NoDup cl.*1;
  bd_nodup2 : NoDup cl.*2
}.

(** The process-wide variables and the registry are the same in two states. *)
Definition same_globals (s s' : tls_state) : Prop :=
  hash_table s' = hash_table s ∧ initialized s' = initialized s ∧
  page_size s' = page_size s ∧ sigbus_action s' = sigbus_action s ∧
  sigsegv_action s' = sigsegv_action s.

(** The state after the lazy initialisation at the head of [tls_create]. *)
Definition ensure_init (gp : Z) (s : tls_state) : tls_state :=
  if initialized s =? 0 then init_state gp s else s.

(** The number of pages [tls_create] computes for a size, in [unsigned int]
    arithmetic. *)
Definition create_page_num (ps : Z) (sz : Z) : Z := u32 (sz + ps - 1) / ps.

(** The state of [tls_create] when its allocation loop starts. *)
Definition create_start (s : tls_state) (self : Z) (sz : Z) : tls_state :=
  let t := fresh_key (tls_heap s) in
  let n := create_page_num (page_size s) sz in
  mkState (hash_table s) (initialized s) (page_size s) (sigbus_action s) (sigsegv_action s)
          (<[t := mkTLS self sz n (replicate (Z.to_nat n) NULL)]> (tls_heap s))
          (page_heap s) (mem s) (tl (tl (oracle s))).

(** The state a successful [tls_create] leaves, from the state [s3] its
    allocation loop left. *)
Definition create_final (self : Z) (t : Z) (s3 : tls_state) : tls_state :=
  with_hash_table
    (<[Z.to_nat (self mod HASH_SIZE) :=
         mkElem self t :: default [] (hash_table s3 !! Z.to_nat (self mod HASH_SIZE))]>
       (hash_table s3))
    (with_oracle (tl (oracle s3)) s3).

(** What a call hands back to its caller (nothing when it does not return). *)
Definition result_of {A} (o : outcome A) : option A :=
  match o with Ret a _ => Some a | _ => None end.

(** Thread 2 overwrites the first byte of its clone with "X". *)
Definition st_diverged : tls_state := exec (tls_write 2 0 1 [x58]) st_cloned.

(** Thread 1 asks for an area of 4294967295 bytes as the first call of the
    process, with pages of 4096 bytes. *)
Definition st_pageless : tls_state :=
  exec (tls_create 4096 1 4294967295) (initial_state []).

(** ** Properties kept by every step *)

(** An operation keeps a property of the state whenever it returns. *)
Definition preserves {A} (Q : tls_state → Prop) (m : M A) : Prop :=
  ∀ s a s', Q s → m s = Ret a s' → Q s'.

(** Every mapping starts at a multiple of the page size [gp] of the
    machine; the [page_size] variable holds [gp] once it is set. *)
Definition aligned (gp : Z) (s : tls_state) : Prop :=
  (page_size s = gp ∨ page_size s = 0) ∧
  ∀ a, is_Some (mem s !! a) → ∃ k, a = gp * k.

(** Address [x] lies in a page of the area registered for thread [self]. *)
Definition in_own_page (s : tls_state) (self : Z) (x : Z) : Prop :=
  ∃ e d p pg, e ∈ all_elems s ∧ elem_tid e = self ∧
    tls_heap s !! elem_tls e = Some d ∧ p ∈ pages d ∧
    page_heap s !! p = Some pg ∧ address pg ≤ x < address pg + page_size s.

(** Thread [other] finds in [s'] the area it had in [s]: the same registry
    entry and descriptor, the same bytes, the same answers to its reads. *)
Definition undisturbed (s s' : tls_state) (other : Z) : Prop :=
  ∀ eo, table_find other (hash_table s) = Some eo →
    table_find other (hash_table s') = Some eo ∧
    tls_heap s' !! elem_tls eo = tls_heap s !! elem_tls eo ∧
    (∀ i, lsa_byte s' (elem_tls eo) i = lsa_byte s (elem_tls eo) i) ∧
    ∀ off len buf, 0 ≤ off →
      result_of (tls_read other off len buf s') = result_of (tls_read other off len buf s).

(** Every mapping is the page of a page object: nothing mapped is lost. *)
Definition no_leak (s : tls_state) : Prop :=
  ∀ a, is_Some (mem s !! a) → ∃ p pg, page_heap s !! p = Some pg ∧ address pg = a.

(** Slot [k] of a page array of pages of [ps] bytes holds none of the bytes
    [lo, hi). *)
Definition slot_untouched (ps lo hi : Z) (k : nat) : Prop :=
  ∀ j, lo ≤ j < hi → Z.to_nat (j / ps) ≠ k.

(** Every live descriptor has the size and the page count [tls_create]
    computed for that size. *)
Definition sized (gp : Z) (s : tls_state) : Prop :=
  ∀ t d, tls_heap s !! t = Some d →
    0 < size d < 2 ^ 32 ∧ page_num d = create_page_num gp (size d).

(** * Proofs *)

(** ** The monad *)

Lemma bind_Ret {A B} (m : M A) (k : A → M B) s a s' :
  m s = Ret a s' → bind m k s = k a s'.
Proof. intros H. unfold bind. by rewrite H. Qed.

Lemma bind_assoc_eq {A B C} (m : M A) (k : A → M B) (k' : B → M C) s :
  bind (bind m k) k' s = bind m (λ a, bind (k a) k') s.
Proof. unfold bind. by destruct (m s). Qed.

Lemma bind_inv {A B} (m : M A) (k : A → M B) s b s' :
  bind m k s = Ret b s' → ∃ a s1, m s = Ret a s1 ∧ k a s1 = Ret b s'.
Proof. unfold bind. destruct (m s); try done. eauto. Qed.

Lemma bind_Exit {A B} (m : M A) (k : A → M B) s c : m s = Exit c → bind m k s = Exit c.
Proof. intros H. unfold bind. by rewrite H. Qed.

Lemma bind_modify {B} (f : tls_state → tls_state) (k : unit → M B) s :
  bind (modify f) k s = k tt (f s).
Proof. done. Qed.

Lemma bind_get {B} (k : tls_state → M B) s : bind get k s = k s s.
Proof. done. Qed.

Lemma for_range_S body i n s :
  for_range body i (S n) s = bind (body i) (λ _, for_range body (i + 1) n) s.
Proof. done. Qed.

Lemma for_range_app body i n k s :
  for_range body i (n + k) s =
  bind (for_range body i n) (λ _, for_range body (i + Z.of_nat n) k) s.
Proof.
  revert i s. induction n as [|n IH]; intros i s.
  - change (0 + k)%nat with k. unfold bind, for_range at 2, ret.
    by rewrite Z.add_0_r.
  - change (S n + k)%nat with (S (n + k)). rewrite for_range_S.
    unfold bind at 1 2. rewrite for_range_S. unfold bind at 1.
    destruct (body i s); try done.
    rewrite IH. by replace (i + 1 + Z.of_nat n) with (i + Z.of_nat (S n)) by lia.
Qed.

(** ** Counting holders *)

Lemma holders_empty p : holders ∅ p = 0%nat.
Proof. unfold holders. by rewrite map_to_list_empty. Qed.

Lemma holders_insert_None h t d p :
  h !! t = None → holders (<[t := d]> h) p = (indic p d + holders h p)%nat.
Proof.
  intros Hn. unfold holders, indic.
  rewrite (Permutation_length (filter_Permutation _ _ _ (map_to_list_insert h t d Hn))).
  rewrite filter_cons. simpl. by destruct (decide (p ∈ pages d)).
Qed.

Lemma holders_delete h t d p :
  h !! t = Some d → holders h p = (indic p d + holders (delete t h) p)%nat.
Proof.
  intros Hs. unfold holders, indic.
  rewrite <- (Permutation_length (filter_Permutation _ _ _ (map_to_list_delete h t d Hs))).
  rewrite filter_cons. simpl. by destruct (decide (p ∈ pages d)).
Qed.

Lemma holders_insert_Some h t d d' p :
  h !! t = Some d →
  (holders (<[t := d']> h) p + indic p d = holders h p + indic p d')%nat.
Proof.
  intros Hs. rewrite <- (insert_delete_eq h t d').
  rewrite holders_insert_None by apply lookup_delete_eq.
  rewrite (holders_delete h t d p Hs). lia.
Qed.

Lemma holders_pos h t d p : h !! t = Some d → p ∈ pages d → (1 ≤ holders h p)%nat.
Proof.
  intros Hs Hp. rewrite (holders_delete h t d p Hs). unfold indic.
  rewrite decide_True by done. lia.
Qed.

Lemma holders_zero h p : (∀ t d, h !! t = Some d → p ∉ pages d) → holders h p = 0%nat.
Proof.
  induction h as [|t d h Hn IH] using map_ind; intros Hall.
  - apply holders_empty.
  - rewrite holders_insert_None by done. unfold indic.
    rewrite decide_False by (apply (Hall t); apply lookup_insert_eq).
    rewrite IH; [done|]. intros t' d' Ht'. apply (Hall t').
    rewrite lookup_insert_ne; [done|]. intros ->. congruence.
Qed.

Lemma holders_one_unique h t d t' d' p :
  holders h p = 1%nat → h !! t = Some d → p ∈ pages d →
  h !! t' = Some d' → p ∈ pages d' → t = t'.
Proof.
  intros H1 Ht Hp Ht' Hp'. destruct (decide (t = t')) as [|Hne]; [done|].
  rewrite (holders_delete h t d p Ht) in H1. unfold indic in H1.
  rewrite decide_True in H1 by done.
  assert (delete t h !! t' = Some d') as Hd by (by rewrite lookup_delete_ne).
  pose proof (holders_pos _ _ _ _ Hd Hp'). lia.
Qed.

(** ** Evaluation of the primitives *)

(** One step of symbolic evaluation: resolve the lookup under the match. *)
Ltac mstep :=
  first
    [ rewrite lookup_insert_eq
    | rewrite lookup_delete_eq
    | rewrite list_lookup_insert_eq by lia
    | match goal with
      | H : ?m !! ?k = _ |- context [?m !! ?k] => rewrite H
      | H : ?a ≠ ?b |- context [<[?b := _]> _ !! ?a] =>
          rewrite (lookup_insert_ne _ b a) by (by apply not_eq_sym)
      | H : ?a ≠ ?b |- context [<[?a := _]> _ !! ?b] =>
          rewrite (lookup_insert_ne _ a b) by done
      | H : ?a ≠ ?b |- context [delete ?b _ !! ?a] =>
          rewrite (lookup_delete_ne _ b a) by (by apply not_eq_sym)
      | H : ?a ≠ ?b |- context [delete ?a _ !! ?b] =>
          rewrite (lookup_delete_ne _ a b) by done
      | H : ?x = _ |- context [if ?x then _ else _] => rewrite H
      end ].

Ltac mrun := repeat (simpl; mstep); simpl.

(** Equality of two states, field by field. *)
Lemma state_ext s1 s2 :
  hash_table s1 = hash_table s2 → initialized s1 = initialized s2 →
  page_size s1 = page_size s2 → sigbus_action s1 = sigbus_action s2 →
  sigsegv_action s1 = sigsegv_action s2 → tls_heap s1 = tls_heap s2 →
  page_heap s1 = page_heap s2 → mem s1 = mem s2 → oracle s1 = oracle s2 →
  s1 = s2.
Proof. destruct s1, s2; simpl; intros; by subst. Qed.

Ltac state_eq := apply state_ext; simpl; try reflexivity.

Lemma with_oracle_id s : with_oracle (oracle s) s = s.
Proof. by destruct s. Qed.

Lemma deref_TLS_Ret s t d : tls_heap s !! t = Some d → deref_TLS t s = Ret d s.
Proof. intros H. unfold deref_TLS, bind, get, ret. by rewrite H. Qed.

Lemma deref_page_Ret s p pg : page_heap s !! p = Some pg → deref_page p s = Ret pg s.
Proof. intros H. unfold deref_page, bind, get, ret. by rewrite H. Qed.

Lemma tls_page_Ret s t d i p :
  tls_heap s !! t = Some d → pages d !! Z.to_nat i = Some p → tls_page t i s = Ret p s.
Proof.
  intros H Hp. unfold tls_page. rewrite (bind_Ret _ _ _ _ _ (deref_TLS_Ret _ _ _ H)).
  by rewrite Hp.
Qed.

Lemma set_tls_page_Ret s t d i p :
  tls_heap s !! t = Some d → (Z.to_nat i < length (pages d))%nat →
  set_tls_page t i p s =
  Ret tt (with_tls_heap
            (<[t := mkTLS (tid d) (size d) (page_num d) (<[Z.to_nat i := p]> (pages d))]>
               (tls_heap s)) s).
Proof.
  intros H Hi. unfold set_tls_page. rewrite (bind_Ret _ _ _ _ _ (deref_TLS_Ret _ _ _ H)).
  by rewrite bool_decide_true.
Qed.

Lemma set_page_Ret s p pg pg' :
  page_heap s !! p = Some pg →
  set_page p pg' s = Ret tt (with_page_heap (<[p := pg']> (page_heap s)) s).
Proof. intros H. unfold set_page, bind, get, modify. by rewrite H. Qed.

Lemma set_ref_count_Ret s p pg c :
  page_heap s !! p = Some pg →
  set_ref_count p c s = Ret tt (with_page_heap (<[p := mkPage (address pg) c]> (page_heap s)) s).
Proof.
  intros H. unfold set_ref_count. rewrite (bind_Ret _ _ _ _ _ (deref_page_Ret _ _ _ H)).
  by apply set_page_Ret with pg.
Qed.

Lemma set_address_Ret s p pg a :
  page_heap s !! p = Some pg →
  set_address p a s = Ret tt (with_page_heap (<[p := mkPage a (ref_count pg)]> (page_heap s)) s).
Proof.
  intros H. unfold set_address. rewrite (bind_Ret _ _ _ _ _ (deref_page_Ret _ _ _ H)).
  by apply set_page_Ret with pg.
Qed.

Lemma free_page_Ret s p pg :
  page_heap s !! p = Some pg →
  free_page p s = Ret tt (with_page_heap (delete p (page_heap s)) s).
Proof. intros H. unfold free_page, bind, get, modify. by rewrite H. Qed.

Lemma free_TLS_Ret s t d :
  tls_heap s !! t = Some d →
  free_TLS t s = Ret tt (with_tls_heap (delete t (tls_heap s)) s).
Proof. intros H. unfold free_TLS, bind, get, modify. by rewrite H. Qed.

Lemma munmap_Ret s a : munmap a s = Ret tt (with_mem (delete a (mem s)) s).
Proof. done. Qed.

Lemma insert_set_prot (m : gmap Z mapping) a x pr :
  m !! a = Some x → <[a := mkMapping pr (m_bytes x)]> m = alter (set_prot pr) a m.
Proof.
  intros H. apply map_eq. intros b. destruct (decide (a = b)) as [->|Hne].
  - by rewrite lookup_insert_eq, lookup_alter_eq, H.
  - by rewrite lookup_insert_ne, lookup_alter_ne.
Qed.

Lemma mprotect_Ret s a m pr :
  mem s !! a = Some m →
  mprotect a pr s = Ret 0 (with_mem (alter (set_prot pr) a (mem s)) s).
Proof.
  intros H. unfold mprotect, bind, get, modify, ret. rewrite H.
  by rewrite (insert_set_prot _ _ _ _ H).
Qed.

Lemma tls_setprot_Ret s p pg m pr :
  page_heap s !! p = Some pg → mem s !! address pg = Some m →
  tls_setprot pr p s = Ret tt (with_mem (alter (set_prot pr) (address pg) (mem s)) s).
Proof.
  intros Hp Hm. unfold tls_setprot.
  rewrite (bind_Ret _ _ _ _ _ (deref_page_Ret _ _ _ Hp)).
  by rewrite (bind_Ret _ _ _ _ _ (mprotect_Ret _ _ _ _ Hm)).
Qed.

Lemma load_Ret s a off m b :
  mem s !! a = Some m → m_prot m = PROT_READ_WRITE →
  m_bytes m !! Z.to_nat off = Some b → load a off s = Ret b s.
Proof.
  intros Hm Hp Hb. unfold load, bind, get, ret. by rewrite Hm, Hp, Hb.
Qed.

Lemma store_Ret s a off m b :
  mem s !! a = Some m → writable (m_prot m) = true →
  (Z.to_nat off < length (m_bytes m))%nat →
  store a off b s =
  Ret tt (with_mem (<[a := mkMapping (m_prot m) (<[Z.to_nat off := b]> (m_bytes m))]> (mem s)) s).
Proof.
  intros Hm Hp Hb. unfold store, bind, get, modify. rewrite Hm, Hp.
  by rewrite bool_decide_true.
Qed.

Lemma memcpy_page_Ret s dst src ms md :
  mem s !! src = Some ms → mem s !! dst = Some md →
  m_prot ms = PROT_READ_WRITE → writable (m_prot md) = true →
  memcpy_page dst src s =
  Ret tt (with_mem (<[dst := mkMapping (m_prot md) (m_bytes ms)]> (mem s)) s).
Proof.
  intros Hs Hd Hr Hw. unfold memcpy_page, bind, get, modify. by rewrite Hs, Hd, Hr, Hw.
Qed.

(** ** Fresh keys *)

Lemma foldr_max_ge (l : list Z) x : x ∈ l → x ≤ foldr Z.max 0 l.
Proof.
  induction l as [|y l IH]; [by intros ?%elem_of_nil|].
  intros [->|Hin]%elem_of_cons; simpl; [lia|]. specialize (IH Hin). lia.
Qed.

Lemma foldr_max_nonneg (l : list Z) : 0 ≤ foldr Z.max 0 l.
Proof. induction l; simpl; lia. Qed.

Lemma fresh_key_fresh {V} (m : gmap Z V) : m !! fresh_key m = None.
Proof.
  apply not_elem_of_dom. intros Hin.
  assert (fresh_key m ≤ foldr Z.max 0 (elements (dom m))) as Hle.
  { apply foldr_max_ge. by apply elem_of_elements. }
  unfold fresh_key in Hle. lia.
Qed.

Lemma fresh_key_pos {V} (m : gmap Z V) : 0 < fresh_key m.
Proof. unfold fresh_key. pose proof (foldr_max_nonneg (elements (dom m))). lia. Qed.

Lemma fresh_base_fresh ps (m : gmap Z mapping) : 0 < ps → m !! fresh_base ps m = None.
Proof.
  intros Hps. apply not_elem_of_dom. intros Hin.
  set (l := (λ a, a / ps) <$> elements (dom m)).
  assert (fresh_base ps m / ps ≤ foldr Z.max 0 l) as Hle.
  { apply foldr_max_ge. unfold l. apply list_elem_of_fmap.
    exists (fresh_base ps m). split; [done|]. by apply elem_of_elements. }
  unfold fresh_base in Hle. fold l in Hle.
  rewrite Z.mul_comm, Z.div_mul in Hle by lia. lia.
Qed.

(** ** The registry *)

Lemma chain_find_Some t chain e :
  chain_find t chain = Some e → e ∈ chain ∧ elem_tid e = t.
Proof.
  induction chain as [|x chain IH]; simpl; [done|].
  destruct (Z.eqb_spec (elem_tid x) t) as [Heq|Hne].
  - intros [= <-]. split; [left|done].
  - intros [Hin Ht]%IH. split; [by right|done].
Qed.

Lemma chain_find_None t chain :
  chain_find t chain = None ↔ ∀ e, e ∈ chain → elem_tid e ≠ t.
Proof.
  induction chain as [|x chain IH]; simpl.
  - split; [by intros _ e ?%elem_of_nil|done].
  - destruct (Z.eqb_spec (elem_tid x) t) as [Heq|Hne].
    + split; [done|]. intros H. exfalso. by apply (H x); [left|].
    + rewrite IH. split.
      * intros H e [->|Hin]%elem_of_cons; [done|by apply H].
      * intros H e Hin. apply H. by right.
Qed.

Lemma table_find_Some t ht e :
  table_find t ht = Some e → e ∈ concat ht ∧ elem_tid e = t.
Proof.
  induction ht as [|chain ht IH]; simpl; [done|].
  destruct (chain_find t chain) as [e'|] eqn:Hc.
  - intros [= <-]. apply chain_find_Some in Hc as [Hin Ht].
    split; [|done]. apply elem_of_app. by left.
  - intros [Hin Ht]%IH. split; [|done]. apply elem_of_app. by right.
Qed.

Lemma table_find_None t ht :
  table_find t ht = None ↔ ∀ e, e ∈ concat ht → elem_tid e ≠ t.
Proof.
  induction ht as [|chain ht IH]; simpl.
  - split; [by intros _ e ?%elem_of_nil|done].
  - destruct (chain_find t chain) as [e'|] eqn:Hc.
    + split; [done|]. intros H. apply chain_find_Some in Hc as [Hin Ht].
      exfalso. apply (H e'); [|done]. apply elem_of_app. by left.
    + rewrite IH. rewrite chain_find_None in Hc. split.
      * intros H e [Hin|Hin]%elem_of_app; [by apply Hc|by apply H].
      * intros H e Hin. apply H. apply elem_of_app. by right.
Qed.

Lemma NoDup_fmap_eq {A B} (f : A → B) (l : list A) x y :
  NoDup (f <$> l) → x ∈ l → y ∈ l → f x = f y → x = y.
Proof.
  induction l as [|z l IH]; [by intros _ ?%elem_of_nil|].
  rewrite fmap_cons. intros [Hz Hnd]%NoDup_cons.
  intros [->|Hx]%elem_of_cons [->|Hy]%elem_of_cons Hf; try done.
  - exfalso. apply Hz. rewrite Hf. by apply list_elem_of_fmap_2.
  - exfalso. apply Hz. rewrite <- Hf. by apply list_elem_of_fmap_2.
  - by apply IH.
Qed.

Lemma table_find_elem t ht e :
  NoDup (elem_tid <$> concat ht) → e ∈ concat ht → elem_tid e = t →
  table_find t ht = Some e.
Proof.
  intros Hnd Hin Ht. destruct (table_find t ht) as [e'|] eqn:Hf.
  - apply table_find_Some in Hf as [Hin' Ht']. f_equal.
    apply (NoDup_fmap_eq elem_tid (concat ht)); congruence.
  - rewrite table_find_None in Hf. by destruct (Hf e Hin).
Qed.

Lemma table_find_replicate t n : table_find t (replicate n []) = None.
Proof. induction n; simpl; done. Qed.

Lemma filter_all {A} (P : A → Prop) `{!∀ x, Decision (P x)} (l : list A) :
  (∀ x, x ∈ l → P x) → filter P l = l.
Proof.
  induction l as [|x l IH]; [done|]. intros Hall.
  rewrite filter_cons_True by (apply Hall; left). f_equal. apply IH.
  intros y Hy. apply Hall. by right.
Qed.

Lemma NoDup_fmap_filter {A B} (f : A → B) (P : A → Prop) `{!∀ x, Decision (P x)} (l : list A) :
  NoDup (f <$> l) → NoDup (f <$> filter P l).
Proof.
  induction l as [|x l IH]; [done|]. rewrite fmap_cons. intros [Hx Hnd]%NoDup_cons.
  rewrite filter_cons. destruct (decide (P x)); [|by apply IH].
  rewrite fmap_cons. apply NoDup_cons. split; [|by apply IH].
  intros (y & Hy & [_ Hin]%list_elem_of_filter)%list_elem_of_fmap.
  apply Hx. rewrite Hy. by apply list_elem_of_fmap_2.
Qed.

(** Unlinking is filtering when thread identities are unique. *)
Lemma chain_remove_filter t chain :
  NoDup (elem_tid <$> chain) →
  chain_remove t chain = filter (λ e, elem_tid e ≠ t) chain.
Proof.
  induction chain as [|x chain IH]; [done|].
  rewrite fmap_cons. intros [Hx Hnd]%NoDup_cons. simpl. rewrite filter_cons.
  destruct (Z.eqb_spec (elem_tid x) t) as [Heq|Hne].
  - rewrite decide_False by (by intros ?).
    symmetry. apply filter_all. intros y Hy Hty. apply Hx.
    rewrite Heq, <- Hty. by apply list_elem_of_fmap_2.
  - rewrite decide_True by done. f_equal. by apply IH.
Qed.

Lemma table_remove_filter t ht :
  NoDup (elem_tid <$> concat ht) →
  concat (chain_remove t <$> ht) = filter (λ e, elem_tid e ≠ t) (concat ht).
Proof.
  induction ht as [|chain ht IH]; [done|]. simpl.
  rewrite fmap_app. intros (Hc & _ & Hrest)%NoDup_app.
  rewrite filter_app. rewrite chain_remove_filter by done. f_equal. by apply IH.
Qed.

(** Linking a new element in front of its chain. *)
Lemma concat_insert_cons {A} (ht : list (list A)) i chain (e : A) :
  ht !! i = Some chain →
  concat (<[i := e :: chain]> ht) ≡ₚ e :: concat ht.
Proof.
  revert i. induction ht as [|c ht IH]; intros [|i] H; simplify_eq/=; [done|].
  rewrite (IH _ H). by rewrite Permutation_middle.
Qed.

(** The scan of [tls_clone]. *)
Lemma clone_scan_chain_fst cur tgt chain acc :
  is_Some acc.1 → is_Some (clone_scan_chain cur tgt chain acc).1.
Proof.
  revert acc. induction chain as [|x chain IH]; intros acc Hacc; simpl; [done|].
  destruct (elem_tid x =? cur); [by eexists|].
  apply IH. by destruct (elem_tid x =? tgt).
Qed.

Lemma clone_scan_chain_hit cur tgt chain acc e :
  e ∈ chain → elem_tid e = cur → is_Some (clone_scan_chain cur tgt chain acc).1.
Proof.
  revert acc. induction chain as [|x chain IH]; intros acc Hin Ht; [by apply elem_of_nil in Hin|].
  simpl. destruct (Z.eqb_spec (elem_tid x) cur) as [Heq|Hne]; [by eexists|].
  apply elem_of_cons in Hin as [->|Hin]; [done|]. by apply IH.
Qed.

Lemma clone_scan_chain_miss cur tgt chain x :
  (∀ e, e ∈ chain → elem_tid e ≠ cur) →
  ∃ r, clone_scan_chain cur tgt chain (None, x) = (None, r) ∧
       (r = x ∨ ∃ e, e ∈ chain ∧ elem_tid e = tgt ∧ r = Some (elem_tls e)) ∧
       (r = None → x = None ∧ ∀ e, e ∈ chain → elem_tid e ≠ tgt).
Proof.
  revert x. induction chain as [|y chain IH]; intros x Hcur; simpl.
  - exists x. split; [done|]. split; [by left|]. intros ->. split; [done|].
    by intros e ?%elem_of_nil.
  - destruct (Z.eqb_spec (elem_tid y) cur) as [Heq|Hne].
    { exfalso. by apply (Hcur y); [left|]. }
    assert (∀ e, e ∈ chain → elem_tid e ≠ cur) as Hcur'.
    { intros e He. apply Hcur. by right. }
    destruct (Z.eqb_spec (elem_tid y) tgt) as [Heq|Hnt]; simpl.
    + destruct (IH (Some (elem_tls y)) Hcur') as (r & Hr & Hcase & Hnone).
      exists r. split; [done|]. split.
      * right. destruct Hcase as [->|(e & He & Het & ->)].
        -- exists y. split; [left|done].
        -- exists e. split; [by right|done].
      * intros ->. by destruct (Hnone eq_refl).
    + destruct (IH x Hcur') as (r & Hr & Hcase & Hnone).
      exists r. split; [done|]. split.
      * destruct Hcase as [->|(e & He & Het & ->)]; [by left|].
        right. exists e. split; [by right|done].
      * intros ->. destruct (Hnone eq_refl) as [-> Hall]. split; [done|].
        intros e [->|He]%elem_of_cons; [done|by apply Hall].
Qed.

Lemma clone_scan_fold_fst cur tgt ht acc :
  is_Some acc.1 →
  is_Some (foldl (λ acc chain, clone_scan_chain cur tgt chain acc) acc ht).1.
Proof.
  revert acc. induction ht as [|c ht IH]; intros acc Hacc; simpl; [done|].
  apply IH. by apply clone_scan_chain_fst.
Qed.

Lemma clone_scan_registered cur tgt ht e :
  e ∈ concat ht → elem_tid e = cur → is_Some (clone_scan cur tgt ht).1.
Proof.
  unfold clone_scan. generalize (@None Z, @None Z). 
  induction ht as [|c ht IH]; intros acc Hin Ht; [by apply elem_of_nil in Hin|].
  simpl in *. apply elem_of_app in Hin as [Hin|Hin].
  - apply clone_scan_fold_fst. by apply clone_scan_chain_hit with e.
  - by apply IH.
Qed.

Lemma clone_scan_fold_miss cur tgt ht x :
  (∀ e, e ∈ concat ht → elem_tid e ≠ cur) →
  ∃ r, foldl (λ acc chain, clone_scan_chain cur tgt chain acc) (None, x) ht = (None, r) ∧
       (r = x ∨ ∃ e, e ∈ concat ht ∧ elem_tid e = tgt ∧ r = Some (elem_tls e)) ∧
       (r = None → x = None ∧ ∀ e, e ∈ concat ht → elem_tid e ≠ tgt).
Proof.
  revert x. induction ht as [|c ht IH]; intros x Hcur; simpl.
  - exists x. split; [done|]. split; [by left|]. intros ->. split; [done|].
    by intros e ?%elem_of_nil.
  - destruct (clone_scan_chain_miss cur tgt c x) as (r1 & Hr1 & Hc1 & Hn1).
    { intros e He. apply Hcur. simpl. apply elem_of_app. by left. }
    rewrite Hr1.
    destruct (IH r1) as (r & Hr & Hc & Hn).
    { intros e He. apply Hcur. simpl. apply elem_of_app. by right. }
    exists r. split; [done|]. split.
    + destruct Hc as [->|(e & He & Het & ->)].
      * destruct Hc1 as [->|(e & He & Het & ->)]; [by left|].
        right. exists e. split; [|done]. apply elem_of_app. by left.
      * right. exists e. split; [|done]. apply elem_of_app. by right.
    + intros ->. destruct (Hn eq_refl) as [-> Hall].
      destruct (Hn1 eq_refl) as [-> Hall1]. split; [done|].
      intros e [He|He]%elem_of_app; [by apply Hall1|by apply Hall].
Qed.

Lemma clone_scan_unregistered cur tgt ht :
  (∀ e, e ∈ concat ht → elem_tid e ≠ cur) →
  ∃ r, clone_scan cur tgt ht = (None, r) ∧
       (r = None → ∀ e, e ∈ concat ht → elem_tid e ≠ tgt) ∧
       (∀ t, r = Some t → ∃ e, e ∈ concat ht ∧ elem_tid e = tgt ∧ elem_tls e = t).
Proof.
  intros Hcur. destruct (clone_scan_fold_miss cur tgt ht None Hcur) as (r & Hr & Hc & Hn).
  exists r. split; [done|]. split; [intros H; by apply Hn|].
  intros t ->. destruct Hc as [?|(e & He & Het & [= ->])]; [done|]. by exists e.
Qed.

(** ** The protection loops *)

Lemma tls_protect_setprot p : tls_protect p = tls_setprot PROT_NONE p.
Proof. done. Qed.

Lemma tls_unprotect_setprot p : tls_unprotect p = tls_setprot PROT_READ_WRITE p.
Proof. done. Qed.

Lemma protect_list_cons pr a l m :
  protect_list pr (a :: l) m = protect_list pr l (alter (set_prot pr) a m).
Proof. done. Qed.

Lemma lookup_protect_list pr l m a :
  protect_list pr l m !! a = if decide (a ∈ l) then set_prot pr <$> m !! a else m !! a.
Proof.
  revert m. induction l as [|x l IH]; intros m.
  - rewrite decide_False by apply not_elem_of_nil. done.
  - rewrite protect_list_cons, IH.
    destruct (decide (a = x)) as [->|Hne].
    + rewrite lookup_alter_eq. rewrite (decide_True (P := x ∈ x :: l)) by left.
      destruct (decide (x ∈ l)); [|done]. by destruct (m !! x).
    + rewrite lookup_alter_ne by done.
      destruct (decide (a ∈ l)) as [Hin|Hnin].
      * by rewrite decide_True by (by right).
      * rewrite decide_False; [done|]. by intros [?|?]%elem_of_cons.
Qed.

Lemma protect_list_same_bytes pr l m : same_bytes m (protect_list pr l m).
Proof.
  intros a. rewrite lookup_protect_list. destruct (decide (a ∈ l)); [|done].
  by destruct (m !! a).
Qed.

Lemma same_bytes_refl m : same_bytes m m.
Proof. done. Qed.

Lemma same_bytes_trans m1 m2 m3 : same_bytes m1 m2 → same_bytes m2 m3 → same_bytes m1 m3.
Proof. intros H1 H2 a. by rewrite H2, H1. Qed.

Lemma same_bytes_lookup m m' a x :
  same_bytes m m' → m !! a = Some x →
  ∃ x', m' !! a = Some x' ∧ m_bytes x' = m_bytes x.
Proof.
  intros H Hx. specialize (H a). rewrite Hx in H.
  destruct (m' !! a) as [x'|]; [|done]. injection H as H. by exists x'.
Qed.

(** The loop [for (i = ...; i < ...; i++) tls_(un)protect(tls->pages[i])] on
    a suffix of the page array. *)
Lemma setprot_range pr t d suf : ∀ pre s,
  tls_heap s !! t = Some d → pages d = pre ++ suf →
  (∀ p, p ∈ suf → ∃ pg m, page_heap s !! p = Some pg ∧ mem s !! address pg = Some m) →
  for_range (λ i, p <- tls_page t i ;; tls_setprot pr p)
            (Z.of_nat (length pre)) (length suf) s
  = Ret tt (with_mem (protect_list pr (page_addr (page_heap s) <$> suf) (mem s)) s).
Proof.
  induction suf as [|p suf IH]; intros pre s Ht Hpages Hall.
  - simpl. unfold ret. by destruct s.
  - destruct (Hall p) as (pg & m & Hp & Hm); [left|].
    change (length (p :: suf)) with (S (length suf)). rewrite for_range_S.
    assert (tls_page t (Z.of_nat (length pre)) s = Ret p s) as Hslot.
    { apply tls_page_Ret with d; [done|]. rewrite Nat2Z.id, Hpages.
      by rewrite list_lookup_middle. }
    rewrite bind_assoc_eq, (bind_Ret _ _ _ _ _ Hslot).
    rewrite (bind_Ret _ _ _ _ _ (tls_setprot_Ret _ _ _ _ pr Hp Hm)).
    replace (Z.of_nat (length pre) + 1) with (Z.of_nat (length (pre ++ [p])))
      by (rewrite length_app; simpl; lia).
    rewrite IH.
    + rewrite fmap_cons, protect_list_cons. simpl.
      replace (page_addr (page_heap s) p) with (address pg)
        by (unfold page_addr; by rewrite Hp).
      done.
    + done.
    + by rewrite Hpages, <- app_assoc.
    + intros q Hq. destruct (Hall q) as (qg & mq & Hqg & Hmq); [by right|].
      exists qg. destruct (decide (address pg = address qg)) as [Heq|Hne].
      * exists (set_prot pr mq). split; [done|]. simpl.
        by rewrite Heq, lookup_alter_eq, Hmq.
      * exists mq. split; [done|]. simpl. by rewrite lookup_alter_ne.
Qed.

Lemma setprot_all pr t d s :
  tls_heap s !! t = Some d → page_num d = Z.of_nat (length (pages d)) →
  (∀ p, p ∈ pages d → ∃ pg m, page_heap s !! p = Some pg ∧ mem s !! address pg = Some m) →
  for_range (λ i, p <- tls_page t i ;; tls_setprot pr p) 0 (Z.to_nat (page_num d)) s
  = Ret tt (with_mem (protect_list pr (page_addr (page_heap s) <$> pages d) (mem s)) s).
Proof.
  intros Ht Hn Hall. rewrite Hn, Nat2Z.id.
  by apply (setprot_range pr t d (pages d) [] s).
Qed.

(** ** The copy loop of [tls_read] *)

Lemma bind_Undef {A B} (m : M A) (k : A → M B) s : m s = Undef → bind m k s = Undef.
Proof. intros H. unfold bind. by rewrite H. Qed.

Lemma tls_page_None s t d i :
  tls_heap s !! t = Some d → pages d !! Z.to_nat i = None → tls_page t i s = Undef.
Proof.
  intros H Hp. unfold tls_page. rewrite (bind_Ret _ _ _ _ _ (deref_TLS_Ret _ _ _ H)).
  by rewrite Hp.
Qed.

Lemma read_bytes_S t n cnt idx buffer s :
  read_bytes t (S n) cnt idx buffer s =
  (p <- tls_page t (idx / page_size s) ;;
   pg <- deref_page p ;;
   b <- load (address pg) (idx mod page_size s) ;;
   buffer' <- buffer_set buffer cnt b ;;
   read_bytes t n (cnt + 1) (idx + 1) buffer') s.
Proof. done. Qed.

Lemma range_ok_S npages ps buflen n cnt idx :
  0 ≤ cnt →
  range_ok npages ps buflen (S n) cnt idx ↔
  (Z.to_nat (idx / ps) < npages)%nat ∧ (Z.to_nat cnt < buflen)%nat ∧
  range_ok npages ps buflen n (cnt + 1) (idx + 1).
Proof.
  intros Hc. unfold range_ok. split.
  - intros Hs. split; [|split].
    + destruct (Hs 0%nat) as [_ H0]; [lia|]. by rewrite Z.add_0_r in H0.
    + destruct (Hs 0%nat) as [H0 _]; lia.
    + intros k Hk. destruct (Hs (S k)) as [H1 H2]; [lia|].
      replace (idx + 1 + Z.of_nat k) with (idx + Z.of_nat (S k)) by lia.
      split; [lia|done].
  - intros (H0 & Hb & Hs) [|k] Hk.
    + rewrite Z.add_0_r. split; [lia|done].
    + destruct (Hs k) as [H1 H2]; [lia|].
      replace (idx + Z.of_nat (S k)) with (idx + 1 + Z.of_nat k) by lia.
      split; [lia|done].
Qed.

Lemma lsa_byte_eq s t d i p pg m :
  tls_heap s !! t = Some d → pages d !! Z.to_nat (i / page_size s) = Some p →
  page_heap s !! p = Some pg → mem s !! address pg = Some m →
  lsa_byte s t i = m_bytes m !! Z.to_nat (i mod page_size s).
Proof.
  intros Ht Hp Hpg Hm. unfold lsa_byte. rewrite Ht. simpl. rewrite Hp. simpl.
  rewrite Hpg. simpl. by rewrite Hm.
Qed.

Lemma read_bytes_spec t d s n : ∀ cnt idx buffer,
  tls_heap s !! t = Some d → 0 < page_size s → pages_readable s t →
  0 ≤ cnt → 0 ≤ idx →
  match read_bytes t n cnt idx buffer s with
  | Ret out s' =>
      s' = s ∧ length out = length buffer ∧
      range_ok (length (pages d)) (page_size s) (length buffer) n cnt idx ∧
      ∀ j, out !! j =
           if decide (Z.to_nat cnt ≤ j < Z.to_nat cnt + n)%nat
           then lsa_byte s t (idx + (Z.of_nat j - cnt)) else buffer !! j
  | Undef => ¬ range_ok (length (pages d)) (page_size s) (length buffer) n cnt idx
  | _ => False
  end.
Proof.
  induction n as [|n IH]; intros cnt idx buffer Ht Hps Hrd Hcnt Hidx.
  - simpl. split; [done|]. split; [done|]. split.
    + intros k Hk. lia.
    + intros j. rewrite decide_False by lia. done.
  - rewrite read_bytes_S.
    destruct (pages d !! Z.to_nat (idx / page_size s)) as [p|] eqn:Hslot.
    2:{ rewrite (bind_Undef _ _ _ (tls_page_None _ _ _ _ Ht Hslot)).
        rewrite range_ok_S by done. intros (H0 & _).
        apply lookup_ge_None in Hslot. lia. }
    rewrite (bind_Ret _ _ _ _ _ (tls_page_Ret _ _ _ _ _ Ht Hslot)).
    destruct (Hrd d p Ht (list_elem_of_lookup_2 _ _ _ Hslot)) as (pg & m & Hpg & Hm & Hpr & Hlen).
    rewrite (bind_Ret _ _ _ _ _ (deref_page_Ret _ _ _ Hpg)).
    destruct (lookup_lt_is_Some_2 (m_bytes m) (Z.to_nat (idx mod page_size s))) as [b Hb].
    { rewrite Hlen. pose proof (Z.mod_pos_bound idx (page_size s) Hps). lia. }
    rewrite (bind_Ret _ _ _ _ _ (load_Ret _ _ _ _ _ Hm Hpr Hb)).
    unfold bind at 1, buffer_set.
    destruct (decide (Z.to_nat cnt < length buffer)%nat) as [Hlt|Hge].
    2:{ rewrite bool_decide_false by done. unfold undef.
        rewrite range_ok_S by done. tauto. }
    rewrite bool_decide_true by done. unfold ret at 1.
    specialize (IH (cnt + 1) (idx + 1) (<[Z.to_nat cnt := b]> buffer) Ht Hps Hrd).
    destruct (read_bytes t n (cnt + 1) (idx + 1) (<[Z.to_nat cnt:=b]> buffer) s)
      as [out s'| | |]; try (apply IH; lia).
    + destruct IH as (-> & Hlo & Hok & Hout); [lia..|].
      rewrite length_insert in Hlo. rewrite length_insert in Hok.
      split; [done|]. split; [done|]. split.
      { rewrite range_ok_S by done. split; [|done].
        apply lookup_lt_Some in Hslot. done. }
      intros j. rewrite Hout.
      destruct (decide (j = Z.to_nat cnt)) as [->|Hne].
      * rewrite decide_False by lia. rewrite decide_True by lia.
        rewrite list_lookup_insert_eq by done.
        replace (idx + (Z.of_nat (Z.to_nat cnt) - cnt)) with idx by lia.
        by rewrite (lsa_byte_eq _ _ _ _ _ _ _ Ht Hslot Hpg Hm).
      * rewrite list_lookup_insert_ne by done.
        destruct (decide (Z.to_nat (cnt + 1) ≤ j < Z.to_nat (cnt + 1) + n)%nat).
        -- rewrite decide_True by lia. f_equal. lia.
        -- by rewrite decide_False by lia.
    + rewrite range_ok_S by done. rewrite length_insert in IH.
      intros (_ & _ & Hr). apply IH; [lia..|done].
Qed.

(** ** The invariant: first consequences *)

Section Invariant.

Variable gp : Z.
Hypothesis gp_pos : 0 < gp.

Lemma wf_page_size s t d : wf gp s → tls_heap s !! t = Some d → page_size s = gp.
Proof.
  intros Hwf Ht. destruct (wf_init _ _ Hwf) as [[_ He]|[_ H]]; [|done].
  rewrite He in Ht. done.
Qed.

Lemma wf_find s self e :
  wf gp s → table_find self (hash_table s) = Some e →
  e ∈ all_elems s ∧ elem_tid e = self ∧
  ∃ d, tls_heap s !! elem_tls e = Some d ∧ tid d = self.
Proof.
  intros Hwf [Hin Ht]%table_find_Some. split; [done|]. split; [done|].
  destruct (wf_elem _ _ Hwf e Hin) as (d & Hd & Htid). exists d. split; congruence.
Qed.

Lemma wf_page s t d p :
  wf gp s → tls_heap s !! t = Some d → p ∈ pages d →
  ∃ pg m, page_heap s !! p = Some pg ∧ mem s !! address pg = Some m ∧
          length (m_bytes m) = Z.to_nat (page_size s).
Proof.
  intros Hwf Ht Hp. destruct (wf_desc _ _ Hwf t d Ht) as (_ & _ & Hheap).
  destruct (Hheap p Hp) as [pg Hpg]. destruct (wf_mapped _ _ Hwf p pg Hpg) as (m & Hm & Hl).
  by exists pg, m.
Qed.

Lemma wf_pages_mapped s t d :
  wf gp s → tls_heap s !! t = Some d →
  ∀ p, p ∈ pages d → ∃ pg m, page_heap s !! p = Some pg ∧ mem s !! address pg = Some m.
Proof.
  intros Hwf Ht p Hp. destruct (wf_page s t d p Hwf Ht Hp) as (pg & m & ? & ? & _).
  by exists pg, m.
Qed.

Lemma wf_same_bytes s m' : wf gp s → same_bytes (mem s) m' → wf gp (with_mem m' s).
Proof.
  intros [] Hsb. split; simpl; try done.
  intros p pg Hpg. destruct (wf_mapped0 p pg Hpg) as (m & Hm & Hl).
  destruct (same_bytes_lookup _ _ _ _ Hsb Hm) as (x' & Hx' & Hb).
  exists x'. split; [done|]. by rewrite Hb.
Qed.

Lemma wf_with_oracle s o : wf gp s → wf gp (with_oracle o s).
Proof. intros []. by split. Qed.

Lemma lsa_byte_same_bytes s m' t i :
  same_bytes (mem s) m' → lsa_byte (with_mem m' s) t i = lsa_byte s t i.
Proof.
  intros Hsb. unfold lsa_byte. simpl.
  destruct (tls_heap s !! t) as [d|]; [simpl|done].
  destruct (pages d !! Z.to_nat (i / page_size s)) as [p|]; [simpl|done].
  destruct (page_heap s !! p) as [pg|]; [simpl|done].
  specialize (Hsb (address pg)).
  destruct (mem s !! address pg) as [m|], (m' !! address pg) as [x|]; simplify_eq/=; try done.
  by rewrite Hsb.
Qed.

Lemma lsa_byte_with_oracle s o t i : lsa_byte (with_oracle o s) t i = lsa_byte s t i.
Proof. done. Qed.

(** After the unprotect loop every page of the descriptor is readable. *)
Lemma unprotected_readable s t d :
  wf gp s → tls_heap s !! t = Some d →
  pages_readable
    (with_mem (protect_list PROT_READ_WRITE (page_addr (page_heap s) <$> pages d) (mem s)) s) t.
Proof.
  intros Hwf Ht d' p Ht' Hp. simpl in Ht'. rewrite Ht in Ht'. injection Ht' as <-.
  destruct (wf_page s t d p Hwf Ht Hp) as (pg & m & Hpg & Hm & Hl). simpl.
  exists pg, (set_prot PROT_READ_WRITE m). split; [done|]. split; [|done].
  rewrite lookup_protect_list, decide_True, Hm; [done|].
  apply list_elem_of_fmap. exists p. split; [|done]. unfold page_addr. by rewrite Hpg.
Qed.

(** ** [tls_read] *)

Lemma tls_read_spec s self offset len buffer :
  wf gp s → 0 ≤ offset →
  match table_find self (hash_table s) with
  | None => tls_read self offset len buffer s = Ret (-1, buffer) s
  | Some e =>
      ∃ d, tls_heap s !! elem_tls e = Some d ∧
      if u32 (offset + len) >? size d
      then tls_read self offset len buffer s = Ret (-1, buffer) s
      else
        let n := Z.to_nat (u32 (offset + len) - offset) in
        match tls_read self offset len buffer s with
        | Ret r s' =>
            ∃ out, r = (0, out) ∧ s' = read_final s d ∧
              length out = length buffer ∧
              range_ok (length (pages d)) (page_size s) (length buffer) n 0 offset ∧
              ∀ j, out !! j =
                   if decide (j < n)%nat
                   then lsa_byte s (elem_tls e) (offset + Z.of_nat j) else buffer !! j
        | Undef => ¬ range_ok (length (pages d)) (page_size s) (length buffer) n 0 offset
        | _ => False
        end
  end.
Proof.
  intros Hwf Hoff. unfold tls_read.
  rewrite (bind_Ret _ _ _ _ _ (eq_refl : get s = Ret s s)).
  destruct (table_find self (hash_table s)) as [e|] eqn:Hfind; [|done].
  destruct (wf_find _ _ _ Hwf Hfind) as (Hin & Htid & d & Hd & Hdt).
  exists d. split; [done|].
  rewrite (bind_Ret _ _ _ _ _ (deref_TLS_Ret _ _ _ Hd)).
  destruct (u32 (offset + len) >? size d) eqn:Hbound; [done|].
  destruct (wf_desc _ _ Hwf _ _ Hd) as (Hnum & Hnd & Hheap).
  unfold unprotect_all, protect_all.
  pose proof (setprot_all PROT_READ_WRITE _ _ _ Hd Hnum (wf_pages_mapped _ _ _ Hwf Hd)) as Hun.
  rewrite (bind_Ret _ _ _ _ _ Hun).
  set (s1 := with_mem _ s) in *.
  assert (wf gp s1) as Hwf1 by (apply wf_same_bytes; [done|apply protect_list_same_bytes]).
  assert (page_size s1 = gp) as Hps1 by (by apply (wf_page_size s1 (elem_tls e) d)).
  pose proof (read_bytes_spec (elem_tls e) d s1
                (Z.to_nat (u32 (offset + len) - offset)) 0 offset buffer Hd) as Hrb.
  unfold bind at 1.
  destruct (read_bytes _ _ 0 offset buffer s1) as [out s1'| | |]; try (apply Hrb; try lia).
  - destruct Hrb as (-> & Hlen & Hok & Hout); [lia| |lia..|].
    { by apply unprotected_readable. }
    pose proof (setprot_all PROT_NONE (elem_tls e) d s1 Hd Hnum
                  (wf_pages_mapped _ _ _ Hwf1 Hd)) as Hpr.
    rewrite (bind_Ret _ _ _ _ _ Hpr). unfold ret.
    exists out. split; [done|]. split; [done|]. split; [done|]. split; [done|].
    intros j. rewrite Hout. change (Z.to_nat 0) with 0%nat.
    destruct (decide (j < Z.to_nat (u32 (offset + len) - offset))%nat).
    + rewrite decide_True by lia. rewrite Z.sub_0_r.
      apply lsa_byte_same_bytes, protect_list_same_bytes.
    + by rewrite decide_False by lia.
  - by apply unprotected_readable.
  - by apply unprotected_readable.
  - by apply unprotected_readable.
Qed.

Lemma tls_read_wf s self offset len buffer r s' :
  wf gp s → 0 ≤ offset → tls_read self offset len buffer s = Ret r s' → wf gp s'.
Proof.
  intros Hwf Hoff Hr. pose proof (tls_read_spec s self offset len buffer Hwf Hoff) as Hspec.
  destruct (table_find self (hash_table s)) as [e|];
    [|rewrite Hspec in Hr; by injection Hr as <- <-].
  destruct Hspec as (d & Hd & Hspec).
  destruct (u32 (offset + len) >? size d);
    [rewrite Hspec in Hr; by injection Hr as <- <-|].
  rewrite Hr in Hspec. destruct Hspec as (out & -> & -> & _).
  apply wf_same_bytes; [done|]. simpl.
  eapply same_bytes_trans; apply protect_list_same_bytes.
Qed.

End Invariant.

(** ** The copy-on-write split *)

Lemma os_grant_Ret s : os_grant s = Ret (hd true (oracle s)) (with_oracle (tl (oracle s)) s).
Proof. done. Qed.

Lemma alloc_page_fail s :
  hd true (oracle s) = false → alloc_page s = Ret None (with_oracle (tl (oracle s)) s).
Proof. intros H. unfold alloc_page, bind, os_grant. by rewrite H. Qed.

Lemma alloc_page_Ret s :
  hd true (oracle s) = true →
  alloc_page s =
  Ret (Some (fresh_key (page_heap s)))
      (with_page_heap (<[fresh_key (page_heap s) := mkPage 0 0]> (page_heap s))
                      (with_oracle (tl (oracle s)) s)).
Proof. intros H. unfold alloc_page, bind, os_grant. by rewrite H. Qed.

Lemma mmap_fail s pr :
  hd true (oracle s) = false → mmap pr s = Ret None (with_oracle (tl (oracle s)) s).
Proof. intros H. unfold mmap, bind, os_grant. by rewrite H. Qed.

Lemma mmap_Ret s pr :
  hd true (oracle s) = true →
  mmap pr s =
  Ret (Some (fresh_base (page_size s) (mem s)))
      (with_mem (<[fresh_base (page_size s) (mem s) :=
                     mkMapping pr (replicate (Z.to_nat (page_size s)) x00)]> (mem s))
                (with_oracle (tl (oracle s)) s)).
Proof. intros H. unfold mmap, bind, os_grant. by rewrite H. Qed.

Lemma cow_split_fail1 s t pn p :
  hd true (oracle s) = false →
  cow_split t pn p s = Ret false (with_oracle (tl (oracle s)) s).
Proof. intros H. unfold cow_split. by rewrite (bind_Ret _ _ _ _ _ (alloc_page_fail _ H)). Qed.

Lemma cow_split_fail2 s t pn p :
  hd true (oracle s) = true → hd true (tl (oracle s)) = false →
  cow_split t pn p s = Ret false (with_oracle (tl (tl (oracle s))) s).
Proof.
  intros H1 H2. unfold cow_split, alloc_page, mmap, free_page, bind, get, modify, ret, os_grant.
  simpl. rewrite H1. simpl. rewrite H2. simpl. rewrite lookup_insert_eq.
  rewrite delete_insert_id by apply fresh_key_fresh. by destruct s.
Qed.

Lemma cow_split_Ret s t d pn p pg m :
  tls_heap s !! t = Some d → (Z.to_nat pn < length (pages d))%nat →
  page_heap s !! p = Some pg → mem s !! address pg = Some m →
  m_prot m = PROT_READ_WRITE → 0 < page_size s →
  hd true (oracle s) = true → hd true (tl (oracle s)) = true →
  cow_split t pn p s = Ret true (cow_state s t d pn p pg m).
Proof.
  intros Ht Hpn Hp Hm Hrw Hps H1 H2.
  assert (p ≠ fresh_key (page_heap s)) as Hpc.
  { intros ->. by rewrite fresh_key_fresh in Hp. }
  assert (address pg ≠ fresh_base (page_size s) (mem s)) as Hac.
  { intros Heq. rewrite Heq in Hm. by rewrite fresh_base_fresh in Hm. }
  unfold cow_split, alloc_page, mmap, set_address, set_ref_count, set_page, set_tls_page,
    tls_protect, memcpy_page, mprotect, deref_page, deref_TLS,
    bind, get, modify, ret, os_grant.
  mrun. rewrite Hrw. mrun. rewrite bool_decide_true by done. mrun.
  f_equal. unfold cow_state. state_eq.
  - by rewrite !insert_insert_eq.
  - rewrite insert_insert_eq. apply insert_set_prot.
    by rewrite lookup_insert_ne.
Qed.

(** ** Replacing one slot of a duplicate-free page array *)

Lemma elem_of_insert_NoDup {A} (l : list A) i p c x :
  NoDup l → l !! i = Some p →
  x ∈ <[i := c]> l ↔ x = c ∨ (x ∈ l ∧ x ≠ p).
Proof.
  intros Hnd Hi. split.
  - intros [j Hj]%list_elem_of_lookup. destruct (decide (i = j)) as [->|Hne].
    + rewrite list_lookup_insert_eq in Hj by (by eapply lookup_lt_Some). left. congruence.
    + rewrite list_lookup_insert_ne in Hj by done. right.
      split; [by eapply list_elem_of_lookup_2|]. intros ->.
      apply Hne. by eapply NoDup_lookup.
  - intros [->|[[j Hj]%list_elem_of_lookup Hne]].
    + apply list_elem_of_insert. by eapply lookup_lt_Some.
    + apply list_elem_of_lookup. exists j. rewrite list_lookup_insert_ne; [done|].
      intros ->. congruence.
Qed.

Lemma NoDup_insert_fresh {A} (l : list A) i c :
  NoDup l → c ∉ l → NoDup (<[i := c]> l).
Proof.
  intros Hnd Hc. apply NoDup_alt. intros j k x Hj Hk.
  destruct (decide (i = j)) as [Hij|Hij], (decide (i = k)) as [Hik|Hik]; [congruence|..].
  - subst j. pose proof (lookup_lt_Some _ _ _ Hj) as Hlt. rewrite length_insert in Hlt.
    rewrite list_lookup_insert_eq in Hj by done.
    rewrite list_lookup_insert_ne in Hk by done. simplify_eq.
    destruct Hc. by eapply list_elem_of_lookup_2.
  - subst k. pose proof (lookup_lt_Some _ _ _ Hk) as Hlt. rewrite length_insert in Hlt.
    rewrite list_lookup_insert_eq in Hk by done.
    rewrite list_lookup_insert_ne in Hj by done. simplify_eq.
    destruct Hc. by eapply list_elem_of_lookup_2.
  - rewrite list_lookup_insert_ne in Hj by done.
    rewrite list_lookup_insert_ne in Hk by done. by eapply NoDup_lookup.
Qed.

Section CopyOnWrite.

Variable gp : Z.
Hypothesis gp_pos : 0 < gp.

Variables (s : tls_state) (t : Z) (d : TLS) (pn : Z) (p : Z) (pg : page) (m : mapping).
Hypothesis Hwf : wf gp s.
Hypothesis Ht : tls_heap s !! t = Some d.
Hypothesis Hslot : pages d !! Z.to_nat pn = Some p.
Hypothesis Hp : page_heap s !! p = Some pg.
Hypothesis Hrc : 1 < ref_count pg.
Hypothesis Hm : mem s !! address pg = Some m.

Let c := fresh_key (page_heap s).
Let a := fresh_base (page_size s) (mem s).

Local Lemma cow_ps : page_size s = gp.
Proof. by apply (wf_page_size gp s t d). Qed.

Local Lemma cow_c_fresh : page_heap s !! c = None.
Proof. apply fresh_key_fresh. Qed.

Local Lemma cow_a_fresh : mem s !! a = None.
Proof. apply fresh_base_fresh. rewrite cow_ps. done. Qed.

Local Lemma cow_p_in : p ∈ pages d.
Proof. by eapply list_elem_of_lookup_2. Qed.

Local Lemma cow_c_unheld t' d' : tls_heap s !! t' = Some d' → c ∉ pages d'.
Proof.
  intros Ht' Hin. destruct (wf_desc _ _ Hwf t' d' Ht') as (_ & _ & Hheap).
  destruct (Hheap c Hin) as [x Hx]. by rewrite cow_c_fresh in Hx.
Qed.

Local Lemma cow_p_ne_c : p ≠ c.
Proof. intros Heq. pose proof cow_c_fresh as H. rewrite <- Heq, Hp in H. done. Qed.

Local Lemma cow_addr_ne q qg : page_heap s !! q = Some qg → address qg ≠ a.
Proof.
  intros Hq Heq. destruct (wf_mapped _ _ Hwf q qg Hq) as (x & Hx & _).
  rewrite Heq, cow_a_fresh in Hx. done.
Qed.

Local Lemma cow_indic_old : indic p d = 1%nat.
Proof. unfold indic. rewrite decide_True; [done|apply cow_p_in]. Qed.

Local Lemma cow_pages_elem x :
  x ∈ <[Z.to_nat pn := c]> (pages d) ↔ x = c ∨ (x ∈ pages d ∧ x ≠ p).
Proof.
  apply elem_of_insert_NoDup; [|done]. by destruct (wf_desc _ _ Hwf t d Ht) as (_ & ? & _).
Qed.

Local Lemma cow_holders q :
  holders (tls_heap (cow_state s t d pn p pg m)) q =
  if decide (q = p) then (holders (tls_heap s) p - 1)%nat
  else if decide (q = c) then 1%nat else holders (tls_heap s) q.
Proof.
  simpl. fold c.
  pose proof (holders_insert_Some (tls_heap s) t d
    (mkTLS (tid d) (size d) (page_num d) (<[Z.to_nat pn := c]> (pages d))) q Ht) as Hh.
  unfold indic in Hh. simpl in Hh.
  destruct (decide (q = p)) as [->|Hqp].
  - rewrite (decide_True (P := p ∈ pages d)) in Hh by apply cow_p_in.
    rewrite decide_False in Hh; [lia|].
    rewrite cow_pages_elem. intros [?|[_ ?]]; [by apply cow_p_ne_c|done].
  - destruct (decide (q = c)) as [->|Hqc].
    + rewrite (decide_False (P := c ∈ pages d)) in Hh by (by apply (cow_c_unheld t)).
      rewrite decide_True in Hh by (apply cow_pages_elem; by left).
      rewrite (holders_zero (tls_heap s) c) in Hh; [lia|]. apply cow_c_unheld.
    + destruct (decide (q ∈ pages d)) as [Hin|Hnin].
      * rewrite decide_True in Hh by (apply cow_pages_elem; by right). lia.
      * rewrite decide_False in Hh; [lia|].
        rewrite cow_pages_elem. intros [?|[? _]]; done.
Qed.

Lemma cow_state_wf : wf gp (cow_state s t d pn p pg m).
Proof.
  pose proof cow_p_ne_c as Hpc.
  destruct (wf_desc _ _ Hwf t d Ht) as (Hnum & Hnd & Hheap).
  split.
  - apply (wf_buckets _ _ Hwf).
  - apply (wf_tids _ _ Hwf).
  - intros e He. destruct (wf_elem _ _ Hwf e He) as (d0 & Hd0 & Htid). simpl.
    destruct (decide (elem_tls e = t)) as [Heq|Hne].
    + rewrite Heq in *. rewrite lookup_insert_eq. eexists. split; [done|]. simpl. congruence.
    + rewrite lookup_insert_ne by done. by exists d0.
  - intros t' d'. simpl. destruct (decide (t' = t)) as [->|Hne].
    + rewrite lookup_insert_eq. intros [= <-]. simpl. by apply (wf_registered _ _ Hwf).
    + rewrite lookup_insert_ne by done. apply (wf_registered _ _ Hwf).
  - intros t' d'. simpl. fold c. destruct (decide (t' = t)) as [->|Hne].
    + rewrite lookup_insert_eq. intros [= <-]. simpl. split; [|split].
      * by rewrite length_insert.
      * apply NoDup_insert_fresh; [done|]. by apply (cow_c_unheld t).
      * intros q [->|[Hq Hqp]]%cow_pages_elem.
        -- rewrite lookup_insert_ne by done. rewrite lookup_insert_eq. by eexists.
        -- rewrite lookup_insert_ne by done.
           rewrite lookup_insert_ne; [by apply Hheap|].
           intros <-. by apply (cow_c_unheld t d).
    + rewrite lookup_insert_ne by done. intros Ht'.
      destruct (wf_desc _ _ Hwf t' d' Ht') as (Hnum' & Hnd' & Hheap').
      split; [done|]. split; [done|]. intros q Hq.
      destruct (decide (q = p)) as [->|Hqp]; [rewrite lookup_insert_eq; by eexists|].
      rewrite lookup_insert_ne by done.
      rewrite lookup_insert_ne; [by apply Hheap'|].
      intros <-. by apply (cow_c_unheld t' d').
  - intros q qg Hq. rewrite cow_holders. simpl in Hq. fold c a in Hq.
    destruct (wf_count _ _ Hwf p pg Hp) as [Hcnt Hpos].
    destruct (decide (q = p)) as [->|Hqp].
    + rewrite lookup_insert_eq in Hq. injection Hq as <-. simpl. lia.
    + rewrite lookup_insert_ne in Hq by done.
      destruct (decide (q = c)) as [->|Hqc].
      * rewrite lookup_insert_eq in Hq. injection Hq as <-. simpl. lia.
      * rewrite lookup_insert_ne in Hq by done. by apply (wf_count _ _ Hwf).
  - intros q qg Hq. simpl in *. fold c a in Hq |- *.
    destruct (decide (q = p)) as [->|Hqp].
    + rewrite lookup_insert_eq in Hq. injection Hq as <-. simpl.
      rewrite lookup_alter_eq, lookup_insert_ne, Hm by (by apply not_eq_sym, (cow_addr_ne p)).
      destruct (wf_mapped _ _ Hwf p pg Hp) as (x & Hx & Hl). simplify_eq.
      eexists. split; [done|]. done.
    + rewrite lookup_insert_ne in Hq by done.
      destruct (decide (q = c)) as [->|Hqc].
      * rewrite lookup_insert_eq in Hq. injection Hq as <-. simpl.
        rewrite lookup_alter_ne by (by apply (cow_addr_ne p)).
        rewrite lookup_insert_eq. eexists. split; [done|]. simpl.
        destruct (wf_mapped _ _ Hwf p pg Hp) as (x & Hx & Hl). by simplify_eq.
      * rewrite lookup_insert_ne in Hq by done.
        destruct (wf_mapped _ _ Hwf q qg Hq) as (x & Hx & Hl).
        assert (address pg ≠ address qg) as Hne.
        { intros Heq. apply Hqp. symmetry. by apply (wf_addr _ _ Hwf p q pg qg). }
        rewrite lookup_alter_ne by done.
        rewrite lookup_insert_ne by (apply not_eq_sym, (cow_addr_ne q qg Hq)).
        by exists x.
  - intros q1 q2 g1 g2. simpl. fold c a. intros H1 H2 Heq.
    assert (∀ q g, <[p:=mkPage (address pg) (ref_count pg - 1)]>
                     (<[c:=mkPage a 1]> (page_heap s)) !! q = Some g →
                   (q = c ∧ address g = a) ∨
                   (q ≠ c ∧ ∃ g0, page_heap s !! q = Some g0 ∧ address g0 = address g)) as Hcase.
    { intros q g Hq. destruct (decide (q = p)) as [->|Hqp].
      - rewrite lookup_insert_eq in Hq. injection Hq as <-. right.
        split; [done|]. by exists pg.
      - rewrite lookup_insert_ne in Hq by done. destruct (decide (q = c)) as [->|Hqc].
        + rewrite lookup_insert_eq in Hq. injection Hq as <-. by left.
        + rewrite lookup_insert_ne in Hq by done. right. split; [done|]. by exists g. }
    destruct (Hcase _ _ H1) as [[-> Ha1]|(Hn1 & x1 & Hx1 & Ha1)],
             (Hcase _ _ H2) as [[-> Ha2]|(Hn2 & x2 & Hx2 & Ha2)]; try done.
    + exfalso. apply (cow_addr_ne q2 x2 Hx2). congruence.
    + exfalso. apply (cow_addr_ne q1 x1 Hx1). congruence.
    + apply (wf_addr _ _ Hwf q1 q2 x1 x2); congruence.
  - right. simpl. destruct (wf_init _ _ Hwf) as [[_ He]|H]; [|done].
    rewrite He in Ht. done.
Qed.

Lemma cow_state_page_bytes q qg :
  page_heap s !! q = Some qg →
  page_bytes (cow_state s t d pn p pg m) q = page_bytes s q.
Proof.
  intros Hq. unfold page_bytes. simpl. fold c a. rewrite Hq. simpl.
  assert (q ≠ c) as Hqc by (intros ->; by rewrite cow_c_fresh in Hq).
  destruct (wf_mapped _ _ Hwf q qg Hq) as (x & Hx & Hl). rewrite Hx. simpl.
  destruct (decide (q = p)) as [->|Hqp].
  - rewrite lookup_insert_eq. simpl. rewrite Hp in Hq. injection Hq as <-.
    rewrite lookup_alter_eq, lookup_insert_ne, Hx by (apply not_eq_sym, (cow_addr_ne p pg Hp)).
    done.
  - rewrite lookup_insert_ne by done. rewrite lookup_insert_ne by done. rewrite Hq. simpl.
    assert (address pg ≠ address qg) as Hne.
    { intros Heq. apply Hqp. symmetry. by apply (wf_addr _ _ Hwf p q pg qg). }
    rewrite lookup_alter_ne by done.
    rewrite lookup_insert_ne by (apply not_eq_sym, (cow_addr_ne q qg Hq)).
    by rewrite Hx.
Qed.

Lemma cow_state_copy_bytes :
  page_bytes (cow_state s t d pn p pg m) c = page_bytes s p.
Proof.
  unfold page_bytes. simpl. fold c a. rewrite Hp. simpl. rewrite Hm. simpl.
  rewrite lookup_insert_ne by (apply cow_p_ne_c). rewrite lookup_insert_eq. simpl.
  rewrite lookup_alter_ne by (apply (cow_addr_ne p pg Hp)).
  by rewrite lookup_insert_eq.
Qed.

Lemma cow_state_slot :
  ∃ d', tls_heap (cow_state s t d pn p pg m) !! t = Some d' ∧
    pages d' = <[Z.to_nat pn := c]> (pages d) ∧
    tid d' = tid d ∧ size d' = size d ∧ page_num d' = page_num d ∧
    page_heap (cow_state s t d pn p pg m) !! c = Some (mkPage a 1).
Proof.
  eexists. simpl. fold c a. rewrite lookup_insert_eq. split; [done|]. simpl.
  repeat split. rewrite lookup_insert_ne by (apply cow_p_ne_c). by rewrite lookup_insert_eq.
Qed.

Lemma cow_state_open :
  pages_open s t → pages_open (cow_state s t d pn p pg m) t.
Proof.
  intros Hopen d' q. simpl. fold c a. rewrite lookup_insert_eq. intros [= <-]. simpl.
  intros [->|[Hq Hqp]]%cow_pages_elem.
  - exists (mkPage a 1), (mkMapping PROT_WRITE (m_bytes m)). simpl. fold c a.
    rewrite lookup_insert_ne by (apply cow_p_ne_c). rewrite lookup_insert_eq.
    rewrite lookup_alter_ne by (apply (cow_addr_ne p pg Hp)). rewrite lookup_insert_eq.
    split; [done|]. split; [done|]. right. done.
  - destruct (Hopen d q Ht Hq) as (qg & x & Hqg & Hx & Hpr).
    exists qg, x. simpl. fold c a.
    assert (q ≠ c) as Hqc by (intros ->; by rewrite cow_c_fresh in Hqg).
    rewrite lookup_insert_ne by done. rewrite lookup_insert_ne by done.
    split; [done|]. split; [|done].
    assert (address pg ≠ address qg) as Hne.
    { intros Heq. apply Hqp. symmetry. by apply (wf_addr _ _ Hwf p q pg qg). }
    rewrite lookup_alter_ne by done.
    by rewrite lookup_insert_ne by (apply not_eq_sym, (cow_addr_ne q qg Hqg)).
Qed.

End CopyOnWrite.

(** ** Frames for the bytes of a storage area *)

Lemma lsa_byte_alt s t i :
  lsa_byte s t i =
  d ← tls_heap s !! t;
  q ← pages d !! Z.to_nat (i / page_size s);
  bs ← page_bytes s q;
  bs !! Z.to_nat (i mod page_size s).
Proof.
  unfold lsa_byte, page_bytes.
  destruct (tls_heap s !! t) as [d|]; [simpl|done].
  destruct (pages d !! Z.to_nat (i / page_size s)) as [q|]; [simpl|done].
  destruct (page_heap s !! q) as [qg|]; [simpl|done].
  by destruct (mem s !! address qg).
Qed.

Lemma lsa_byte_frame s s' t :
  tls_heap s' !! t = tls_heap s !! t → page_size s' = page_size s →
  (∀ d q, tls_heap s !! t = Some d → q ∈ pages d → page_bytes s' q = page_bytes s q) →
  ∀ i, lsa_byte s' t i = lsa_byte s t i.
Proof.
  intros Ht Hps Hb i. rewrite !lsa_byte_alt, Ht, Hps.
  destruct (tls_heap s !! t) as [d|] eqn:Hd; [simpl|done].
  destruct (pages d !! Z.to_nat (i / page_size s)) as [q|] eqn:Hq; [simpl|done].
  by rewrite (Hb d q eq_refl (list_elem_of_lookup_2 _ _ _ Hq)).
Qed.

Lemma write_rel_refl t s : write_rel t s s.
Proof. split; try done. intros d Hd. by exists d. Qed.

Lemma write_rel_trans t s1 s2 s3 : write_rel t s1 s2 → write_rel t s2 s3 → write_rel t s1 s3.
Proof.
  intros [] []. split; try congruence.
  - intros d Hd. destruct (wr_desc0 d Hd) as (d2 & Hd2 & ? & ? & ? & ?).
    destruct (wr_desc1 d2 Hd2) as (d3 & Hd3 & ? & ? & ? & ?).
    exists d3. repeat split; congruence.
  - intros t2 Hne. rewrite wr_others1, wr_others0; done.
  - intros t2 i Hne. rewrite wr_frame1, wr_frame0; done.
Qed.

Lemma write_rel_oracle t s o : write_rel t s (with_oracle o s).
Proof. split; try done. intros d Hd. by exists d. Qed.

Section CowCheck.

Variable gp : Z.
Hypothesis gp_pos : 0 < gp.

Lemma cow_state_rel s t d pn p pg m :
  wf gp s → tls_heap s !! t = Some d → pages d !! Z.to_nat pn = Some p →
  page_heap s !! p = Some pg → 1 < ref_count pg → mem s !! address pg = Some m →
  write_rel t s (cow_state s t d pn p pg m).
Proof.
  intros Hwf Ht Hslot Hp Hrc Hm. split; try done.
  - intros d0 Hd0. simplify_eq. simpl. rewrite lookup_insert_eq. eexists. split; [done|].
    simpl. by rewrite length_insert.
  - intros t2 Hne. simpl. by rewrite lookup_insert_ne.
  - intros t2 i Hne. apply lsa_byte_frame; [simpl; by rewrite lookup_insert_ne|done|].
    intros d2 q Hd2 Hq. destruct (wf_desc _ _ Hwf t2 d2 Hd2) as (_ & _ & Hheap).
    destruct (Hheap q Hq) as [qg Hqg].
    eapply (cow_state_page_bytes gp); eauto.
Qed.

Lemma cow_state_own_bytes s t d pn p pg m i :
  wf gp s → tls_heap s !! t = Some d → pages d !! Z.to_nat pn = Some p →
  page_heap s !! p = Some pg → 1 < ref_count pg → mem s !! address pg = Some m →
  lsa_byte (cow_state s t d pn p pg m) t i = lsa_byte s t i.
Proof.
  intros Hwf Ht Hslot Hp Hrc Hm. rewrite !lsa_byte_alt. rewrite Ht.
  simpl tls_heap. rewrite lookup_insert_eq. simpl.
  destruct (decide (Z.to_nat (i / page_size s) = Z.to_nat pn)) as [Heq|Hne].
  - rewrite Heq, Hslot. rewrite list_lookup_insert_eq by (by eapply lookup_lt_Some).
    simpl. erewrite (cow_state_copy_bytes gp); eauto.
  - rewrite list_lookup_insert_ne by done.
    destruct (pages d !! Z.to_nat (i / page_size s)) as [q|] eqn:Hq; [simpl|done].
    destruct (wf_desc _ _ Hwf t d Ht) as (_ & _ & Hheap).
    destruct (Hheap q (list_elem_of_lookup_2 _ _ _ Hq)) as [qg Hqg].
    erewrite (cow_state_page_bytes gp); eauto.
Qed.

Lemma cow_check_spec s t d offset idx :
  wf gp s → tls_heap s !! t = Some d → pages_open s t →
  cur_exclusive s t offset idx →
  match cow_check t offset idx s with
  | Ret ok s' =>
      wf gp s' ∧ write_rel t s s' ∧ pages_open s' t ∧
      (∀ i, lsa_byte s' t i = lsa_byte s t i) ∧
      (ok = true → ∀ d' p pg, tls_heap s' !! t = Some d' →
         pages d' !! Z.to_nat (idx / page_size s) = Some p →
         page_heap s' !! p = Some pg → ref_count pg ≤ 1) ∧
      (ok = false → ∃ o, s' = with_oracle o s) ∧
      (oracle s = [] → ok = true ∧ oracle s' = [])
  | Undef => ¬ (Z.to_nat (idx / page_size s) < length (pages d))%nat
  | _ => False
  end.
Proof.
  intros Hwf Ht Hopen Hex. unfold cow_check.
  rewrite (bind_Ret _ _ _ _ _ (eq_refl : get s = Ret s s)).
  assert (∀ o, wf gp (with_oracle o s) ∧ write_rel t s (with_oracle o s) ∧
               pages_open (with_oracle o s) t ∧
               (∀ i, lsa_byte (with_oracle o s) t i = lsa_byte s t i)) as Hsame.
  { intros o. split; [by apply wf_with_oracle|]. split; [apply write_rel_oracle|]. done. }
  destruct ((idx mod page_size s =? 0) || (idx =? offset)) eqn:Hcheck.
  2:{ apply orb_false_iff in Hcheck as [H1%Z.eqb_neq H2%Z.eqb_neq]. unfold ret.
      split; [done|]. split; [apply write_rel_refl|]. split; [done|]. split; [done|].
      split; [|split; [done|done]]. intros _ d' p pg Hd' Hp Hpg. by apply (Hex H1 H2 d' p pg). }
  destruct (pages d !! Z.to_nat (idx / page_size s)) as [p|] eqn:Hslot.
  2:{ rewrite (bind_Undef _ _ _ (tls_page_None _ _ _ _ Ht Hslot)).
      apply lookup_ge_None in Hslot. lia. }
  rewrite (bind_Ret _ _ _ _ _ (tls_page_Ret _ _ _ _ _ Ht Hslot)).
  pose proof (list_elem_of_lookup_2 _ _ _ Hslot) as Hin.
  destruct (Hopen d p Ht Hin) as (pg & m & Hpg & Hm & Hprot).
  rewrite (bind_Ret _ _ _ _ _ (deref_page_Ret _ _ _ Hpg)).
  destruct (ref_count pg >? 1) eqn:Hrc.
  2:{ unfold ret. split; [done|]. split; [apply write_rel_refl|]. split; [done|].
      split; [done|]. split; [|split; [done|done]].
      intros _ d' p' pg' Hd' Hp' Hpg'. simplify_eq. lia. }
  apply Z.gtb_lt in Hrc.
  destruct (hd true (oracle s)) eqn:H1.
  2:{ rewrite (cow_split_fail1 _ _ _ _ H1). destruct (Hsame (tl (oracle s))) as (?&?&?&?).
      split; [done|]. split; [done|]. split; [done|]. split; [done|]. split; [done|].
      split; [by eexists|]. intros Ho. by rewrite Ho in H1. }
  destruct (hd true (tl (oracle s))) eqn:H2.
  2:{ rewrite (cow_split_fail2 _ _ _ _ H1 H2).
      destruct (Hsame (tl (tl (oracle s)))) as (?&?&?&?).
      split; [done|]. split; [done|]. split; [done|]. split; [done|]. split; [done|].
      split; [by eexists|]. intros Ho. by rewrite Ho in H2. }
  assert (m_prot m = PROT_READ_WRITE) as Hrw by (destruct Hprot as [?|[_ ?]]; [done|lia]).
  assert (page_size s = gp) as Hps by (by apply (wf_page_size gp s t d)).
  rewrite (cow_split_Ret s t d _ p pg m Ht (lookup_lt_Some _ _ _ Hslot) Hpg Hm Hrw
             ltac:(lia) H1 H2).
  split; [eapply (cow_state_wf gp); eauto|].
  split; [by apply cow_state_rel|].
  split; [eapply (cow_state_open gp); eauto|].
  split; [intros i; by apply cow_state_own_bytes|].
  split; [|split; [done|]].
  - intros _ d' p' pg'.
    destruct (cow_state_slot s t d (idx / page_size s) p pg m Hpg)
      as (d0 & Hd0 & Hpages & _ & _ & _ & Hc).
    intros Hd'. rewrite Hd0 in Hd'. injection Hd' as <-. rewrite Hpages.
    rewrite list_lookup_insert_eq by (by eapply lookup_lt_Some).
    intros [= <-]. rewrite Hc. intros [= <-]. simpl. lia.
  - intros Ho. split; [done|]. simpl. by rewrite Ho.
Qed.

End CowCheck.

(** ** The byte store of the write loop *)

Section StoreStep.

Variable gp : Z.
Hypothesis gp_pos : 0 < gp.

Lemma wf_with_mem s mem' :
  wf gp s →
  (∀ a x, mem s !! a = Some x →
     ∃ x', mem' !! a = Some x' ∧ length (m_bytes x') = length (m_bytes x)) →
  wf gp (with_mem mem' s).
Proof.
  intros [] Hmem. split; simpl; try done.
  intros p pg Hpg. destruct (wf_mapped0 p pg Hpg) as (x & Hx & Hl).
  destruct (Hmem _ _ Hx) as (x' & Hx' & Hl'). exists x'. split; [done|]. congruence.
Qed.

Variables (s : tls_state) (t : Z) (d : TLS) (idx : Z) (p : Z) (pg : page) (m : mapping) (b : byte).
Hypothesis Hwf : wf gp s.
Hypothesis Ht : tls_heap s !! t = Some d.
Hypothesis Hidx : 0 ≤ idx.
Hypothesis Hslot : pages d !! Z.to_nat (idx / page_size s) = Some p.
Hypothesis Hp : page_heap s !! p = Some pg.
Hypothesis Hrc : ref_count pg ≤ 1.
Hypothesis Hm : mem s !! address pg = Some m.

Let s' := with_mem (<[address pg := mkMapping (m_prot m)
                        (<[Z.to_nat (idx mod page_size s) := b]> (m_bytes m))]> (mem s)) s.

Local Lemma store_ps : page_size s = gp.
Proof. by apply (wf_page_size gp s t d). Qed.

Local Lemma store_off : (Z.to_nat (idx mod page_size s) < length (m_bytes m))%nat.
Proof.
  destruct (wf_mapped _ _ Hwf p pg Hp) as (x & Hx & Hl). simplify_eq. rewrite Hl.
  pose proof (Z.mod_pos_bound idx (page_size s)). rewrite store_ps in *. lia.
Qed.

Lemma store_state_wf : wf gp s'.
Proof.
  apply wf_with_mem; [done|]. intros a x Hx.
  destruct (decide (a = address pg)) as [->|Hne].
  - rewrite lookup_insert_eq. eexists. split; [done|]. simpl. rewrite length_insert.
    congruence.
  - rewrite lookup_insert_ne by done. by exists x.
Qed.

Local Lemma store_exclusive t2 d2 : tls_heap s !! t2 = Some d2 → p ∈ pages d2 → t2 = t.
Proof.
  intros Ht2 Hin. destruct (wf_count _ _ Hwf p pg Hp) as [Hcnt Hpos].
  apply (holders_one_unique (tls_heap s) t2 d2 t d p); try done; [lia|].
  by eapply list_elem_of_lookup_2.
Qed.

Lemma store_state_other_bytes q : q ≠ p → page_bytes s' q = page_bytes s q.
Proof.
  intros Hne. unfold page_bytes. simpl.
  destruct (page_heap s !! q) as [qg|] eqn:Hq; [simpl|done].
  rewrite lookup_insert_ne; [done|].
  intros Heq. apply Hne. symmetry. by apply (wf_addr _ _ Hwf p q pg qg).
Qed.

Lemma store_state_own_bytes :
  page_bytes s' p = Some (<[Z.to_nat (idx mod page_size s) := b]> (m_bytes m)).
Proof. unfold page_bytes. simpl. rewrite Hp. simpl. by rewrite lookup_insert_eq. Qed.

Lemma store_state_rel : write_rel t s s'.
Proof.
  split; try done.
  - intros d0 Hd0. by exists d0.
  - intros t2 i Hne. apply lsa_byte_frame; [done..|].
    intros d2 q Hd2 Hq. apply store_state_other_bytes.
    intros ->. apply Hne. by apply (store_exclusive t2 d2).
Qed.

Lemma store_state_open : pages_open s t → pages_open s' t.
Proof.
  intros Hopen d0 q Hd0 Hq. destruct (Hopen d0 q Hd0 Hq) as (qg & x & Hqg & Hx & Hpr).
  exists qg. simpl. destruct (decide (address qg = address pg)) as [Heq|Hne].
  - assert (q = p) as -> by (by apply (wf_addr _ _ Hwf q p qg pg)). simplify_eq.
    rewrite lookup_insert_eq. eexists. split; [done|]. split; [done|]. done.
  - rewrite lookup_insert_ne by done. by exists x.
Qed.

Lemma store_state_lsa_byte i :
  0 ≤ i →
  lsa_byte s' t i = if decide (i = idx) then Some b else lsa_byte s t i.
Proof.
  intros Hi. pose proof store_ps as Hps. pose proof store_off as Hoff.
  rewrite !lsa_byte_alt. change (tls_heap s') with (tls_heap s).
  change (page_size s') with (page_size s). rewrite Ht. simpl.
  destruct (decide (i = idx)) as [->|Hne].
  - rewrite Hslot. simpl. rewrite store_state_own_bytes. simpl.
    by rewrite list_lookup_insert_eq.
  - destruct (pages d !! Z.to_nat (i / page_size s)) as [q|] eqn:Hq; [simpl|done].
    destruct (decide (q = p)) as [->|Hqp].
    + rewrite store_state_own_bytes. unfold page_bytes. rewrite Hp. simpl. rewrite Hm. simpl.
      apply list_lookup_insert_ne.
      destruct (wf_desc _ _ Hwf t d Ht) as (_ & Hnd & _).
      pose proof (NoDup_lookup _ _ _ _ Hnd Hq Hslot) as Hsame.
      intros Hmod. apply Hne.
      rewrite (Z.div_mod i (page_size s)), (Z.div_mod idx (page_size s)) by lia.
      assert (0 ≤ i / page_size s) by (apply Z.div_pos; lia).
      assert (0 ≤ idx / page_size s) by (apply Z.div_pos; lia).
      pose proof (Z.mod_pos_bound i (page_size s)).
      pose proof (Z.mod_pos_bound idx (page_size s)).
      assert (i / page_size s = idx / page_size s) as -> by lia.
      assert (i mod page_size s = idx mod page_size s) as -> by lia. done.
    + by rewrite store_state_other_bytes.
Qed.

Lemma store_state_next offset : cur_exclusive s' t offset (idx + 1).
Proof.
  pose proof store_ps as Hps.
  intros Hmod _ d0 q qg Hd0 Hq Hqg. simpl in *. simplify_eq.
  assert ((idx + 1) / page_size s = idx / page_size s) as Hdiv.
  { pose proof (Z.mod_pos_bound idx (page_size s)).
    pose proof (Z.div_mod idx (page_size s)).
    pose proof (Z.mod_pos_bound (idx + 1) (page_size s)).
    pose proof (Z.div_mod (idx + 1) (page_size s)).
    assert (idx mod page_size s + 1 < page_size s ∨ idx mod page_size s + 1 = page_size s) as [Hlt|Heq] by lia.
    - symmetry. apply (Z.div_unique (idx + 1) (page_size s) (idx / page_size s) (idx mod page_size s + 1)); lia.
    - exfalso. apply Hmod.
      replace (idx + 1) with ((idx / page_size s + 1) * page_size s) by lia.
      apply Z.mod_mul. lia. }
  rewrite Hdiv in Hq. simplify_eq. done.
Qed.

End StoreStep.

(** ** The write loop *)

Lemma write_bytes_S t offset buffer n cnt idx s :
  write_bytes t offset buffer (S n) cnt idx s =
  (ok <- cow_check t offset idx ;;
   if ok : bool then
     p <- tls_page t (idx / page_size s) ;;
     pg <- deref_page p ;;
     b <- buffer_get buffer cnt ;;
     store (address pg) (idx mod page_size s) b ;;;
     write_bytes t offset buffer n (cnt + 1) (idx + 1)
   else ret false) s.
Proof. done. Qed.

Lemma buffer_get_Ret buffer cnt b s :
  buffer !! Z.to_nat cnt = Some b → buffer_get buffer cnt s = Ret b s.
Proof. intros H. unfold buffer_get. by rewrite H. Qed.

Lemma buffer_get_None buffer cnt s :
  buffer !! Z.to_nat cnt = None → buffer_get buffer cnt s = Undef.
Proof. intros H. unfold buffer_get. by rewrite H. Qed.

Lemma page_open_writable s p pg m :
  page_open s p → page_heap s !! p = Some pg → mem s !! address pg = Some m →
  writable (m_prot m) = true.
Proof.
  intros (pg' & m' & Hpg' & Hm' & Hpr) Hpg Hm. simplify_eq.
  by destruct Hpr as [->|[-> _]].
Qed.

Section WriteLoop.

Variable gp : Z.
Hypothesis gp_pos : 0 < gp.

Lemma write_bytes_spec t offset buffer n : ∀ cnt idx s d,
  wf gp s → tls_heap s !! t = Some d → pages_open s t →
  cur_exclusive s t offset idx → 0 ≤ cnt → 0 ≤ idx →
  match write_bytes t offset buffer n cnt idx s with
  | Ret ok s' =>
      wf gp s' ∧ write_rel t s s' ∧ pages_open s' t ∧
      (oracle s = [] → ok = true ∧ oracle s' = []) ∧
      ∃ k, (k ≤ n)%nat ∧ (ok = true → k = n) ∧ (ok = false → (k < n)%nat) ∧
        range_ok (length (pages d)) (page_size s) (length buffer) k cnt idx ∧
        (∀ i, 0 ≤ i →
           lsa_byte s' t i =
           if decide (idx ≤ i < idx + Z.of_nat k)
           then buffer !! Z.to_nat (cnt + (i - idx)) else lsa_byte s t i)
  | Undef => ¬ range_ok (length (pages d)) (page_size s) (length buffer) n cnt idx
  | _ => False
  end.
Proof.
  induction n as [|n IH]; intros cnt idx s d Hwf Ht Hopen Hex Hcnt Hidx.
  - simpl. split; [done|]. split; [apply write_rel_refl|]. split; [done|]. split; [done|].
    exists 0%nat. split; [done|]. split; [done|]. split; [done|]. split.
    + intros k Hk. lia.
    + intros i Hi. by rewrite decide_False by lia.
  - rewrite write_bytes_S.
    pose proof (cow_check_spec gp gp_pos s t d offset idx Hwf Ht Hopen Hex) as Hcow.
    unfold bind at 1.
    destruct (cow_check t offset idx s) as [ok s1| | |]; [|done|done|].
    2:{ rewrite range_ok_S by done. intros (Hlt & _). exact (Hcow Hlt). }
    destruct Hcow as (Hwf1 & Hrel1 & Hopen1 & Hbytes1 & Hex1 & Hfail1 & Hor1).
    destruct ok.
    2:{ unfold ret. split; [done|]. split; [done|]. split; [done|].
        split; [intros Ho; by destruct (Hor1 Ho)|].
        exists 0%nat. split; [lia|]. split; [done|]. split; [lia|]. split.
        - intros k Hk. lia.
        - intros i Hi. rewrite decide_False by lia. apply Hbytes1. }
    destruct (wr_desc _ _ _ Hrel1 d Ht) as (d1 & Hd1 & Htid1 & Hsize1 & Hnum1 & Hlen1).
    pose proof (wr_ps _ _ _ Hrel1) as Hps1.
    destruct (pages d1 !! Z.to_nat (idx / page_size s)) as [p|] eqn:Hslot.
    2:{ rewrite (bind_Undef _ _ _ (tls_page_None _ _ _ _ Hd1 Hslot)).
        rewrite range_ok_S by done. apply lookup_ge_None in Hslot. lia. }
    rewrite (bind_Ret _ _ _ _ _ (tls_page_Ret _ _ _ _ _ Hd1 Hslot)).
    pose proof (list_elem_of_lookup_2 _ _ _ Hslot) as Hin.
    destruct (Hopen1 d1 p Hd1 Hin) as (pg & m & Hpg & Hm & Hprot).
    rewrite (bind_Ret _ _ _ _ _ (deref_page_Ret _ _ _ Hpg)).
    destruct (buffer !! Z.to_nat cnt) as [b|] eqn:Hbuf.
    2:{ rewrite (bind_Undef _ _ _ (buffer_get_None _ _ _ Hbuf)).
        rewrite range_ok_S by done. apply lookup_ge_None in Hbuf. lia. }
    rewrite (bind_Ret _ _ _ _ _ (buffer_get_Ret _ _ _ _ Hbuf)).
    assert (ref_count pg ≤ 1) as Hrc by (by apply (Hex1 eq_refl d1 p pg)).
    rewrite <- Hps1 in Hslot.
    assert (writable (m_prot m) = true) as Hw.
    { destruct Hprot as [->|[-> _]]; done. }
    pose proof (store_off gp gp_pos s1 t d1 idx p pg m Hwf1 Hd1 Hslot Hpg Hm) as Hoff.
    rewrite <- Hps1.
    rewrite (bind_Ret _ _ _ _ _ (store_Ret _ _ _ _ b Hm Hw Hoff)).
    set (s2 := with_mem _ s1).
    assert (wf gp s2) as Hwf2 by (eapply (store_state_wf gp); eauto).
    assert (write_rel t s1 s2) as Hrel2 by (eapply (store_state_rel gp); eauto).
    assert (pages_open s2 t) as Hopen2 by (eapply (store_state_open gp); eauto).
    assert (cur_exclusive s2 t offset (idx + 1)) as Hex2
      by (eapply (store_state_next gp); eauto).
    specialize (IH (cnt + 1) (idx + 1) s2 d1 Hwf2 Hd1 Hopen2 Hex2 ltac:(lia) ltac:(lia)).
    rewrite Hlen1 in IH. change (page_size s2) with (page_size s1) in IH.
    rewrite Hps1 in IH.
    destruct (write_bytes t offset buffer n (cnt + 1) (idx + 1) s2) as [ok s3| | |];
      [|done|done|].
    2:{ rewrite range_ok_S by done. intros (_ & _ & Hr). rewrite Hps1 in Hr. exact (IH Hr). }
    destruct IH as (Hwf3 & Hrel3 & Hopen3 & Hor3 & k & Hk & Hkt & Hkf & Hrange & Hbytes3).
    rewrite ?Hps1. split; [done|].
    split; [eapply write_rel_trans; [|done]; eapply write_rel_trans; done|].
    split; [done|]. split.
    { intros Ho. destruct (Hor1 Ho) as [_ Ho1]. by apply Hor3. }
    exists (S k). split; [lia|]. split; [intros ?; f_equal; by apply Hkt|].
    split; [intros ?; apply ->Nat.succ_lt_mono; by apply Hkf|]. split.
    + rewrite range_ok_S by done. split; [|split; [|done]].
      * apply lookup_lt_Some in Hslot. rewrite Hps1 in Hslot. lia.
      * by apply lookup_lt_Some in Hbuf.
    + intros i Hi. rewrite Hbytes3 by done.
      destruct (decide (idx + 1 ≤ i < idx + 1 + Z.of_nat k)).
      * rewrite decide_True by lia. f_equal. lia.
      * pose proof (store_state_lsa_byte gp gp_pos s1 t d1 idx p pg m b
                      Hwf1 Hd1 Hidx Hslot Hpg Hm i Hi) as Hst.
        fold s2 in Hst. rewrite Hst.
        destruct (decide (i = idx)) as [->|Hne].
        -- rewrite decide_True by lia. by rewrite Z.sub_diag, Z.add_0_r.
        -- rewrite decide_False by lia. apply Hbytes1.
Qed.

End WriteLoop.

(** ** [tls_write] *)

Lemma write_rel_same_bytes t s m' : same_bytes (mem s) m' → write_rel t s (with_mem m' s).
Proof.
  intros Hsb. split; try done.
  - intros d Hd. by exists d.
  - intros t2 i _. by apply lsa_byte_same_bytes.
Qed.

Section Write.

Variable gp : Z.
Hypothesis gp_pos : 0 < gp.

Lemma unprotected_open s t d :
  wf gp s → tls_heap s !! t = Some d →
  pages_open
    (with_mem (protect_list PROT_READ_WRITE (page_addr (page_heap s) <$> pages d) (mem s)) s) t.
Proof.
  intros Hwf Ht d' p Hd' Hp.
  destruct (unprotected_readable gp s t d Hwf Ht d' p Hd' Hp) as (pg & m & Hpg & Hm & Hrw & _).
  exists pg, m. split; [done|]. split; [done|]. by left.
Qed.

Lemma tls_write_spec s self offset len buffer :
  wf gp s → 0 ≤ offset →
  match table_find self (hash_table s) with
  | None => tls_write self offset len buffer s = Ret (-1) s
  | Some e =>
      ∃ d, tls_heap s !! elem_tls e = Some d ∧
      if u32 (offset + len) >? size d
      then tls_write self offset len buffer s = Ret (-1) s
      else
        let n := Z.to_nat (u32 (offset + len) - offset) in
        match tls_write self offset len buffer s with
        | Ret r s' =>
            wf gp s' ∧ write_rel (elem_tls e) s s' ∧
            (oracle s = [] → r = 0) ∧
            ∃ k, (k ≤ n)%nat ∧ (r = 0 ∧ k = n ∨ r = -1 ∧ (k < n)%nat ∧ pages_open s' (elem_tls e)) ∧
              range_ok (length (pages d)) (page_size s) (length buffer) k 0 offset ∧
              (∀ i, 0 ≤ i →
                 lsa_byte s' (elem_tls e) i =
                 if decide (offset ≤ i < offset + Z.of_nat k)
                 then buffer !! Z.to_nat (i - offset) else lsa_byte s (elem_tls e) i)
        | Undef => ¬ range_ok (length (pages d)) (page_size s) (length buffer) n 0 offset
        | _ => False
        end
  end.
Proof.
  intros Hwf Hoff. unfold tls_write.
  rewrite (bind_Ret _ _ _ _ _ (eq_refl : get s = Ret s s)).
  destruct (table_find self (hash_table s)) as [e|] eqn:Hfind; [|done].
  destruct (wf_find _ _ _ _ Hwf Hfind) as (Hin & Htid & d & Hd & Hdt).
  exists d. split; [done|].
  rewrite (bind_Ret _ _ _ _ _ (deref_TLS_Ret _ _ _ Hd)).
  destruct (u32 (offset + len) >? size d) eqn:Hbound; [done|].
  destruct (wf_desc _ _ Hwf _ _ Hd) as (Hnum & Hnd & Hheap).
  unfold unprotect_all, protect_all.
  pose proof (setprot_all PROT_READ_WRITE _ _ _ Hd Hnum (wf_pages_mapped _ _ _ _ Hwf Hd)) as Hun.
  rewrite (bind_Ret _ _ _ _ _ Hun).
  set (s1 := with_mem _ s) in *.
  assert (wf gp s1) as Hwf1 by (apply wf_same_bytes; [done|apply protect_list_same_bytes]).
  assert (write_rel (elem_tls e) s s1) as Hrel1
    by (apply write_rel_same_bytes, protect_list_same_bytes).
  assert (∀ i, lsa_byte s1 (elem_tls e) i = lsa_byte s (elem_tls e) i) as Hb1
    by (intros i; apply lsa_byte_same_bytes, protect_list_same_bytes).
  pose proof (write_bytes_spec gp gp_pos (elem_tls e) offset buffer
                (Z.to_nat (u32 (offset + len) - offset)) 0 offset s1 d Hwf1 Hd
                (unprotected_open s _ d Hwf Hd)) as Hloop.
  unfold bind at 1.
  destruct (write_bytes _ offset buffer _ 0 offset s1) as [ok s2| | |];
    [|apply Hloop; [by intros _ ?|lia|lia]..].
  destruct Hloop as (Hwf2 & Hrel2 & Hopen2 & Hor2 & k & Hk & Hkt & Hkf & Hrange & Hbytes2);
    [by intros _ ?|lia|lia|].
  destruct (wr_desc _ _ _ Hrel2 d Hd) as (d2 & Hd2 & Htid2 & Hsize2 & Hnum2 & Hlen2).
  destruct ok.
  - destruct (wf_desc _ _ Hwf2 _ _ Hd2) as (Hnum2' & _ & _).
    rewrite <- Hnum2.
    pose proof (setprot_all PROT_NONE (elem_tls e) d2 s2 Hd2 Hnum2'
                  (wf_pages_mapped _ _ _ _ Hwf2 Hd2)) as Hpr.
    rewrite (bind_Ret _ _ _ _ _ Hpr). unfold ret.
    split; [apply wf_same_bytes; [done|apply protect_list_same_bytes]|].
    split.
    { eapply write_rel_trans; [done|]. eapply write_rel_trans; [done|].
      apply write_rel_same_bytes, protect_list_same_bytes. }
    split; [done|].
    exists k. split; [done|]. split; [left; split; [done|by apply Hkt]|]. split; [done|].
    intros i Hi. rewrite lsa_byte_same_bytes by apply protect_list_same_bytes.
    rewrite Hbytes2 by done. rewrite Z.add_0_l, Hb1. done.
  - unfold ret. split; [done|]. split; [by eapply write_rel_trans|].
    split; [intros Ho; by destruct (Hor2 Ho)|].
    exists k. split; [done|]. split; [right; split; [done|split; [by apply Hkf|done]]|].
    split; [done|].
    intros i Hi. rewrite Hbytes2 by done. rewrite Z.add_0_l, Hb1. done.
Qed.

Lemma tls_write_wf s self offset len buffer r s' :
  wf gp s → 0 ≤ offset → tls_write self offset len buffer s = Ret r s' → wf gp s'.
Proof.
  intros Hwf Hoff Hr. pose proof (tls_write_spec s self offset len buffer Hwf Hoff) as Hspec.
  destruct (table_find self (hash_table s)) as [e|];
    [|rewrite Hspec in Hr; by injection Hr as <- <-].
  destruct Hspec as (d & Hd & Hspec).
  destruct (u32 (offset + len) >? size d);
    [rewrite Hspec in Hr; by injection Hr as <- <-|].
  rewrite Hr in Hspec. by destruct Hspec as (? & _).
Qed.

End Write.

(** ** [tls_destroy] *)

Lemma release_pages_cons p l st :
  release_pages (p :: l) st = release_pages l (release_page st p).
Proof. done. Qed.

Lemma release_page_heap ph mem p q :
  (release_page (ph, mem) p).1 !! q =
  if decide (q = p) then (ph !! p ≫= released) else ph !! q.
Proof.
  unfold release_page, released. simpl.
  destruct (decide (q = p)) as [->|Hne].
  - destruct (ph !! p) as [pg|] eqn:Hp; simpl; [|done].
    destruct (ref_count pg =? 1); simpl; [apply lookup_delete_eq|apply lookup_insert_eq].
  - destruct (ph !! p) as [pg|] eqn:Hp; simpl; [|done].
    destruct (ref_count pg =? 1); simpl;
      [by rewrite lookup_delete_ne|by rewrite lookup_insert_ne].
Qed.

Lemma release_pages_heap l : ∀ ph mem q,
  NoDup l →
  (release_pages l (ph, mem)).1 !! q =
  if decide (q ∈ l) then (ph !! q ≫= released) else ph !! q.
Proof.
  induction l as [|p l IH]; intros ph mem q Hnd.
  - by rewrite decide_False by apply not_elem_of_nil.
  - apply NoDup_cons in Hnd as [Hp Hnd]. rewrite release_pages_cons.
    destruct (release_page (ph, mem) p) as [ph1 mem1] eqn:Hrel.
    rewrite IH by done.
    assert (ph1 !! q = if decide (q = p) then (ph !! p ≫= released) else ph !! q) as Hq.
    { change ph1 with (ph1, mem1).1. rewrite <- Hrel. apply release_page_heap. }
    rewrite Hq. destruct (decide (q = p)) as [->|Hne].
    + rewrite decide_False by done. by rewrite decide_True by left.
    + destruct (decide (q ∈ l)).
      * by rewrite decide_True by (by right).
      * rewrite decide_False; [done|]. by intros [?|?]%elem_of_cons.
Qed.

Lemma release_pages_mem_other l : ∀ ph mem a,
  NoDup l →
  (∀ p pg, p ∈ l → ph !! p = Some pg → ref_count pg = 1 → address pg ≠ a) →
  (release_pages l (ph, mem)).2 !! a = mem !! a.
Proof.
  induction l as [|p l IH]; intros ph mem a Hnd Hno; [done|].
  apply NoDup_cons in Hnd as [Hp Hnd]. rewrite release_pages_cons.
  destruct (release_page (ph, mem) p) as [ph1 mem1] eqn:Hrel.
  rewrite IH; [| done |].
  - unfold release_page in Hrel. simpl in Hrel.
    destruct (ph !! p) as [pg|] eqn:Hpg; [|by simplify_eq].
    destruct (Z.eqb_spec (ref_count pg) 1) as [Hone|Hmany]; simplify_eq; [|done].
    apply lookup_delete_ne. apply (Hno p pg); [left|done..].
  - intros q qg Hq Hqg. apply (Hno q qg); [by right|].
    assert (q ≠ p) as Hne by (by intros ->).
    pose proof (release_page_heap ph mem p q) as Hh. rewrite Hrel in Hh. simpl in Hh.
    rewrite decide_False in Hh by done. congruence.
Qed.

Lemma release_pages_mem_gone l : ∀ ph mem p pg,
  NoDup l → p ∈ l → ph !! p = Some pg → ref_count pg = 1 →
  (∀ q qg, q ∈ l → ph !! q = Some qg → address qg = address pg → q = p) →
  (release_pages l (ph, mem)).2 !! address pg = None.
Proof.
  induction l as [|x l IH]; intros ph mem p pg Hnd Hin Hp Hone Hinj;
    [by apply elem_of_nil in Hin|].
  apply NoDup_cons in Hnd as [Hx Hnd]. rewrite release_pages_cons.
  destruct (release_page (ph, mem) x) as [ph1 mem1] eqn:Hrel.
  apply elem_of_cons in Hin as [->|Hin].
  - rewrite release_pages_mem_other; [| done |].
    + unfold release_page in Hrel. simpl in Hrel. rewrite Hp in Hrel.
      rewrite Hone in Hrel. simpl in Hrel. simplify_eq. apply lookup_delete_eq.
    + intros q qg Hq Hqg _ Heq.
      assert (q ≠ x) as Hne by (by intros ->).
      pose proof (release_page_heap ph mem x q) as Hh. rewrite Hrel in Hh. simpl in Hh.
      rewrite decide_False in Hh by done. apply Hne.
      apply (Hinj q qg); [by right|congruence|done].
  - assert (p ≠ x) as Hne by (by intros ->).
    apply (IH ph1 mem1 p pg); try done.
    + pose proof (release_page_heap ph mem x p) as Hh. rewrite Hrel in Hh. simpl in Hh.
      rewrite decide_False in Hh by done. congruence.
    + intros q qg Hq Hqg Heq.
      assert (q ≠ x) as Hqx by (by intros ->).
      pose proof (release_page_heap ph mem x q) as Hh. rewrite Hrel in Hh. simpl in Hh.
      rewrite decide_False in Hh by done.
      apply (Hinj q qg); [by right|congruence|done].
Qed.

Lemma destroy_page_Ret s t d i p pg :
  tls_heap s !! t = Some d → pages d !! Z.to_nat i = Some p →
  page_heap s !! p = Some pg →
  destroy_page t i s =
  Ret tt (with_mem (release_page (page_heap s, mem s) p).2
            (with_page_heap (release_page (page_heap s, mem s) p).1 s)).
Proof.
  intros Ht Hslot Hp. unfold destroy_page.
  rewrite (bind_Ret _ _ _ _ _ (tls_page_Ret _ _ _ _ _ Ht Hslot)).
  rewrite (bind_Ret _ _ _ _ _ (deref_page_Ret _ _ _ Hp)).
  unfold release_page. simpl. rewrite Hp.
  destruct (ref_count pg =? 1).
  - rewrite (bind_Ret _ _ _ _ _ (munmap_Ret _ _)).
    erewrite free_page_Ret by (simpl; done). f_equal; by state_eq.
  - erewrite set_ref_count_Ret by done. f_equal; by state_eq.
Qed.

Lemma destroy_range t d suf : ∀ pre s,
  tls_heap s !! t = Some d → pages d = pre ++ suf → NoDup suf →
  (∀ p, p ∈ suf → is_Some (page_heap s !! p)) →
  for_range (destroy_page t) (Z.of_nat (length pre)) (length suf) s =
  Ret tt (with_mem (release_pages suf (page_heap s, mem s)).2
            (with_page_heap (release_pages suf (page_heap s, mem s)).1 s)).
Proof.
  induction suf as [|p suf IH]; intros pre s Ht Hpages Hnd Hall.
  - simpl. unfold ret. f_equal; by state_eq.
  - apply NoDup_cons in Hnd as [Hp Hnd].
    destruct (Hall p) as [pg Hpg]; [left|].
    change (length (p :: suf)) with (S (length suf)). rewrite for_range_S.
    erewrite bind_Ret; [|eapply destroy_page_Ret; eauto].
    2:{ rewrite Nat2Z.id, Hpages. by rewrite list_lookup_middle. }
    replace (Z.of_nat (length pre) + 1) with (Z.of_nat (length (pre ++ [p])))
      by (rewrite length_app; simpl; lia).
    rewrite IH; [|done| |done|].
    + rewrite release_pages_cons. simpl.
      destruct (release_page (page_heap s, mem s) p) as [ph1 mem1]. f_equal; by state_eq.
    + by rewrite Hpages, <- app_assoc.
    + intros q Hq. simpl. rewrite release_page_heap.
      rewrite decide_False by (by intros ->). apply Hall. by right.
Qed.

Lemma tls_destroy_None s self :
  table_find self (hash_table s) = None → tls_destroy self s = Ret (-1) s.
Proof.
  intros H. unfold tls_destroy. rewrite (bind_Ret _ _ _ _ _ (eq_refl : get s = Ret s s)).
  by rewrite H.
Qed.

Section Destroy.

Variable gp : Z.
Hypothesis gp_pos : 0 < gp.

Variables (s : tls_state) (self : Z) (e : hash_element) (d : TLS).
Hypothesis Hwf : wf gp s.
Hypothesis Hfind : table_find self (hash_table s) = Some e.
Hypothesis Hd : tls_heap s !! elem_tls e = Some d.

Lemma tls_destroy_Ret :
  tls_destroy self s = Ret 0 (destroy_state s self (elem_tls e) d).
Proof.
  unfold tls_destroy. rewrite (bind_Ret _ _ _ _ _ (eq_refl : get s = Ret s s)).
  rewrite Hfind. rewrite (bind_Ret _ _ _ _ _ (deref_TLS_Ret _ _ _ Hd)).
  destruct (wf_desc _ _ Hwf _ _ Hd) as (Hnum & Hnd & Hheap).
  rewrite Hnum, Nat2Z.id.
  rewrite (bind_Ret _ _ _ _ _ (destroy_range (elem_tls e) d (pages d) [] s Hd eq_refl Hnd Hheap)).
  unfold modify at 1. unfold bind at 1.
  erewrite bind_Ret; [|eapply free_TLS_Ret; simpl; exact Hd].
  unfold ret. f_equal; by state_eq.
Qed.

Local Lemma destroy_self : elem_tid e = self ∧ e ∈ all_elems s ∧ tid d = self.
Proof.
  destruct (wf_find gp s self e Hwf Hfind) as (Hin & Htid & d' & Hd' & Hdt).
  by simplify_eq.
Qed.

Local Lemma destroy_elems :
  all_elems (destroy_state s self (elem_tls e) d) =
  filter (λ x, elem_tid x ≠ self) (all_elems s).
Proof. unfold all_elems. simpl. apply table_remove_filter, (wf_tids _ _ Hwf). Qed.

Local Lemma destroy_other_tls x :
  x ∈ all_elems s → elem_tid x ≠ self → elem_tls x ≠ elem_tls e.
Proof.
  intros Hx Hne Heq. destruct (wf_elem _ _ Hwf x Hx) as (dx & Hdx & Hdt).
  destruct destroy_self as (_ & _ & Hself). rewrite Heq in Hdx. congruence.
Qed.

Local Lemma destroy_other_tid t' d' :
  t' ≠ elem_tls e → tls_heap s !! t' = Some d' → tid d' ≠ self.
Proof.
  intros Hne Hd' Htid. destruct destroy_self as (Hself & Hin & _).
  pose proof (wf_registered _ _ Hwf t' d' Hd') as Hreg.
  assert (mkElem (tid d') t' = e) as Heq.
  { apply (NoDup_fmap_eq elem_tid (all_elems s)); [apply (wf_tids _ _ Hwf)|done..|].
    simpl. congruence. }
  apply Hne. by rewrite <- Heq.
Qed.

Lemma destroy_heap_lookup q :
  page_heap (destroy_state s self (elem_tls e) d) !! q =
  if decide (q ∈ pages d) then (page_heap s !! q ≫= released) else page_heap s !! q.
Proof.
  simpl. apply release_pages_heap. by destruct (wf_desc _ _ Hwf _ _ Hd) as (_ & ? & _).
Qed.

Local Lemma destroy_heap_inv q qg' :
  page_heap (destroy_state s self (elem_tls e) d) !! q = Some qg' →
  ∃ qg, page_heap s !! q = Some qg ∧ address qg' = address qg ∧
    ((q ∈ pages d ∧ ref_count qg ≠ 1 ∧ ref_count qg' = ref_count qg - 1) ∨
     ((q ∉ pages d) ∧ qg' = qg)).
Proof.
  rewrite destroy_heap_lookup. destruct (decide (q ∈ pages d)) as [Hin|Hnin].
  - destruct (page_heap s !! q) as [qg|]; [simpl|done]. unfold released.
    destruct (Z.eqb_spec (ref_count qg) 1); [done|]. intros [= <-].
    exists qg. split; [done|]. split; [done|]. left. done.
  - intros Hq. exists qg'. split; [done|]. split; [done|]. by right.
Qed.

Lemma destroy_mem_lookup q qg' :
  page_heap (destroy_state s self (elem_tls e) d) !! q = Some qg' →
  mem (destroy_state s self (elem_tls e) d) !! address qg' = mem s !! address qg'.
Proof.
  intros Hq. destruct (wf_desc _ _ Hwf _ _ Hd) as (_ & Hnd & _).
  simpl. apply release_pages_mem_other; [done|].
  intros p pg Hp Hpg Hone Heq.
  destruct (destroy_heap_inv q qg' Hq) as (qg & Hqg & Haddr & Hcase).
  assert (p = q) as -> by (apply (wf_addr _ _ Hwf p q pg qg); congruence).
  simplify_eq. destruct Hcase as [(_ & ? & _)|[? _]]; done.
Qed.

Lemma destroy_state_wf : wf gp (destroy_state s self (elem_tls e) d).
Proof.
  destruct destroy_self as (Hself & Hin & Htid).
  destruct (wf_desc _ _ Hwf _ _ Hd) as (Hnum & Hnd & Hheap).
  split.
  - simpl. rewrite length_fmap. apply (wf_buckets _ _ Hwf).
  - rewrite destroy_elems. apply NoDup_fmap_filter, (wf_tids _ _ Hwf).
  - intros x. rewrite destroy_elems. intros [Hne Hx]%list_elem_of_filter.
    destruct (wf_elem _ _ Hwf x Hx) as (dx & Hdx & Hdt). exists dx. split; [|done].
    simpl. rewrite lookup_delete_ne; [done|]. apply not_eq_sym. by apply destroy_other_tls.
  - intros t' d'. simpl. intros Hd'.
    assert (t' ≠ elem_tls e) as Hne by (intros ->; by rewrite lookup_delete_eq in Hd').
    rewrite lookup_delete_ne in Hd' by done.
    change (mkElem (tid d') t' ∈ all_elems (destroy_state s self (elem_tls e) d)).
    rewrite destroy_elems. apply list_elem_of_filter. split.
    + simpl. by apply (destroy_other_tid t').
    + by apply (wf_registered _ _ Hwf).
  - intros t' d'. simpl tls_heap. intros Hd'.
    assert (t' ≠ elem_tls e) as Hne by (intros ->; by rewrite lookup_delete_eq in Hd').
    rewrite lookup_delete_ne in Hd' by done.
    destruct (wf_desc _ _ Hwf _ _ Hd') as (Hnum' & Hnd' & Hheap').
    split; [done|]. split; [done|]. intros q Hq. rewrite destroy_heap_lookup.
    destruct (Hheap' q Hq) as [qg Hqg]. rewrite Hqg.
    destruct (decide (q ∈ pages d)) as [Hqd|]; [simpl|by eexists].
    unfold released. destruct (Z.eqb_spec (ref_count qg) 1) as [Hone|]; [|by eexists].
    exfalso. destruct (wf_count _ _ Hwf q qg Hqg) as [Hcnt _].
    assert (holders (tls_heap s) q = 1%nat) as Hh by lia.
    apply Hne. by apply (holders_one_unique (tls_heap s) t' d' (elem_tls e) d q).
  - intros q qg' Hq. destruct (destroy_heap_inv q qg' Hq) as (qg & Hqg & Haddr & Hcase).
    destruct (wf_count _ _ Hwf q qg Hqg) as [Hcnt Hpos]. simpl tls_heap.
    pose proof (holders_delete (tls_heap s) (elem_tls e) d q Hd) as Hh. unfold indic in Hh.
    destruct Hcase as [(Hqd & Hne & Hrc)|[Hqd ->]].
    + rewrite decide_True in Hh by done. lia.
    + rewrite decide_False in Hh by done. lia.
  - intros q qg' Hq. rewrite (destroy_mem_lookup q qg' Hq).
    destruct (destroy_heap_inv q qg' Hq) as (qg & Hqg & Haddr & _).
    rewrite Haddr. apply (wf_mapped _ _ Hwf q qg Hqg).
  - intros q1 q2 g1 g2 H1 H2 Heq.
    destruct (destroy_heap_inv q1 g1 H1) as (x1 & Hx1 & Ha1 & _).
    destruct (destroy_heap_inv q2 g2 H2) as (x2 & Hx2 & Ha2 & _).
    apply (wf_addr _ _ Hwf q1 q2 x1 x2); congruence.
  - right. simpl. destruct (wf_init _ _ Hwf) as [[_ He]|H]; [|done].
    rewrite He in Hd. done.
Qed.

Lemma destroy_state_unregistered :
  table_find self (hash_table (destroy_state s self (elem_tls e) d)) = None.
Proof.
  apply table_find_None. intros x Hx.
  change (x ∈ all_elems (destroy_state s self (elem_tls e) d)) in Hx.
  rewrite destroy_elems in Hx. by apply list_elem_of_filter in Hx as [? _].
Qed.

End Destroy.

(** ** [tls_clone] *)

Lemma share_pages_cons p l ph : share_pages (p :: l) ph = share_pages l (share_page ph p).
Proof. done. Qed.

Lemma share_page_lookup ph p q :
  share_page ph p !! q = if decide (q = p) then shared <$> ph !! p else ph !! q.
Proof.
  unfold share_page. destruct (decide (q = p)) as [->|Hne].
  - destruct (ph !! p) as [pg|] eqn:Hp; [by rewrite lookup_insert_eq|by rewrite Hp].
  - destruct (ph !! p) as [pg|]; [by rewrite lookup_insert_ne|done].
Qed.

Lemma share_pages_lookup l : ∀ ph q,
  NoDup l →
  share_pages l ph !! q = if decide (q ∈ l) then shared <$> ph !! q else ph !! q.
Proof.
  induction l as [|p l IH]; intros ph q Hnd.
  - by rewrite decide_False by apply not_elem_of_nil.
  - apply NoDup_cons in Hnd as [Hp Hnd]. rewrite share_pages_cons, IH by done.
    rewrite share_page_lookup. destruct (decide (q = p)) as [->|Hne].
    + rewrite decide_False by done. by rewrite decide_True by left.
    + destruct (decide (q ∈ l)).
      * by rewrite decide_True by (by right).
      * rewrite decide_False; [done|]. by intros [?|?]%elem_of_cons.
Qed.

Lemma clone_page_Ret s tn tg dn dt i p pg :
  tn ≠ tg → tls_heap s !! tn = Some dn → tls_heap s !! tg = Some dt →
  pages dt !! Z.to_nat i = Some p → (Z.to_nat i < length (pages dn))%nat →
  page_heap s !! p = Some pg →
  clone_page tn tg i s =
  Ret tt (with_page_heap (share_page (page_heap s) p)
            (with_tls_heap
               (<[tn := mkTLS (tid dn) (size dn) (page_num dn) (<[Z.to_nat i := p]> (pages dn))]>
                  (tls_heap s)) s)).
Proof.
  intros Hne Hn Ht Hslot Hlen Hp. unfold clone_page.
  rewrite (bind_Ret _ _ _ _ _ (tls_page_Ret _ _ _ _ _ Ht Hslot)).
  rewrite (bind_Ret _ _ _ _ _ (set_tls_page_Ret _ _ _ _ p Hn Hlen)).
  erewrite bind_Ret; [|eapply tls_page_Ret; [simpl; apply lookup_insert_eq|]].
  2:{ simpl. by apply list_lookup_insert_eq. }
  erewrite bind_Ret; [|eapply deref_page_Ret; simpl; exact Hp].
  erewrite set_ref_count_Ret by (simpl; exact Hp).
  f_equal. unfold share_page. rewrite Hp. by state_eq.
Qed.

Lemma clone_range tn tg self sz pnum dt suf : ∀ pre s,
  tn ≠ tg →
  tls_heap s !! tn = Some (mkTLS self sz pnum (pre ++ replicate (length suf) NULL)) →
  tls_heap s !! tg = Some dt → pages dt = pre ++ suf →
  (∀ p, p ∈ suf → is_Some (page_heap s !! p)) →
  for_range (clone_page tn tg) (Z.of_nat (length pre)) (length suf) s =
  Ret tt (with_page_heap (share_pages suf (page_heap s))
            (with_tls_heap (<[tn := mkTLS self sz pnum (pre ++ suf)]> (tls_heap s)) s)).
Proof.
  induction suf as [|p suf IH]; intros pre s Hne Hn Ht Hpages Hall.
  - simpl in *. unfold ret. f_equal. state_eq. by rewrite insert_id.
  - destruct (Hall p) as [pg Hpg]; [left|].
    change (length (p :: suf)) with (S (length suf)). rewrite for_range_S.
    erewrite bind_Ret; [|eapply clone_page_Ret; eauto].
    2:{ rewrite Nat2Z.id, Hpages. by rewrite list_lookup_middle. }
    2:{ simpl. rewrite Nat2Z.id, length_app. simpl. lia. }
    simpl tid. simpl size. simpl page_num. simpl pages. rewrite Nat2Z.id.
    replace (<[length pre:=p]> (pre ++ NULL :: replicate (length suf) NULL))
      with ((pre ++ [p]) ++ replicate (length suf) NULL).
    2:{ rewrite <- app_assoc. simpl.
        rewrite insert_app_r_alt by lia. by rewrite Nat.sub_diag. }
    replace (Z.of_nat (length pre) + 1) with (Z.of_nat (length (pre ++ [p])))
      by (rewrite length_app; simpl; lia).
    rewrite (IH (pre ++ [p])); [|done|simpl; apply lookup_insert_eq| | |].
    + f_equal. state_eq. by rewrite insert_insert_eq, <- app_assoc.
    + simpl. by rewrite lookup_insert_ne.
    + by rewrite Hpages, <- app_assoc.
    + intros q Hq. simpl. rewrite share_page_lookup.
      destruct (decide (q = p)) as [->|]; [by rewrite Hpg; eexists|].
      apply Hall. by right.
Qed.

Lemma bucket_in_range s gp self :
  wf gp s → is_Some (hash_table s !! Z.to_nat (self mod HASH_SIZE)).
Proof.
  intros Hwf. apply lookup_lt_is_Some. rewrite (wf_buckets _ _ Hwf).
  pose proof (Z.mod_pos_bound self HASH_SIZE). unfold HASH_SIZE in *. lia.
Qed.

Lemma hash_table_insert_Ret s gp self t :
  wf gp s → hd true (oracle s) = true →
  hash_table_insert self t s =
  Ret tt (with_hash_table
            (<[Z.to_nat (self mod HASH_SIZE) :=
                 mkElem self t :: default [] (hash_table s !! Z.to_nat (self mod HASH_SIZE))]>
               (hash_table s))
            (with_oracle (tl (oracle s)) s)).
Proof.
  intros Hwf Ho. destruct (bucket_in_range s gp self Hwf) as [chain Hc].
  unfold hash_table_insert, bind, os_grant, get, modify. rewrite Ho. simpl. by rewrite Hc.
Qed.

Lemma hash_table_insert_Exit s self t :
  hd true (oracle s) = false → hash_table_insert self t s = Exit 1.
Proof. intros Ho. unfold hash_table_insert, bind, os_grant. by rewrite Ho. Qed.

Lemma all_elems_insert s gp self t :
  wf gp s →
  concat (<[Z.to_nat (self mod HASH_SIZE) :=
              mkElem self t :: default [] (hash_table s !! Z.to_nat (self mod HASH_SIZE))]>
            (hash_table s))
  ≡ₚ mkElem self t :: all_elems s.
Proof.
  intros Hwf. destruct (bucket_in_range s gp self Hwf) as [chain Hc]. rewrite Hc. simpl.
  by apply concat_insert_cons.
Qed.

Lemma calloc_TLS_fail s :
  hd true (oracle s) = false → calloc_TLS s = Ret None (with_oracle (tl (oracle s)) s).
Proof. intros H. unfold calloc_TLS, bind, os_grant. by rewrite H. Qed.

Lemma calloc_TLS_Ret s :
  hd true (oracle s) = true →
  calloc_TLS s =
  Ret (Some (fresh_key (tls_heap s)))
      (with_tls_heap (<[fresh_key (tls_heap s) := mkTLS 0 0 0 []]> (tls_heap s))
                     (with_oracle (tl (oracle s)) s)).
Proof. intros H. unfold calloc_TLS, bind, os_grant. by rewrite H. Qed.

Lemma calloc_pages_fail s t n :
  hd true (oracle s) = false → calloc_pages t n s = Ret false (with_oracle (tl (oracle s)) s).
Proof. intros H. unfold calloc_pages, bind, os_grant. by rewrite H. Qed.

Lemma calloc_pages_Ret s t d n :
  hd true (oracle s) = true → tls_heap s !! t = Some d →
  calloc_pages t n s =
  Ret true (with_tls_heap
              (<[t := mkTLS (tid d) (size d) (page_num d) (replicate (Z.to_nat n) NULL)]>
                 (tls_heap s))
              (with_oracle (tl (oracle s)) s)).
Proof.
  intros H Ht. unfold calloc_pages, bind, os_grant, get, modify, ret. rewrite H. simpl.
  by rewrite Ht.
Qed.

Section Clone.

Variable gp : Z.
Hypothesis gp_pos : 0 < gp.

Lemma tls_clone_eval s self target :
  wf gp s →
  (table_find self (hash_table s) ≠ None ∧ tls_clone self target s = Ret (-1) s) ∨
  (table_find self (hash_table s) = None ∧
   ((table_find target (hash_table s) = None ∧ tls_clone self target s = Ret (-1) s) ∨
    ∃ et dt, table_find target (hash_table s) = Some et ∧
      tls_heap s !! elem_tls et = Some dt ∧
      ((hd true (oracle s) = false ∧
        tls_clone self target s = Ret (-1) (with_oracle (tl (oracle s)) s)) ∨
       (hd true (oracle s) = true ∧ hd true (tl (oracle s)) = false ∧
        tls_clone self target s = Ret (-1) (with_oracle (tl (tl (oracle s))) s)) ∨
       (hd true (oracle s) = true ∧ hd true (tl (oracle s)) = true ∧
        hd true (tl (tl (oracle s))) = false ∧ tls_clone self target s = Exit 1) ∨
       (hd true (oracle s) = true ∧ hd true (tl (oracle s)) = true ∧
        hd true (tl (tl (oracle s))) = true ∧
        tls_clone self target s = Ret 0 (clone_state s self dt))))).
Proof.
  intros Hwf. unfold tls_clone.
  rewrite (bind_Ret _ _ _ _ _ (eq_refl : get s = Ret s s)).
  destruct (table_find self (hash_table s)) as [e|] eqn:Hself.
  { left. split; [done|]. apply table_find_Some in Hself as [Hin Htid].
    destruct (clone_scan_registered self target (hash_table s) e Hin Htid) as [c Hc].
    destruct (clone_scan self target (hash_table s)) as [[c'|] r]; [done|]. by simpl in Hc. }
  right. split; [done|].
  rewrite table_find_None in Hself.
  destruct (clone_scan_unregistered self target (hash_table s) Hself) as (r & Hscan & Hnone & Hsome).
  rewrite Hscan. destruct r as [tg|].
  2:{ left. split; [|done]. apply table_find_None. by apply Hnone. }
  right. destruct (Hsome tg eq_refl) as (et & Hin & Htid & Htls).
  destruct (wf_elem _ _ Hwf et Hin) as (dt & Hdt & Hdtid). rewrite Htls in Hdt.
  exists et, dt. split; [by apply table_find_elem; [apply (wf_tids _ _ Hwf)|..]|].
  rewrite Htls. split; [done|].
  destruct (wf_desc _ _ Hwf _ _ Hdt) as (Hnum & Hnd & Hheap).
  assert (fresh_key (tls_heap s) ≠ tg) as Hne
    by (intros Heq; rewrite <- Heq in Hdt; by rewrite fresh_key_fresh in Hdt).
  set (tn := fresh_key (tls_heap s)) in *.
  destruct (hd true (oracle s)) eqn:H1.
  2:{ left. split; [done|]. by rewrite (bind_Ret _ _ _ _ _ (calloc_TLS_fail _ H1)). }
  right. rewrite (bind_Ret _ _ _ _ _ (calloc_TLS_Ret _ H1)). fold tn.
  erewrite bind_Ret; [|eapply deref_TLS_Ret; simpl; rewrite lookup_insert_ne by done; exact Hdt].
  rewrite bind_modify.
  destruct (hd true (tl (oracle s))) eqn:H2.
  2:{ left. split; [done|]. split; [done|].
      erewrite bind_Ret; [|eapply calloc_pages_fail; simpl; exact H2]. cbv beta iota.
      erewrite bind_Ret; [|eapply free_TLS_Ret; simpl; apply lookup_insert_eq].
      unfold ret. f_equal. state_eq.
      rewrite insert_insert_eq. apply delete_insert_id, fresh_key_fresh. }
  right. erewrite bind_Ret; [|eapply calloc_pages_Ret; simpl; [exact H2|apply lookup_insert_eq]].
  cbv beta iota.
  simpl tid. simpl size. simpl page_num.
  rewrite Hnum, Nat2Z.id.
  erewrite bind_Ret; [|eapply (clone_range tn tg self (size dt) (Z.of_nat (length (pages dt)))
                                 dt (pages dt) []); simpl; eauto].
  2:{ by rewrite lookup_insert_eq. }
  2:{ rewrite lookup_insert_ne by done. rewrite lookup_insert_ne by done.
      by rewrite lookup_insert_ne by done. }
  destruct (hd true (tl (tl (oracle s)))) eqn:H3.
  2:{ left. split; [done|]. split; [done|]. split; [done|].
      apply bind_Exit, hash_table_insert_Exit. simpl. exact H3. }
  right. split; [done|]. split; [done|]. split; [done|].
  unfold hash_table_insert, bind, os_grant, get, modify. simpl. rewrite H3.
  destruct (bucket_in_range s gp self Hwf) as [chain Hc]. simpl. rewrite Hc. simpl.
  unfold ret. f_equal. unfold clone_state. fold tn. rewrite Hc, Hnum. simpl.
  state_eq. by rewrite !insert_insert_eq.
Qed.

End Clone.

Section CloneState.

Variable gp : Z.
Hypothesis gp_pos : 0 < gp.

Variables (s : tls_state) (self : Z) (et : hash_element) (dt : TLS).
Hypothesis Hwf : wf gp s.
Hypothesis Hself : table_find self (hash_table s) = None.
Hypothesis Hdt : tls_heap s !! elem_tls et = Some dt.

Let tn := fresh_key (tls_heap s).

Local Lemma clone_elems :
  all_elems (clone_state s self dt) ≡ₚ mkElem self tn :: all_elems s.
Proof. unfold all_elems. simpl. by apply (all_elems_insert s gp). Qed.

Local Lemma clone_tn_fresh : tls_heap s !! tn = None.
Proof. apply fresh_key_fresh. Qed.

Lemma clone_heap_lookup q :
  page_heap (clone_state s self dt) !! q =
  if decide (q ∈ pages dt) then shared <$> page_heap s !! q else page_heap s !! q.
Proof.
  simpl. apply share_pages_lookup. by destruct (wf_desc _ _ Hwf _ _ Hdt) as (_ & ? & _).
Qed.

Local Lemma clone_heap_inv q qg' :
  page_heap (clone_state s self dt) !! q = Some qg' →
  ∃ qg, page_heap s !! q = Some qg ∧ address qg' = address qg ∧
    ref_count qg' = ref_count qg + (if decide (q ∈ pages dt) then 1 else 0).
Proof.
  rewrite clone_heap_lookup. destruct (decide (q ∈ pages dt)).
  - destruct (page_heap s !! q) as [qg|]; [simpl|done]. intros [= <-].
    exists qg. split; [done|]. split; [done|]. done.
  - intros Hq. exists qg'. split; [done|]. split; [done|]. lia.
Qed.

Lemma clone_state_wf : wf gp (clone_state s self dt).
Proof.
  destruct (wf_desc _ _ Hwf _ _ Hdt) as (Hnum & Hnd & Hheap).
  pose proof clone_tn_fresh as Hfresh.
  split.
  - simpl. rewrite length_insert. apply (wf_buckets _ _ Hwf).
  - rewrite clone_elems, fmap_cons. apply NoDup_cons. split; [|apply (wf_tids _ _ Hwf)].
    simpl. intros (x & Hx & Hin)%list_elem_of_fmap.
    rewrite table_find_None in Hself. by apply (Hself x Hin).
  - intros x. rewrite clone_elems. simpl tls_heap. fold tn.
    intros [->|Hx]%elem_of_cons.
    + simpl. rewrite lookup_insert_eq. by eexists.
    + destruct (wf_elem _ _ Hwf x Hx) as (dx & Hdx & Hdtid). exists dx. split; [|done].
      rewrite lookup_insert_ne; [done|]. intros Heq. rewrite <- Heq in Hdx. congruence.
  - intros t' d'. simpl tls_heap. fold tn. intros Hd'.
    change (mkElem (tid d') t' ∈ all_elems (clone_state s self dt)).
    rewrite clone_elems. destruct (decide (t' = tn)) as [->|Hne].
    + rewrite lookup_insert_eq in Hd'. injection Hd' as <-. left.
    + rewrite lookup_insert_ne in Hd' by done. right. by apply (wf_registered _ _ Hwf).
  - intros t' d'. simpl tls_heap. fold tn. intros Hd'.
    assert (page_num d' = Z.of_nat (length (pages d')) ∧ NoDup (pages d') ∧
            ∀ q, q ∈ pages d' → is_Some (page_heap s !! q)) as (Hn' & Hnd' & Hh').
    { destruct (decide (t' = tn)) as [->|Hne].
      - rewrite lookup_insert_eq in Hd'. by injection Hd' as <-.
      - rewrite lookup_insert_ne in Hd' by done. by apply (wf_desc _ _ Hwf t'). }
    split; [done|]. split; [done|]. intros q Hq. rewrite clone_heap_lookup.
    destruct (Hh' q Hq) as [qg Hqg]. rewrite Hqg. destruct (decide (q ∈ pages dt)); by eexists.
  - intros q qg' Hq. destruct (clone_heap_inv q qg' Hq) as (qg & Hqg & Haddr & Hrc).
    destruct (wf_count _ _ Hwf q qg Hqg) as [Hcnt Hpos]. simpl tls_heap. fold tn.
    rewrite holders_insert_None by done. unfold indic. simpl.
    destruct (decide (q ∈ pages dt)); lia.
  - intros q qg' Hq. destruct (clone_heap_inv q qg' Hq) as (qg & Hqg & Haddr & _).
    rewrite Haddr. apply (wf_mapped _ _ Hwf q qg Hqg).
  - intros q1 q2 g1 g2 H1 H2 Heq.
    destruct (clone_heap_inv q1 g1 H1) as (x1 & Hx1 & Ha1 & _).
    destruct (clone_heap_inv q2 g2 H2) as (x2 & Hx2 & Ha2 & _).
    apply (wf_addr _ _ Hwf q1 q2 x1 x2); congruence.
  - right. simpl. destruct (wf_init _ _ Hwf) as [[_ He]|H]; [|done].
    rewrite He in Hdt. done.
Qed.

End CloneState.

Section CloneWf.

Variable gp : Z.
Hypothesis gp_pos : 0 < gp.

Lemma tls_clone_wf s self target r s' :
  wf gp s → tls_clone self target s = Ret r s' → wf gp s'.
Proof.
  intros Hwf Hr.
  destruct (tls_clone_eval gp s self target Hwf)
    as [[_ He]|[Hself [[_ He]|(et & dt & Het & Hdt & Hcase)]]].
  - rewrite He in Hr. by injection Hr as <- <-.
  - rewrite He in Hr. by injection Hr as <- <-.
  - destruct Hcase as [[_ He]|[(_ & _ & He)|[(_ & _ & _ & He)|(_ & _ & _ & He)]]];
      rewrite He in Hr; try done; injection Hr as <- <-.
    + by apply wf_with_oracle.
    + by apply wf_with_oracle.
    + eapply (clone_state_wf gp); eauto.
Qed.

End CloneWf.

(** ** [tls_create]: the allocation loop and its unwinding *)

Lemma delete_list_cons {V} k ks (m : gmap Z V) :
  delete_list (k :: ks) m = delete_list ks (delete k m).
Proof. done. Qed.

Lemma lookup_delete_list {V} ks : ∀ (m : gmap Z V) q,
  delete_list ks m !! q = if decide (q ∈ ks) then None else m !! q.
Proof.
  induction ks as [|k ks IH]; intros m q.
  - by rewrite decide_False by apply not_elem_of_nil.
  - rewrite delete_list_cons, IH. destruct (decide (q = k)) as [->|Hne].
    + rewrite lookup_delete_eq, (decide_True (P := k ∈ k :: ks)) by left.
      by destruct (decide (k ∈ ks)).
    + rewrite lookup_delete_ne by done. destruct (decide (q ∈ ks)).
      * by rewrite decide_True by (by right).
      * rewrite decide_False; [done|]. by intros [?|?]%elem_of_cons.
Qed.

Lemma Forall_take_add {A} (P : A → Prop) k m (l : list A) :
  Forall P (take k l) → Forall P (take m (drop k l)) → Forall P (take (k + m) l).
Proof.
  revert l. induction k as [|k IH]; intros l Hk Hm; [done|].
  destruct l as [|x l]; [by destruct m|]. simpl in *.
  apply Forall_cons in Hk as [Hx Hk]. constructor; [done|]. by apply IH.
Qed.

Lemma oracle_tl2 (o : list bool) : tl (tl o) = drop 2 o.
Proof. by destruct o as [|? [|? ?]]. Qed.

Lemma oracle_take2 (o : list bool) :
  hd true o = true → hd true (tl o) = true → Forall (λ b, b = true) (take 2 o).
Proof.
  destruct o as [|b1 [|b2 o]]; simpl; intros H1 H2; subst; repeat constructor.
Qed.

Lemma oracle_hd_false (o : list bool) : hd true o = false → o = false :: tl o.
Proof. destruct o; simpl; [done|]. by intros ->. Qed.

Lemma oracle_hd2_false (o : list bool) :
  hd true o = true → hd true (tl o) = false → o = true :: false :: tl (tl o).
Proof. destruct o as [|b1 [|b2 o]]; simpl; try done. by intros -> ->. Qed.

Lemma oracle_hd2_true (o : list bool) pre post :
  hd true o = true → hd true (tl o) = true → tl (tl o) = pre ++ false :: post →
  o = true :: true :: pre ++ false :: post.
Proof.
  destruct o as [|b1 [|b2 o]]; simpl; intros H1 H2 H3; subst; try done.
  - by destruct pre.
  - by destruct pre.
Qed.

Section CreateLoop.

Variables (ph0 : gmap Z page) (mem0 : gmap Z mapping) (t : Z) (dsc : TLS).

(** One round of the unwinding loop. *)
Lemma create_unwind_range (suf : list (Z * Z)) : ∀ (pre : list (Z * Z)) s d,
  tls_heap s !! t = Some d →
  (∀ k p a, suf !! k = Some (p, a) → pages d !! (length pre + k)%nat = Some p) →
  (∀ p a, (p, a) ∈ suf → ∃ rc, page_heap s !! p = Some (mkPage a rc)) →
  NoDup suf.*1 →
  for_range (λ j, p <- tls_page t j ;; pg <- deref_page p ;;
                  munmap (address pg) ;;; free_page p)
            (Z.of_nat (length pre)) (length suf) s =
  Ret tt (with_mem (delete_list suf.*2 (mem s))
            (with_page_heap (delete_list suf.*1 (page_heap s)) s)).
Proof.
  induction suf as [|[p a] suf IH]; intros pre s d Ht Hslots Hnew Hnd.
  - simpl. unfold ret. f_equal; by state_eq.
  - rewrite fmap_cons in Hnd. apply NoDup_cons in Hnd as [Hp Hnd].
    destruct (Hnew p a) as [rc Hpg]; [left|].
    change (length ((p, a) :: suf)) with (S (length suf)). rewrite for_range_S.
    rewrite bind_assoc_eq.
    erewrite bind_Ret; [|eapply tls_page_Ret; [exact Ht|]].
    2:{ rewrite Nat2Z.id. rewrite <- (Hslots 0%nat p a eq_refl). f_equal. lia. }
    rewrite bind_assoc_eq. rewrite (bind_Ret _ _ _ _ _ (deref_page_Ret _ _ _ Hpg)).
    rewrite bind_assoc_eq. rewrite (bind_Ret _ _ _ _ _ (munmap_Ret _ _)).
    erewrite bind_Ret; [|eapply free_page_Ret; simpl; exact Hpg].
    replace (Z.of_nat (length pre) + 1) with (Z.of_nat (length (pre ++ [(p, a)])))
      by (rewrite length_app; simpl; lia).
    rewrite (IH (pre ++ [(p, a)]) _ d); [|done| | |done].
    + rewrite !fmap_cons, !delete_list_cons. simpl. f_equal; by state_eq.
    + intros k q b Hk. rewrite length_app. simpl.
      replace (length pre + 1 + k)%nat with (length pre + S k)%nat by lia.
      by apply (Hslots (S k) q b).
    + intros q b Hq. simpl.
      assert (q ≠ p) as Hne.
      { intros ->. apply Hp. apply list_elem_of_fmap. by exists (p, b). }
      rewrite lookup_delete_ne by done. apply Hnew. by right.
Qed.

Lemma create_unwind_spec cl rest s :
  building ph0 mem0 t dsc cl rest s →
  ∃ s', create_unwind t (Z.of_nat (length cl)) s = Ret tt s' ∧
        page_heap s' = ph0 ∧ mem s' = mem0 ∧ same_globals s s' ∧
        tls_heap s' = tls_heap s ∧ oracle s' = oracle s.
Proof.
  intros Hb. eexists. split.
  - unfold create_unwind. rewrite Nat2Z.id.
    apply (create_unwind_range cl [] s _ (bd_desc _ _ _ _ _ _ _ Hb)).
    + intros k p a Hk. simpl. rewrite lookup_app_l.
      * by rewrite list_lookup_fmap, Hk.
      * rewrite length_fmap. by eapply lookup_lt_Some.
    + intros p a Hin. exists 1. by apply (bd_new _ _ _ _ _ _ _ Hb).
    + apply (bd_nodup1 _ _ _ _ _ _ _ Hb).
  - simpl. split; [|split; [|done]].
    + apply map_eq. intros q. rewrite lookup_delete_list.
      destruct (decide (q ∈ cl.*1)) as [Hin|Hnin].
      * apply list_elem_of_fmap in Hin as ([p a] & -> & Hin). simpl.
        by destruct (bd_new _ _ _ _ _ _ _ Hb p a Hin) as (_ & _ & -> & _).
      * by apply (bd_old_pages _ _ _ _ _ _ _ Hb).
    + apply map_eq. intros b. rewrite lookup_delete_list.
      destruct (decide (b ∈ cl.*2)) as [Hin|Hnin].
      * apply list_elem_of_fmap in Hin as ([p a] & -> & Hin). simpl.
        by destruct (bd_new _ _ _ _ _ _ _ Hb p a Hin) as (_ & _ & _ & ->).
      * by apply (bd_old_mem _ _ _ _ _ _ _ Hb).
Qed.

Lemma create_pages_S i n s :
  create_pages t i (S n) s =
  (op <- alloc_page ;;
   match op with
   | None => create_unwind t i ;;; free_TLS t ;;; ret false
   | Some p =>
       oa <- mmap PROT_NONE ;;
       match oa with
       | None => free_page p ;;; create_unwind t i ;;; free_TLS t ;;; ret false
       | Some a =>
           set_address p a ;;;
           set_ref_count p 1 ;;;
           set_tls_page t i p ;;;
           create_pages t (i + 1) n
       end
   end) s.
Proof. done. Qed.

Lemma building_oracle cl rest s o :
  building ph0 mem0 t dsc cl rest s → building ph0 mem0 t dsc cl rest (with_oracle o s).
Proof. intros []. by split. Qed.

(** Giving up: unwind, free the descriptor, return -1. *)
Lemma create_abort cl rest s :
  building ph0 mem0 t dsc cl rest s →
  ∃ s', (create_unwind t (Z.of_nat (length cl)) ;;; free_TLS t ;;; ret false) s = Ret false s' ∧
        page_heap s' = ph0 ∧ mem s' = mem0 ∧ same_globals s s' ∧
        tls_heap s' = delete t (tls_heap s) ∧ oracle s' = oracle s.
Proof.
  intros Hb. destruct (create_unwind_spec cl rest s Hb) as (s1 & Hrun & Hph & Hmem & Hg & Hth & Ho).
  rewrite (bind_Ret _ _ _ _ _ Hrun).
  pose proof (bd_desc _ _ _ _ _ _ _ Hb) as Hd. rewrite <- Hth in Hd.
  rewrite (bind_Ret _ _ _ _ _ (free_TLS_Ret _ _ _ Hd)).
  eexists. split; [done|]. simpl. rewrite Hth. done.
Qed.

(** One more page. *)
Lemma building_extend cl n s :
  0 < page_size s → building ph0 mem0 t dsc cl (S n) s →
  let p := fresh_key (page_heap s) in
  let a := fresh_base (page_size s) (mem s) in
  building ph0 mem0 t dsc (cl ++ [(p, a)]) n
    (mkState (hash_table s) (initialized s) (page_size s) (sigbus_action s) (sigsegv_action s)
       (<[t := mkTLS (tid dsc) (size dsc) (page_num dsc)
                 (<[length cl := p]> (cl.*1 ++ replicate (S n) NULL))]> (tls_heap s))
       (<[p := mkPage a 1]> (page_heap s))
       (<[a := fresh_mapping (page_size s)]> (mem s))
       (tl (tl (oracle s)))).
Proof.
  intros Hps Hb p a.
  assert (p ∉ cl.*1) as Hp.
  { intros ([q b] & Heq & Hin)%list_elem_of_fmap. simpl in Heq.
    destruct (bd_new _ _ _ _ _ _ _ Hb q b Hin) as (Hq & _).
    rewrite <- Heq in Hq. unfold p in Hq. by rewrite fresh_key_fresh in Hq. }
  assert (a ∉ cl.*2) as Ha.
  { intros ([q b] & Heq & Hin)%list_elem_of_fmap. simpl in Heq.
    destruct (bd_new _ _ _ _ _ _ _ Hb q b Hin) as (_ & Hq & _).
    rewrite <- Heq in Hq. unfold a in Hq. by rewrite fresh_base_fresh in Hq. }
  split; simpl.
  - rewrite lookup_insert_eq. do 2 f_equal.
    rewrite fmap_app, <- app_assoc. simpl.
    rewrite insert_app_r_alt by (rewrite length_fmap; lia).
    by rewrite length_fmap, Nat.sub_diag.
  - intros q b [Hin|Hin%list_elem_of_singleton]%elem_of_app.
    + destruct (bd_new _ _ _ _ _ _ _ Hb q b Hin) as (Hq & Hm & H0 & Hm0).
      assert (q ≠ p) as Hqp.
      { intros ->. apply Hp. apply list_elem_of_fmap. by exists (p, b). }
      assert (b ≠ a) as Hba.
      { intros ->. apply Ha. apply list_elem_of_fmap. by exists (q, a). }
      rewrite !lookup_insert_ne by done. done.
    + injection Hin as -> ->. rewrite !lookup_insert_eq. split; [done|]. split; [done|].
      split.
      * rewrite <- (bd_old_pages _ _ _ _ _ _ _ Hb p Hp). apply fresh_key_fresh.
      * rewrite <- (bd_old_mem _ _ _ _ _ _ _ Hb a Ha). by apply fresh_base_fresh.
  - intros q Hq. rewrite fmap_app in Hq. simpl in Hq.
    rewrite lookup_insert_ne.
    + apply (bd_old_pages _ _ _ _ _ _ _ Hb). intros ?. apply Hq, elem_of_app. by left.
    + intros <-. apply Hq, elem_of_app. right. by left.
  - intros b Hq. rewrite fmap_app in Hq. simpl in Hq.
    rewrite lookup_insert_ne.
    + apply (bd_old_mem _ _ _ _ _ _ _ Hb). intros ?. apply Hq, elem_of_app. by left.
    + intros <-. apply Hq, elem_of_app. right. by left.
  - rewrite fmap_app. apply NoDup_app. split; [apply (bd_nodup1 _ _ _ _ _ _ _ Hb)|].
    split; [|apply NoDup_singleton]. intros q Hq [->|?%elem_of_nil]%elem_of_cons; done.
  - rewrite fmap_app. apply NoDup_app. split; [apply (bd_nodup2 _ _ _ _ _ _ _ Hb)|].
    split; [|apply NoDup_singleton]. intros q Hq [->|?%elem_of_nil]%elem_of_cons; done.
Qed.

Lemma create_pages_spec n : ∀ cl s,
  building ph0 mem0 t dsc cl n s → 0 < page_size s →
  match create_pages t (Z.of_nat (length cl)) n s with
  | Ret true s' =>
      (∃ cl', building ph0 mem0 t dsc cl' 0 s' ∧ length cl' = (length cl + n)%nat) ∧
      same_globals s s' ∧ (∀ t', t' ≠ t → tls_heap s' !! t' = tls_heap s !! t') ∧
      Forall (λ b, b = true) (take (2 * n) (oracle s)) ∧
      oracle s' = drop (2 * n) (oracle s)
  | Ret false s' =>
      page_heap s' = ph0 ∧ mem s' = mem0 ∧ same_globals s s' ∧
      tls_heap s' = delete t (tls_heap s) ∧
      ∃ pre, (length pre < 2 * n)%nat ∧ Forall (λ b, b = true) pre ∧
             oracle s = pre ++ false :: oracle s'
  | _ => False
  end.
Proof.
  induction n as [|n IH]; intros cl s Hb Hps.
  - simpl. split; [exists cl; split; [done|lia]|]. split; [done|]. split; [done|].
    split; [constructor|done].
  - rewrite create_pages_S.
    destruct (hd true (oracle s)) eqn:H1.
    2:{ rewrite (bind_Ret _ _ _ _ _ (alloc_page_fail _ H1)).
        destruct (create_abort cl (S n) _ (building_oracle _ _ _ (tl (oracle s)) Hb))
          as (s' & Hrun & Hph & Hmem & Hg & Hth & Ho).
        rewrite Hrun. split; [done|]. split; [done|]. split; [done|]. split; [done|].
        exists []. split; [simpl; lia|]. split; [constructor|].
        rewrite Ho. simpl. by apply oracle_hd_false. }
    rewrite (bind_Ret _ _ _ _ _ (alloc_page_Ret _ H1)).
    destruct (hd true (tl (oracle s))) eqn:H2.
    2:{ erewrite bind_Ret; [|eapply mmap_fail; simpl; exact H2]. cbv beta iota.
        erewrite bind_Ret; [|eapply free_page_Ret; simpl; apply lookup_insert_eq].
        destruct (create_abort cl (S n) _ (building_oracle _ _ _ (tl (tl (oracle s))) Hb))
          as (s' & Hrun & Hph & Hmem & Hg & Hth & Ho).
        match goal with |- match ?f ?x with _ => _ end =>
          replace x with (with_oracle (tl (tl (oracle s))) s) end.
        2:{ state_eq. symmetry. apply delete_insert_id, fresh_key_fresh. }
        rewrite Hrun. split; [done|]. split; [done|]. split; [done|]. split; [done|].
        exists [true]. split; [simpl; lia|]. split; [by repeat constructor|].
        rewrite Ho. simpl. by apply oracle_hd2_false. }
    erewrite bind_Ret; [|eapply mmap_Ret; simpl; exact H2]. cbv beta iota.
    erewrite bind_Ret; [|eapply set_address_Ret; simpl; apply lookup_insert_eq].
    erewrite bind_Ret; [|eapply set_ref_count_Ret; simpl; apply lookup_insert_eq].
    erewrite bind_Ret; [|eapply set_tls_page_Ret; simpl; [apply (bd_desc _ _ _ _ _ _ _ Hb)|]].
    2:{ simpl. rewrite Nat2Z.id, length_app, length_fmap. simpl. lia. }
    pose proof (building_extend cl n s Hps Hb) as Hb2. simpl in Hb2.
    match goal with |- match create_pages _ _ _ ?x with _ => _ end =>
      match type of Hb2 with building _ _ _ _ _ _ ?y => replace x with y end end.
    2:{ state_eq; simpl; rewrite ?Nat2Z.id; by rewrite ?insert_insert_eq. }
    replace (Z.of_nat (length cl) + 1)
      with (Z.of_nat (length (cl ++ [(fresh_key (page_heap s),
                                      fresh_base (page_size s) (mem s))])))
      by (rewrite length_app; simpl; lia).
    specialize (IH _ _ Hb2 Hps).
    match goal with |- match ?run with _ => _ end => destruct run as [[] s'| | |] end;
      [| |done..].
    + destruct IH as ((cl' & Hb' & Hlen) & Hg & Hth & Hall & Hdrop). simpl in *.
      split; [exists cl'; split; [done|rewrite Hlen, length_app; simpl; lia]|].
      split; [done|]. split.
      { intros t' Hne. rewrite Hth by done. by rewrite lookup_insert_ne. }
      rewrite oracle_tl2 in Hall, Hdrop. split.
      * replace (S (n + S (n + 0)))%nat with (2 + 2 * n)%nat by lia.
        apply Forall_take_add; [by apply oracle_take2|exact Hall].
      * rewrite Hdrop, drop_drop. f_equal. lia.
    + destruct IH as (Hph & Hmem & Hg & Hth & pre & Hlen & Hall & Ho). simpl in *.
      split; [done|]. split; [done|]. split; [done|]. split.
      { rewrite Hth. apply delete_insert_eq. }
      exists (true :: true :: pre). split; [simpl; lia|]. split; [by repeat constructor|].
      simpl. by apply oracle_hd2_true.
Qed.

End CreateLoop.

(** ** [tls_create] *)

Lemma tls_create_ensure gp self sz s :
  tls_create gp self sz s = tls_create gp self sz (ensure_init gp s).
Proof.
  unfold ensure_init. destruct (initialized s =? 0) eqn:Hi; [|done].
  unfold tls_create at 1. rewrite bind_get, Hi. unfold tls_init. rewrite bind_modify.
  unfold tls_create. rewrite bind_get. simpl. unfold ret at 1. unfold bind at 1. done.
Qed.

Lemma tls_create_registered gp self sz s e :
  initialized s ≠ 0 → table_find self (hash_table s) = Some e →
  tls_create gp self sz s = Ret (-1) s.
Proof.
  intros Hi%Z.eqb_neq Hf. unfold tls_create. rewrite bind_get, Hi.
  unfold ret at 1. unfold bind at 1. rewrite bind_get. by rewrite Hf.
Qed.

Lemma tls_create_zero gp self sz s :
  initialized s ≠ 0 → table_find self (hash_table s) = None → sz ≤ 0 →
  tls_create gp self sz s = Ret (-1) s.
Proof.
  intros Hi%Z.eqb_neq Hf Hsz%Z.leb_le. unfold tls_create. rewrite bind_get, Hi.
  unfold ret at 1. unfold bind at 1. rewrite bind_get. by rewrite Hf, Hsz.
Qed.

Lemma tls_create_fail1 gp self sz s :
  initialized s ≠ 0 → table_find self (hash_table s) = None → 0 < sz →
  hd true (oracle s) = false →
  tls_create gp self sz s = Ret (-1) (with_oracle (tl (oracle s)) s).
Proof.
  intros Hi%Z.eqb_neq Hf Hsz%Z.leb_gt H1. unfold tls_create. rewrite bind_get, Hi.
  unfold ret at 1. unfold bind at 1. rewrite bind_get. rewrite Hf, Hsz.
  by rewrite (bind_Ret _ _ _ _ _ (calloc_TLS_fail _ H1)).
Qed.

Lemma tls_create_fail2 gp self sz s :
  initialized s ≠ 0 → table_find self (hash_table s) = None → 0 < sz →
  hd true (oracle s) = true → hd true (tl (oracle s)) = false →
  tls_create gp self sz s = Ret (-1) (with_oracle (tl (tl (oracle s))) s).
Proof.
  intros Hi%Z.eqb_neq Hf Hsz%Z.leb_gt H1 H2. unfold tls_create. rewrite bind_get, Hi.
  unfold ret at 1. unfold bind at 1. rewrite bind_get. rewrite Hf, Hsz.
  rewrite (bind_Ret _ _ _ _ _ (calloc_TLS_Ret _ H1)). rewrite bind_modify.
  erewrite bind_Ret; [|eapply calloc_pages_fail; simpl; exact H2]. cbv beta iota.
  erewrite bind_Ret; [|eapply free_TLS_Ret; simpl; apply lookup_insert_eq].
  unfold ret. f_equal. state_eq.
  rewrite insert_insert_eq. apply delete_insert_id, fresh_key_fresh.
Qed.

Lemma tls_create_started gp self sz s :
  initialized s ≠ 0 → table_find self (hash_table s) = None → 0 < sz →
  hd true (oracle s) = true → hd true (tl (oracle s)) = true →
  tls_create gp self sz s =
  (built <- create_pages (fresh_key (tls_heap s)) 0
              (Z.to_nat (create_page_num (page_size s) sz)) ;;
   if built : bool then hash_table_insert self (fresh_key (tls_heap s)) ;;; ret 0
   else ret (-1)) (create_start s self sz).
Proof.
  intros Hi%Z.eqb_neq Hf Hsz%Z.leb_gt H1 H2. unfold tls_create. rewrite bind_get, Hi.
  unfold ret at 1. unfold bind at 1. rewrite bind_get. rewrite Hf, Hsz.
  rewrite (bind_Ret _ _ _ _ _ (calloc_TLS_Ret _ H1)). rewrite bind_modify.
  erewrite bind_Ret; [|eapply calloc_pages_Ret; simpl; [exact H2|apply lookup_insert_eq]].
  cbv beta iota. fold (create_page_num (page_size s) sz).
  match goal with |- bind _ _ ?x = bind _ _ ?y => replace x with y; [done|] end.
  unfold create_start. state_eq. by rewrite !insert_insert_eq.
Qed.

Lemma building_start s self sz :
  building (page_heap s) (mem s) (fresh_key (tls_heap s))
    (mkTLS self sz (create_page_num (page_size s) sz) []) []
    (Z.to_nat (create_page_num (page_size s) sz)) (create_start s self sz).
Proof.
  split.
  - simpl. by rewrite lookup_insert_eq.
  - by intros p a ?%elem_of_nil.
  - done.
  - done.
  - constructor.
  - constructor.
Qed.

Lemma create_page_num_nonneg ps sz : 0 < ps → 0 ≤ create_page_num ps sz.
Proof.
  intros Hps. unfold create_page_num, u32. apply Z.div_pos; [|done].
  apply Z.mod_pos_bound. lia.
Qed.

Section CreateWf.

Variable gp : Z.
Hypothesis gp_pos : 0 < gp.

Lemma wf_no_pages s : wf gp s → tls_heap s = ∅ → page_heap s = ∅.
Proof.
  intros Hwf He. apply map_empty. intros p.
  destruct (page_heap s !! p) as [pg|] eqn:Hp; [|done].
  destruct (wf_count _ _ Hwf p pg Hp) as [Hcnt Hpos].
  rewrite He, holders_empty in Hcnt. lia.
Qed.

Lemma wf_ensure_init s : wf gp s → wf gp (ensure_init gp s).
Proof.
  intros Hwf. unfold ensure_init. destruct (Z.eqb_spec (initialized s) 0) as [Hi|]; [|done].
  destruct (wf_init _ _ Hwf) as [[_ He]|[? _]]; [|done].
  pose proof (wf_no_pages s Hwf He) as Hph.
  destruct Hwf. split; simpl; try done.
  - intros p pg. by rewrite Hph.
  - by right.
Qed.

Lemma ensure_init_initialized s :
  wf gp s → initialized (ensure_init gp s) ≠ 0 ∧ page_size (ensure_init gp s) = gp.
Proof.
  intros Hwf. unfold ensure_init. destruct (Z.eqb_spec (initialized s) 0) as [Hi|Hi]; [done|].
  destruct (wf_init _ _ Hwf) as [[? _]|[_ ?]]; done.
Qed.

Variables (s : tls_state) (self sz : Z) (cl : list (Z * Z)) (s3 : tls_state).
Hypothesis Hwf : wf gp s.
Hypothesis Hi : initialized s ≠ 0.
Hypothesis Hf : table_find self (hash_table s) = None.

Let tn := fresh_key (tls_heap s).
Let n := create_page_num (page_size s) sz.

Hypothesis Hb : building (page_heap s) (mem s) tn (mkTLS self sz n []) cl 0 s3.
Hypothesis Hlen : length cl = Z.to_nat n.
Hypothesis Hg : same_globals (create_start s self sz) s3.
Hypothesis Hth : ∀ t', t' ≠ tn → tls_heap s3 !! t' = tls_heap (create_start s self sz) !! t'.

Local Lemma created_ps : page_size s = gp.
Proof. destruct (wf_init _ _ Hwf) as [[? _]|[_ ?]]; done. Qed.

Local Lemma created_desc :
  tls_heap s3 !! tn = Some (mkTLS self sz n cl.*1).
Proof. pose proof (bd_desc _ _ _ _ _ _ _ Hb) as H. simpl in H. by rewrite app_nil_r in H. Qed.

Local Lemma created_tls_heap :
  tls_heap s3 = <[tn := mkTLS self sz n cl.*1]> (tls_heap s).
Proof.
  apply map_eq. intros t'. destruct (decide (t' = tn)) as [->|Hne].
  - by rewrite lookup_insert_eq, created_desc.
  - rewrite lookup_insert_ne by done. rewrite Hth by done. simpl. fold tn.
    by rewrite lookup_insert_ne.
Qed.

Local Lemma created_new_page q :
  q ∈ cl.*1 → ∃ a, (q, a) ∈ cl ∧ page_heap s3 !! q = Some (mkPage a 1) ∧
    mem s3 !! a = Some (fresh_mapping (page_size s3)) ∧
    page_heap s !! q = None ∧ mem s !! a = None.
Proof.
  intros ([p a] & -> & Hin)%list_elem_of_fmap. exists a. split; [done|].
  by apply (bd_new _ _ _ _ _ _ _ Hb).
Qed.

Local Lemma created_old_page q qg :
  page_heap s !! q = Some qg → (q ∉ cl.*1) ∧ page_heap s3 !! q = Some qg ∧
    (address qg ∉ cl.*2) ∧ mem s3 !! address qg = mem s !! address qg.
Proof.
  intros Hq.
  assert (q ∉ cl.*1) as Hn.
  { intros (a & _ & _ & _ & Hnone & _)%created_new_page. congruence. }
  assert (address qg ∉ cl.*2) as Hna.
  { intros ([p a] & Heq & Hin)%list_elem_of_fmap. simpl in Heq.
    destruct (bd_new _ _ _ _ _ _ _ Hb p a Hin) as (_ & _ & _ & Hnone).
    destruct (wf_mapped _ _ Hwf q qg Hq) as (m & Hm & _). congruence. }
  split; [done|]. split; [by rewrite (bd_old_pages _ _ _ _ _ _ _ Hb q Hn)|].
  split; [done|]. by apply (bd_old_mem _ _ _ _ _ _ _ Hb).
Qed.

Local Lemma created_heap_inv q qg :
  page_heap s3 !! q = Some qg →
  (q ∈ cl.*1 ∧ ∃ a, (q, a) ∈ cl ∧ qg = mkPage a 1 ∧ mem s !! a = None) ∨
  ((q ∉ cl.*1) ∧ page_heap s !! q = Some qg).
Proof.
  intros Hq. destruct (decide (q ∈ cl.*1)) as [Hin|Hnin].
  - left. split; [done|]. destruct (created_new_page q Hin) as (a & Ha & Hp & _ & _ & Hm).
    exists a. split; [done|]. split; [congruence|done].
  - right. split; [done|]. by rewrite <- (bd_old_pages _ _ _ _ _ _ _ Hb q Hnin).
Qed.

Local Lemma created_elems :
  all_elems (create_final self tn s3) ≡ₚ mkElem self tn :: all_elems s.
Proof.
  destruct Hg as (Hht & _). simpl in Hht. unfold all_elems. simpl. rewrite Hht.
  by apply (all_elems_insert s gp).
Qed.

Lemma created_wf : wf gp (create_final self tn s3).
Proof.
  pose proof created_ps as Hps. pose proof created_tls_heap as Hheap.
  destruct Hg as (Hht & Hini & Hpsz & _ & _). simpl in Hht, Hini, Hpsz.
  assert (tls_heap s !! tn = None) as Hfresh by apply fresh_key_fresh.
  split.
  - simpl. rewrite length_insert, Hht. apply (wf_buckets _ _ Hwf).
  - rewrite created_elems, fmap_cons. apply NoDup_cons. split; [|apply (wf_tids _ _ Hwf)].
    simpl. intros (x & Hx & Hin)%list_elem_of_fmap.
    rewrite table_find_None in Hf. by apply (Hf x Hin).
  - intros x. rewrite created_elems. simpl tls_heap. rewrite Hheap.
    intros [->|Hx]%elem_of_cons.
    + simpl. rewrite lookup_insert_eq. by eexists.
    + destruct (wf_elem _ _ Hwf x Hx) as (dx & Hdx & Hdtid). exists dx. split; [|done].
      rewrite lookup_insert_ne; [done|]. intros Heq. rewrite <- Heq in Hdx. congruence.
  - intros t' d'. simpl tls_heap. rewrite Hheap. intros Hd'.
    change (mkElem (tid d') t' ∈ all_elems (create_final self tn s3)).
    rewrite created_elems. destruct (decide (t' = tn)) as [->|Hne].
    + rewrite lookup_insert_eq in Hd'. injection Hd' as <-. left.
    + rewrite lookup_insert_ne in Hd' by done. right. by apply (wf_registered _ _ Hwf).
  - intros t' d'. simpl tls_heap. simpl page_heap. rewrite Hheap. intros Hd'.
    destruct (decide (t' = tn)) as [->|Hne].
    + rewrite lookup_insert_eq in Hd'. injection Hd' as <-. simpl. split; [|split].
      * rewrite length_fmap, Hlen, Z2Nat.id; [done|].
        apply create_page_num_nonneg. by rewrite Hps.
      * apply (bd_nodup1 _ _ _ _ _ _ _ Hb).
      * intros q (a & _ & Hq & _)%created_new_page. by eexists.
    + rewrite lookup_insert_ne in Hd' by done.
      destruct (wf_desc _ _ Hwf _ _ Hd') as (Hn' & Hnd' & Hh').
      split; [done|]. split; [done|]. intros q Hq. destruct (Hh' q Hq) as [qg Hqg].
      destruct (created_old_page q qg Hqg) as (_ & -> & _). by eexists.
  - intros q qg. simpl page_heap. simpl tls_heap. rewrite Hheap. intros Hq.
    rewrite holders_insert_None by done. unfold indic. simpl.
    destruct (created_heap_inv q qg Hq) as [(Hin & a & Ha & -> & _)|[Hnin Hold]].
    + rewrite decide_True by done. simpl.
      rewrite holders_zero; [lia|]. intros t' d' Hd' Hqd.
      destruct (wf_desc _ _ Hwf _ _ Hd') as (_ & _ & Hh'). destruct (Hh' q Hqd) as [x Hx].
      destruct (created_new_page q Hin) as (_ & _ & _ & _ & Hnone & _). congruence.
    + rewrite decide_False by done. by apply (wf_count _ _ Hwf).
  - intros q qg. simpl page_heap. simpl mem. simpl page_size. intros Hq.
    destruct (created_heap_inv q qg Hq) as [(Hin & a & Ha & -> & _)|[Hnin Hold]].
    + destruct (bd_new _ _ _ _ _ _ _ Hb q a Ha) as (_ & Hm & _). simpl.
      eexists. split; [done|]. simpl. by rewrite length_replicate.
    + destruct (created_old_page q qg Hold) as (_ & _ & _ & ->).
      rewrite Hpsz. by apply (wf_mapped _ _ Hwf q).
  - intros q1 q2 g1 g2. simpl page_heap. intros H1 H2 Heq.
    destruct (created_heap_inv q1 g1 H1) as [(Hin1 & a1 & Ha1 & -> & Hm1)|[Hnin1 Hold1]],
             (created_heap_inv q2 g2 H2) as [(Hin2 & a2 & Ha2 & -> & Hm2)|[Hnin2 Hold2]].
    + simpl in Heq. subst a2.
      assert ((q1, a1) = (q2, a1)) as Hpair; [|by injection Hpair].
      apply (NoDup_fmap_eq snd cl); [apply (bd_nodup2 _ _ _ _ _ _ _ Hb)|done..].
    + exfalso. simpl in Heq. destruct (wf_mapped _ _ Hwf q2 g2 Hold2) as (m & Hm & _).
      congruence.
    + exfalso. simpl in Heq. destruct (wf_mapped _ _ Hwf q1 g1 Hold1) as (m & Hm & _).
      congruence.
    + by apply (wf_addr _ _ Hwf q1 q2 g1 g2).
  - right. simpl. split; congruence.
Qed.

End CreateWf.

Lemma hash_table_insert_run s self t :
  length (hash_table s) = Z.to_nat HASH_SIZE → hd true (oracle s) = true →
  hash_table_insert self t s = Ret tt (create_final self t s).
Proof.
  intros Hlen Ho.
  destruct (lookup_lt_is_Some_2 (hash_table s) (Z.to_nat (self mod HASH_SIZE))) as [chain Hc].
  { rewrite Hlen. pose proof (Z.mod_pos_bound self HASH_SIZE). unfold HASH_SIZE in *. lia. }
  unfold hash_table_insert, bind, os_grant, get, modify. rewrite Ho. simpl. rewrite Hc.
  unfold create_final. by rewrite Hc.
Qed.

Section CreateCases.

Variable gp : Z.
Hypothesis gp_pos : 0 < gp.

Variables (s : tls_state) (self sz : Z).
Hypothesis Hwf : wf gp s.
Hypothesis Hi : initialized s ≠ 0.
Hypothesis Hf : table_find self (hash_table s) = None.
Hypothesis Hsz : 0 < sz.
Hypothesis H1 : hd true (oracle s) = true.
Hypothesis H2 : hd true (tl (oracle s)) = true.

Let tn := fresh_key (tls_heap s).
Let n := Z.to_nat (create_page_num (page_size s) sz).

(** The allocation loop decides the outcome. *)
Lemma tls_create_loop_cases :
  (∃ pre post, (length pre < 2 * n)%nat ∧ Forall (λ b, b = true) pre ∧
     tl (tl (oracle s)) = pre ++ false :: post ∧
     tls_create gp self sz s = Ret (-1) (with_oracle post s)) ∨
  (Forall (λ b, b = true) (take (2 * n) (tl (tl (oracle s)))) ∧
   ((hd true (drop (2 * n) (tl (tl (oracle s)))) = false ∧
     tls_create gp self sz s = Exit 1) ∨
    (hd true (drop (2 * n) (tl (tl (oracle s)))) = true ∧
     ∃ s3 cl, tls_create gp self sz s = Ret 0 (create_final self tn s3) ∧
       building (page_heap s) (mem s) tn
         (mkTLS self sz (create_page_num (page_size s) sz) []) cl 0 s3 ∧
       length cl = n ∧ same_globals (create_start s self sz) s3 ∧
       oracle s3 = drop (2 * n) (tl (tl (oracle s))) ∧
       wf gp (create_final self tn s3)))).
Proof.
  assert (page_size s = gp) as Hps by (destruct (wf_init _ _ Hwf) as [[? _]|[_ ?]]; done).
  rewrite (tls_create_started gp self sz s Hi Hf Hsz H1 H2).
  pose proof (create_pages_spec (page_heap s) (mem s) tn
                (mkTLS self sz (create_page_num (page_size s) sz) []) n [] _
                (building_start s self sz) ltac:(simpl; lia)) as Hloop.
  change (Z.of_nat (length [])) with 0 in Hloop.
  change (oracle (create_start s self sz)) with (tl (tl (oracle s))) in Hloop.
  change (length (@nil (Z * Z)) + n)%nat with n in Hloop.
  fold tn n.
  destruct (create_pages tn 0 n (create_start s self sz)) as [[] s3| | |] eqn:Hrun;
    try done; rewrite (bind_Ret _ _ _ _ _ Hrun); cbv beta iota.
  - right. destruct Hloop as ((cl & Hb & Hlen) & Hg & Hth & Hall & Hdrop).
    split; [done|].
    destruct (hd true (drop (2 * n) (tl (tl (oracle s))))) eqn:H3.
    + right. split; [done|]. exists s3, cl.
      assert (length (hash_table s3) = Z.to_nat HASH_SIZE) as Hbk.
      { destruct Hg as (-> & _). apply (wf_buckets _ _ Hwf). }
      rewrite (bind_Ret _ _ _ _ _ (hash_table_insert_run s3 self tn Hbk
                 ltac:(by rewrite Hdrop))).
      split; [done|]. split; [done|]. split; [done|]. split; [done|]. split; [done|].
      apply (created_wf gp gp_pos s self sz cl s3 Hwf Hi Hf Hb); [|done|done].
      rewrite Hlen. done.
    + left. split; [done|]. apply bind_Exit, hash_table_insert_Exit. by rewrite Hdrop.
  - left. destruct Hloop as (Hph & Hmem & Hg & Hth & pre & Hlen & Hall & Ho).
    exists pre, (oracle s3). split; [done|]. split; [done|]. split; [done|].
    unfold ret. f_equal. destruct Hg as (? & ? & ? & ? & ?). state_eq; try done.
    rewrite Hth. simpl. apply delete_insert_id, fresh_key_fresh.
Qed.

End CreateCases.

(** ** Every reachable state satisfies the invariant *)

Lemma concat_replicate_nil {A} n : concat (replicate n (@nil A)) = [].
Proof. induction n; simpl; done. Qed.

Section Reachable.

Variable gp : Z.
Hypothesis gp_pos : 0 < gp.

Lemma tls_create_wf s self sz r s' :
  wf gp s → tls_create gp self sz s = Ret r s' → wf gp s'.
Proof.
  intros Hwf0 Hr. rewrite tls_create_ensure in Hr.
  pose proof (wf_ensure_init gp s Hwf0) as Hwf.
  destruct (ensure_init_initialized gp s Hwf0) as [Hi _].
  set (si := ensure_init gp s) in *.
  destruct (table_find self (hash_table si)) as [e|] eqn:Hf.
  { rewrite (tls_create_registered gp self sz si e Hi Hf) in Hr. by injection Hr as <- <-. }
  destruct (decide (sz ≤ 0)) as [Hsz|Hsz].
  { rewrite (tls_create_zero gp self sz si Hi Hf Hsz) in Hr. by injection Hr as <- <-. }
  destruct (hd true (oracle si)) eqn:H1.
  2:{ rewrite (tls_create_fail1 gp self sz si Hi Hf ltac:(lia) H1) in Hr.
      injection Hr as <- <-. by apply wf_with_oracle. }
  destruct (hd true (tl (oracle si))) eqn:H2.
  2:{ rewrite (tls_create_fail2 gp self sz si Hi Hf ltac:(lia) H1 H2) in Hr.
      injection Hr as <- <-. by apply wf_with_oracle. }
  destruct (tls_create_loop_cases gp gp_pos si self sz Hwf Hi Hf ltac:(lia) H1 H2)
    as [(pre & post & _ & _ & _ & He)|(_ & [(_ & He)|(_ & s3 & cl & He & _ & _ & _ & _ & Hwf')])];
    rewrite He in Hr; try done; injection Hr as <- <-; [by apply wf_with_oracle|done].
Qed.

Lemma tls_destroy_wf s self r s' :
  wf gp s → tls_destroy self s = Ret r s' → wf gp s'.
Proof.
  intros Hwf Hr. destruct (table_find self (hash_table s)) as [e|] eqn:Hf.
  - destruct (wf_find gp s self e Hwf Hf) as (_ & _ & d & Hd & _).
    rewrite (tls_destroy_Ret gp s self e d Hwf Hf Hd) in Hr. injection Hr as <- <-.
    by apply destroy_state_wf.
  - rewrite (tls_destroy_None s self Hf) in Hr. by injection Hr as <- <-.
Qed.

Lemma initial_elems o : all_elems (initial_state o) = [].
Proof. unfold all_elems, initial_state. cbn [hash_table]. apply concat_replicate_nil. Qed.

Lemma initial_state_wf o : wf gp (initial_state o).
Proof.
  split.
  - unfold initial_state. cbn [hash_table]. apply length_replicate.
  - rewrite initial_elems. constructor.
  - rewrite initial_elems. by intros e ?%elem_of_nil.
  - intros t d. unfold initial_state. cbn [tls_heap]. by rewrite lookup_empty.
  - intros t d. unfold initial_state. cbn [tls_heap]. by rewrite lookup_empty.
  - intros p pg. unfold initial_state. cbn [page_heap]. by rewrite lookup_empty.
  - intros p pg. unfold initial_state. cbn [page_heap]. by rewrite lookup_empty.
  - intros p q pg qg. unfold initial_state. cbn [page_heap]. by rewrite lookup_empty.
  - by left.
Qed.

Lemma reachable_wf s : reachable gp s → wf gp s.
Proof.
  induction 1 as [o|s o _ IH|s self sz r s' _ IH Hsz Hr|s self r s' _ IH Hr
                  |s self offset len buffer r s' _ IH Ho Hl Hr
                  |s self offset len buffer r s' _ IH Ho Hl Hr
                  |s self target r s' _ IH Hr].
  - apply initial_state_wf.
  - by apply wf_with_oracle.
  - by apply (tls_create_wf s self sz r s').
  - by apply (tls_destroy_wf s self r s').
  - eapply (tls_read_wf gp); eauto. lia.
  - eapply (tls_write_wf gp); eauto. lia.
  - eapply (tls_clone_wf gp); eauto.
Qed.

End Reachable.

(** * Properties of the specification *)

(** ** The scenario states are reachable *)

Lemma st_created_run : tls_create 4096 1 8192 (initial_state []) = Ret 0 st_created.
Proof. vm_compute. reflexivity. Qed.

Lemma st_written_run : tls_write 1 0 5 hello st_created = Ret 0 st_written.
Proof. vm_compute. reflexivity. Qed.

Lemma st_cloned_run : tls_clone 2 1 st_written = Ret 0 st_cloned.
Proof. vm_compute. reflexivity. Qed.

Lemma st_created_reachable : reachable 4096 st_created.
Proof.
  apply (reach_create 4096 (initial_state []) 1 8192 0); [apply reach_start|lia|].
  apply st_created_run.
Qed.

Lemma st_written_reachable : reachable 4096 st_written.
Proof.
  apply (reach_write 4096 st_created 1 0 5 hello 0); [apply st_created_reachable|lia..|].
  apply st_written_run.
Qed.

Lemma st_cloned_reachable : reachable 4096 st_cloned.
Proof.
  apply (reach_clone 4096 st_written 2 1 0); [apply st_written_reachable|].
  apply st_cloned_run.
Qed.

Lemma st_cloned_low_memory_reachable : reachable 4096 st_cloned_low_memory.
Proof. apply reach_os, st_cloned_reachable. Qed.

(** ** C5: reference counts *)

(** C5. In every reachable state every page object has a reference count of
    at least 1, equal to the number of descriptors whose page array
    references it.  Reachable states are closed under [tls_create],
    [tls_clone], [tls_destroy] and [tls_write] (with its copy-on-write
    branch), so each of them preserves the invariant. *)
Theorem ref_count_counts_holders gp s p pg :
  0 < gp → reachable gp s → page_heap s !! p = Some pg →
  1 ≤ ref_count pg ∧ ref_count pg = Z.of_nat (holders (tls_heap s) p).
Proof.
  intros Hgp Hr Hp. destruct (wf_count _ _ (reachable_wf gp Hgp s Hr) p pg Hp). done.
Qed.

Lemma ref_count_counts_holders_witness :
  1 ≤ ref_count (mkPage 4096 2) ∧
  ref_count (mkPage 4096 2) = Z.of_nat (holders (tls_heap st_cloned) 1).
Proof.
  apply (ref_count_counts_holders 4096 st_cloned 1 (mkPage 4096 2)).
  - lia.
  - apply st_cloned_reachable.
  - vm_compute. reflexivity.
Defined.

(** ** C3: a write stays inside the writer's storage area *)

Section Isolation.

Variable gp : Z.
Hypothesis gp_pos : 0 < gp.

Lemma other_tls_ne s self other e e2 :
  wf gp s → table_find self (hash_table s) = Some e →
  table_find other (hash_table s) = Some e2 → other ≠ self →
  elem_tls e2 ≠ elem_tls e.
Proof.
  intros Hwf Hf Hf2 Hne Heq.
  destruct (wf_find gp s self e Hwf Hf) as (_ & _ & d & Hd & Htid).
  destruct (wf_find gp s other e2 Hwf Hf2) as (_ & _ & d2 & Hd2 & Htid2).
  rewrite Heq in Hd2. congruence.
Qed.

(** What [tls_read] hands back depends on the bytes of the caller's area only. *)
Lemma tls_read_frame s s' other e2 d2 off len buf :
  wf gp s → wf gp s' → 0 ≤ off →
  hash_table s' = hash_table s → page_size s' = page_size s →
  table_find other (hash_table s) = Some e2 →
  tls_heap s !! elem_tls e2 = Some d2 → tls_heap s' !! elem_tls e2 = Some d2 →
  (∀ i, lsa_byte s' (elem_tls e2) i = lsa_byte s (elem_tls e2) i) →
  result_of (tls_read other off len buf s') = result_of (tls_read other off len buf s).
Proof.
  intros Hwf Hwf' Hoff Hht Hps Hf Hd Hd' Hbytes.
  pose proof (tls_read_spec gp gp_pos s other off len buf Hwf Hoff) as Hs.
  pose proof (tls_read_spec gp gp_pos s' other off len buf Hwf' Hoff) as Hs'.
  rewrite Hht, Hf in Hs'. rewrite Hf in Hs.
  destruct Hs as (x & Hx & Hs). destruct Hs' as (x' & Hx' & Hs'). simplify_eq.
  destruct (u32 (off + len) >? size d2); [by rewrite Hs, Hs'|].
  simpl in Hs, Hs'. rewrite Hps in Hs'.
  destruct (tls_read other off len buf s) as [r1 s1| | |],
           (tls_read other off len buf s') as [r2 s2| | |]; try done.
  - destruct Hs as (out & -> & _ & Hlen & _ & Hout).
    destruct Hs' as (out' & -> & _ & Hlen' & _ & Hout'). simpl. do 2 f_equal.
    apply list_eq. intros j. rewrite Hout, Hout'.
    destruct (decide (j < Z.to_nat (u32 (off + len) - off))%nat); [|done]. by rewrite Hbytes.
  - by destruct Hs as (out & _ & _ & _ & Hok & _).
  - by destruct Hs' as (out & _ & _ & _ & Hok & _).
Qed.

End Isolation.

(** C3. A write that returns changes no byte another thread can read: the
    other thread stays registered and every [tls_read] it makes hands back
    what it handed back before (this covers the two threads of a clone,
    whichever of them writes).  When the write succeeds on a range inside
    the area, bytes [offset, offset + len) of the writer's area are the
    first [len] bytes of the buffer. *)
Theorem write_changes_only_own_bytes gp s self offset len buffer e d r s' :
  0 < gp → reachable gp s → 0 ≤ offset →
  table_find self (hash_table s) = Some e → tls_heap s !! elem_tls e = Some d →
  tls_write self offset len buffer s = Ret r s' →
  (r = 0 → 0 ≤ len → offset + len ≤ size d → size d < 2 ^ 32 →
     ∀ k, 0 ≤ k < len →
       ∃ b, buffer !! Z.to_nat k = Some b ∧ lsa_byte s' (elem_tls e) (offset + k) = Some b) ∧
  (∀ other e2, other ≠ self → table_find other (hash_table s) = Some e2 →
     table_find other (hash_table s') = Some e2 ∧
     (∀ i, lsa_byte s' (elem_tls e2) i = lsa_byte s (elem_tls e2) i) ∧
     ∀ off2 len2 buf2, 0 ≤ off2 →
       result_of (tls_read other off2 len2 buf2 s') =
       result_of (tls_read other off2 len2 buf2 s)).
Proof.
  intros Hgp Hreach Hoff Hf Hd Hrun.
  pose proof (reachable_wf gp Hgp s Hreach) as Hwf.
  pose proof (tls_write_spec gp Hgp s self offset len buffer Hwf Hoff) as Hspec.
  rewrite Hf in Hspec. destruct Hspec as (d0 & Hd0 & Hspec). simplify_eq.
  assert (wf gp s' ∧ write_rel (elem_tls e) s s' ∧
          (r = 0 → u32 (offset + len) ≤ size d →
             ∃ k, k = Z.to_nat (u32 (offset + len) - offset) ∧
               range_ok (length (pages d)) (page_size s) (length buffer) k 0 offset ∧
               ∀ i, 0 ≤ i → lsa_byte s' (elem_tls e) i =
                 if decide (offset ≤ i < offset + Z.of_nat k)
                 then buffer !! Z.to_nat (i - offset) else lsa_byte s (elem_tls e) i))
    as (Hwf' & Hrel & Hown).
  { destruct (u32 (offset + len) >? size d) eqn:Hb.
    - rewrite Hspec in Hrun. injection Hrun as <- <-.
      split; [done|]. split; [apply write_rel_refl|]. done.
    - simpl in Hspec. rewrite Hrun in Hspec.
      destruct Hspec as (Hwf' & Hrel & _ & k & Hk & Hcase & Hok & Hbytes).
      split; [done|]. split; [done|]. intros -> _.
      destruct Hcase as [[_ ->]|[? _]]; [|done]. by exists (Z.to_nat (u32 (offset + len) - offset)). }
  split.
  - intros -> Hlen Hin Hsz k Hk.
    assert (u32 (offset + len) = offset + len) as Hu.
    { unfold u32. apply Z.mod_small. lia. }
    destruct (Hown eq_refl ltac:(lia)) as (n & -> & Hok & Hbytes).
    rewrite Hu in Hok, Hbytes.
    replace (offset + len - offset) with len in Hok, Hbytes by lia.
    destruct (Hok (Z.to_nat k) ltac:(lia)) as [Hbuf _].
    destruct (lookup_lt_is_Some_2 buffer (Z.to_nat k) ltac:(simpl in Hbuf; lia)) as [b Hb].
    exists b. split; [done|]. rewrite Hbytes by lia.
    rewrite decide_True by lia. by replace (offset + k - offset) with k by lia.
  - intros other e2 Hne Hf2.
    pose proof (other_tls_ne gp s self other e e2 Hwf Hf Hf2 Hne) as Hnt.
    rewrite (wr_table _ _ _ Hrel). split; [done|].
    split; [intros i; by apply (wr_frame _ _ _ Hrel)|].
    intros off2 len2 buf2 Hoff2.
    destruct (wf_find gp s other e2 Hwf Hf2) as (_ & _ & d2 & Hd2 & _).
    apply (tls_read_frame gp Hgp s s' other e2 d2); try done.
    + apply (wr_table _ _ _ Hrel).
    + apply (wr_ps _ _ _ Hrel).
    + by rewrite (wr_others _ _ _ Hrel).
    + intros i. by apply (wr_frame _ _ _ Hrel).
Qed.

Lemma st_diverged_run : tls_write 2 0 1 [x58] st_cloned = Ret 0 st_diverged.
Proof. vm_compute. reflexivity. Qed.

Lemma write_changes_only_own_bytes_witness :
  (0 = 0 → 0 ≤ 1 → 0 + 1 ≤ size (mkTLS 2 8192 2 [1; 2]) →
   size (mkTLS 2 8192 2 [1; 2]) < 2 ^ 32 →
     ∀ k, 0 ≤ k < 1 →
       ∃ b, [x58] !! Z.to_nat k = Some b ∧
            lsa_byte st_diverged (elem_tls (mkElem 2 2)) (0 + k) = Some b) ∧
  (∀ other e2, other ≠ 2 → table_find other (hash_table st_cloned) = Some e2 →
     table_find other (hash_table st_diverged) = Some e2 ∧
     (∀ i, lsa_byte st_diverged (elem_tls e2) i = lsa_byte st_cloned (elem_tls e2) i) ∧
     ∀ off2 len2 buf2, 0 ≤ off2 →
       result_of (tls_read other off2 len2 buf2 st_diverged) =
       result_of (tls_read other off2 len2 buf2 st_cloned)).
Proof.
  apply (write_changes_only_own_bytes 4096 st_cloned 2 0 1 [x58]
           (mkElem 2 2) (mkTLS 2 8192 2 [1; 2]) 0 st_diverged).
  - lia.
  - apply st_cloned_reachable.
  - lia.
  - vm_compute. reflexivity.
  - vm_compute. reflexivity.
  - apply st_diverged_run.
Defined.

(** ** Reading back what was just written *)

Lemma covered_range_ok (npages : nat) ps buflen (len offset sz : Z) :
  0 < ps → 0 ≤ offset → offset + len ≤ sz → sz ≤ Z.of_nat npages * ps →
  (Z.to_nat len ≤ buflen)%nat →
  range_ok npages ps buflen (Z.to_nat len) 0 offset.
Proof.
  intros Hps Hoff Hin Hcov Hbuf k Hk. split; [simpl; lia|].
  assert ((offset + Z.of_nat k) / ps < Z.of_nat npages).
  { apply Z.div_lt_upper_bound; [done|]. lia. }
  assert (0 ≤ (offset + Z.of_nat k) / ps) by (apply Z.div_pos; lia).
  lia.
Qed.

Lemma ceil_pages_cover sz ps : 0 < ps → sz ≤ (sz + ps - 1) / ps * ps.
Proof.
  intros Hps. pose proof (Z.div_mod (sz + ps - 1) ps ltac:(lia)).
  pose proof (Z.mod_pos_bound (sz + ps - 1) ps Hps). nia.
Qed.

Section RoundTrip.

Variable gp : Z.
Hypothesis gp_pos : 0 < gp.

Variables (s : tls_state) (self : Z) (e : hash_element) (d : TLS).
Variables (offset len : Z) (buf : list byte).
Hypothesis Hwf : wf gp s.
Hypothesis Hf : table_find self (hash_table s) = Some e.
Hypothesis Hd : tls_heap s !! elem_tls e = Some d.
Hypothesis Hoff : 0 ≤ offset.
Hypothesis Hlen : 0 ≤ len.
Hypothesis Hin : offset + len ≤ size d.
Hypothesis Hsz : size d < 2 ^ 32.

Local Lemma sum_no_wrap : u32 (offset + len) = offset + len.
Proof. unfold u32. apply Z.mod_small. lia. Qed.

(** What [tls_write] does on a range inside the area, with the length of
    the range for the number of rounds. *)
Lemma tls_write_in_range :
  match tls_write self offset len buf s with
  | Ret r s1 =>
      wf gp s1 ∧ write_rel (elem_tls e) s s1 ∧ (oracle s = [] → r = 0) ∧
      (r = 0 → ∀ j, (j < Z.to_nat len)%nat →
         lsa_byte s1 (elem_tls e) (offset + Z.of_nat j) = buf !! j)
  | Undef => ¬ range_ok (length (pages d)) (page_size s) (length buf) (Z.to_nat len) 0 offset
  | _ => False
  end.
Proof.
  pose proof (tls_write_spec gp gp_pos s self offset len buf Hwf Hoff) as Hw.
  rewrite Hf in Hw. destruct Hw as (d0 & Hd0 & Hw).
  assert (d0 = d) as -> by congruence. clear Hd0.
  rewrite sum_no_wrap in Hw.
  destruct (Z.gtb_spec (offset + len) (size d)) as [?|_]; [lia|].
  simpl in Hw. replace (offset + len - offset) with len in Hw by lia.
  destruct (tls_write self offset len buf s) as [r s1| | |]; [|done..].
  destruct Hw as (Hwf1 & Hrel & Hor & k & _ & Hcase & _ & Hbytes).
  split; [done|]. split; [done|]. split; [done|].
  intros -> j Hj. destruct Hcase as [[_ ->]|[? _]]; [|done].
  rewrite Hbytes by lia. rewrite decide_True by lia. f_equal. lia.
Qed.

(** What [tls_read] does on the same range in a state [tls_write] left. *)
Lemma tls_read_in_range s1 out :
  wf gp s1 → write_rel (elem_tls e) s s1 →
  match tls_read self offset len out s1 with
  | Ret r s2 =>
      ∃ res, r = (0, res) ∧
        ∀ j, (j < Z.to_nat len)%nat →
          res !! j = lsa_byte s1 (elem_tls e) (offset + Z.of_nat j)
  | Undef => ¬ range_ok (length (pages d)) (page_size s) (length out) (Z.to_nat len) 0 offset
  | _ => False
  end.
Proof.
  intros Hwf1 Hrel.
  destruct (wr_desc _ _ _ Hrel _ Hd) as (d1 & Hd1 & _ & Hsz1 & _ & Hlen1).
  pose proof (tls_read_spec gp gp_pos s1 self offset len out Hwf1 Hoff) as Hr.
  rewrite (wr_table _ _ _ Hrel), Hf in Hr. destruct Hr as (d0 & Hd0 & Hr).
  assert (d0 = d1) as -> by congruence. clear Hd0.
  rewrite sum_no_wrap, Hsz1 in Hr.
  destruct (Z.gtb_spec (offset + len) (size d)) as [?|_]; [lia|].
  simpl in Hr. replace (offset + len - offset) with len in Hr by lia.
  rewrite Hlen1, (wr_ps _ _ _ Hrel) in Hr.
  destruct (tls_read self offset len out s1) as [r s2| | |]; [|done..].
  destruct Hr as (res & -> & _ & _ & _ & Hres).
  exists res. split; [done|]. intros j Hj. by rewrite Hres, decide_True.
Qed.

End RoundTrip.

(** Reading back what was written, for a descriptor that has its
    ceil(S / page_size) pages.  In a reachable state, for the area of size
    S of the calling thread and a range with offset + len <= S: whenever
    [tls_write] returns 0 and the [tls_read] of the same range by the same
    thread that follows returns, the read returns 0 and the first [len]
    bytes of its buffer are the first [len] bytes written.  Both calls do
    return when the descriptor has ceil(S / page_size) pages and the two
    buffers hold [len] bytes: the write returns 0 unless the operating
    system refuses memory for a private copy, and the read after it
    returns 0. *)
Theorem write_then_read_round_trip gp s self e d offset len buf out :
  0 < gp → reachable gp s →
  table_find self (hash_table s) = Some e → tls_heap s !! elem_tls e = Some d →
  0 ≤ offset → 0 ≤ len → offset + len ≤ size d → size d < 2 ^ 32 →
  (∀ s1 r2 res s2,
     tls_write self offset len buf s = Ret 0 s1 →
     tls_read self offset len out s1 = Ret (r2, res) s2 →
     r2 = 0 ∧ take (Z.to_nat len) res = take (Z.to_nat len) buf) ∧
  (page_num d = (size d + page_size s - 1) / page_size s →
   (Z.to_nat len ≤ length buf)%nat → (Z.to_nat len ≤ length out)%nat →
   ∃ r s1, tls_write self offset len buf s = Ret r s1 ∧
     (oracle s = [] → r = 0) ∧
     (r = 0 → ∃ res s2, tls_read self offset len out s1 = Ret (0, res) s2 ∧
        take (Z.to_nat len) res = take (Z.to_nat len) buf)).
Proof.
  intros Hgp Hreach Hf Hd Hoff Hlen Hin Hsz.
  pose proof (reachable_wf gp Hgp s Hreach) as Hwf.
  pose proof (tls_write_in_range gp Hgp s self e d offset len buf
                Hwf Hf Hd Hoff Hlen Hin Hsz) as Hw.
  assert (∀ s1 res, wf gp s1 → write_rel (elem_tls e) s s1 →
            (∀ j, (j < Z.to_nat len)%nat →
               lsa_byte s1 (elem_tls e) (offset + Z.of_nat j) = buf !! j) →
            (∀ j, (j < Z.to_nat len)%nat →
               res !! j = lsa_byte s1 (elem_tls e) (offset + Z.of_nat j)) →
            take (Z.to_nat len) res = take (Z.to_nat len) buf) as Htake.
  { intros s1 res _ _ Hb Hr. apply list_eq. intros j. rewrite !lookup_take.
    destruct (decide (j < Z.to_nat len)%nat) as [Hj|]; [|done].
    by rewrite Hr, Hb. }
  split.
  - intros s1 r2 res s2 Hrun Hread. rewrite Hrun in Hw.
    destruct Hw as (Hwf1 & Hrel & _ & Hbytes).
    pose proof (tls_read_in_range gp Hgp s self e d offset len
                  Hf Hd Hoff Hlen Hin Hsz s1 out Hwf1 Hrel) as Hr.
    rewrite Hread in Hr. destruct Hr as (res0 & Heq & Hres). injection Heq as -> <-.
    split; [done|]. apply (Htake s1 res Hwf1 Hrel (Hbytes eq_refl) Hres).
  - intros Hceil Hbuf Hout.
    assert (0 < page_size s) as Hps by (by rewrite (wf_page_size gp s _ _ Hwf Hd)).
    destruct (wf_desc _ _ Hwf _ _ Hd) as (Hnum & _ & _).
    assert (∀ buflen, (Z.to_nat len ≤ buflen)%nat →
              range_ok (length (pages d)) (page_size s) buflen (Z.to_nat len) 0 offset) as Hok.
    { intros buflen Hb. apply (covered_range_ok _ _ _ _ _ (size d)); try done.
      rewrite <- Hnum, Hceil. by apply ceil_pages_cover. }
    destruct (tls_write self offset len buf s) as [r s1| | |] eqn:Hrun; [|done|done|].
    2: { exfalso. apply Hw, Hok, Hbuf. }
    destruct Hw as (Hwf1 & Hrel & Hor & Hbytes).
    exists r, s1. split; [done|]. split; [done|]. intros ->.
    pose proof (tls_read_in_range gp Hgp s self e d offset len
                  Hf Hd Hoff Hlen Hin Hsz s1 out Hwf1 Hrel) as Hr.
    destruct (tls_read self offset len out s1) as [[r2 res] s2| | |]; [|done|done|].
    2: { exfalso. apply Hr, Hok, Hout. }
    destruct Hr as (res0 & Heq & Hres). injection Heq as -> <-.
    exists res, s2. split; [done|]. apply (Htake s1 res Hwf1 Hrel (Hbytes eq_refl) Hres).
Qed.

Lemma write_then_read_round_trip_witness :
  (∀ s1 r2 res s2,
     tls_write 2 4090 10 [x30; x31; x32; x33; x34; x35; x36; x37; x38; x39] st_cloned
       = Ret 0 s1 →
     tls_read 2 4090 10 (replicate 10 x00) s1 = Ret (r2, res) s2 →
     r2 = 0 ∧ take (Z.to_nat 10) res =
              take (Z.to_nat 10) [x30; x31; x32; x33; x34; x35; x36; x37; x38; x39]) ∧
  (∃ r s1, tls_write 2 4090 10 [x30; x31; x32; x33; x34; x35; x36; x37; x38; x39] st_cloned
             = Ret r s1 ∧
     (oracle st_cloned = [] → r = 0) ∧
     (r = 0 → ∃ res s2, tls_read 2 4090 10 (replicate 10 x00) s1 = Ret (0, res) s2 ∧
        take (Z.to_nat 10) res =
        take (Z.to_nat 10) [x30; x31; x32; x33; x34; x35; x36; x37; x38; x39])).
Proof.
  destruct (write_then_read_round_trip 4096 st_cloned 2 (mkElem 2 2) (mkTLS 2 8192 2 [1; 2])
              4090 10 [x30; x31; x32; x33; x34; x35; x36; x37; x38; x39] (replicate 10 x00))
    as [Hpartial Htotal].
  - lia.
  - apply st_cloned_reachable.
  - vm_compute. reflexivity.
  - vm_compute. reflexivity.
  - lia.
  - lia.
  - simpl. lia.
  - simpl. lia.
  - split; [exact Hpartial|]. apply Htotal.
    + vm_compute. reflexivity.
    + vm_compute. lia.
    + vm_compute. lia.
Defined.

(** C4. The round trip fails on the code for an area whose page count
    wrapped around.  [tls_create] called first, for 4294967295 bytes with
    pages of 4096 bytes, returns 0 and registers for thread 1 an area of
    that size with no page at all (the 32-bit sum 4294967295 + 4096 - 1 is
    4094).  The range of one byte at offset 0 is inside the area, yet
    [tls_write] of that range by thread 1 indexes the empty page array and
    has no defined outcome, and so has [tls_read]: no byte is written and
    none is read back. *)
Theorem round_trip_undefined_without_pages :
  tls_create 4096 1 4294967295 (initial_state []) = Ret 0 st_pageless ∧
  reachable 4096 st_pageless ∧
  table_find 1 (hash_table st_pageless) = Some (mkElem 1 1) ∧
  tls_heap st_pageless !! 1 = Some (mkTLS 1 4294967295 0 []) ∧
  0 + 1 ≤ 4294967295 ∧
  tls_write 1 0 1 [x41] st_pageless = Undef ∧
  tls_read 1 0 1 [x00] st_pageless = Undef.
Proof.
  assert (tls_create 4096 1 4294967295 (initial_state []) = Ret 0 st_pageless) as Hrun
    by (vm_compute; reflexivity).
  split; [done|]. split.
  { apply (reach_create 4096 (initial_state []) 1 4294967295 0 st_pageless);
      [apply reach_start|lia|done]. }
  split; [vm_compute; reflexivity|]. split; [vm_compute; reflexivity|].
  split; [lia|]. split; vm_compute; reflexivity.
Qed.

(** ** C2: the bounds check of [tls_read] and [tls_write] in [unsigned int] *)

(** C2. Thread 1 owns an area of 8192 bytes.  For offset 4294967295 and
    length 2 the sum is 4294967297 > 8192, but computed in [unsigned int] it
    is 1, the check [offset + length > tls->size] passes, and both
    [tls_read] and [tls_write] return 0 (the copy loop then runs no round,
    so the buffer and the area are as before). *)
Theorem bounds_check_wraps_around :
  lsa_of st_created 1 = Some 1 ∧
  size <$> tls_heap st_created !! 1 = Some 8192 ∧
  4294967295 + 2 > 8192 ∧
  u32 (4294967295 + 2) = 1 ∧
  result_of (tls_read 1 4294967295 2 [x00; x00] st_created) = Some (0, [x00; x00]) ∧
  result_of (tls_write 1 4294967295 2 [x41; x42] st_created) = Some 0.
Proof. vm_compute. repeat split; reflexivity. Qed.

(** ** C8: the page count of [tls_create] in [unsigned int] *)

(** C8. With 4096-byte pages, [tls_create (4294967295)] as the first call
    of a process returns 0 and registers the caller with a descriptor of
    size 4294967295 that has no page at all, where ceil(size / page_size) is
    1048576: [size + page_size - 1] wraps around to 4094. *)
Theorem create_page_count_wraps_around :
  ∃ s', tls_create 4096 1 4294967295 (initial_state []) = Ret 0 s' ∧
    lsa_of s' 1 = Some 1 ∧
    tls_heap s' !! 1 = Some (mkTLS 1 4294967295 0 []) ∧
    page_heap s' = ∅ ∧ mem s' = ∅ ∧
    u32 (4294967295 + 4096 - 1) = 4094 ∧
    (4294967295 + 4096 - 1) / 4096 = 1048576.
Proof. eexists. vm_compute. repeat split; reflexivity. Qed.

(** ** C1: which faults end the faulting thread *)

Lemma fault_scan_pages_run s self e d a n : ∀ j,
  tls_heap s !! elem_tls e = Some d →
  (∀ p, p ∈ pages d → is_Some (page_heap s !! p)) →
  0 ≤ j → (Z.to_nat j + n = length (pages d))%nat →
  ∃ b, fault_scan_pages self e a j n s = Ret b s ∧
    (b = true ↔ elem_tid e = self ∧
       ∃ p pg, p ∈ drop (Z.to_nat j) (pages d) ∧ page_heap s !! p = Some pg ∧ address pg = a).
Proof.
  induction n as [|n IH]; intros j Hd Hheap Hj Hlen.
  - exists false. split; [done|]. split; [done|].
    intros (_ & p & pg & Hp & _). rewrite drop_ge in Hp by lia. by apply elem_of_nil in Hp.
  - destruct (lookup_lt_is_Some_2 (pages d) (Z.to_nat j) ltac:(lia)) as [p Hp].
    destruct (Hheap p (list_elem_of_lookup_2 _ _ _ Hp)) as [pg Hpg].
    cbn [fault_scan_pages].
    rewrite (bind_Ret _ _ _ _ _ (tls_page_Ret s _ d j p Hd Hp)).
    rewrite (bind_Ret _ _ _ _ _ (deref_page_Ret s p pg Hpg)).
    rewrite (drop_S _ _ _ Hp).
    destruct ((address pg =? a) && (self =? elem_tid e)) eqn:Hhit.
    + exists true. split; [done|]. split; [|done]. intros _.
      apply andb_true_iff in Hhit as [Ha%Z.eqb_eq Hs%Z.eqb_eq].
      split; [done|]. exists p, pg. split; [apply elem_of_cons; by left|done].
    + destruct (IH (j + 1) Hd Hheap ltac:(lia) ltac:(lia)) as (b & Hrun & Hb).
      exists b. split; [done|]. rewrite Hb.
      replace (Z.to_nat (j + 1)) with (S (Z.to_nat j)) by lia.
      split.
      * intros (Hs & q & qg & Hq & Hqg & Ha). split; [done|].
        exists q, qg. split; [apply elem_of_cons; by right|done].
      * intros (Hs & q & qg & Hq & Hqg & Ha). split; [done|].
        apply elem_of_cons in Hq as [->|Hq]; [|by exists q, qg].
        assert (qg = pg) as -> by congruence.
        apply andb_false_iff in Hhit as [Hn%Z.eqb_neq|Hn%Z.eqb_neq]; congruence.
Qed.

Section Fault.

Variable gp : Z.
Variable s : tls_state.
Hypothesis Hwf : wf gp s.

Lemma fault_scan_chain_run self a chain :
  (∀ e, e ∈ chain → e ∈ all_elems s) →
  ∃ b, fault_scan_chain self a chain s = Ret b s ∧
    (b = true ↔ ∃ e d p pg, e ∈ chain ∧ elem_tid e = self ∧
       tls_heap s !! elem_tls e = Some d ∧ p ∈ pages d ∧
       page_heap s !! p = Some pg ∧ address pg = a).
Proof.
  induction chain as [|e next IH]; intros Hin.
  - exists false. split; [done|]. split; [done|].
    intros (e & _ & _ & _ & He & _). by apply elem_of_nil in He.
  - destruct (wf_elem _ _ Hwf e (Hin e ltac:(apply elem_of_cons; by left))) as (d & Hd & _).
    destruct (wf_desc _ _ Hwf _ _ Hd) as (Hnum & _ & Hheap).
    destruct (fault_scan_pages_run s self e d a (Z.to_nat (page_num d)) 0 Hd Hheap
                ltac:(lia) ltac:(lia)) as (b & Hrun & Hb).
    cbn [fault_scan_chain].
    rewrite (bind_Ret _ _ _ _ _ (deref_TLS_Ret s _ d Hd)).
    rewrite (bind_Ret _ _ _ _ _ Hrun).
    change (drop (Z.to_nat 0) (pages d)) with (pages d) in Hb.
    destruct b.
    + exists true. split; [done|]. split; [|done]. intros _.
      destruct (proj1 Hb eq_refl) as (Hs & p & pg & Hp & Hpg & Ha).
      exists e, d, p, pg. split; [apply elem_of_cons; by left|done].
    + destruct IH as (b & Hrun' & Hb').
      { intros e' He'. apply Hin, elem_of_cons. by right. }
      exists b. split; [done|]. rewrite Hb'. split.
      * intros (e' & d' & p & pg & He' & Hrest).
        exists e', d', p, pg. split; [apply elem_of_cons; by right|done].
      * intros (e' & d' & p & pg & He' & Hs & Hd' & Hp & Hpg & Ha).
        apply elem_of_cons in He' as [->|He']; [|by exists e', d', p, pg].
        assert (d' = d) as -> by congruence.
        assert (false = true); [|done]. apply Hb. split; [done|]. by exists p, pg.
Qed.

Lemma fault_scan_table_run self a ht :
  (∀ e, e ∈ concat ht → e ∈ all_elems s) →
  ∃ b, fault_scan_table self a ht s = Ret b s ∧
    (b = true ↔ ∃ e d p pg, e ∈ concat ht ∧ elem_tid e = self ∧
       tls_heap s !! elem_tls e = Some d ∧ p ∈ pages d ∧
       page_heap s !! p = Some pg ∧ address pg = a).
Proof.
  induction ht as [|chain rest IH]; intros Hin.
  - exists false. split; [done|]. split; [done|].
    intros (e & _ & _ & _ & He & _). by apply elem_of_nil in He.
  - destruct (fault_scan_chain_run self a chain) as (b & Hrun & Hb).
    { intros e He. apply Hin. simpl. apply elem_of_app. by left. }
    cbn [fault_scan_table]. rewrite (bind_Ret _ _ _ _ _ Hrun).
    destruct b.
    + exists true. split; [done|]. split; [|done]. intros _.
      destruct (proj1 Hb eq_refl) as (e & d & p & pg & He & Hrest).
      exists e, d, p, pg. split; [simpl; apply elem_of_app; by left|done].
    + destruct IH as (b & Hrun' & Hb').
      { intros e He. apply Hin. simpl. apply elem_of_app. by right. }
      exists b. split; [done|]. rewrite Hb'. split.
      * intros (e & d & p & pg & He & Hrest).
        exists e, d, p, pg. split; [simpl; apply elem_of_app; by right|done].
      * intros (e & d & p & pg & He & Hrest). simpl in He.
        apply elem_of_app in He as [He|He]; [|by exists e, d, p, pg].
        assert (false = true); [|done]. apply Hb. by exists e, d, p, pg.
Qed.

Lemma tls_handle_page_fault_run self sig si_addr :
  let p_fault := Z.land si_addr (Z.lnot (page_size s - 1)) in
  (own_page_at s self p_fault →
     tls_handle_page_fault self sig si_addr s = Ret ThreadExit s) ∧
  (¬ own_page_at s self p_fault →
     tls_handle_page_fault self sig si_addr s = Ret (Raised sig) (default_actions s)).
Proof.
  intros p_fault.
  destruct (fault_scan_table_run self p_fault (hash_table s)) as (b & Hrun & Hb); [done|].
  unfold tls_handle_page_fault. rewrite bind_get. fold p_fault.
  rewrite (bind_Ret _ _ _ _ _ Hrun).
  assert (b = true ↔ own_page_at s self p_fault) as Hiff.
  { rewrite Hb. unfold own_page_at, all_elems. done. }
  destruct b.
  - split; [done|]. intros Hn. destruct Hn. by apply Hiff.
  - split; [intros Ho; by apply Hiff in Ho|]. intros _. by rewrite bind_modify.
Qed.

End Fault.

Lemma fault_on_other_threads_page_not_killed :
  ¬ kills_thread_on_any_lsa_page st_created 2 SIGSEGV 4097.
Proof.
  intros H. destruct H as [s' Hs'].
  - exists (mkElem 1 1), (mkTLS 1 8192 2 [1; 2]), 1, (mkPage 4096 1).
    vm_compute. repeat split; try reflexivity.
    + apply list_elem_of_In. vm_compute. auto.
    + apply list_elem_of_In. vm_compute. auto.
  - vm_compute in Hs'. discriminate.
Qed.

(** C1 (amended). In a reachable state, a fault whose page-aligned address
    is the base address of a page of the descriptor registered for the
    faulting thread itself ends that thread only ([pthread_exit]), the state
    of the process unchanged.  On every other fault, a fault on a page of
    another thread's area included, the handler restores the default actions
    of both signals and raises the signal again. *)
Theorem fault_handler_kills_owner_only gp s self sig si_addr :
  0 < gp → reachable gp s →
  (own_page_at s self (Z.land si_addr (Z.lnot (page_size s - 1))) →
     tls_handle_page_fault self sig si_addr s = Ret ThreadExit s) ∧
  (¬ own_page_at s self (Z.land si_addr (Z.lnot (page_size s - 1))) →
     tls_handle_page_fault self sig si_addr s = Ret (Raised sig) (default_actions s)).
Proof.
  intros Hgp Hreach.
  apply (tls_handle_page_fault_run gp s (reachable_wf gp Hgp s Hreach)).
Qed.

Lemma fault_handler_kills_owner_only_witness :
  (own_page_at st_created 1 (Z.land 4097 (Z.lnot (page_size st_created - 1))) →
     tls_handle_page_fault 1 SIGSEGV 4097 st_created = Ret ThreadExit st_created) ∧
  (¬ own_page_at st_created 1 (Z.land 4097 (Z.lnot (page_size st_created - 1))) →
     tls_handle_page_fault 1 SIGSEGV 4097 st_created =
     Ret (Raised SIGSEGV) (default_actions st_created)).
Proof.
  apply (fault_handler_kills_owner_only 4096 st_created 1 SIGSEGV 4097).
  - lia.
  - apply st_created_reachable.
Defined.

(** ** C9: which operation initialises the process *)

Lemma tls_read_None s self offset len buffer :
  table_find self (hash_table s) = None →
  tls_read self offset len buffer s = Ret (-1, buffer) s.
Proof.
  intros H. unfold tls_read. rewrite (bind_Ret _ _ _ _ _ (eq_refl : get s = Ret s s)).
  by rewrite H.
Qed.

Lemma tls_write_None s self offset len buffer :
  table_find self (hash_table s) = None →
  tls_write self offset len buffer s = Ret (-1) s.
Proof.
  intros H. unfold tls_write. rewrite (bind_Ret _ _ _ _ _ (eq_refl : get s = Ret s s)).
  by rewrite H.
Qed.

Lemma tls_clone_None gp s self target :
  wf gp s → table_find self (hash_table s) = None →
  table_find target (hash_table s) = None →
  tls_clone self target s = Ret (-1) s.
Proof.
  intros Hwf Hs Ht.
  destruct (tls_clone_eval gp s self target Hwf)
    as [[Hn _]|(_ & [[_ He]|(et & dt & Hf & _)])]; [done|done|congruence].
Qed.

Lemma initial_find o t : table_find t (hash_table (initial_state o)) = None.
Proof. unfold initial_state. cbn [hash_table]. apply table_find_replicate. Qed.

(** [tls_create] leaves the initialisation as its first step made it. *)
Lemma tls_create_init_fields gp s self sz r s' :
  0 < gp → wf gp s → tls_create gp self sz s = Ret r s' →
  initialized s' = initialized (ensure_init gp s) ∧
  page_size s' = page_size (ensure_init gp s) ∧
  sigbus_action s' = sigbus_action (ensure_init gp s) ∧
  sigsegv_action s' = sigsegv_action (ensure_init gp s).
Proof.
  intros Hgp Hwf0 Hr. rewrite tls_create_ensure in Hr.
  pose proof (wf_ensure_init gp s Hwf0) as Hwf.
  destruct (ensure_init_initialized gp s Hwf0) as [Hi _].
  set (si := ensure_init gp s) in *.
  destruct (table_find self (hash_table si)) as [e|] eqn:Hf.
  { rewrite (tls_create_registered gp self sz si e Hi Hf) in Hr. by injection Hr as <- <-. }
  destruct (decide (sz ≤ 0)) as [Hsz|Hsz].
  { rewrite (tls_create_zero gp self sz si Hi Hf Hsz) in Hr. by injection Hr as <- <-. }
  destruct (hd true (oracle si)) eqn:H1.
  2:{ rewrite (tls_create_fail1 gp self sz si Hi Hf ltac:(lia) H1) in Hr.
      by injection Hr as <- <-. }
  destruct (hd true (tl (oracle si))) eqn:H2.
  2:{ rewrite (tls_create_fail2 gp self sz si Hi Hf ltac:(lia) H1 H2) in Hr.
      by injection Hr as <- <-. }
  destruct (tls_create_loop_cases gp Hgp si self sz Hwf Hi Hf ltac:(lia) H1 H2)
    as [(pre & post & _ & _ & _ & He)|(_ & [(_ & He)|(_ & s3 & cl & He & _ & _ & Hg & _ & _)])];
    rewrite He in Hr; try done; injection Hr as <- <-; [done|].
  destruct Hg as (_ & ? & ? & ? & ?). done.
Qed.

Lemma destroy_first_does_not_initialize :
  ¬ first_call_initializes 4096 (tls_destroy 1).
Proof.
  intros H. destruct (H []) as (r & s' & Hr & Hi & _).
  vm_compute in Hr. injection Hr as <- <-. discriminate Hi.
Qed.

(** C9 (amended). Of the five operations only [tls_create], when it is the
    first call of the process, first initialises it: it runs as from the
    state in which the page size is captured, the handler is installed for
    both signals and the flag is set, and leaves these as they are whenever
    it returns.  [tls_destroy], [tls_read], [tls_write] and [tls_clone] as
    first call find no registry entry and return -1 with the process as
    uninitialised as before. *)
Theorem only_create_initializes gp o self sz offset len buffer target :
  0 < gp →
  (tls_create gp self sz (initial_state o) =
   tls_create gp self sz (init_state gp (initial_state o)) ∧
   initialized (init_state gp (initial_state o)) = 1 ∧
   page_size (init_state gp (initial_state o)) = gp ∧
   sigbus_action (init_state gp (initial_state o)) = SA_tls_handle_page_fault ∧
   sigsegv_action (init_state gp (initial_state o)) = SA_tls_handle_page_fault ∧
   ∀ r s', tls_create gp self sz (initial_state o) = Ret r s' →
     initialized s' = 1 ∧ page_size s' = gp ∧
     sigbus_action s' = SA_tls_handle_page_fault ∧
     sigsegv_action s' = SA_tls_handle_page_fault) ∧
  initialized (initial_state o) = 0 ∧
  tls_destroy self (initial_state o) = Ret (-1) (initial_state o) ∧
  tls_read self offset len buffer (initial_state o) = Ret (-1, buffer) (initial_state o) ∧
  tls_write self offset len buffer (initial_state o) = Ret (-1) (initial_state o) ∧
  tls_clone self target (initial_state o) = Ret (-1) (initial_state o).
Proof.
  intros Hgp. split; [|split; [done|]].
  - split; [apply tls_create_ensure|]. do 4 (split; [done|]).
    intros r s' Hr.
    by apply (tls_create_init_fields gp _ self sz r s' Hgp (initial_state_wf gp o)).
  - split; [apply tls_destroy_None, initial_find|].
    split; [apply tls_read_None, initial_find|].
    split; [apply tls_write_None, initial_find|].
    apply (tls_clone_None gp); [apply initial_state_wf|apply initial_find..].
Qed.

Lemma only_create_initializes_witness :
  (tls_create 4096 1 8192 (initial_state []) =
   tls_create 4096 1 8192 (init_state 4096 (initial_state [])) ∧
   initialized (init_state 4096 (initial_state [])) = 1 ∧
   page_size (init_state 4096 (initial_state [])) = 4096 ∧
   sigbus_action (init_state 4096 (initial_state [])) = SA_tls_handle_page_fault ∧
   sigsegv_action (init_state 4096 (initial_state [])) = SA_tls_handle_page_fault ∧
   ∀ r s', tls_create 4096 1 8192 (initial_state []) = Ret r s' →
     initialized s' = 1 ∧ page_size s' = 4096 ∧
     sigbus_action s' = SA_tls_handle_page_fault ∧
     sigsegv_action s' = SA_tls_handle_page_fault) ∧
  initialized (initial_state []) = 0 ∧
  tls_destroy 1 (initial_state []) = Ret (-1) (initial_state []) ∧
  tls_read 1 0 1 [x00] (initial_state []) = Ret (-1, [x00]) (initial_state []) ∧
  tls_write 1 0 1 [x00] (initial_state []) = Ret (-1) (initial_state []) ∧
  tls_clone 1 2 (initial_state []) = Ret (-1) (initial_state []).
Proof. apply (only_create_initializes 4096 [] 1 8192 0 1 [x00] 2). lia. Defined.

(** ** C10: a write that runs out of memory *)

Section FailedSplit.

Variable gp : Z.
Hypothesis gp_pos : 0 < gp.

(** The copy of the first page of the range cannot be allocated. *)
Lemma tls_write_first_split_fails s self offset len buffer e d p pg :
  wf gp s →
  table_find self (hash_table s) = Some e → tls_heap s !! elem_tls e = Some d →
  u32 (offset + len) ≤ size d → offset < u32 (offset + len) →
  pages d !! Z.to_nat (offset / page_size s) = Some p →
  page_heap s !! p = Some pg → 1 < ref_count pg →
  hd true (oracle s) = false ∨
    (hd true (oracle s) = true ∧ hd true (tl (oracle s)) = false) →
  ∃ o, tls_write self offset len buffer s =
       Ret (-1) (with_oracle o
                   (with_mem (protect_list PROT_READ_WRITE
                                (page_addr (page_heap s) <$> pages d) (mem s)) s)).
Proof.
  intros Hwf Hf Hd Hin Hpos Hp Hpg Hrc Hor. unfold tls_write.
  rewrite (bind_Ret _ _ _ _ _ (eq_refl : get s = Ret s s)). rewrite Hf.
  rewrite (bind_Ret _ _ _ _ _ (deref_TLS_Ret _ _ _ Hd)).
  destruct (Z.gtb_spec (u32 (offset + len)) (size d)) as [?|_]; [lia|].
  destruct (wf_desc _ _ Hwf _ _ Hd) as (Hnum & _ & _).
  unfold unprotect_all.
  rewrite (bind_Ret _ _ _ _ _
             (setprot_all PROT_READ_WRITE _ _ _ Hd Hnum (wf_pages_mapped gp _ _ _ Hwf Hd))).
  set (s1 := with_mem _ s).
  destruct (Z.to_nat (u32 (offset + len) - offset)) as [|n] eqn:Hn; [lia|].
  assert (cow_check (elem_tls e) offset offset s1 = cow_split (elem_tls e)
            (offset / page_size s) p s1) as Hcheck.
  { unfold cow_check. rewrite bind_get. rewrite Z.eqb_refl, orb_true_r.
    change (page_size s1) with (page_size s).
    rewrite (bind_Ret _ _ _ _ _ (tls_page_Ret s1 _ d _ p Hd Hp)).
    rewrite (bind_Ret _ _ _ _ _ (deref_page_Ret s1 p pg Hpg)).
    destruct (Z.gtb_spec (ref_count pg) 1) as [_|?]; [done|lia]. }
  assert (∃ o, cow_check (elem_tls e) offset offset s1 = Ret false (with_oracle o s1))
    as [o Hrun].
  { rewrite Hcheck. destruct Hor as [H1|[H1 H2]].
    - eexists. by apply cow_split_fail1.
    - eexists. by apply cow_split_fail2. }
  exists o. unfold bind at 1. rewrite write_bytes_S.
  unfold bind at 1. by rewrite Hrun.
Qed.

End FailedSplit.

Lemma failed_split_leaves_write_only_page :
  ¬ failed_write_leaves_read_write st_cloned_low_memory 2 4095 2 [x41; x42].
Proof.
  intros H.
  specialize (H (mkElem 2 2) (mkTLS 2 8192 2 [1; 2]) st_cow_failed).
  assert (all_pages_read_write st_cow_failed 2) as Hall.
  { apply H; vm_compute; done. }
  specialize (Hall (mkTLS 2 8192 2 [3; 2]) 3).
  vm_compute in Hall.
  assert (Some PROT_WRITE = Some PROT_READ_WRITE) as Hf; [|discriminate Hf].
  apply Hall; [reflexivity|]. apply list_elem_of_In. simpl. auto.
Qed.

(** C10 (amended). In a reachable state, an in-range write by the owner of
    an area that returns -1 (a copy-on-write allocation failed) has skipped
    the final reprotection: every page of the caller's descriptor is left
    unprotected, read+write or, for a private copy made earlier in the same
    call, write-only, and the bytes of the range before the failure point
    are already written.  When the allocation for the first page of the
    range fails, the call returns -1 with every page read+write and no byte
    changed. *)
Theorem failed_write_leaves_pages_unprotected gp s self offset len buffer e d :
  0 < gp → reachable gp s → 0 ≤ offset →
  table_find self (hash_table s) = Some e → tls_heap s !! elem_tls e = Some d →
  u32 (offset + len) ≤ size d →
  (∀ s', tls_write self offset len buffer s = Ret (-1) s' →
     pages_open s' (elem_tls e) ∧
     ∃ k, (k < Z.to_nat (u32 (offset + len) - offset))%nat ∧
       ∀ i, 0 ≤ i →
         lsa_byte s' (elem_tls e) i =
         if decide (offset ≤ i < offset + Z.of_nat k)
         then buffer !! Z.to_nat (i - offset) else lsa_byte s (elem_tls e) i) ∧
  (∀ p pg, offset < u32 (offset + len) →
     pages d !! Z.to_nat (offset / page_size s) = Some p →
     page_heap s !! p = Some pg → 1 < ref_count pg →
     hd true (oracle s) = false ∨
       (hd true (oracle s) = true ∧ hd true (tl (oracle s)) = false) →
     ∃ s', tls_write self offset len buffer s = Ret (-1) s' ∧
       all_pages_read_write s' (elem_tls e) ∧
       ∀ i, lsa_byte s' (elem_tls e) i = lsa_byte s (elem_tls e) i).
Proof.
  intros Hgp Hreach Hoff Hf Hd Hin.
  pose proof (reachable_wf gp Hgp s Hreach) as Hwf.
  split.
  - intros s' Hrun.
    pose proof (tls_write_spec gp Hgp s self offset len buffer Hwf Hoff) as Hspec.
    rewrite Hf in Hspec. destruct Hspec as (d0 & Hd0 & Hspec).
    assert (d0 = d) as -> by congruence.
    destruct (Z.gtb_spec (u32 (offset + len)) (size d)) as [?|_]; [lia|].
    simpl in Hspec. rewrite Hrun in Hspec.
    destruct Hspec as (_ & _ & _ & k & _ & [[? _]|(_ & Hk & Hopen)] & _ & Hbytes); [done|].
    split; [done|]. by exists k.
  - intros p pg Hpos Hp Hpg Hrc Hor.
    destruct (tls_write_first_split_fails gp s self offset len buffer e d p pg
                Hwf Hf Hd Hin Hpos Hp Hpg Hrc Hor) as [o Hrun].
    eexists. split; [exact Hrun|]. split.
    + intros d' q Hd' Hq.
      destruct (unprotected_readable gp s (elem_tls e) d Hwf Hd d' q Hd' Hq)
        as (qg & m & Hqg & Hm & Hrw & _).
      set (s1 := with_mem _ s) in *.
      change (page_prot (with_oracle o s1) q) with (page_prot s1 q).
      unfold page_prot. rewrite Hqg. cbn [mbind option_bind]. rewrite Hm.
      cbn [mbind option_bind]. by rewrite Hrw.
    + intros i. rewrite lsa_byte_with_oracle.
      apply lsa_byte_same_bytes, protect_list_same_bytes.
Qed.

Lemma failed_write_leaves_pages_unprotected_witness :
  (∀ s', tls_write 2 4095 2 [x41; x42] st_cloned_low_memory = Ret (-1) s' →
     pages_open s' (elem_tls (mkElem 2 2)) ∧
     ∃ k, (k < Z.to_nat (u32 (4095 + 2) - 4095))%nat ∧
       ∀ i, 0 ≤ i →
         lsa_byte s' (elem_tls (mkElem 2 2)) i =
         if decide (4095 ≤ i < 4095 + Z.of_nat k)
         then [x41; x42] !! Z.to_nat (i - 4095)
         else lsa_byte st_cloned_low_memory (elem_tls (mkElem 2 2)) i) ∧
  (∀ p pg, 4095 < u32 (4095 + 2) →
     pages (mkTLS 2 8192 2 [1; 2]) !! Z.to_nat (4095 / page_size st_cloned_low_memory)
       = Some p →
     page_heap st_cloned_low_memory !! p = Some pg → 1 < ref_count pg →
     hd true (oracle st_cloned_low_memory) = false ∨
       (hd true (oracle st_cloned_low_memory) = true ∧
        hd true (tl (oracle st_cloned_low_memory)) = false) →
     ∃ s', tls_write 2 4095 2 [x41; x42] st_cloned_low_memory = Ret (-1) s' ∧
       all_pages_read_write s' (elem_tls (mkElem 2 2)) ∧
       ∀ i, lsa_byte s' (elem_tls (mkElem 2 2)) i =
            lsa_byte st_cloned_low_memory (elem_tls (mkElem 2 2)) i).
Proof.
  apply (failed_write_leaves_pages_unprotected 4096 st_cloned_low_memory 2 4095 2
           [x41; x42] (mkElem 2 2) (mkTLS 2 8192 2 [1; 2])).
  - lia.
  - apply st_cloned_low_memory_reachable.
  - lia.
  - vm_compute. reflexivity.
  - vm_compute. reflexivity.
  - vm_compute. discriminate.
Defined.

(** ** C6: [tls_destroy] *)

Lemma all_true_hd (o : list bool) : Forall (λ b, b = true) o → hd true o = true.
Proof. by intros [|b o' Hb _]. Qed.

Lemma ensure_init_table gp s : hash_table (ensure_init gp s) = hash_table s.
Proof. unfold ensure_init. by destruct (initialized s =? 0). Qed.

Lemma ensure_init_oracle gp s : oracle (ensure_init gp s) = oracle s.
Proof. unfold ensure_init. by destruct (initialized s =? 0). Qed.

(** With an operating system that grants every request, [tls_create]
    succeeds for a thread that has no area and a size that is not 0. *)
Lemma tls_create_succeeds gp s self sz :
  0 < gp → wf gp s → table_find self (hash_table s) = None → 0 < sz →
  Forall (λ b, b = true) (oracle s) →
  ∃ s', tls_create gp self sz s = Ret 0 s' ∧ wf gp s'.
Proof.
  intros Hgp Hwf0 Hf Hsz Hall. rewrite tls_create_ensure.
  pose proof (wf_ensure_init gp s Hwf0) as Hwf.
  destruct (ensure_init_initialized gp s Hwf0) as [Hi _].
  rewrite <- (ensure_init_table gp) in Hf. rewrite <- (ensure_init_oracle gp) in Hall.
  set (si := ensure_init gp s) in *.
  assert (∀ k, hd true (drop k (oracle si)) = true) as Hhd
    by (intros k; by apply all_true_hd, Forall_drop).
  pose proof (Hhd 0%nat) as H1. pose proof (Hhd 1%nat) as H2.
  change (drop 0 (oracle si)) with (oracle si) in H1.
  replace (drop 1 (oracle si)) with (tl (oracle si)) in H2 by (by destruct (oracle si)).
  assert (tl (tl (oracle si)) = drop 2 (oracle si)) as Htl
    by (by destruct (oracle si) as [|? [|? ?]]).
  destruct (tls_create_loop_cases gp Hgp si self sz Hwf Hi Hf Hsz H1 H2)
    as [(pre & post & _ & _ & Ho & _)|(_ & [(Ho & _)|(_ & s3 & cl & He & _ & _ & _ & _ & Hwf')])].
  - exfalso. rewrite Htl in Ho.
    pose proof (Forall_drop (λ b, b = true) 2 _ Hall) as Hd. rewrite Ho in Hd.
    apply Forall_app in Hd as [_ Hd]. by apply Forall_cons in Hd as [? _].
  - exfalso. rewrite Htl, drop_drop, Hhd in Ho. done.
  - eexists. split; [exact He|done].
Qed.

Lemma st_diverged_reachable : reachable 4096 st_diverged.
Proof.
  apply (reach_write 4096 st_cloned 2 0 1 [x58] 0 st_diverged);
    [apply st_cloned_reachable|lia|lia|apply st_diverged_run].
Qed.

(** C6. In a reachable state [tls_destroy] returns, and returns a status
    other than 0 exactly when the calling thread owns no area (nothing is
    changed then).  When it returns 0, every page of the descriptor whose
    count was 1 is unmapped and its page object freed, the count of every
    other page of the descriptor is one less with its mapping untouched,
    pages outside the descriptor are as before, the descriptor with its
    page array is freed and the caller has no registry entry: a second
    [tls_destroy] by the same thread returns -1, and a [tls_create] with a
    size other than 0 returns 0 when the operating system grants its
    requests. *)
Theorem destroy_releases_area gp s self :
  0 < gp → reachable gp s →
  ∃ r s', tls_destroy self s = Ret r s' ∧
    (r ≠ 0 ↔ table_find self (hash_table s) = None) ∧
    (r ≠ 0 → s' = s) ∧
    (r = 0 → ∀ e d,
       table_find self (hash_table s) = Some e → tls_heap s !! elem_tls e = Some d →
       (∀ p pg, p ∈ pages d → page_heap s !! p = Some pg →
          if ref_count pg =? 1
          then page_heap s' !! p = None ∧ mem s' !! address pg = None
          else page_heap s' !! p = Some (mkPage (address pg) (ref_count pg - 1)) ∧
               mem s' !! address pg = mem s !! address pg) ∧
       (∀ q, q ∉ pages d → page_heap s' !! q = page_heap s !! q) ∧
       tls_heap s' !! elem_tls e = None ∧
       (∀ t, t ≠ elem_tls e → tls_heap s' !! t = tls_heap s !! t) ∧
       table_find self (hash_table s') = None ∧
       tls_destroy self s' = Ret (-1) s' ∧
       (∀ sz, 0 < sz → Forall (λ b, b = true) (oracle s') →
          ∃ s'', tls_create gp self sz s' = Ret 0 s'')).
Proof.
  intros Hgp Hreach. pose proof (reachable_wf gp Hgp s Hreach) as Hwf.
  destruct (table_find self (hash_table s)) as [e|] eqn:Hf.
  2:{ exists (-1), s. split; [by apply tls_destroy_None|]. split; [done|]. split; done. }
  destruct (wf_find gp s self e Hwf Hf) as (_ & _ & d & Hd & _).
  exists 0, (destroy_state s self (elem_tls e) d).
  split; [apply (tls_destroy_Ret gp s self e d Hwf Hf Hd)|].
  split; [split; intros; done|]. split; [done|].
  intros _ e' d' He' Hd'. assert (e' = e) as -> by congruence.
  assert (d' = d) as -> by congruence. clear He' Hd'.
  destruct (wf_desc _ _ Hwf _ _ Hd) as (_ & Hnd & _).
  assert (table_find self (hash_table (destroy_state s self (elem_tls e) d)) = None) as Hun
    by (eapply destroy_state_unregistered; eauto).
  assert (wf gp (destroy_state s self (elem_tls e) d)) as Hwf'
    by (eapply destroy_state_wf; eauto).
  assert (∀ q, page_heap (destroy_state s self (elem_tls e) d) !! q =
               if decide (q ∈ pages d) then (page_heap s !! q ≫= released)
               else page_heap s !! q) as Hheap
    by (intros q; eapply destroy_heap_lookup; eauto).
  split; [|split; [|split; [|split; [|split; [|split]]]]].
  - intros p pg Hp Hpg.
    assert (page_heap (destroy_state s self (elem_tls e) d) !! p = released pg) as Hrel
      by (by rewrite Hheap, decide_True, Hpg).
    unfold released in Hrel. destruct (Z.eqb_spec (ref_count pg) 1) as [Hone|Hmany].
    + split; [done|]. simpl.
      apply (release_pages_mem_gone _ _ _ p pg); try done.
      intros q qg Hq Hqg Ha. by apply (wf_addr _ _ Hwf q p qg pg).
    + split; [done|].
      apply (destroy_mem_lookup gp s self e d Hwf Hd p _ Hrel).
  - intros q Hq. by rewrite Hheap, decide_False.
  - simpl. apply lookup_delete_eq.
  - intros t Ht. simpl. by apply lookup_delete_ne.
  - done.
  - by apply tls_destroy_None.
  - intros sz Hsz Hall.
    destruct (tls_create_succeeds gp _ self sz Hgp Hwf' Hun Hsz Hall) as (s'' & Hs'' & _).
    by exists s''.
Qed.

Lemma destroy_releases_area_witness :
  ∃ r s', tls_destroy 2 st_diverged = Ret r s' ∧
    (r ≠ 0 ↔ table_find 2 (hash_table st_diverged) = None) ∧
    (r ≠ 0 → s' = st_diverged) ∧
    (r = 0 → ∀ e d,
       table_find 2 (hash_table st_diverged) = Some e →
       tls_heap st_diverged !! elem_tls e = Some d →
       (∀ p pg, p ∈ pages d → page_heap st_diverged !! p = Some pg →
          if ref_count pg =? 1
          then page_heap s' !! p = None ∧ mem s' !! address pg = None
          else page_heap s' !! p = Some (mkPage (address pg) (ref_count pg - 1)) ∧
               mem s' !! address pg = mem st_diverged !! address pg) ∧
       (∀ q, q ∉ pages d → page_heap s' !! q = page_heap st_diverged !! q) ∧
       tls_heap s' !! elem_tls e = None ∧
       (∀ t, t ≠ elem_tls e → tls_heap s' !! t = tls_heap st_diverged !! t) ∧
       table_find 2 (hash_table s') = None ∧
       tls_destroy 2 s' = Ret (-1) s' ∧
       (∀ sz, 0 < sz → Forall (λ b, b = true) (oracle s') →
          ∃ s'', tls_create 4096 2 sz s' = Ret 0 s'')).
Proof.
  apply (destroy_releases_area 4096 st_diverged 2).
  - lia.
  - apply st_diverged_reachable.
Defined.

(** ** C7: [tls_create] when an allocation fails inside its loop *)

Lemma first_false_unique (pre : list bool) : ∀ pre' post post',
  Forall (λ b, b = true) pre → Forall (λ b, b = true) pre' →
  pre ++ false :: post = pre' ++ false :: post' → pre = pre' ∧ post = post'.
Proof.
  induction pre as [|b pre IH]; intros pre' post post' Hp Hp' Heq.
  - destruct pre' as [|b' pre']; simpl in Heq.
    + by injection Heq as ->.
    + injection Heq as <- _. by apply Forall_cons in Hp' as [? _].
  - apply Forall_cons in Hp as [-> Hp]. destruct pre' as [|b' pre']; simpl in Heq.
    + done.
    + injection Heq as <- Heq. apply Forall_cons in Hp' as [_ Hp'].
      destruct (IH pre' post post' Hp Hp' Heq) as [-> ->]. done.
Qed.

Lemma ensure_init_heaps gp s :
  tls_heap (ensure_init gp s) = tls_heap s ∧
  page_heap (ensure_init gp s) = page_heap s ∧ mem (ensure_init gp s) = mem s.
Proof. unfold ensure_init. by destruct (initialized s =? 0). Qed.

(** C7. In a reachable state, for a thread without an area and a size other
    than 0: when the descriptor and the page array are allocated and then,
    after [length pre] granted requests of the page loop, a request for a
    page object or for a page mapping is refused, [tls_create] returns -1
    and leaves the registry, the descriptors, the page objects and the
    mappings exactly as they were before the call: the pages created so far
    are unmapped and freed, the page array and the descriptor are freed and
    nothing is registered.  (What stays is the initialisation of the
    process, when this call made it, and that the operating system has
    answered these requests.) *)
Theorem create_failure_rolls_back gp s self sz pre post :
  0 < gp → reachable gp s →
  table_find self (hash_table s) = None → 0 < sz →
  oracle s = true :: true :: pre ++ false :: post →
  Forall (λ b, b = true) pre →
  (length pre < 2 * Z.to_nat (create_page_num gp sz))%nat →
  ∃ s', tls_create gp self sz s = Ret (-1) s' ∧
    s' = with_oracle post (ensure_init gp s) ∧
    hash_table s' = hash_table s ∧ tls_heap s' = tls_heap s ∧
    page_heap s' = page_heap s ∧ mem s' = mem s ∧
    table_find self (hash_table s') = None.
Proof.
  intros Hgp Hreach Hf Hsz Ho Hpre Hlen.
  pose proof (reachable_wf gp Hgp s Hreach) as Hwf0.
  pose proof (wf_ensure_init gp s Hwf0) as Hwf.
  destruct (ensure_init_initialized gp s Hwf0) as [Hi Hps].
  destruct (ensure_init_heaps gp s) as (Hth & Hph & Hmem).
  pose proof (ensure_init_table gp s) as Hht.
  pose proof (ensure_init_oracle gp s) as Hor.
  exists (with_oracle post (ensure_init gp s)).
  split; [|by rewrite <- Hht in Hf].
  rewrite tls_create_ensure.
  set (si := ensure_init gp s) in *.
  rewrite <- Hht in Hf. rewrite <- Hor in Ho.
  assert (hd true (oracle si) = true) as H1 by (by rewrite Ho).
  assert (hd true (tl (oracle si)) = true) as H2 by (by rewrite Ho).
  assert (tl (tl (oracle si)) = pre ++ false :: post) as Htl by (by rewrite Ho).
  destruct (tls_create_loop_cases gp Hgp si self sz Hwf Hi Hf Hsz H1 H2)
    as [(pre' & post' & _ & Hpre' & Ho' & He)|(Hall & _)].
  - rewrite Htl in Ho'.
    destruct (first_false_unique pre pre' post post' Hpre Hpre' Ho') as [_ <-]. done.
  - exfalso. rewrite Htl, Hps in Hall.
    rewrite Forall_lookup in Hall.
    assert (false = true); [|done].
    apply (Hall (length pre)). rewrite lookup_take_lt by lia.
    by rewrite list_lookup_middle.
Qed.

Lemma create_failure_rolls_back_witness :
  ∃ s', tls_create 4096 1 8192 (initial_state [true; true; true; true; true; false])
          = Ret (-1) s' ∧
    s' = with_oracle [] (ensure_init 4096
                           (initial_state [true; true; true; true; true; false])) ∧
    hash_table s' = hash_table (initial_state [true; true; true; true; true; false]) ∧
    tls_heap s' = tls_heap (initial_state [true; true; true; true; true; false]) ∧
    page_heap s' = page_heap (initial_state [true; true; true; true; true; false]) ∧
    mem s' = mem (initial_state [true; true; true; true; true; false]) ∧
    table_find 1 (hash_table s') = None.
Proof.
  apply (create_failure_rolls_back 4096 (initial_state [true; true; true; true; true; false])
           1 8192 [true; true; true] []).
  - lia.
  - apply reach_start.
  - apply initial_find.
  - lia.
  - reflexivity.
  - repeat constructor.
  - vm_compute. lia.
Defined.

(** * Further properties of the code *)

(** ** The registry and the heap between calls *)

(** X1. In every reachable state the registry holds at most one entry per
    thread; the entry found for a thread carries that thread's id and points
    to a live descriptor owned by it; and every live descriptor is the one
    registered for its owner. *)
Theorem registry_is_consistent gp s :
  0 < gp → reachable gp s →
  NoDup (elem_tid <$> all_elems s) ∧
  (∀ self e, table_find self (hash_table s) = Some e →
     elem_tid e = self ∧ ∃ d, tls_heap s !! elem_tls e = Some d ∧ tid d = self) ∧
  (∀ t d, tls_heap s !! t = Some d →
     table_find (tid d) (hash_table s) = Some (mkElem (tid d) t)).
Proof.
  intros Hgp Hreach. pose proof (reachable_wf gp Hgp s Hreach) as Hwf.
  split; [apply (wf_tids _ _ Hwf)|]. split.
  - intros self e Hf. by destruct (wf_find gp s self e Hwf Hf) as (_ & ? & ?).
  - intros t d Hd. apply table_find_elem; [apply (wf_tids _ _ Hwf)| |done].
    by apply (wf_registered _ _ Hwf).
Qed.

Lemma registry_is_consistent_witness :
  NoDup (elem_tid <$> all_elems st_cloned) ∧
  (∀ self e, table_find self (hash_table st_cloned) = Some e →
     elem_tid e = self ∧ ∃ d, tls_heap st_cloned !! elem_tls e = Some d ∧ tid d = self) ∧
  (∀ t d, tls_heap st_cloned !! t = Some d →
     table_find (tid d) (hash_table st_cloned) = Some (mkElem (tid d) t)).
Proof.
  apply (registry_is_consistent 4096 st_cloned); [lia|apply st_cloned_reachable].
Defined.

(** X2. In every reachable state no pointer dangles: the page count of a
    descriptor is the length of its page array, no page object occurs twice
    in one array, every slot points to a live page object whose mapping is
    live and holds [page_size] bytes, and two page objects never share a
    mapping. *)
Theorem page_arrays_never_dangle gp s t d :
  0 < gp → reachable gp s → tls_heap s !! t = Some d →
  page_size s = gp ∧
  page_num d = Z.of_nat (length (pages d)) ∧ NoDup (pages d) ∧
  ∀ p, p ∈ pages d →
    ∃ pg m, page_heap s !! p = Some pg ∧ mem s !! address pg = Some m ∧
      length (m_bytes m) = Z.to_nat gp ∧
      ∀ q qg, page_heap s !! q = Some qg → address qg = address pg → q = p.
Proof.
  intros Hgp Hreach Hd. pose proof (reachable_wf gp Hgp s Hreach) as Hwf.
  pose proof (wf_page_size gp s t d Hwf Hd) as Hps.
  destruct (wf_desc _ _ Hwf _ _ Hd) as (Hnum & Hnd & _).
  split; [done|]. split; [done|]. split; [done|]. intros p Hp.
  destruct (wf_page gp s t d p Hwf Hd Hp) as (pg & m & Hpg & Hm & Hlen).
  exists pg, m. split; [done|]. split; [done|]. split; [by rewrite <- Hps|].
  intros q qg Hq Ha. by apply (wf_addr _ _ Hwf q p qg pg).
Qed.

Lemma page_arrays_never_dangle_witness :
  page_size st_diverged = 4096 ∧
  page_num (mkTLS 2 8192 2 [3; 2]) = Z.of_nat (length (pages (mkTLS 2 8192 2 [3; 2]))) ∧
  NoDup (pages (mkTLS 2 8192 2 [3; 2])) ∧
  ∀ p, p ∈ pages (mkTLS 2 8192 2 [3; 2]) →
    ∃ pg m, page_heap st_diverged !! p = Some pg ∧
      mem st_diverged !! address pg = Some m ∧
      length (m_bytes m) = Z.to_nat 4096 ∧
      ∀ q qg, page_heap st_diverged !! q = Some qg → address qg = address pg → q = p.
Proof.
  apply (page_arrays_never_dangle 4096 st_diverged 2 (mkTLS 2 8192 2 [3; 2])).
  - lia.
  - apply st_diverged_reachable.
  - vm_compute. reflexivity.
Defined.

(** ** [tls_read] *)

Lemma protect_list_prot s pr d p l m0 :
  (∀ q, q ∈ pages d → ∃ pg m, page_heap s !! q = Some pg ∧ mem s !! address pg = Some m) →
  p ∈ pages d → l = page_addr (page_heap s) <$> pages d →
  (∀ a, is_Some (m0 !! a) ↔ is_Some (mem s !! a)) →
  page_prot (with_mem (protect_list pr l m0) s) p = Some pr.
Proof.
  intros Hall Hp -> Hdom. destruct (Hall p Hp) as (pg & m & Hpg & Hm).
  unfold page_prot. cbn [page_heap mem with_mem]. rewrite Hpg. cbn [mbind option_bind].
  rewrite lookup_protect_list, decide_True.
  - destruct (proj2 (Hdom (address pg)) (mk_is_Some _ _ Hm)) as [m1 Hm1]. by rewrite Hm1.
  - apply list_elem_of_fmap. exists p. split; [|done]. unfold page_addr. by rewrite Hpg.
Qed.

Lemma protect_list_dom pr l (m : gmap Z mapping) a :
  is_Some (protect_list pr l m !! a) ↔ is_Some (m !! a).
Proof.
  rewrite lookup_protect_list. destruct (decide (a ∈ l)); [|done].
  by rewrite fmap_is_Some.
Qed.

(** X3. In a reachable state a [tls_read] that returns changes nothing but
    page protections: the registry, the descriptors, the page objects and
    every byte of every mapping are as before, so every area holds the same
    bytes.  When it returns 0 every page of the caller's area is left with
    no access permission; when it returns -1 neither the state nor the
    buffer has changed. *)
Theorem read_changes_protections_only gp s self offset len buffer r out s' :
  0 < gp → reachable gp s → 0 ≤ offset →
  tls_read self offset len buffer s = Ret (r, out) s' →
  hash_table s' = hash_table s ∧ tls_heap s' = tls_heap s ∧
  page_heap s' = page_heap s ∧ oracle s' = oracle s ∧
  same_bytes (mem s) (mem s') ∧
  (∀ t i, lsa_byte s' t i = lsa_byte s t i) ∧
  (r = 0 ∨ r = -1) ∧
  (r = 0 → ∀ e d p, table_find self (hash_table s) = Some e →
     tls_heap s !! elem_tls e = Some d → p ∈ pages d →
     page_prot s' p = Some PROT_NONE) ∧
  (r = -1 → s' = s ∧ out = buffer).
Proof.
  intros Hgp Hreach Hoff Hrun. pose proof (reachable_wf gp Hgp s Hreach) as Hwf.
  assert (∀ r0, r0 = -1 → Ret (r0, buffer) s = Ret (r, out) s' →
    hash_table s' = hash_table s ∧ tls_heap s' = tls_heap s ∧
    page_heap s' = page_heap s ∧ oracle s' = oracle s ∧
    same_bytes (mem s) (mem s') ∧
    (∀ t i, lsa_byte s' t i = lsa_byte s t i) ∧
    (r = 0 ∨ r = -1) ∧
    (r = 0 → ∀ e d p, table_find self (hash_table s) = Some e →
       tls_heap s !! elem_tls e = Some d → p ∈ pages d →
       page_prot s' p = Some PROT_NONE) ∧
    (r = -1 → s' = s ∧ out = buffer)) as Hfail.
  { intros r0 -> [= <- <- <-]. do 6 (split; [done|]). split; [by right|]. split; done. }
  pose proof (tls_read_spec gp Hgp s self offset len buffer Hwf Hoff) as Hspec.
  destruct (table_find self (hash_table s)) as [e|] eqn:Hf.
  2:{ rewrite Hspec in Hrun. by apply (Hfail (-1)). }
  destruct Hspec as (d & Hd & Hspec).
  destruct (u32 (offset + len) >? size d).
  { rewrite Hspec in Hrun. by apply (Hfail (-1)). }
  rewrite Hrun in Hspec. destruct Hspec as (out0 & [= -> <-] & -> & _).
  assert (same_bytes (mem s) (mem (read_final s d))) as Hsb.
  { simpl. eapply same_bytes_trans; apply protect_list_same_bytes. }
  do 4 (split; [done|]). split; [done|].
  split; [intros t i; by apply lsa_byte_same_bytes|]. split; [by left|].
  split; [|done]. intros _ e' d' p [= <-] Hd' Hp.
  assert (d' = d) as -> by congruence.
  apply (protect_list_prot s PROT_NONE d p); try done.
  - by apply (wf_pages_mapped gp s (elem_tls e)).
  - intros a. apply protect_list_dom.
Qed.

Lemma read_changes_protections_only_witness :
  hash_table (exec (tls_read 2 0 5 (replicate 5 x00)) st_cloned) = hash_table st_cloned ∧
  tls_heap (exec (tls_read 2 0 5 (replicate 5 x00)) st_cloned) = tls_heap st_cloned ∧
  page_heap (exec (tls_read 2 0 5 (replicate 5 x00)) st_cloned) = page_heap st_cloned ∧
  oracle (exec (tls_read 2 0 5 (replicate 5 x00)) st_cloned) = oracle st_cloned ∧
  same_bytes (mem st_cloned) (mem (exec (tls_read 2 0 5 (replicate 5 x00)) st_cloned)) ∧
  (∀ t i, lsa_byte (exec (tls_read 2 0 5 (replicate 5 x00)) st_cloned) t i =
          lsa_byte st_cloned t i) ∧
  (0 = 0 ∨ 0 = -1) ∧
  (0 = 0 → ∀ e d p, table_find 2 (hash_table st_cloned) = Some e →
     tls_heap st_cloned !! elem_tls e = Some d → p ∈ pages d →
     page_prot (exec (tls_read 2 0 5 (replicate 5 x00)) st_cloned) p = Some PROT_NONE) ∧
  (0 = -1 → exec (tls_read 2 0 5 (replicate 5 x00)) st_cloned = st_cloned ∧
            hello = replicate 5 x00).
Proof.
  apply (read_changes_protections_only 4096 st_cloned 2 0 5 (replicate 5 x00) 0 hello).
  - lia.
  - apply st_cloned_reachable.
  - lia.
  - vm_compute. reflexivity.
Defined.

(** ** Status and protections of [tls_read] and [tls_write] *)

(** X4. A request of a thread that owns no area, or whose range ends beyond
    the size of the area (the sum [offset + length] not exceeding the range
    of [unsigned int]), is rejected by [tls_read] and by [tls_write] with
    -1, with the state and the buffer untouched. *)
Theorem out_of_range_request_is_rejected s self offset len buffer :
  0 ≤ offset → 0 ≤ len → offset + len < 2 ^ 32 →
  (table_find self (hash_table s) = None ∨
   ∃ e d, table_find self (hash_table s) = Some e ∧
          tls_heap s !! elem_tls e = Some d ∧ size d < offset + len) →
  tls_read self offset len buffer s = Ret (-1, buffer) s ∧
  tls_write self offset len buffer s = Ret (-1) s.
Proof.
  intros Hoff Hlen Hsum [Hnone|(e & d & Hf & Hd & Hbig)].
  - split; [by apply tls_read_None|by apply tls_write_None].
  - assert ((u32 (offset + len) >? size d) = true) as Hb.
    { unfold u32. rewrite Z.mod_small by lia. by apply Z.gtb_lt. }
    split.
    + unfold tls_read. rewrite bind_get, Hf.
      rewrite (bind_Ret _ _ _ _ _ (deref_TLS_Ret _ _ _ Hd)). by rewrite Hb.
    + unfold tls_write. rewrite bind_get, Hf.
      rewrite (bind_Ret _ _ _ _ _ (deref_TLS_Ret _ _ _ Hd)). by rewrite Hb.
Qed.

Lemma out_of_range_request_is_rejected_witness :
  tls_read 1 8000 193 [x00] st_created = Ret (-1, [x00]) st_created ∧
  tls_write 1 8000 193 [x00] st_created = Ret (-1) st_created.
Proof.
  apply (out_of_range_request_is_rejected st_created 1 8000 193 [x00]); [lia..|].
  right. exists (mkElem 1 1), (mkTLS 1 8192 2 [1; 2]).
  split; [vm_compute; reflexivity|]. split; [vm_compute; reflexivity|]. simpl. lia.
Defined.

Section WriteSuccess.

Variable gp : Z.
Hypothesis gp_pos : 0 < gp.

(** A write that completes runs its final protection loop on the pages the
    descriptor then has. *)
Lemma tls_write_success_protected s self offset len buffer e s' :
  wf gp s → 0 ≤ offset → table_find self (hash_table s) = Some e →
  tls_write self offset len buffer s = Ret 0 s' →
  ∀ d' p, tls_heap s' !! elem_tls e = Some d' → p ∈ pages d' →
    page_prot s' p = Some PROT_NONE.
Proof.
  intros Hwf Hoff Hfind Hrun. unfold tls_write in Hrun.
  rewrite bind_get, Hfind in Hrun.
  destruct (wf_find gp s self e Hwf Hfind) as (_ & _ & d & Hd & _).
  rewrite (bind_Ret _ _ _ _ _ (deref_TLS_Ret _ _ _ Hd)) in Hrun.
  destruct (u32 (offset + len) >? size d); [done|].
  destruct (wf_desc _ _ Hwf _ _ Hd) as (Hnum & _ & _).
  unfold unprotect_all, protect_all in Hrun.
  rewrite (bind_Ret _ _ _ _ _
             (setprot_all PROT_READ_WRITE _ _ _ Hd Hnum (wf_pages_mapped gp _ _ _ Hwf Hd)))
    in Hrun.
  set (s1 := with_mem _ s) in *.
  assert (wf gp s1) as Hwf1 by (apply wf_same_bytes; [done|apply protect_list_same_bytes]).
  pose proof (write_bytes_spec gp gp_pos (elem_tls e) offset buffer
                (Z.to_nat (u32 (offset + len) - offset)) 0 offset s1 d Hwf1 Hd
                (unprotected_open gp s _ d Hwf Hd)) as Hloop.
  unfold bind at 1 in Hrun.
  destruct (write_bytes _ offset buffer _ 0 offset s1) as [ok s2| | |]; [|done..].
  destruct Hloop as (Hwf2 & Hrel2 & _); [by intros _ ?|lia|lia|].
  destruct ok; [|done].
  destruct (wr_desc _ _ _ Hrel2 d Hd) as (d2 & Hd2 & _ & _ & Hnum2 & _).
  destruct (wf_desc _ _ Hwf2 _ _ Hd2) as (Hnum2' & _ & _).
  rewrite <- Hnum2 in Hrun.
  rewrite (bind_Ret _ _ _ _ _
             (setprot_all PROT_NONE (elem_tls e) d2 s2 Hd2 Hnum2'
                (wf_pages_mapped gp _ _ _ Hwf2 Hd2))) in Hrun.
  injection Hrun as <-. intros d' p Hd' Hp. simpl in Hd'.
  assert (d' = d2) as -> by congruence.
  apply (protect_list_prot s2 PROT_NONE d2 p); try done.
  by apply (wf_pages_mapped gp s2 (elem_tls e)).
Qed.

End WriteSuccess.

(** X5. In a reachable state, after a [tls_write] that returned 0 every
    page of the caller's area is left with no access permission, and the
    area has the size and the number of pages it had. *)
Theorem write_success_reprotects gp s self offset len buffer e d s' :
  0 < gp → reachable gp s → 0 ≤ offset →
  table_find self (hash_table s) = Some e → tls_heap s !! elem_tls e = Some d →
  tls_write self offset len buffer s = Ret 0 s' →
  ∃ d', table_find self (hash_table s') = Some e ∧
    tls_heap s' !! elem_tls e = Some d' ∧
    size d' = size d ∧ page_num d' = page_num d ∧
    length (pages d') = length (pages d) ∧
    ∀ p, p ∈ pages d' → page_prot s' p = Some PROT_NONE.
Proof.
  intros Hgp Hreach Hoff Hf Hd Hrun. pose proof (reachable_wf gp Hgp s Hreach) as Hwf.
  pose proof (tls_write_spec gp Hgp s self offset len buffer Hwf Hoff) as Hspec.
  rewrite Hf in Hspec. destruct Hspec as (d0 & Hd0 & Hspec).
  assert (d0 = d) as -> by congruence.
  destruct (u32 (offset + len) >? size d); [by rewrite Hspec in Hrun|].
  simpl in Hspec. rewrite Hrun in Hspec. destruct Hspec as (_ & Hrel & _).
  destruct (wr_desc _ _ _ Hrel d Hd) as (d' & Hd' & _ & Hsz & Hnum & Hlen).
  exists d'. split; [by rewrite (wr_table _ _ _ Hrel)|]. do 4 (split; [done|]).
  intros p Hp.
  by apply (tls_write_success_protected gp Hgp s self offset len buffer e s' Hwf Hoff Hf Hrun d').
Qed.

Lemma write_success_reprotects_witness :
  ∃ d', table_find 2 (hash_table st_diverged) = Some (mkElem 2 2) ∧
    tls_heap st_diverged !! elem_tls (mkElem 2 2) = Some d' ∧
    size d' = size (mkTLS 2 8192 2 [1; 2]) ∧
    page_num d' = page_num (mkTLS 2 8192 2 [1; 2]) ∧
    length (pages d') = length (pages (mkTLS 2 8192 2 [1; 2])) ∧
    ∀ p, p ∈ pages d' → page_prot st_diverged p = Some PROT_NONE.
Proof.
  apply (write_success_reprotects 4096 st_cloned 2 0 1 [x58] (mkElem 2 2)
           (mkTLS 2 8192 2 [1; 2]) st_diverged).
  - lia.
  - apply st_cloned_reachable.
  - lia.
  - vm_compute. reflexivity.
  - vm_compute. reflexivity.
  - apply st_diverged_run.
Defined.

(** ** [tls_clone] *)

Section CloneProps.

Variable gp : Z.
Hypothesis gp_pos : 0 < gp.

Lemma clone_state_lsa_byte s self et dt t i :
  wf gp s → tls_heap s !! elem_tls et = Some dt →
  lsa_byte (clone_state s self dt) t i =
  if decide (t = fresh_key (tls_heap s)) then lsa_byte s (elem_tls et) i
  else lsa_byte s t i.
Proof.
  intros Hwf Hdt. destruct (wf_desc _ _ Hwf _ _ Hdt) as (_ & Hnd & _).
  assert (∀ p, (pg ← share_pages (pages dt) (page_heap s) !! p;
                m ← mem s !! address pg; m_bytes m !! Z.to_nat (i mod page_size s)) =
               (pg ← page_heap s !! p;
                m ← mem s !! address pg; m_bytes m !! Z.to_nat (i mod page_size s))) as Hpage.
  { intros p. rewrite share_pages_lookup by done.
    destruct (decide (p ∈ pages dt)); [|done]. by destruct (page_heap s !! p). }
  unfold lsa_byte. cbn [tls_heap page_heap mem page_size clone_state].
  destruct (decide (t = fresh_key (tls_heap s))) as [->|Hne].
  - rewrite lookup_insert_eq, Hdt. cbn [mbind option_bind pages].
    destruct (pages dt !! Z.to_nat (i / page_size s)) as [p|]; [|done].
    cbn [mbind option_bind]. apply Hpage.
  - rewrite lookup_insert_ne by done.
    destruct (tls_heap s !! t) as [d|]; [|done]. cbn [mbind option_bind].
    destruct (pages d !! Z.to_nat (i / page_size s)) as [p|]; [|done].
    cbn [mbind option_bind]. apply Hpage.
Qed.

Lemma clone_state_find s self dt other :
  wf gp s → table_find self (hash_table s) = None →
  table_find other (hash_table (clone_state s self dt)) =
  if decide (other = self) then Some (mkElem self (fresh_key (tls_heap s)))
  else table_find other (hash_table s).
Proof.
  intros Hwf Hself.
  assert (all_elems (clone_state s self dt) ≡ₚ
          mkElem self (fresh_key (tls_heap s)) :: all_elems s) as Hperm
    by (unfold all_elems; simpl; by apply (all_elems_insert s gp)).
  assert (NoDup (elem_tid <$> all_elems (clone_state s self dt))) as Hnd.
  { rewrite Hperm, fmap_cons. apply NoDup_cons. split; [|apply (wf_tids _ _ Hwf)].
    simpl. intros (x & Hx & Hin)%list_elem_of_fmap.
    rewrite table_find_None in Hself. by apply (Hself x Hin). }
  destruct (decide (other = self)) as [->|Hne].
  - apply table_find_elem; [done| |done].
    change (mkElem self (fresh_key (tls_heap s)) ∈ all_elems (clone_state s self dt)).
    rewrite Hperm. left.
  - destruct (table_find other (hash_table s)) as [e|] eqn:Hf.
    + apply table_find_Some in Hf as [Hin Ht].
      apply table_find_elem; [done| |done].
      change (e ∈ all_elems (clone_state s self dt)). rewrite Hperm. by right.
    + apply table_find_None. intros x Hx.
      change (x ∈ all_elems (clone_state s self dt)) in Hx. rewrite Hperm in Hx.
      apply elem_of_cons in Hx as [->|Hx]; [simpl; congruence|].
      rewrite table_find_None in Hf. by apply Hf.
Qed.

(** What [tls_read] hands back is decided by the size, the number of pages
    and the bytes of the caller's area. *)
Lemma tls_read_result_eq s s' a b ea eb da db off len buf :
  wf gp s → wf gp s' → 0 ≤ off →
  table_find a (hash_table s) = Some ea → tls_heap s !! elem_tls ea = Some da →
  table_find b (hash_table s') = Some eb → tls_heap s' !! elem_tls eb = Some db →
  size db = size da → length (pages db) = length (pages da) →
  page_size s' = page_size s →
  (∀ i, lsa_byte s' (elem_tls eb) i = lsa_byte s (elem_tls ea) i) →
  result_of (tls_read b off len buf s') = result_of (tls_read a off len buf s).
Proof.
  intros Hwf Hwf' Hoff Hfa Hda Hfb Hdb Hsz Hlen Hps Hbytes.
  pose proof (tls_read_spec gp gp_pos s a off len buf Hwf Hoff) as Hs.
  pose proof (tls_read_spec gp gp_pos s' b off len buf Hwf' Hoff) as Hs'.
  rewrite Hfa in Hs. rewrite Hfb in Hs'.
  destruct Hs as (x & Hx & Hs). destruct Hs' as (x' & Hx' & Hs').
  assert (x = da) as -> by congruence. assert (x' = db) as -> by congruence.
  rewrite Hsz in Hs'.
  destruct (u32 (off + len) >? size da); [by rewrite Hs, Hs'|].
  simpl in Hs, Hs'. rewrite Hps, Hlen in Hs'.
  destruct (tls_read a off len buf s) as [r1 s1| | |],
           (tls_read b off len buf s') as [r2 s2| | |]; try done.
  - destruct Hs as (out & -> & _ & _ & _ & Hout).
    destruct Hs' as (out' & -> & _ & _ & _ & Hout'). simpl. do 2 f_equal.
    apply list_eq. intros j. rewrite Hout, Hout'.
    destruct (decide (j < Z.to_nat (u32 (off + len) - off))%nat); [|done]. by rewrite Hbytes.
  - by destruct Hs as (out & _ & _ & _ & Hok & _).
  - by destruct Hs' as (out & _ & _ & _ & Hok & _).
Qed.

End CloneProps.

(** X6. [tls_clone] returns -1 and changes nothing when the calling thread
    already owns an area, and when the target thread owns none (a thread
    without an area that names itself as target included). *)
Theorem clone_is_rejected gp s self target :
  0 < gp → reachable gp s →
  is_Some (table_find self (hash_table s)) ∨ table_find target (hash_table s) = None →
  tls_clone self target s = Ret (-1) s.
Proof.
  intros Hgp Hreach Hcase. pose proof (reachable_wf gp Hgp s Hreach) as Hwf.
  destruct (tls_clone_eval gp s self target Hwf)
    as [[_ He]|(Hs & [[_ He]|(et & dt & Hf & _)])]; [done|done|].
  destruct Hcase as [[e He]|Hn]; congruence.
Qed.

Lemma clone_is_rejected_witness : tls_clone 2 3 st_cloned = Ret (-1) st_cloned.
Proof.
  apply (clone_is_rejected 4096 st_cloned 2 3); [lia|apply st_cloned_reachable|].
  left. vm_compute. eauto.
Defined.

(** X7. In a reachable state, when the caller owns no area, the target owns
    one, and the operating system grants the three allocations, [tls_clone]
    returns 0 without mapping or copying any page: the caller is registered
    with a new descriptor that has the size, the page count and the very
    page objects of the target's, the count of each of these pages is one
    more, every byte of the caller's area equals the target's byte, and
    every other thread keeps its entry and its bytes. *)
Theorem clone_shares_the_pages gp s self target et dt :
  0 < gp → reachable gp s →
  table_find self (hash_table s) = None →
  table_find target (hash_table s) = Some et → tls_heap s !! elem_tls et = Some dt →
  hd true (oracle s) = true → hd true (tl (oracle s)) = true →
  hd true (tl (tl (oracle s))) = true →
  ∃ s' tn, tls_clone self target s = Ret 0 s' ∧
    table_find self (hash_table s') = Some (mkElem self tn) ∧
    tls_heap s !! tn = None ∧
    tls_heap s' !! tn = Some (mkTLS self (size dt) (page_num dt) (pages dt)) ∧
    mem s' = mem s ∧
    (∀ p pg, p ∈ pages dt → page_heap s !! p = Some pg →
       page_heap s' !! p = Some (mkPage (address pg) (ref_count pg + 1))) ∧
    (∀ q, q ∉ pages dt → page_heap s' !! q = page_heap s !! q) ∧
    (∀ i, lsa_byte s' tn i = lsa_byte s (elem_tls et) i) ∧
    (∀ other, other ≠ self →
       table_find other (hash_table s') = table_find other (hash_table s)) ∧
    (∀ t i, t ≠ tn → tls_heap s' !! t = tls_heap s !! t ∧ lsa_byte s' t i = lsa_byte s t i).
Proof.
  intros Hgp Hreach Hself Hf Hdt H1 H2 H3.
  pose proof (reachable_wf gp Hgp s Hreach) as Hwf.
  destruct (tls_clone_eval gp s self target Hwf)
    as [[Hn _]|(_ & [[Hn _]|(et' & dt' & Hf' & Hdt' & Hcases)])]; [done|congruence|].
  assert (et' = et) as -> by congruence. assert (dt' = dt) as -> by congruence.
  destruct Hcases as [[? _]|[(_ & ? & _)|[(_ & _ & ? & _)|(_ & _ & _ & He)]]]; try congruence.
  exists (clone_state s self dt), (fresh_key (tls_heap s)).
  split; [done|]. split.
  { by rewrite (clone_state_find gp), decide_True. }
  split; [apply fresh_key_fresh|]. split; [simpl; apply lookup_insert_eq|].
  split; [done|].
  assert (∀ q, page_heap (clone_state s self dt) !! q =
               if decide (q ∈ pages dt) then shared <$> page_heap s !! q
               else page_heap s !! q) as Hheap
    by (intros q; by apply (clone_heap_lookup gp s self et dt)).
  split; [intros p pg Hp Hpg; by rewrite Hheap, decide_True, Hpg|].
  split; [intros q Hq; by rewrite Hheap, decide_False|].
  split; [intros i; by rewrite (clone_state_lsa_byte gp s self et), decide_True|].
  split; [intros other Hne; by rewrite (clone_state_find gp), decide_False|].
  intros t i Hne. split; [simpl; by rewrite lookup_insert_ne|].
  by rewrite (clone_state_lsa_byte gp s self et), decide_False.
Qed.

Lemma clone_shares_the_pages_witness :
  ∃ s' tn, tls_clone 2 1 st_written = Ret 0 s' ∧
    table_find 2 (hash_table s') = Some (mkElem 2 tn) ∧
    tls_heap st_written !! tn = None ∧
    tls_heap s' !! tn =
      Some (mkTLS 2 (size (mkTLS 1 8192 2 [1; 2])) (page_num (mkTLS 1 8192 2 [1; 2]))
              (pages (mkTLS 1 8192 2 [1; 2]))) ∧
    mem s' = mem st_written ∧
    (∀ p pg, p ∈ pages (mkTLS 1 8192 2 [1; 2]) → page_heap st_written !! p = Some pg →
       page_heap s' !! p = Some (mkPage (address pg) (ref_count pg + 1))) ∧
    (∀ q, q ∉ pages (mkTLS 1 8192 2 [1; 2]) →
       page_heap s' !! q = page_heap st_written !! q) ∧
    (∀ i, lsa_byte s' tn i = lsa_byte st_written (elem_tls (mkElem 1 1)) i) ∧
    (∀ other, other ≠ 2 →
       table_find other (hash_table s') = table_find other (hash_table st_written)) ∧
    (∀ t i, t ≠ tn → tls_heap s' !! t = tls_heap st_written !! t ∧
                     lsa_byte s' t i = lsa_byte st_written t i).
Proof.
  apply (clone_shares_the_pages 4096 st_written 2 1 (mkElem 1 1) (mkTLS 1 8192 2 [1; 2])).
  - lia.
  - apply st_written_reachable.
  - vm_compute. reflexivity.
  - vm_compute. reflexivity.
  - vm_compute. reflexivity.
  - reflexivity.
  - reflexivity.
  - reflexivity.
Defined.

(** X8. After a successful clone the caller reads what the target reads:
    every [tls_read] of the new owner hands back the status and the bytes
    the same [tls_read] by the target thread hands back, before the clone
    as well as after it. *)
Theorem clone_reads_like_target gp s self target s' off len buf :
  0 < gp → reachable gp s → 0 ≤ off →
  tls_clone self target s = Ret 0 s' →
  result_of (tls_read self off len buf s') = result_of (tls_read target off len buf s) ∧
  result_of (tls_read target off len buf s') = result_of (tls_read target off len buf s).
Proof.
  intros Hgp Hreach Hoff Hrun. pose proof (reachable_wf gp Hgp s Hreach) as Hwf.
  assert (wf gp s') as Hwf' by (eapply tls_clone_wf; eauto).
  destruct (tls_clone_eval gp s self target Hwf)
    as [[_ He]|(Hself & [[_ He]|(et & dt & Hf & Hdt & Hcases)])]; [congruence..|].
  assert (s' = clone_state s self dt) as ->.
  { destruct Hcases as [[_ He]|[(_ & _ & He)|[(_ & _ & _ & He)|(_ & _ & _ & He)]]];
      congruence. }
  assert (self ≠ target) as Hne by (intros ->; congruence).
  assert (elem_tls et ≠ fresh_key (tls_heap s)) as Hfresh
    by (intros Heq; rewrite Heq, fresh_key_fresh in Hdt; done).
  split.
  - apply (tls_read_result_eq gp Hgp s (clone_state s self dt) target self et
             (mkElem self (fresh_key (tls_heap s))) dt
             (mkTLS self (size dt) (page_num dt) (pages dt))); try done.
    + by rewrite (clone_state_find gp), decide_True.
    + simpl. apply lookup_insert_eq.
    + intros i. by rewrite (clone_state_lsa_byte gp s self et), decide_True.
  - apply (tls_read_result_eq gp Hgp s (clone_state s self dt) target target et et dt dt);
      try done.
    + by rewrite (clone_state_find gp), decide_False.
    + simpl. by rewrite lookup_insert_ne.
    + intros i. by rewrite (clone_state_lsa_byte gp s self et), decide_False.
Qed.

Lemma clone_reads_like_target_witness :
  result_of (tls_read 2 0 5 (replicate 5 x00) st_cloned) =
    result_of (tls_read 1 0 5 (replicate 5 x00) st_written) ∧
  result_of (tls_read 1 0 5 (replicate 5 x00) st_cloned) =
    result_of (tls_read 1 0 5 (replicate 5 x00) st_written).
Proof.
  apply (clone_reads_like_target 4096 st_written 2 1 st_cloned 0 5 (replicate 5 x00)).
  - lia.
  - apply st_written_reachable.
  - lia.
  - apply st_cloned_run.
Defined.

(** ** [tls_destroy] and the other threads *)

Section DestroyFrame.

Variable gp : Z.
Hypothesis gp_pos : 0 < gp.

Variables (s : tls_state) (self : Z) (e : hash_element) (d : TLS).
Hypothesis Hwf : wf gp s.
Hypothesis Hfind : table_find self (hash_table s) = Some e.
Hypothesis Hd : tls_heap s !! elem_tls e = Some d.

(** A page another descriptor holds too survives with its address and its
    mapping. *)
Lemma destroy_state_other_page t2 d2 p pg :
  t2 ≠ elem_tls e → tls_heap s !! t2 = Some d2 → p ∈ pages d2 →
  page_heap s !! p = Some pg →
  ∃ pg', page_heap (destroy_state s self (elem_tls e) d) !! p = Some pg' ∧
    address pg' = address pg ∧
    mem (destroy_state s self (elem_tls e) d) !! address pg = mem s !! address pg.
Proof.
  intros Hne Hd2 Hp Hpg.
  assert (∃ pg', page_heap (destroy_state s self (elem_tls e) d) !! p = Some pg' ∧
                 address pg' = address pg) as (pg' & Hpg' & Ha).
  { rewrite (destroy_heap_lookup gp s self e d Hwf Hd).
    destruct (decide (p ∈ pages d)) as [Hin|]; [|by exists pg].
    rewrite Hpg. simpl. unfold released.
    destruct (Z.eqb_spec (ref_count pg) 1) as [Hone|]; [|by eexists].
    exfalso. apply Hne. destruct (wf_count _ _ Hwf p pg Hpg) as [Hcnt _].
    apply (holders_one_unique (tls_heap s) t2 d2 (elem_tls e) d p); try done. lia. }
  exists pg'. split; [done|]. split; [done|].
  rewrite <- Ha. by apply (destroy_mem_lookup gp s self e d Hwf Hd p pg').
Qed.

Lemma destroy_state_lsa_byte t2 i :
  t2 ≠ elem_tls e →
  lsa_byte (destroy_state s self (elem_tls e) d) t2 i = lsa_byte s t2 i.
Proof.
  intros Hne. unfold lsa_byte.
  change (tls_heap (destroy_state s self (elem_tls e) d)) with (delete (elem_tls e) (tls_heap s)).
  change (page_size (destroy_state s self (elem_tls e) d)) with (page_size s).
  rewrite lookup_delete_ne by done.
  destruct (tls_heap s !! t2) as [d2|] eqn:Hd2; [|done]. cbn [mbind option_bind].
  destruct (pages d2 !! Z.to_nat (i / page_size s)) as [p|] eqn:Hp; [|done].
  cbn [mbind option_bind].
  pose proof (list_elem_of_lookup_2 _ _ _ Hp) as Hin.
  destruct (wf_desc _ _ Hwf _ _ Hd2) as (_ & _ & Hheap).
  destruct (Hheap p Hin) as [pg Hpg].
  destruct (destroy_state_other_page t2 d2 p pg Hne Hd2 Hin Hpg) as (pg' & Hpg' & Ha & Hm).
  rewrite Hpg', Hpg. cbn [mbind option_bind]. by rewrite Ha, Hm.
Qed.

Lemma destroy_state_find other eo :
  other ≠ self → table_find other (hash_table s) = Some eo →
  table_find other (hash_table (destroy_state s self (elem_tls e) d)) = Some eo.
Proof.
  intros Hne [Hin Ht]%table_find_Some.
  assert (wf gp (destroy_state s self (elem_tls e) d)) as Hwf'
    by (eapply destroy_state_wf; eauto).
  apply table_find_elem; [apply (wf_tids _ _ Hwf')| |done].
  change (eo ∈ all_elems (destroy_state s self (elem_tls e) d)).
  rewrite (destroy_elems gp s self e d Hwf). apply list_elem_of_filter. split; [congruence|done].
Qed.

End DestroyFrame.

(** X9. In a reachable state a successful [tls_destroy] touches no other
    thread's area: every other thread keeps its registry entry and its
    descriptor, every byte of its area (a page it shares with the destroyed
    area is only counted down, never unmapped), and every [tls_read] of it
    hands back what it handed back before. *)
Theorem destroy_spares_other_areas gp s self s' other eo :
  0 < gp → reachable gp s → tls_destroy self s = Ret 0 s' →
  other ≠ self → table_find other (hash_table s) = Some eo →
  table_find other (hash_table s') = Some eo ∧
  tls_heap s' !! elem_tls eo = tls_heap s !! elem_tls eo ∧
  (∀ i, lsa_byte s' (elem_tls eo) i = lsa_byte s (elem_tls eo) i) ∧
  ∀ off len buf, 0 ≤ off →
    result_of (tls_read other off len buf s') = result_of (tls_read other off len buf s).
Proof.
  intros Hgp Hreach Hrun Hne Hfo. pose proof (reachable_wf gp Hgp s Hreach) as Hwf.
  destruct (table_find self (hash_table s)) as [e|] eqn:Hf.
  2:{ by rewrite (tls_destroy_None s self Hf) in Hrun. }
  destruct (wf_find gp s self e Hwf Hf) as (_ & _ & d & Hd & _).
  rewrite (tls_destroy_Ret gp s self e d Hwf Hf Hd) in Hrun. injection Hrun as <-.
  pose proof (other_tls_ne gp s self other e eo Hwf Hf Hfo Hne) as Hnt.
  assert (wf gp (destroy_state s self (elem_tls e) d)) as Hwf'
    by (eapply destroy_state_wf; eauto).
  assert (table_find other (hash_table (destroy_state s self (elem_tls e) d)) = Some eo)
    as Hfo' by (eapply destroy_state_find; eauto).
  assert (∀ i, lsa_byte (destroy_state s self (elem_tls e) d) (elem_tls eo) i =
               lsa_byte s (elem_tls eo) i) as Hbytes
    by (intros i; eapply destroy_state_lsa_byte; eauto).
  split; [done|]. split; [simpl; by apply lookup_delete_ne|]. split; [done|].
  intros off len buf Hoff.
  destruct (wf_find gp s other eo Hwf Hfo) as (_ & _ & do & Hdo & _).
  apply (tls_read_result_eq gp Hgp s _ other other eo eo do do); try done.
  simpl. by rewrite lookup_delete_ne.
Qed.

Lemma destroy_spares_other_areas_witness :
  table_find 1 (hash_table (exec (tls_destroy 2) st_diverged)) = Some (mkElem 1 1) ∧
  tls_heap (exec (tls_destroy 2) st_diverged) !! elem_tls (mkElem 1 1) =
    tls_heap st_diverged !! elem_tls (mkElem 1 1) ∧
  (∀ i, lsa_byte (exec (tls_destroy 2) st_diverged) (elem_tls (mkElem 1 1)) i =
        lsa_byte st_diverged (elem_tls (mkElem 1 1)) i) ∧
  ∀ off len buf, 0 ≤ off →
    result_of (tls_read 1 off len buf (exec (tls_destroy 2) st_diverged)) =
    result_of (tls_read 1 off len buf st_diverged).
Proof.
  apply (destroy_spares_other_areas 4096 st_diverged 2 (exec (tls_destroy 2) st_diverged)
           1 (mkElem 1 1)).
  - lia.
  - apply st_diverged_reachable.
  - vm_compute. reflexivity.
  - lia.
  - vm_compute. reflexivity.
Defined.

(** ** [hash_table_insert] and [tls_create] *)

(** Looking up after linking an element in front of its chain. *)
Lemma table_find_insert_head ht : ∀ i chain e other,
  ht !! i = Some chain → table_find (elem_tid e) ht = None →
  table_find other (<[i := e :: chain]> ht) =
  if decide (other = elem_tid e) then Some e else table_find other ht.
Proof.
  induction ht as [|c ht IH]; intros i chain e other Hi Hnone; [done|].
  destruct i as [|i]; simpl in Hi.
  - injection Hi as ->. simpl in *.
    destruct (Z.eqb_spec (elem_tid e) other) as [Heq|Hne].
    + by rewrite decide_True.
    + by rewrite decide_False by done.
  - simpl in *. destruct (chain_find (elem_tid e) c) eqn:Hc; [done|].
    rewrite (IH i chain e other Hi Hnone).
    destruct (decide (other = elem_tid e)) as [->|]; [by rewrite Hc|done].
Qed.

(** X10. [hash_table_insert] and the registry lookup: in a table of 4096
    buckets, linking an entry for a thread that has none returns when the
    element can be allocated; afterwards the lookup of that thread finds
    the new entry and the lookup of every other thread finds what it found
    before.  When the element cannot be allocated the process exits with
    status 1. *)
Theorem insert_then_find s self t :
  length (hash_table s) = Z.to_nat HASH_SIZE →
  table_find self (hash_table s) = None →
  (hd true (oracle s) = false → hash_table_insert self t s = Exit 1) ∧
  (hd true (oracle s) = true →
   ∃ s', hash_table_insert self t s = Ret tt s' ∧
     table_find self (hash_table s') = Some (mkElem self t) ∧
     (∀ other, other ≠ self →
        table_find other (hash_table s') = table_find other (hash_table s)) ∧
     tls_heap s' = tls_heap s ∧ page_heap s' = page_heap s ∧ mem s' = mem s).
Proof.
  intros Hlen Hnone. split; [apply hash_table_insert_Exit|]. intros Ho.
  exists (create_final self t s). split; [by apply hash_table_insert_run|].
  destruct (lookup_lt_is_Some_2 (hash_table s) (Z.to_nat (self mod HASH_SIZE))) as [chain Hc].
  { rewrite Hlen. pose proof (Z.mod_pos_bound self HASH_SIZE). unfold HASH_SIZE in *. lia. }
  assert (∀ other, table_find other (hash_table (create_final self t s)) =
            if decide (other = self) then Some (mkElem self t)
            else table_find other (hash_table s)) as Hfind.
  { intros other. unfold create_final. cbn [hash_table with_hash_table]. rewrite Hc.
    apply (table_find_insert_head _ _ chain (mkElem self t) other Hc Hnone). }
  split; [by rewrite Hfind, decide_True|].
  split; [intros other Hne; by rewrite Hfind, decide_False|]. done.
Qed.

Lemma insert_then_find_witness :
  (hd true (oracle st_created) = false → hash_table_insert 4097 7 st_created = Exit 1) ∧
  (hd true (oracle st_created) = true →
   ∃ s', hash_table_insert 4097 7 st_created = Ret tt s' ∧
     table_find 4097 (hash_table s') = Some (mkElem 4097 7) ∧
     (∀ other, other ≠ 4097 →
        table_find other (hash_table s') = table_find other (hash_table st_created)) ∧
     tls_heap s' = tls_heap st_created ∧ page_heap s' = page_heap st_created ∧
     mem s' = mem st_created).
Proof.
  apply (insert_then_find st_created 4097 7); vm_compute; reflexivity.
Defined.

Section CreateSuccess.

Variable gp : Z.
Hypothesis gp_pos : 0 < gp.

Variables (s : tls_state) (self sz : Z).
Hypothesis Hwf0 : wf gp s.
Hypothesis Hf : table_find self (hash_table s) = None.
Hypothesis Hsz : 0 < sz.
Hypothesis Hall : Forall (λ b, b = true) (oracle s).

(** The run of [tls_create] when every allocation is granted. *)
Lemma tls_create_granted :
  ∃ s3 cl, tls_create gp self sz s = Ret 0 (create_final self (fresh_key (tls_heap s)) s3) ∧
    building (page_heap s) (mem s) (fresh_key (tls_heap s))
      (mkTLS self sz (create_page_num gp sz) []) cl 0 s3 ∧
    length cl = Z.to_nat (create_page_num gp sz) ∧
    hash_table s3 = hash_table s ∧ page_size s3 = gp ∧
    (∀ t', t' ≠ fresh_key (tls_heap s) → tls_heap s3 !! t' = tls_heap s !! t') ∧
    wf gp (create_final self (fresh_key (tls_heap s)) s3).
Proof.
  rewrite tls_create_ensure.
  pose proof (wf_ensure_init gp s Hwf0) as Hwf.
  destruct (ensure_init_initialized gp s Hwf0) as [Hi Hps].
  destruct (ensure_init_heaps gp s) as (Hth & Hph & Hmem).
  pose proof (ensure_init_table gp s) as Hht.
  pose proof (ensure_init_oracle gp s) as Hor.
  rewrite <- Hht in Hf. rewrite <- Hor in Hall. rewrite <- Hth, <- Hph, <- Hmem, <- Hht.
  set (si := ensure_init gp s) in *. clearbody si.
  assert (∀ k, hd true (drop k (oracle si)) = true) as Hhd
    by (intros k; by apply all_true_hd, Forall_drop).
  pose proof (Hhd 0%nat) as H1. pose proof (Hhd 1%nat) as H2.
  change (drop 0 (oracle si)) with (oracle si) in H1.
  replace (drop 1 (oracle si)) with (tl (oracle si)) in H2 by (by destruct (oracle si)).
  rewrite (tls_create_started gp self sz si Hi Hf Hsz H1 H2). rewrite Hps.
  pose proof (create_pages_spec (page_heap si) (mem si) (fresh_key (tls_heap si))
                (mkTLS self sz (create_page_num gp sz) [])
                (Z.to_nat (create_page_num gp sz)) [] _
                ltac:(rewrite <- Hps; apply (building_start si self sz))
                ltac:(simpl; lia)) as Hloop.
  change (Z.of_nat (length [])) with 0 in Hloop.
  change (oracle (create_start si self sz)) with (tl (tl (oracle si))) in Hloop.
  destruct (create_pages _ 0 _ (create_start si self sz)) as [[] s3| | |] eqn:Hrun;
    try done; rewrite (bind_Ret _ _ _ _ _ Hrun); cbv beta iota.
  - destruct Hloop as ((cl & Hb & Hlen) & Hg & Hother & _ & Hdrop).
    assert (length (hash_table s3) = Z.to_nat HASH_SIZE) as Hbk.
    { destruct Hg as (-> & _). apply (wf_buckets _ _ Hwf). }
    assert (hd true (oracle s3) = true) as H3.
    { rewrite Hdrop, oracle_tl2, drop_drop. apply Hhd. }
    rewrite (bind_Ret _ _ _ _ _ (hash_table_insert_run s3 self _ Hbk H3)).
    exists s3, cl. split; [done|]. split; [done|]. split; [done|].
    destruct Hg as (Hg1 & Hg2 & Hg3 & Hg4 & Hg5).
    split; [done|]. split; [by rewrite Hg3|]. split.
    { intros t' Hne. rewrite Hother by done. simpl. by rewrite lookup_insert_ne. }
    apply (created_wf gp gp_pos si self sz cl s3 Hwf Hi Hf); rewrite ?Hps; done.
  - exfalso. destruct Hloop as (_ & _ & _ & _ & pre & _ & _ & Ho).
    rewrite oracle_tl2 in Ho.
    pose proof (Forall_drop (λ b, b = true) 2 _ Hall) as Hd. rewrite Ho in Hd.
    apply Forall_app in Hd as [_ Hd]. by apply Forall_cons in Hd as [? _].
Qed.

End CreateSuccess.

Section FreshArea.

Variable gp : Z.
Hypothesis gp_pos : 0 < gp.

Variables (s : tls_state) (self sz : Z) (cl : list (Z * Z)) (s3 : tls_state).
Hypothesis Hwf0 : wf gp s.
Hypothesis Hf : table_find self (hash_table s) = None.
Hypothesis Hb : building (page_heap s) (mem s) (fresh_key (tls_heap s))
                  (mkTLS self sz (create_page_num gp sz) []) cl 0 s3.
Hypothesis Hlen : length cl = Z.to_nat (create_page_num gp sz).
Hypothesis Hht : hash_table s3 = hash_table s.
Hypothesis Hps : page_size s3 = gp.
Hypothesis Hother : ∀ t', t' ≠ fresh_key (tls_heap s) → tls_heap s3 !! t' = tls_heap s !! t'.

Let tn := fresh_key (tls_heap s).
Let s' := create_final self tn s3.

Lemma fresh_area_find other :
  table_find other (hash_table s') =
  if decide (other = self) then Some (mkElem self tn) else table_find other (hash_table s).
Proof.
  destruct (bucket_in_range s gp self Hwf0) as [chain Hc].
  unfold s', create_final. cbn [hash_table with_hash_table with_oracle]. rewrite Hht, Hc.
  apply (table_find_insert_head _ _ chain (mkElem self tn) other Hc Hf).
Qed.

Lemma fresh_area_desc :
  tls_heap s' !! tn = Some (mkTLS self sz (create_page_num gp sz) cl.*1).
Proof. pose proof (bd_desc _ _ _ _ _ _ _ Hb) as H. simpl in H. by rewrite app_nil_r in H. Qed.

Lemma fresh_area_page p :
  p ∈ cl.*1 →
  ∃ a, page_heap s' !! p = Some (mkPage a 1) ∧
       mem s' !! a = Some (fresh_mapping gp) ∧
       page_heap s !! p = None ∧ mem s !! a = None.
Proof.
  intros ([q a] & -> & Hin)%list_elem_of_fmap. exists a.
  destruct (bd_new _ _ _ _ _ _ _ Hb q a Hin) as (H1 & H2 & H3 & H4).
  rewrite Hps in H2. done.
Qed.

Lemma fresh_area_zero i :
  0 ≤ i < create_page_num gp sz * gp → lsa_byte s' tn i = Some x00.
Proof.
  intros Hi. unfold lsa_byte. rewrite fresh_area_desc. cbn [mbind option_bind pages].
  change (page_size s') with (page_size s3). rewrite Hps.
  assert (0 ≤ i / gp < create_page_num gp sz) as Hslot.
  { split; [apply Z.div_pos; lia|]. apply Z.div_lt_upper_bound; lia. }
  destruct (lookup_lt_is_Some_2 cl.*1 (Z.to_nat (i / gp))) as [p Hp].
  { rewrite length_fmap, Hlen. lia. }
  rewrite Hp. cbn [mbind option_bind].
  destruct (fresh_area_page p (list_elem_of_lookup_2 _ _ _ Hp)) as (a & Hpg & Hm & _).
  rewrite Hpg. cbn [mbind option_bind address]. rewrite Hm. cbn [mbind option_bind].
  unfold fresh_mapping. cbn [m_bytes]. apply lookup_replicate_2.
  pose proof (Z.mod_pos_bound i gp gp_pos). lia.
Qed.

Lemma fresh_area_others t' :
  t' ≠ tn →
  tls_heap s' !! t' = tls_heap s !! t' ∧ ∀ i, lsa_byte s' t' i = lsa_byte s t' i.
Proof.
  intros Hne. assert (tls_heap s' !! t' = tls_heap s !! t') as Hheap by (by apply Hother).
  split; [done|]. intros i. unfold lsa_byte. rewrite Hheap.
  destruct (tls_heap s !! t') as [d'|] eqn:Hd'; [|done]. cbn [mbind option_bind].
  change (page_size s') with (page_size s3).
  rewrite Hps, <- (wf_page_size gp s t' d' Hwf0 Hd').
  destruct (pages d' !! Z.to_nat (i / page_size s)) as [q|] eqn:Hq; [|done].
  cbn [mbind option_bind].
  destruct (wf_page gp s t' d' q Hwf0 Hd' (list_elem_of_lookup_2 _ _ _ Hq))
    as (qg & m & Hqg & Hm & _).
  assert (q ∉ cl.*1) as Hn.
  { intros (a & _ & _ & Hnone & _)%fresh_area_page. congruence. }
  assert (address qg ∉ cl.*2) as Hna.
  { intros ([p a] & Heq & Hin)%list_elem_of_fmap. simpl in Heq.
    destruct (bd_new _ _ _ _ _ _ _ Hb p a Hin) as (_ & _ & _ & Hnone). congruence. }
  change (page_heap s') with (page_heap s3). change (mem s') with (mem s3).
  rewrite (bd_old_pages _ _ _ _ _ _ _ Hb q Hn), Hqg. cbn [mbind option_bind].
  by rewrite (bd_old_mem _ _ _ _ _ _ _ Hb _ Hna).
Qed.

End FreshArea.

(** X11. In a reachable state, for a thread without an area, a size other
    than 0 that [size + page_size - 1] does not carry beyond [unsigned int],
    and an operating system that grants every request, [tls_create] returns
    0: the caller is registered with a new descriptor of that size and of
    ceil(size / page_size) pages; every page is a new page object with count
    1 whose new mapping is zero-filled and has no access permission; and
    every other thread keeps its entry, its descriptor and its bytes. *)
Theorem create_builds_protected_zero_pages gp s self sz :
  0 < gp → reachable gp s →
  table_find self (hash_table s) = None →
  0 < sz → sz + gp - 1 < 2 ^ 32 →
  Forall (λ b, b = true) (oracle s) →
  ∃ s' t d, tls_create gp self sz s = Ret 0 s' ∧
    table_find self (hash_table s') = Some (mkElem self t) ∧
    tls_heap s !! t = None ∧ tls_heap s' !! t = Some d ∧
    tid d = self ∧ size d = sz ∧ page_num d = (sz + gp - 1) / gp ∧
    Z.of_nat (length (pages d)) = (sz + gp - 1) / gp ∧
    (∀ p, p ∈ pages d →
       ∃ a, page_heap s' !! p = Some (mkPage a 1) ∧
            mem s' !! a = Some (mkMapping PROT_NONE (replicate (Z.to_nat gp) x00)) ∧
            page_heap s !! p = None ∧ mem s !! a = None) ∧
    (∀ i, 0 ≤ i < sz → lsa_byte s' t i = Some x00) ∧
    (∀ other, other ≠ self →
       table_find other (hash_table s') = table_find other (hash_table s)) ∧
    (∀ t', t' ≠ t → tls_heap s' !! t' = tls_heap s !! t' ∧
                    ∀ i, lsa_byte s' t' i = lsa_byte s t' i).
Proof.
  intros Hgp Hreach Hf Hsz Hnowrap Hall.
  pose proof (reachable_wf gp Hgp s Hreach) as Hwf.
  destruct (tls_create_granted gp Hgp s self sz Hwf Hf Hsz Hall)
    as (s3 & cl & Hrun & Hb & Hlen & Hht & Hps & Hother & Hwf').
  assert (create_page_num gp sz = (sz + gp - 1) / gp) as Hn.
  { unfold create_page_num, u32. rewrite Z.mod_small; [done|lia]. }
  pose proof (create_page_num_nonneg gp sz Hgp) as Hnn.
  eexists _, (fresh_key (tls_heap s)), _. split; [exact Hrun|].
  split; [by rewrite (fresh_area_find gp s self s3 Hwf Hf Hht), decide_True|].
  split; [apply fresh_key_fresh|].
  split; [apply (fresh_area_desc gp s self sz cl s3 Hb)|].
  split; [done|]. split; [done|]. split; [done|].
  split; [simpl; rewrite length_fmap, Hlen; lia|].
  split; [intros p Hp; apply (fresh_area_page gp s self sz cl s3 Hb Hps p Hp)|].
  split.
  { intros i Hi. apply (fresh_area_zero gp Hgp s self sz cl s3 Hb Hlen Hps).
    pose proof (ceil_pages_cover sz gp Hgp). rewrite Hn. lia. }
  split; [intros other Hne;
          by rewrite (fresh_area_find gp s self s3 Hwf Hf Hht), decide_False|].
  intros t' Hne. by apply (fresh_area_others gp s self sz cl s3 Hwf Hb Hps Hother).
Qed.

Lemma create_builds_protected_zero_pages_witness :
  ∃ s' t d, tls_create 4096 3 5000 st_cloned = Ret 0 s' ∧
    table_find 3 (hash_table s') = Some (mkElem 3 t) ∧
    tls_heap st_cloned !! t = None ∧ tls_heap s' !! t = Some d ∧
    tid d = 3 ∧ size d = 5000 ∧ page_num d = (5000 + 4096 - 1) / 4096 ∧
    Z.of_nat (length (pages d)) = (5000 + 4096 - 1) / 4096 ∧
    (∀ p, p ∈ pages d →
       ∃ a, page_heap s' !! p = Some (mkPage a 1) ∧
            mem s' !! a = Some (mkMapping PROT_NONE (replicate (Z.to_nat 4096) x00)) ∧
            page_heap st_cloned !! p = None ∧ mem st_cloned !! a = None) ∧
    (∀ i, 0 ≤ i < 5000 → lsa_byte s' t i = Some x00) ∧
    (∀ other, other ≠ 3 →
       table_find other (hash_table s') = table_find other (hash_table st_cloned)) ∧
    (∀ t', t' ≠ t → tls_heap s' !! t' = tls_heap st_cloned !! t' ∧
                    ∀ i, lsa_byte s' t' i = lsa_byte st_cloned t' i).
Proof.
  apply (create_builds_protected_zero_pages 4096 st_cloned 3 5000).
  - lia.
  - apply st_cloned_reachable.
  - vm_compute. reflexivity.
  - lia.
  - lia.
  - vm_compute. constructor.
Defined.

(** X12. A fresh area reads as zeros: under the conditions of a successful
    [tls_create], a [tls_read] of any range inside the new area by its
    owner returns 0 and fills the first [len] bytes of the buffer with
    zeros, leaving the rest of the buffer as it was. *)
Theorem fresh_area_reads_zero gp s self sz off len buf :
  0 < gp → reachable gp s →
  table_find self (hash_table s) = None →
  0 < sz → sz + gp - 1 < 2 ^ 32 →
  Forall (λ b, b = true) (oracle s) →
  0 ≤ off → 0 ≤ len → off + len ≤ sz → (Z.to_nat len ≤ length buf)%nat →
  ∃ s' out s'', tls_create gp self sz s = Ret 0 s' ∧
    tls_read self off len buf s' = Ret (0, out) s'' ∧
    out = replicate (Z.to_nat len) x00 ++ drop (Z.to_nat len) buf.
Proof.
  intros Hgp Hreach Hf Hsz Hnowrap Hall Hoff Hlen Hin Hbuf.
  pose proof (reachable_wf gp Hgp s Hreach) as Hwf.
  destruct (tls_create_granted gp Hgp s self sz Hwf Hf Hsz Hall)
    as (s3 & cl & Hrun & Hb & Hlcl & Hht & Hps & Hother & Hwf').
  assert (create_page_num gp sz = (sz + gp - 1) / gp) as Hn.
  { unfold create_page_num, u32. rewrite Z.mod_small; [done|lia]. }
  pose proof (ceil_pages_cover sz gp Hgp) as Hcov.
  set (s' := create_final self (fresh_key (tls_heap s)) s3) in *.
  pose proof (tls_read_spec gp Hgp s' self off len buf Hwf' Hoff) as Hr.
  unfold s' in Hr at 1.
  rewrite (fresh_area_find gp s self s3 Hwf Hf Hht), decide_True in Hr by done.
  destruct Hr as (d & Hd & Hr). cbn [elem_tls] in Hd, Hr.
  unfold s' in Hd. rewrite (fresh_area_desc gp s self sz cl s3 Hb) in Hd.
  injection Hd as <-. cbn [size pages] in Hr.
  assert (u32 (off + len) = off + len) as Hu by (unfold u32; apply Z.mod_small; lia).
  rewrite Hu in Hr. destruct (Z.gtb_spec (off + len) sz) as [?|_]; [lia|].
  cbv zeta in Hr. replace (off + len - off) with len in Hr by lia.
  change (page_size s') with (page_size s3) in Hr. rewrite Hps in Hr.
  assert (range_ok (length cl.*1) gp (length buf) (Z.to_nat len) 0 off) as Hok.
  { apply (covered_range_ok _ _ _ _ _ sz); try done.
    rewrite length_fmap, Hlcl, Hn.
    rewrite Z2Nat.id by (apply Z.div_pos; lia). done. }
  destruct (tls_read self off len buf s') as [[r out] s''| | |] eqn:Hread; [|done|done|].
  2:{ by exfalso. }
  destruct Hr as (out0 & [= -> <-] & _ & Hlo & _ & Hout).
  exists s', out, s''. split; [done|]. split; [done|].
  apply list_eq. intros j. rewrite Hout.
  destruct (decide (j < Z.to_nat len)%nat) as [Hj|Hj].
  - rewrite lookup_app_l by (rewrite length_replicate; lia).
    rewrite lookup_replicate_2 by done.
    apply (fresh_area_zero gp Hgp s self sz cl s3 Hb Hlcl Hps). rewrite Hn. lia.
  - rewrite lookup_app_r by (rewrite length_replicate; lia).
    rewrite length_replicate, lookup_drop. f_equal. lia.
Qed.

Lemma fresh_area_reads_zero_witness :
  ∃ s' out s'', tls_create 4096 3 5000 st_cloned = Ret 0 s' ∧
    tls_read 3 4090 10 (replicate 12 x41) s' = Ret (0, out) s'' ∧
    out = replicate (Z.to_nat 10) x00 ++ drop (Z.to_nat 10) (replicate 12 x41).
Proof.
  apply (fresh_area_reads_zero 4096 st_cloned 3 5000 4090 10 (replicate 12 x41)).
  - lia.
  - apply st_cloned_reachable.
  - vm_compute. reflexivity.
  - lia.
  - lia.
  - vm_compute. constructor.
  - lia.
  - lia.
  - lia.
  - vm_compute. lia.
Defined.

(** X13. [tls_create] by a thread that already owns an area, or with size
    0, returns -1, allocates nothing and registers nothing: the state is
    the one before the call (after the lazy initialisation, when this was
    the first call of the process). *)
Theorem create_is_rejected gp s self sz :
  0 < gp → reachable gp s → 0 ≤ sz →
  is_Some (table_find self (hash_table s)) ∨ sz = 0 →
  tls_create gp self sz s = Ret (-1) (ensure_init gp s) ∧
  (is_Some (table_find self (hash_table s)) → ensure_init gp s = s).
Proof.
  intros Hgp Hreach Hsz Hcase. pose proof (reachable_wf gp Hgp s Hreach) as Hwf0.
  pose proof (wf_ensure_init gp s Hwf0) as Hwf.
  destruct (ensure_init_initialized gp s Hwf0) as [Hi _].
  pose proof (ensure_init_table gp s) as Hht.
  split.
  - rewrite tls_create_ensure.
    destruct (table_find self (hash_table s)) as [e|] eqn:Hf.
    + apply (tls_create_registered gp self sz _ e Hi). by rewrite Hht.
    + destruct Hcase as [[? ?]| ->]; [done|].
      apply (tls_create_zero gp self 0 _ Hi); [by rewrite Hht|lia].
  - intros [e He]. destruct (wf_find gp s self e Hwf0 He) as (_ & _ & d & Hd & _).
    unfold ensure_init. destruct (Z.eqb_spec (initialized s) 0) as [H0|]; [|done].
    destruct (wf_init _ _ Hwf0) as [[_ Hempty]|[? _]]; [|done].
    rewrite Hempty in Hd. done.
Qed.

Lemma create_is_rejected_witness :
  tls_create 4096 1 100 st_created = Ret (-1) (ensure_init 4096 st_created) ∧
  (is_Some (table_find 1 (hash_table st_created)) → ensure_init 4096 st_created = st_created).
Proof.
  apply (create_is_rejected 4096 st_created 1 100); [lia|apply st_created_reachable|lia|].
  left. vm_compute. eauto.
Defined.

(** ** Giving an area back *)

Lemma chain_remove_id t chain :
  (∀ x, x ∈ chain → elem_tid x ≠ t) → chain_remove t chain = chain.
Proof.
  induction chain as [|x chain IH]; [done|]. intros Hall. simpl.
  destruct (Z.eqb_spec (elem_tid x) t) as [Heq|_].
  - exfalso. apply (Hall x); [left|done].
  - f_equal. apply IH. intros y Hy. apply Hall. by right.
Qed.

(** Unlinking the element that was linked last gives the table back. *)
Lemma table_remove_insert_head ht : ∀ i c e,
  ht !! i = Some c → (∀ x, x ∈ concat ht → elem_tid x ≠ elem_tid e) →
  chain_remove (elem_tid e) <$> (<[i := e :: c]> ht) = ht.
Proof.
  induction ht as [|c0 ht IH]; intros i c e Hi Hall; [done|].
  assert (chain_remove (elem_tid e) <$> ht = ht) as Hrest.
  { clear IH Hi. induction ht as [|c1 ht IH]; [done|]. rewrite fmap_cons. f_equal.
    - apply chain_remove_id. intros x Hx. apply Hall. simpl.
      apply elem_of_app. right. apply elem_of_app. by left.
    - apply IH. intros x Hx. apply Hall. simpl in *.
      apply elem_of_app in Hx as [Hx|Hx]; apply elem_of_app; [by left|].
      right. apply elem_of_app. by right. }
  destruct i as [|i]; simpl in Hi.
  - injection Hi as ->.
    change (<[0%nat := e :: c]> (c :: ht)) with ((e :: c) :: ht).
    rewrite fmap_cons, Hrest. cbn [chain_remove]. by rewrite Z.eqb_refl.
  - change (<[S i := e :: c]> (c0 :: ht)) with (c0 :: <[i := e :: c]> ht).
    rewrite fmap_cons. f_equal.
    + apply chain_remove_id. intros x Hx. apply Hall. simpl. apply elem_of_app. by left.
    + apply IH; [done|]. intros x Hx. apply Hall. simpl. apply elem_of_app. by right.
Qed.

Section Undo.

Variable gp : Z.
Hypothesis gp_pos : 0 < gp.

Variables (s : tls_state) (self : Z).
Hypothesis Hwf : wf gp s.
Hypothesis Hf : table_find self (hash_table s) = None.

Lemma unlink_new_entry t :
  chain_remove self <$>
    <[Z.to_nat (self mod HASH_SIZE) :=
        mkElem self t :: default [] (hash_table s !! Z.to_nat (self mod HASH_SIZE))]>
      (hash_table s) = hash_table s.
Proof.
  destruct (bucket_in_range s gp self Hwf) as [chain Hc]. rewrite Hc. simpl.
  apply (table_remove_insert_head _ _ chain (mkElem self t) Hc).
  by apply table_find_None.
Qed.

(** Counting a page up and then down again. *)
Lemma release_shared_pages dt et :
  tls_heap s !! elem_tls et = Some dt →
  release_pages (pages dt) (share_pages (pages dt) (page_heap s), mem s) =
  (page_heap s, mem s).
Proof.
  intros Hdt. destruct (wf_desc _ _ Hwf _ _ Hdt) as (_ & Hnd & Hheap).
  assert (∀ p pg, p ∈ pages dt → share_pages (pages dt) (page_heap s) !! p = Some pg →
                  ref_count pg ≠ 1) as Hmany.
  { intros p pg Hp. rewrite share_pages_lookup, decide_True by done.
    destruct (page_heap s !! p) as [pg0|] eqn:Hpg0; [|done]. intros [= <-].
    destruct (wf_count _ _ Hwf p pg0 Hpg0) as [_ Hpos]. simpl. lia. }
  rewrite (surjective_pairing (release_pages _ _)). f_equal.
  - apply map_eq. intros q. rewrite release_pages_heap by done.
    rewrite share_pages_lookup by done.
    destruct (decide (q ∈ pages dt)) as [Hq|]; [|done].
    destruct (Hheap q Hq) as [[a c] Hpg]. rewrite Hpg. simpl. unfold released. simpl.
    destruct (wf_count _ _ Hwf q _ Hpg) as [_ Hpos]. simpl in Hpos.
    destruct (Z.eqb_spec (c + 1) 1); [lia|]. do 2 f_equal. lia.
  - apply map_eq. intros a. apply release_pages_mem_other; [done|].
    intros p pg Hp Hpg Hone. by destruct (Hmany p pg Hp Hpg).
Qed.

End Undo.

(** X14. Cloning and giving the clone back is the identity: after a
    successful [tls_clone], a [tls_destroy] by the same thread returns 0
    and leaves the registry, the descriptors, the page objects with their
    counts, and the mappings exactly as they were before the clone; only
    the three answers of the operating system are used up. *)
Theorem clone_then_destroy_restores gp s self target s1 :
  0 < gp → reachable gp s →
  tls_clone self target s = Ret 0 s1 →
  tls_destroy self s1 = Ret 0 (with_oracle (drop 3 (oracle s)) s).
Proof.
  intros Hgp Hreach Hrun. pose proof (reachable_wf gp Hgp s Hreach) as Hwf.
  destruct (tls_clone_eval gp s self target Hwf)
    as [[_ He]|(Hself & [[_ He]|(et & dt & Hf & Hdt & Hcases)])]; [congruence..|].
  assert (s1 = clone_state s self dt) as ->.
  { destruct Hcases as [[_ He]|[(_ & _ & He)|[(_ & _ & _ & He)|(_ & _ & _ & He)]]];
      congruence. }
  assert (wf gp (clone_state s self dt)) as Hwf1 by (eapply clone_state_wf; eauto).
  assert (table_find self (hash_table (clone_state s self dt)) =
          Some (mkElem self (fresh_key (tls_heap s)))) as Hf1
    by (by rewrite (clone_state_find gp), decide_True).
  assert (tls_heap (clone_state s self dt) !! elem_tls (mkElem self (fresh_key (tls_heap s)))
          = Some (mkTLS self (size dt) (page_num dt) (pages dt))) as Hd1
    by (simpl; apply lookup_insert_eq).
  rewrite (tls_destroy_Ret gp _ self _ _ Hwf1 Hf1 Hd1). f_equal.
  pose proof (release_shared_pages gp s Hwf dt et Hdt) as Hrel.
  apply state_ext; cbn [hash_table initialized page_size sigbus_action sigsegv_action
                         tls_heap page_heap mem oracle destroy_state clone_state
                         with_oracle elem_tls pages]; try done.
  - apply (unlink_new_entry gp s self Hwf Hself).
  - apply delete_insert_id, fresh_key_fresh.
  - by rewrite Hrel.
  - by rewrite Hrel.
  - by destruct (oracle s) as [|? [|? [|? ?]]].
Qed.

Lemma clone_then_destroy_restores_witness :
  tls_destroy 2 st_cloned = Ret 0 (with_oracle (drop 3 (oracle st_written)) st_written).
Proof.
  apply (clone_then_destroy_restores 4096 st_written 2 1 st_cloned).
  - lia.
  - apply st_written_reachable.
  - apply st_cloned_run.
Defined.

Section CreateUndo.

Variable gp : Z.
Hypothesis gp_pos : 0 < gp.

(** The state a [tls_create] that returned 0 has left. *)
Lemma tls_create_success_state s self sz s1 :
  wf gp s → initialized s ≠ 0 → tls_create gp self sz s = Ret 0 s1 →
  table_find self (hash_table s) = None ∧
  ∃ s3 cl, s1 = create_final self (fresh_key (tls_heap s)) s3 ∧
    building (page_heap s) (mem s) (fresh_key (tls_heap s))
      (mkTLS self sz (create_page_num gp sz) []) cl 0 s3 ∧
    length cl = Z.to_nat (create_page_num gp sz) ∧
    same_globals s s3 ∧
    (∀ t', t' ≠ fresh_key (tls_heap s) → tls_heap s3 !! t' = tls_heap s !! t').
Proof.
  intros Hwf Hi Hr.
  assert (page_size s = gp) as Hps by (destruct (wf_init _ _ Hwf) as [[? _]|[_ ?]]; done).
  destruct (table_find self (hash_table s)) as [e|] eqn:Hf.
  { by rewrite (tls_create_registered gp self sz s e Hi Hf) in Hr. }
  split; [done|].
  destruct (decide (sz ≤ 0)) as [Hsz|Hsz].
  { by rewrite (tls_create_zero gp self sz s Hi Hf Hsz) in Hr. }
  destruct (hd true (oracle s)) eqn:H1.
  2:{ by rewrite (tls_create_fail1 gp self sz s Hi Hf ltac:(lia) H1) in Hr. }
  destruct (hd true (tl (oracle s))) eqn:H2.
  2:{ by rewrite (tls_create_fail2 gp self sz s Hi Hf ltac:(lia) H1 H2) in Hr. }
  rewrite (tls_create_started gp self sz s Hi Hf ltac:(lia) H1 H2), Hps in Hr.
  pose proof (create_pages_spec (page_heap s) (mem s) (fresh_key (tls_heap s))
                (mkTLS self sz (create_page_num gp sz) [])
                (Z.to_nat (create_page_num gp sz)) [] _
                ltac:(rewrite <- Hps; apply (building_start s self sz))
                ltac:(simpl; lia)) as Hloop.
  change (Z.of_nat (length [])) with 0 in Hloop.
  destruct (create_pages _ 0 _ (create_start s self sz)) as [[] s3| | |] eqn:Hrun;
    try done; rewrite (bind_Ret _ _ _ _ _ Hrun) in Hr; cbv beta iota in Hr; [|done].
  destruct Hloop as ((cl & Hb & Hlen) & Hg & Hother & _ & _).
  assert (length (hash_table s3) = Z.to_nat HASH_SIZE) as Hbk.
  { destruct Hg as (-> & _). apply (wf_buckets _ _ Hwf). }
  destruct (hd true (oracle s3)) eqn:H3.
  2:{ by rewrite (bind_Exit _ _ _ _ (hash_table_insert_Exit s3 self _ H3)) in Hr. }
  rewrite (bind_Ret _ _ _ _ _ (hash_table_insert_run s3 self _ Hbk H3)) in Hr.
  injection Hr as <-. exists s3, cl. split; [done|]. split; [done|]. split; [done|].
  split; [done|]. intros t' Hne. rewrite Hother by done. simpl. by rewrite lookup_insert_ne.
Qed.

Variables (s : tls_state) (self sz : Z) (cl : list (Z * Z)) (s3 : tls_state).
Hypothesis Hwf : wf gp s.
Hypothesis Hb : building (page_heap s) (mem s) (fresh_key (tls_heap s))
                  (mkTLS self sz (create_page_num gp sz) []) cl 0 s3.
Hypothesis Hwf1 : wf gp (create_final self (fresh_key (tls_heap s)) s3).

(** Releasing the pages [tls_create] has just made. *)
Lemma release_fresh_pages :
  release_pages cl.*1 (page_heap s3, mem s3) = (page_heap s, mem s).
Proof.
  pose proof (bd_nodup1 _ _ _ _ _ _ _ Hb) as Hnd.
  assert (∀ p, p ∈ cl.*1 → ∃ a, (p, a) ∈ cl ∧ page_heap s3 !! p = Some (mkPage a 1) ∧
            page_heap s !! p = None ∧ mem s !! a = None) as Hnew.
  { intros p ([q a] & -> & Hin)%list_elem_of_fmap. exists a. split; [done|].
    by destruct (bd_new _ _ _ _ _ _ _ Hb q a Hin) as (? & _ & ? & ?). }
  rewrite (surjective_pairing (release_pages _ _)). f_equal.
  - apply map_eq. intros q. rewrite release_pages_heap by done.
    destruct (decide (q ∈ cl.*1)) as [Hq|Hq].
    + destruct (Hnew q Hq) as (a & _ & -> & -> & _). done.
    + apply (bd_old_pages _ _ _ _ _ _ _ Hb q Hq).
  - apply map_eq. intros b. destruct (decide (b ∈ cl.*2)) as [Hin|Hnin].
    + apply list_elem_of_fmap in Hin as ([p a] & -> & Hin). simpl.
      destruct (bd_new _ _ _ _ _ _ _ Hb p a Hin) as (Hpg & _ & _ & ->).
      apply (release_pages_mem_gone cl.*1 (page_heap s3) (mem s3) p (mkPage a 1));
        try done.
      * apply list_elem_of_fmap. by exists (p, a).
      * intros q qg Hq Hqg Ha.
        apply (wf_addr _ _ Hwf1 q p qg (mkPage a 1)); done.
    + rewrite release_pages_mem_other; [apply (bd_old_mem _ _ _ _ _ _ _ Hb b Hnin)|done|].
      intros p pg Hp Hpg _ <-. destruct (Hnew p Hp) as (a & Hin & Hpa & _).
      assert (pg = mkPage a 1) as -> by congruence.
      apply Hnin. apply list_elem_of_fmap. by exists (p, a).
Qed.

End CreateUndo.

(** X15. Creating an area and giving it back is the identity: after a
    [tls_create] that returned 0, a [tls_destroy] by the same thread
    returns 0, unmaps and frees every page the create made, and leaves the
    registry, the descriptors, the page objects and the mappings exactly as
    they were before the create (the process stays initialised, and the
    answers of the operating system are used up). *)
Theorem create_then_destroy_restores gp s self sz s1 :
  0 < gp → reachable gp s →
  tls_create gp self sz s = Ret 0 s1 →
  tls_destroy self s1 = Ret 0 (with_oracle (oracle s1) (ensure_init gp s)).
Proof.
  intros Hgp Hreach Hrun. pose proof (reachable_wf gp Hgp s Hreach) as Hwf0.
  assert (wf gp s1) as Hwf1 by (by apply (tls_create_wf gp Hgp s self sz 0 s1)).
  rewrite tls_create_ensure in Hrun.
  pose proof (wf_ensure_init gp s Hwf0) as Hwf.
  destruct (ensure_init_initialized gp s Hwf0) as [Hi Hps].
  set (si := ensure_init gp s) in *. clearbody si.
  destruct (tls_create_success_state gp Hgp si self sz s1 Hwf Hi Hrun)
    as (Hf & s3 & cl & -> & Hb & Hlen & Hg & Hother).
  destruct Hg as (Hg1 & Hg2 & Hg3 & Hg4 & Hg5).
  assert (table_find self (hash_table (create_final self (fresh_key (tls_heap si)) s3)) =
          Some (mkElem self (fresh_key (tls_heap si)))) as Hf1
    by (by rewrite (fresh_area_find gp si self s3 Hwf Hf Hg1), decide_True).
  pose proof (fresh_area_desc gp si self sz cl s3 Hb) as Hd1.
  rewrite (tls_destroy_Ret gp _ self _ _ Hwf1 Hf1 Hd1). f_equal.
  pose proof (release_fresh_pages gp si self sz cl s3 Hb Hwf1) as Hrel.
  apply state_ext; cbn [hash_table initialized page_size sigbus_action sigsegv_action
                         tls_heap page_heap mem oracle destroy_state create_final
                         with_oracle with_hash_table elem_tls pages]; try done.
  - rewrite Hg1. apply (unlink_new_entry gp si self Hwf Hf).
  - apply map_eq. intros t'. destruct (decide (t' = fresh_key (tls_heap si))) as [->|Hne].
    + by rewrite lookup_delete_eq, fresh_key_fresh.
    + rewrite lookup_delete_ne by done. by apply Hother.
  - by rewrite Hrel.
  - by rewrite Hrel.
Qed.

Lemma create_then_destroy_restores_witness :
  tls_destroy 1 st_created =
  Ret 0 (with_oracle (oracle st_created) (ensure_init 4096 (initial_state []))).
Proof.
  apply (create_then_destroy_restores 4096 (initial_state []) 1 8192 st_created).
  - lia.
  - apply reach_start.
  - apply st_created_run.
Defined.

(** ** Page alignment, kept by every primitive *)

Lemma preserves_ret {A} Q (a : A) : preserves Q (ret a).
Proof. by intros s b s' HQ [= _ <-]. Qed.

Lemma preserves_get Q : preserves Q get.
Proof. by intros s b s' HQ [= _ <-]. Qed.

Lemma preserves_undef {A} Q : preserves Q (@undef A).
Proof. by intros s b s' HQ. Qed.

Lemma preserves_exit {A} Q c : preserves Q (@exit A c).
Proof. by intros s b s' HQ. Qed.

Lemma preserves_trap {A} Q c : preserves Q (@trap A c).
Proof. by intros s b s' HQ. Qed.

Lemma preserves_bind {A B} Q (m : M A) (k : A → M B) :
  preserves Q m → (∀ a, preserves Q (k a)) → preserves Q (bind m k).
Proof.
  intros Hm Hk s b s' HQ Hrun. unfold bind in Hrun.
  destruct (m s) as [a s1| | |] eqn:Hms; [|done..].
  apply (Hk a s1 b s'); [|done]. by apply (Hm s a s1).
Qed.

Lemma preserves_modify Q (f : tls_state → tls_state) :
  (∀ s, Q s → Q (f s)) → preserves Q (modify f).
Proof. intros Hf s b s' HQ [= _ <-]. by apply Hf. Qed.

Lemma preserves_for_range Q body n : ∀ i,
  (∀ j, preserves Q (body j)) → preserves Q (for_range body i n).
Proof.
  induction n as [|n IH]; intros i Hbody; [apply preserves_ret|].
  cbn [for_range]. apply preserves_bind; [apply Hbody|]. intros _. by apply IH.
Qed.

Create HintDb pres.

(** One step of taking a composed operation apart. *)
Ltac pres_step :=
  lazymatch goal with
  | |- preserves _ (bind _ _) => apply preserves_bind; [|intros ?]
  | |- preserves _ (ret _) => apply preserves_ret
  | |- preserves _ get => apply preserves_get
  | |- preserves _ undef => apply preserves_undef
  | |- preserves _ (exit _) => apply preserves_exit
  | |- preserves _ (trap _) => apply preserves_trap
  | |- preserves _ (for_range _ _ _) => apply preserves_for_range; intros ?
  | |- preserves _ (match ?x with _ => _ end) => destruct x
  end.

Section Aligned.

Variable gp : Z.

Lemma aligned_same_keys s m' :
  aligned gp s → (∀ a, is_Some (m' !! a) → is_Some (mem s !! a)) →
  aligned gp (with_mem m' s).
Proof. intros [Hps Hal] Hsub. split; [done|]. intros a Ha. by apply Hal, Hsub. Qed.

Lemma aligned_os_grant : preserves (aligned gp) os_grant.
Proof. by intros s b s' HQ [= _ <-]. Qed.

Lemma aligned_with_tls_heap h : preserves (aligned gp) (modify (with_tls_heap h)).
Proof. by apply preserves_modify. Qed.

Lemma aligned_with_page_heap h : preserves (aligned gp) (modify (with_page_heap h)).
Proof. by apply preserves_modify. Qed.

Lemma aligned_with_hash_table h : preserves (aligned gp) (modify (with_hash_table h)).
Proof. by apply preserves_modify. Qed.

#[local] Hint Resolve aligned_os_grant aligned_with_tls_heap aligned_with_page_heap
  aligned_with_hash_table : pres.

Ltac pres := repeat (first [pres_step | solve [eauto with pres]]).

Lemma aligned_calloc_TLS : preserves (aligned gp) calloc_TLS.
Proof. unfold calloc_TLS. pres. Qed.

Lemma aligned_calloc_pages t n : preserves (aligned gp) (calloc_pages t n).
Proof. unfold calloc_pages. pres. Qed.

Lemma aligned_alloc_page : preserves (aligned gp) alloc_page.
Proof. unfold alloc_page. pres. Qed.

Lemma aligned_free_TLS t : preserves (aligned gp) (free_TLS t).
Proof. unfold free_TLS. pres. Qed.

Lemma aligned_free_page p : preserves (aligned gp) (free_page p).
Proof. unfold free_page. pres. Qed.

Lemma aligned_deref_TLS t : preserves (aligned gp) (deref_TLS t).
Proof. unfold deref_TLS. pres. Qed.

Lemma aligned_deref_page p : preserves (aligned gp) (deref_page p).
Proof. unfold deref_page. pres. Qed.

#[local] Hint Resolve aligned_calloc_TLS aligned_calloc_pages aligned_alloc_page aligned_free_TLS
  aligned_free_page aligned_deref_TLS aligned_deref_page : pres.

Lemma aligned_tls_page t i : preserves (aligned gp) (tls_page t i).
Proof. unfold tls_page. pres. Qed.

Lemma aligned_set_tls_page t i p : preserves (aligned gp) (set_tls_page t i p).
Proof. unfold set_tls_page. pres. Qed.

Lemma aligned_set_page p pg : preserves (aligned gp) (set_page p pg).
Proof. unfold set_page. pres. Qed.

#[local] Hint Resolve aligned_tls_page aligned_set_tls_page aligned_set_page : pres.

Lemma aligned_set_address p a : preserves (aligned gp) (set_address p a).
Proof. unfold set_address. pres. Qed.

Lemma aligned_set_ref_count p c : preserves (aligned gp) (set_ref_count p c).
Proof. unfold set_ref_count. pres. Qed.

Lemma aligned_buffer_get buffer cnt : preserves (aligned gp) (buffer_get buffer cnt).
Proof. unfold buffer_get. pres. Qed.

Lemma aligned_buffer_set buffer cnt b : preserves (aligned gp) (buffer_set buffer cnt b).
Proof. unfold buffer_set. pres. Qed.

(** The primitives that touch the mappings. *)
Lemma aligned_mmap pr : preserves (aligned gp) (mmap pr).
Proof.
  intros s r s' [Hps Hal] Hrun. unfold mmap, bind, os_grant, get, modify, ret in Hrun.
  destruct (hd true (oracle s)); injection Hrun as <- <-; [|done].
  split; [done|]. intros a. cbn [mem with_mem with_oracle page_size].
  destruct (decide (a = fresh_base (page_size s) (mem s))) as [->|Hne].
  - intros _. unfold fresh_base. destruct Hps as [->| ->]; [by eexists|].
    exists 0. lia.
  - rewrite lookup_insert_ne by done. apply Hal.
Qed.

Lemma aligned_munmap a : preserves (aligned gp) (munmap a).
Proof.
  intros s r s' HQ [= _ <-]. apply aligned_same_keys; [done|].
  intros b. destruct (decide (b = a)) as [->|Hne].
  - rewrite lookup_delete_eq. by intros [? ?].
  - by rewrite lookup_delete_ne.
Qed.

Lemma aligned_insert_live s a m x :
  aligned gp s → mem s !! a = Some m → aligned gp (with_mem (<[a := x]> (mem s)) s).
Proof.
  intros HQ Hm. apply aligned_same_keys; [done|].
  intros b. destruct (decide (b = a)) as [->|Hne].
  - by rewrite Hm.
  - by rewrite lookup_insert_ne.
Qed.

Lemma aligned_mprotect a pr : preserves (aligned gp) (mprotect a pr).
Proof.
  intros s r s' HQ Hrun. unfold mprotect, bind, get, modify, ret in Hrun.
  destruct (mem s !! a) as [m|] eqn:Hm; injection Hrun as <- <-; [|done].
  by apply (aligned_insert_live s a m).
Qed.

Lemma aligned_load a off : preserves (aligned gp) (load a off).
Proof.
  intros s r s' HQ Hrun. unfold load, bind, get, ret, trap in Hrun.
  repeat case_match; by simplify_eq.
Qed.

Lemma aligned_store a off b : preserves (aligned gp) (store a off b).
Proof.
  intros s r s' HQ Hrun. unfold store, bind, get, modify, trap in Hrun.
  destruct (mem s !! a) as [m|] eqn:Hm; [|done].
  destruct (writable _ && _); [|done]. injection Hrun as <- <-.
  by apply (aligned_insert_live s a m).
Qed.

Lemma aligned_memcpy_page dst src : preserves (aligned gp) (memcpy_page dst src).
Proof.
  intros s r s' HQ Hrun. unfold memcpy_page, bind, get, modify, trap in Hrun.
  destruct (mem s !! src) as [ms|]; [|done].
  destruct (mem s !! dst) as [md|] eqn:Hd; [|done].
  destruct (readable _); [|done]. destruct (writable _); [|done].
  injection Hrun as <- <-. by apply (aligned_insert_live s dst md).
Qed.

#[local] Hint Resolve aligned_set_address aligned_set_ref_count aligned_buffer_get
  aligned_buffer_set aligned_mmap aligned_munmap aligned_mprotect aligned_load
  aligned_store aligned_memcpy_page : pres.

(** The functions of [tls.c]. *)
Lemma aligned_tls_setprot pr p : preserves (aligned gp) (tls_setprot pr p).
Proof. unfold tls_setprot. pres. Qed.

Lemma aligned_tls_protect p : preserves (aligned gp) (tls_protect p).
Proof. apply (aligned_tls_setprot PROT_NONE). Qed.

Lemma aligned_tls_unprotect p : preserves (aligned gp) (tls_unprotect p).
Proof. apply (aligned_tls_setprot PROT_READ_WRITE). Qed.

#[local] Hint Resolve aligned_tls_protect aligned_tls_unprotect : pres.

Lemma aligned_hash_table_insert t tls : preserves (aligned gp) (hash_table_insert t tls).
Proof. unfold hash_table_insert. pres. Qed.

Lemma aligned_tls_init : preserves (aligned gp) (tls_init gp).
Proof.
  unfold tls_init. apply preserves_modify. intros s [_ Hal]. split; [by left|done].
Qed.

Lemma aligned_read_bytes t n : ∀ cnt idx buffer,
  preserves (aligned gp) (read_bytes t n cnt idx buffer).
Proof.
  induction n as [|n IH]; intros cnt idx buffer; cbn [read_bytes]; pres.
Qed.

Lemma aligned_cow_split t pn p : preserves (aligned gp) (cow_split t pn p).
Proof. unfold cow_split. pres. Qed.

#[local] Hint Resolve aligned_hash_table_insert aligned_tls_init aligned_read_bytes
  aligned_cow_split : pres.

Lemma aligned_cow_check t offset idx : preserves (aligned gp) (cow_check t offset idx).
Proof. unfold cow_check. pres. Qed.

#[local] Hint Resolve aligned_cow_check : pres.

Lemma aligned_write_bytes t offset buffer n : ∀ cnt idx,
  preserves (aligned gp) (write_bytes t offset buffer n cnt idx).
Proof.
  induction n as [|n IH]; intros cnt idx; cbn [write_bytes]; pres.
Qed.

Lemma aligned_create_unwind t i : preserves (aligned gp) (create_unwind t i).
Proof. unfold create_unwind. pres. Qed.

#[local] Hint Resolve aligned_write_bytes aligned_create_unwind : pres.

Lemma aligned_create_pages t n : ∀ i, preserves (aligned gp) (create_pages t i n).
Proof. induction n as [|n IH]; intros i; cbn [create_pages]; pres. Qed.

Lemma aligned_destroy_page t i : preserves (aligned gp) (destroy_page t i).
Proof. unfold destroy_page. pres. Qed.

Lemma aligned_clone_page tn tg i : preserves (aligned gp) (clone_page tn tg i).
Proof. unfold clone_page. pres. Qed.

#[local] Hint Resolve aligned_create_pages aligned_destroy_page aligned_clone_page : pres.

Lemma aligned_tls_read self offset len buffer :
  preserves (aligned gp) (tls_read self offset len buffer).
Proof. unfold tls_read, unprotect_all, protect_all. pres. Qed.

Lemma aligned_tls_write self offset len buffer :
  preserves (aligned gp) (tls_write self offset len buffer).
Proof. unfold tls_write, unprotect_all, protect_all. pres. Qed.

Lemma aligned_tls_destroy self : preserves (aligned gp) (tls_destroy self).
Proof.
  unfold tls_destroy. pres. apply preserves_modify. by intros s HQ.
Qed.

Lemma aligned_tls_clone self target : preserves (aligned gp) (tls_clone self target).
Proof.
  unfold tls_clone. pres; apply preserves_modify; by intros s HQ.
Qed.

Lemma aligned_tls_create self sz : preserves (aligned gp) (tls_create gp self sz).
Proof.
  unfold tls_create. pres; apply preserves_modify; by intros s HQ.
Qed.

Lemma reachable_aligned s : reachable gp s → aligned gp s.
Proof.
  induction 1 as [o|s o _ IH|s self sz r s' _ IH Hsz Hr|s self r s' _ IH Hr
                  |s self offset len buffer r s' _ IH Ho Hl Hr
                  |s self offset len buffer r s' _ IH Ho Hl Hr
                  |s self target r s' _ IH Hr].
  - split; [by right|]. intros a. unfold initial_state. cbn [mem].
    rewrite lookup_empty. by intros [? ?].
  - done.
  - by apply (aligned_tls_create self sz s r s').
  - by apply (aligned_tls_destroy self s r s').
  - by apply (aligned_tls_read self offset len buffer s r s').
  - by apply (aligned_tls_write self offset len buffer s r s').
  - by apply (aligned_tls_clone self target s r s').
Qed.

End Aligned.

(** ** Faults anywhere inside a page *)

(** Clearing the low bits: [x & ~(page_size - 1)] for a page size 2^k. *)
Lemma page_floor k x : 0 ≤ k → Z.land x (Z.lnot (2 ^ k - 1)) = 2 ^ k * (x / 2 ^ k).
Proof.
  intros Hk. rewrite <- Z.ldiff_land.
  replace (2 ^ k - 1) with (Z.ones k) by (rewrite Z.ones_equiv; lia).
  rewrite Z.ldiff_ones_r by done.
  rewrite Z.shiftl_mul_pow2, Z.shiftr_div_pow2 by done. lia.
Qed.

Lemma in_own_page_iff gp k s self x :
  0 ≤ k → gp = 2 ^ k → wf gp s → aligned gp s →
  in_own_page s self x ↔ own_page_at s self (Z.land x (Z.lnot (page_size s - 1))).
Proof.
  intros Hk Hgp Hwf [_ Hal].
  assert (0 < gp) as Hpos by (rewrite Hgp; by apply Z.pow_pos_nonneg).
  split.
  - intros (e & d & p & pg & He & Ht & Hd & Hp & Hpg & Hx).
    exists e, d, p, pg. do 5 (split; [done|]).
    rewrite (wf_page_size gp s _ d Hwf Hd) in Hx |- *.
    destruct (wf_mapped _ _ Hwf p pg Hpg) as (m & Hm & _).
    destruct (Hal (address pg) (mk_is_Some _ _ Hm)) as [j Hj].
    rewrite Hgp at 1. rewrite page_floor, <- Hgp by done. rewrite Hj in Hx |- *.
    f_equal. apply (Z.div_unique x gp j (x - gp * j)); lia.
  - intros (e & d & p & pg & He & Ht & Hd & Hp & Hpg & Ha).
    exists e, d, p, pg. do 5 (split; [done|]).
    rewrite (wf_page_size gp s _ d Hwf Hd) in Ha |- *.
    rewrite Hgp in Ha at 1. rewrite page_floor, <- Hgp in Ha by done. rewrite Ha.
    pose proof (Z.mul_div_le x gp Hpos). pose proof (Z.mod_pos_bound x gp Hpos).
    pose proof (Z.div_mod x gp ltac:(lia)). lia.
Qed.

(** X16. With a page size that is a power of two, in every reachable
    state: a fault at any address inside a page of the faulting thread's
    own area (not only at the first byte of the page) ends that thread and
    changes nothing; a fault at any other address restores the default
    actions of both signals and raises the signal again. *)
Theorem fault_inside_own_page_ends_thread gp k s self sig si_addr :
  0 ≤ k → gp = 2 ^ k → reachable gp s →
  (in_own_page s self si_addr →
     tls_handle_page_fault self sig si_addr s = Ret ThreadExit s) ∧
  (¬ in_own_page s self si_addr →
     tls_handle_page_fault self sig si_addr s = Ret (Raised sig) (default_actions s)).
Proof.
  intros Hk Hgp Hreach.
  assert (0 < gp) as Hpos by (rewrite Hgp; by apply Z.pow_pos_nonneg).
  pose proof (reachable_wf gp Hpos s Hreach) as Hwf.
  pose proof (reachable_aligned gp s Hreach) as Hal.
  pose proof (in_own_page_iff gp k s self si_addr Hk Hgp Hwf Hal) as Hiff.
  destruct (tls_handle_page_fault_run gp s Hwf self sig si_addr) as [Hhit Hmiss].
  split.
  - intros Hin. by apply Hhit, Hiff.
  - intros Hout. apply Hmiss. intros Hown. by apply Hout, Hiff.
Qed.

Lemma fault_inside_own_page_ends_thread_witness :
  in_own_page st_created 1 5000 ∧
  tls_handle_page_fault 1 SIGSEGV 5000 st_created = Ret ThreadExit st_created.
Proof.
  assert (in_own_page st_created 1 5000) as Hin.
  { exists (mkElem 1 1), (mkTLS 1 8192 2 [1; 2]), 1, (mkPage 4096 1).
    split; [apply list_elem_of_In; vm_compute; auto|].
    split; [reflexivity|]. split; [vm_compute; reflexivity|].
    split; [apply list_elem_of_In; simpl; auto|].
    split; [vm_compute; reflexivity|]. vm_compute. split; [discriminate|reflexivity]. }
  split; [exact Hin|].
  destruct (fault_inside_own_page_ends_thread 4096 12 st_created 1 SIGSEGV 5000)
    as [Hhit _].
  - lia.
  - reflexivity.
  - apply st_created_reachable.
  - exact (Hhit Hin).
Defined.

(** ** No call disturbs another thread *)

Section Undisturbed.

Variable gp : Z.
Hypothesis gp_pos : 0 < gp.

Lemma undisturbed_intro s s' other :
  wf gp s → wf gp s' → page_size s' = page_size s →
  (∀ eo, table_find other (hash_table s) = Some eo →
     table_find other (hash_table s') = Some eo ∧
     tls_heap s' !! elem_tls eo = tls_heap s !! elem_tls eo ∧
     ∀ i, lsa_byte s' (elem_tls eo) i = lsa_byte s (elem_tls eo) i) →
  undisturbed s s' other.
Proof.
  intros Hwf Hwf' Hps Hall eo Hfo. destruct (Hall eo Hfo) as (Hfo' & Hheap & Hbytes).
  split; [done|]. split; [done|]. split; [done|]. intros off len buf Hoff.
  destruct (wf_find gp s other eo Hwf Hfo) as (_ & _ & do & Hdo & _).
  apply (tls_read_result_eq gp gp_pos s s' other other eo eo do do); try done.
  by rewrite Hheap.
Qed.

Lemma undisturbed_refl s other : wf gp s → undisturbed s s other.
Proof. intros Hwf. by apply undisturbed_intro. Qed.

Lemma undisturbed_oracle s o other : wf gp s → undisturbed s (with_oracle o s) other.
Proof. intros Hwf. apply undisturbed_intro; [done|by apply wf_with_oracle|done|done]. Qed.

(** The state a [tls_create] that returned -1 has left. *)
Lemma tls_create_failure_state s self sz r s' :
  wf gp s → initialized s ≠ 0 → tls_create gp self sz s = Ret r s' → r ≠ 0 →
  ∃ o, s' = with_oracle o s.
Proof.
  intros Hwf Hi Hr Hne.
  destruct (table_find self (hash_table s)) as [e|] eqn:Hf.
  { rewrite (tls_create_registered gp self sz s e Hi Hf) in Hr. injection Hr as <- <-.
    exists (oracle s). by rewrite with_oracle_id. }
  destruct (decide (sz ≤ 0)) as [Hsz|Hsz].
  { rewrite (tls_create_zero gp self sz s Hi Hf Hsz) in Hr. injection Hr as <- <-.
    exists (oracle s). by rewrite with_oracle_id. }
  destruct (hd true (oracle s)) eqn:H1.
  2:{ rewrite (tls_create_fail1 gp self sz s Hi Hf ltac:(lia) H1) in Hr.
      injection Hr as <- <-. by eexists. }
  destruct (hd true (tl (oracle s))) eqn:H2.
  2:{ rewrite (tls_create_fail2 gp self sz s Hi Hf ltac:(lia) H1 H2) in Hr.
      injection Hr as <- <-. by eexists. }
  destruct (tls_create_loop_cases gp gp_pos s self sz Hwf Hi Hf ltac:(lia) H1 H2)
    as [(pre & post & _ & _ & _ & He)|(_ & [(_ & He)|(_ & s3 & cl & He & _)])];
    rewrite He in Hr; [|done|].
  - injection Hr as <- <-. by eexists.
  - by injection Hr as <- <-.
Qed.

Lemma tls_create_undisturbed s self sz r s' other :
  wf gp s → other ≠ self → tls_create gp self sz s = Ret r s' → undisturbed s s' other.
Proof.
  intros Hwf0 Hne Hr eo Hfo. revert eo Hfo. change (undisturbed s s' other).
  destruct (table_find other (hash_table s)) as [eo|] eqn:Hfo.
  2:{ intros eo Heo. congruence. }
  destruct (wf_find gp s other eo Hwf0 Hfo) as (_ & _ & do & Hdo & _).
  assert (ensure_init gp s = s) as Hsi.
  { unfold ensure_init. destruct (Z.eqb_spec (initialized s) 0) as [H0|]; [|done].
    destruct (wf_init _ _ Hwf0) as [[_ Hempty]|[? _]]; [|done].
    rewrite Hempty in Hdo. done. }
  destruct (ensure_init_initialized gp s Hwf0) as [Hi Hps]. rewrite Hsi in Hi, Hps.
  assert (wf gp s') as Hwf' by (by apply (tls_create_wf gp gp_pos s self sz r s')).
  destruct (decide (r = 0)) as [->|Hr0].
  2:{ destruct (tls_create_failure_state s self sz r s' Hwf0 Hi Hr Hr0) as [o ->].
      by apply undisturbed_oracle. }
  destruct (tls_create_success_state gp gp_pos s self sz s' Hwf0 Hi Hr)
    as (Hf & s3 & cl & -> & Hb & Hlen & Hg & Hother).
  destruct Hg as (Hg1 & _ & Hg3 & _).
  apply undisturbed_intro; [done|done|simpl; by rewrite Hg3|].
  intros eo' Hfo'. assert (eo' = eo) as -> by congruence.
  assert (elem_tls eo ≠ fresh_key (tls_heap s)) as Hfresh
    by (intros Heq; rewrite Heq, fresh_key_fresh in Hdo; done).
  split; [by rewrite (fresh_area_find gp s self s3 Hwf0 Hf Hg1), decide_False|].
  apply (fresh_area_others gp s self sz cl s3 Hwf0 Hb); [by rewrite Hg3|done|done].
Qed.

Lemma tls_destroy_undisturbed s self r s' other :
  wf gp s → other ≠ self → tls_destroy self s = Ret r s' → undisturbed s s' other.
Proof.
  intros Hwf Hne Hr.
  destruct (table_find self (hash_table s)) as [e|] eqn:Hf.
  2:{ rewrite (tls_destroy_None s self Hf) in Hr. injection Hr as <- <-.
      by apply undisturbed_refl. }
  destruct (wf_find gp s self e Hwf Hf) as (_ & _ & d & Hd & _).
  rewrite (tls_destroy_Ret gp s self e d Hwf Hf Hd) in Hr. injection Hr as <- <-.
  apply undisturbed_intro; [done|eapply destroy_state_wf; eauto|done|].
  intros eo Hfo.
  pose proof (other_tls_ne gp s self other e eo Hwf Hf Hfo Hne) as Hnt.
  split; [eapply destroy_state_find; eauto|].
  split; [simpl; by apply lookup_delete_ne|].
  intros i. eapply destroy_state_lsa_byte; eauto.
Qed.

Lemma tls_read_undisturbed s self offset len buffer r s' other :
  wf gp s → 0 ≤ offset → tls_read self offset len buffer s = Ret r s' →
  undisturbed s s' other.
Proof.
  intros Hwf Hoff Hr.
  assert (wf gp s') as Hwf' by (by apply (tls_read_wf gp gp_pos s self offset len buffer r s')).
  pose proof (tls_read_spec gp gp_pos s self offset len buffer Hwf Hoff) as Hspec.
  destruct (table_find self (hash_table s)) as [e|].
  2:{ rewrite Hspec in Hr. injection Hr as <- <-. by apply undisturbed_refl. }
  destruct Hspec as (d & Hd & Hspec).
  destruct (u32 (offset + len) >? size d).
  { rewrite Hspec in Hr. injection Hr as <- <-. by apply undisturbed_refl. }
  rewrite Hr in Hspec. destruct Hspec as (out & -> & -> & _).
  apply undisturbed_intro; [done|done|done|].
  intros eo Hfo. split; [done|]. split; [done|]. intros i.
  apply lsa_byte_same_bytes. eapply same_bytes_trans; apply protect_list_same_bytes.
Qed.

Lemma tls_write_undisturbed s self offset len buffer r s' other :
  wf gp s → 0 ≤ offset → other ≠ self → tls_write self offset len buffer s = Ret r s' →
  undisturbed s s' other.
Proof.
  intros Hwf Hoff Hne Hr.
  assert (wf gp s') as Hwf'
    by (by apply (tls_write_wf gp gp_pos s self offset len buffer r s')).
  pose proof (tls_write_spec gp gp_pos s self offset len buffer Hwf Hoff) as Hspec.
  destruct (table_find self (hash_table s)) as [e|] eqn:Hf.
  2:{ rewrite Hspec in Hr. injection Hr as <- <-. by apply undisturbed_refl. }
  destruct Hspec as (d & Hd & Hspec).
  destruct (u32 (offset + len) >? size d).
  { rewrite Hspec in Hr. injection Hr as <- <-. by apply undisturbed_refl. }
  simpl in Hspec. rewrite Hr in Hspec. destruct Hspec as (_ & Hrel & _).
  apply undisturbed_intro; [done|done|apply (wr_ps _ _ _ Hrel)|].
  intros eo Hfo.
  pose proof (other_tls_ne gp s self other e eo Hwf Hf Hfo Hne) as Hnt.
  split; [by rewrite (wr_table _ _ _ Hrel)|].
  split; [by apply (wr_others _ _ _ Hrel)|].
  intros i. by apply (wr_frame _ _ _ Hrel).
Qed.

Lemma tls_clone_undisturbed s self target r s' other :
  wf gp s → other ≠ self → tls_clone self target s = Ret r s' → undisturbed s s' other.
Proof.
  intros Hwf Hne Hr.
  destruct (tls_clone_eval gp s self target Hwf)
    as [[_ He]|(Hself & [[_ He]|(et & dt & Hf & Hdt &
          [[_ He]|[(_ & _ & He)|[(_ & _ & _ & He)|(_ & _ & _ & He)]]])])];
    rewrite He in Hr; try done; injection Hr as <- <-;
    try (by apply undisturbed_refl); try (by apply undisturbed_oracle).
  apply undisturbed_intro; [done|eapply clone_state_wf; eauto|done|].
  intros eo Hfo. destruct (wf_find gp s other eo Hwf Hfo) as (_ & _ & do & Hdo & _).
  assert (elem_tls eo ≠ fresh_key (tls_heap s)) as Hfresh
    by (intros Heq; rewrite Heq, fresh_key_fresh in Hdo; done).
  split; [by rewrite (clone_state_find gp), decide_False|].
  split; [simpl; by rewrite lookup_insert_ne|].
  intros i. by rewrite (clone_state_lsa_byte gp s self et), decide_False.
Qed.

End Undisturbed.

(** X18. No call disturbs another thread.  In every reachable state,
    whatever one thread calls - [tls_create], [tls_destroy], [tls_read],
    [tls_write] or [tls_clone], succeeding or failing, with any answers of
    the operating system - every other thread that owns an area finds it
    as it was once the call has returned: the same registry entry and
    descriptor, the same bytes, and the same result of every [tls_read]. *)
Theorem no_call_disturbs_another_thread gp s self other :
  0 < gp → reachable gp s → other ≠ self →
  (∀ sz r s', tls_create gp self sz s = Ret r s' → undisturbed s s' other) ∧
  (∀ r s', tls_destroy self s = Ret r s' → undisturbed s s' other) ∧
  (∀ offset len buffer r s', 0 ≤ offset →
     tls_read self offset len buffer s = Ret r s' → undisturbed s s' other) ∧
  (∀ offset len buffer r s', 0 ≤ offset →
     tls_write self offset len buffer s = Ret r s' → undisturbed s s' other) ∧
  (∀ target r s', tls_clone self target s = Ret r s' → undisturbed s s' other).
Proof.
  intros Hgp Hreach Hne. pose proof (reachable_wf gp Hgp s Hreach) as Hwf.
  split; [intros sz r s' Hr; by apply (tls_create_undisturbed gp Hgp s self sz r s')|].
  split; [intros r s' Hr; by apply (tls_destroy_undisturbed gp Hgp s self r s')|].
  split; [intros offset len buffer r s' Hoff Hr;
          by apply (tls_read_undisturbed gp Hgp s self offset len buffer r s')|].
  split; [intros offset len buffer r s' Hoff Hr;
          by apply (tls_write_undisturbed gp Hgp s self offset len buffer r s')|].
  intros target r s' Hr. by apply (tls_clone_undisturbed gp Hgp s self target r s').
Qed.

Lemma no_call_disturbs_another_thread_witness :
  (∀ sz r s', tls_create 4096 2 sz st_cloned = Ret r s' → undisturbed st_cloned s' 1) ∧
  (∀ r s', tls_destroy 2 st_cloned = Ret r s' → undisturbed st_cloned s' 1) ∧
  (∀ offset len buffer r s', 0 ≤ offset →
     tls_read 2 offset len buffer st_cloned = Ret r s' → undisturbed st_cloned s' 1) ∧
  (∀ offset len buffer r s', 0 ≤ offset →
     tls_write 2 offset len buffer st_cloned = Ret r s' → undisturbed st_cloned s' 1) ∧
  (∀ target r s', tls_clone 2 target st_cloned = Ret r s' → undisturbed st_cloned s' 1).
Proof.
  apply (no_call_disturbs_another_thread 4096 st_cloned 2 1).
  - lia.
  - apply st_cloned_reachable.
  - lia.
Defined.

(** ** What the write loop leaves alone *)

Lemma no_leak_same_keys s m' :
  no_leak s → (∀ a, is_Some (m' !! a) → is_Some (mem s !! a)) → no_leak (with_mem m' s).
Proof. intros Hnl Hsub a Ha. by apply Hnl, Hsub. Qed.

Lemma no_leak_protect s pr l : no_leak s → no_leak (with_mem (protect_list pr l (mem s)) s).
Proof. intros Hnl. apply no_leak_same_keys; [done|]. intros a. by rewrite protect_list_dom. Qed.

Lemma no_leak_insert_live s a m x :
  no_leak s → mem s !! a = Some m → no_leak (with_mem (<[a := x]> (mem s)) s).
Proof.
  intros Hnl Hm. apply no_leak_same_keys; [done|].
  intros b. destruct (decide (b = a)) as [->|Hne].
  - by rewrite Hm.
  - by rewrite lookup_insert_ne.
Qed.

Section WriteShape.

Variable gp : Z.
Hypothesis gp_pos : 0 < gp.

Lemma cow_state_no_leak s t d pn p pg m :
  page_heap s !! p = Some pg → no_leak s → no_leak (cow_state s t d pn p pg m).
Proof.
  intros Hp Hnl b. cbn [mem page_heap cow_state].
  set (c := fresh_key (page_heap s)). set (a := fresh_base (page_size s) (mem s)).
  assert (p ≠ c) as Hpc by (intros Heq; rewrite Heq in Hp; unfold c in Hp;
                            by rewrite fresh_key_fresh in Hp).
  intros Hb. destruct (decide (b = a)) as [->|Hne].
  - exists c, (mkPage a 1). split; [|done].
    rewrite lookup_insert_ne by done. apply lookup_insert_eq.
  - assert (is_Some (mem s !! b)) as Hold.
    { destruct (decide (b = address pg)) as [->|Hna].
      - rewrite lookup_alter_eq, lookup_insert_ne in Hb by done.
        by apply fmap_is_Some in Hb.
      - by rewrite lookup_alter_ne, lookup_insert_ne in Hb by done. }
    destruct (Hnl b Hold) as (q & qg & Hq & Ha).
    destruct (decide (q = p)) as [->|Hqp].
    + exists p, (mkPage (address pg) (ref_count pg - 1)).
      split; [apply lookup_insert_eq|]. simpl. congruence.
    + exists q, qg. split; [|done].
      rewrite lookup_insert_ne by done. rewrite lookup_insert_ne; [done|].
      intros <-. unfold c in Hq. by rewrite fresh_key_fresh in Hq.
Qed.

(** The three ways the copy-on-write check can end. *)
Lemma cow_check_cases s t d offset idx ok s1 :
  wf gp s → tls_heap s !! t = Some d → pages_open s t →
  cow_check t offset idx s = Ret ok s1 →
  (ok = true ∧ s1 = s) ∨
  (∃ p pg, pages d !! Z.to_nat (idx / page_size s) = Some p ∧
     page_heap s !! p = Some pg ∧ 1 < ref_count pg ∧
     ((ok = false ∧ ∃ o, s1 = with_oracle o s) ∨
      (ok = true ∧ ∃ m, mem s !! address pg = Some m ∧
         s1 = cow_state s t d (idx / page_size s) p pg m))).
Proof.
  intros Hwf Ht Hopen Hrun. unfold cow_check in Hrun. rewrite bind_get in Hrun.
  destruct ((idx mod page_size s =? 0) || (idx =? offset)).
  2:{ left. by injection Hrun as <- <-. }
  destruct (pages d !! Z.to_nat (idx / page_size s)) as [p|] eqn:Hslot.
  2:{ by rewrite (bind_Undef _ _ _ (tls_page_None _ _ _ _ Ht Hslot)) in Hrun. }
  rewrite (bind_Ret _ _ _ _ _ (tls_page_Ret _ _ _ _ _ Ht Hslot)) in Hrun.
  destruct (Hopen d p Ht (list_elem_of_lookup_2 _ _ _ Hslot)) as (pg & m & Hpg & Hm & Hprot).
  rewrite (bind_Ret _ _ _ _ _ (deref_page_Ret _ _ _ Hpg)) in Hrun.
  destruct (Z.gtb_spec (ref_count pg) 1) as [Hrc|Hrc].
  2:{ left. by injection Hrun as <- <-. }
  right. exists p, pg. split; [done|]. split; [done|]. split; [done|].
  destruct (hd true (oracle s)) eqn:H1.
  2:{ rewrite (cow_split_fail1 _ _ _ _ H1) in Hrun. injection Hrun as <- <-.
      left. split; [done|]. by eexists. }
  destruct (hd true (tl (oracle s))) eqn:H2.
  2:{ rewrite (cow_split_fail2 _ _ _ _ H1 H2) in Hrun. injection Hrun as <- <-.
      left. split; [done|]. by eexists. }
  assert (m_prot m = PROT_READ_WRITE) as Hrw by (destruct Hprot as [?|[_ ?]]; [done|lia]).
  assert (page_size s = gp) as Hps by (by apply (wf_page_size gp s t d)).
  rewrite (cow_split_Ret s t d _ p pg m Ht (lookup_lt_Some _ _ _ Hslot) Hpg Hm Hrw
             ltac:(lia) H1 H2) in Hrun.
  injection Hrun as <- <-. right. split; [done|]. by exists m.
Qed.

(** What one check leaves alone: the slots other than the one of [idx],
    with their page objects, and the accounting of the mappings. *)
Lemma cow_check_shape s t d offset idx ok s1 :
  wf gp s → tls_heap s !! t = Some d → pages_open s t →
  cow_check t offset idx s = Ret ok s1 →
  (no_leak s → no_leak s1) ∧
  ∃ d1, tls_heap s1 !! t = Some d1 ∧
    ∀ k, k ≠ Z.to_nat (idx / page_size s) →
      pages d1 !! k = pages d !! k ∧
      ∀ q, pages d !! k = Some q → page_heap s1 !! q = page_heap s !! q.
Proof.
  intros Hwf Ht Hopen Hrun.
  destruct (cow_check_cases s t d offset idx ok s1 Hwf Ht Hopen Hrun)
    as [[_ ->]|(p & pg & Hslot & Hpg & Hrc & [[_ [o ->]]|[_ (m & Hm & ->)]])].
  - split; [done|]. by exists d.
  - split; [done|]. by exists d.
  - split; [by apply cow_state_no_leak|].
    eexists. split; [cbn [tls_heap cow_state]; apply lookup_insert_eq|].
    intros k Hk. cbn [pages]. split; [by rewrite list_lookup_insert_ne|].
    intros q Hq. cbn [page_heap cow_state].
    destruct (wf_desc _ _ Hwf _ _ Ht) as (_ & Hnd & Hheap).
    destruct (Hheap q (list_elem_of_lookup_2 _ _ _ Hq)) as [qg Hqg].
    rewrite lookup_insert_ne.
    + rewrite lookup_insert_ne; [done|]. intros Heq.
      rewrite <- Heq, fresh_key_fresh in Hqg. done.
    + intros ->. apply Hk. symmetry. by apply (NoDup_lookup (pages d) _ _ q).
Qed.

Lemma write_bytes_shape t offset buffer n : ∀ cnt idx s d ok s',
  wf gp s → tls_heap s !! t = Some d → pages_open s t →
  cur_exclusive s t offset idx → 0 ≤ cnt → 0 ≤ idx →
  write_bytes t offset buffer n cnt idx s = Ret ok s' →
  (no_leak s → no_leak s') ∧
  ∃ d', tls_heap s' !! t = Some d' ∧
    ∀ k, slot_untouched gp idx (idx + Z.of_nat n) k →
      pages d' !! k = pages d !! k ∧
      ∀ q, pages d !! k = Some q → page_heap s' !! q = page_heap s !! q.
Proof.
  induction n as [|n IH]; intros cnt idx s d ok s' Hwf Ht Hopen Hex Hcnt Hidx Hrun.
  - injection Hrun as <- <-. split; [done|]. by exists d.
  - assert (page_size s = gp) as Hps by (by apply (wf_page_size gp s t d)).
    rewrite write_bytes_S in Hrun. unfold bind at 1 in Hrun.
    pose proof (cow_check_spec gp gp_pos s t d offset idx Hwf Ht Hopen Hex) as Hcow.
    destruct (cow_check t offset idx s) as [ok1 s1| | |] eqn:Hck; [|done..].
    destruct Hcow as (Hwf1 & Hrel1 & Hopen1 & _ & Hex1 & _ & _).
    destruct (cow_check_shape s t d offset idx ok1 s1 Hwf Ht Hopen Hck)
      as (Hnl1 & d1 & Hd1 & Hslots1).
    assert (∀ k, slot_untouched gp idx (idx + Z.of_nat (S n)) k →
              k ≠ Z.to_nat (idx / page_size s)) as Hnot.
    { intros k Hk Heq. apply (Hk idx); [lia|]. by rewrite Heq, Hps. }
    destruct ok1.
    2:{ injection Hrun as <- <-. split; [done|]. exists d1. split; [done|].
        intros k Hk. by apply Hslots1, Hnot. }
    pose proof (wr_ps _ _ _ Hrel1) as Hps1.
    destruct (pages d1 !! Z.to_nat (idx / page_size s)) as [p|] eqn:Hslot.
    2:{ by rewrite (bind_Undef _ _ _ (tls_page_None _ _ _ _ Hd1 Hslot)) in Hrun. }
    rewrite (bind_Ret _ _ _ _ _ (tls_page_Ret _ _ _ _ _ Hd1 Hslot)) in Hrun.
    destruct (Hopen1 d1 p Hd1 (list_elem_of_lookup_2 _ _ _ Hslot))
      as (pg & m & Hpg & Hm & Hprot).
    rewrite (bind_Ret _ _ _ _ _ (deref_page_Ret _ _ _ Hpg)) in Hrun.
    destruct (buffer !! Z.to_nat cnt) as [b|] eqn:Hbuf.
    2:{ by rewrite (bind_Undef _ _ _ (buffer_get_None _ _ _ Hbuf)) in Hrun. }
    rewrite (bind_Ret _ _ _ _ _ (buffer_get_Ret _ _ _ _ Hbuf)) in Hrun.
    assert (ref_count pg ≤ 1) as Hrc by (by apply (Hex1 eq_refl d1 p pg)).
    rewrite <- Hps1 in Hslot.
    assert (writable (m_prot m) = true) as Hw by (destruct Hprot as [->|[-> _]]; done).
    pose proof (store_off gp gp_pos s1 t d1 idx p pg m Hwf1 Hd1 Hslot Hpg Hm) as Hoff.
    rewrite <- Hps1 in Hrun.
    rewrite (bind_Ret _ _ _ _ _ (store_Ret _ _ _ _ b Hm Hw Hoff)) in Hrun.
    set (s2 := with_mem _ s1) in Hrun.
    assert (wf gp s2) as Hwf2 by (eapply (store_state_wf gp); eauto).
    assert (pages_open s2 t) as Hopen2 by (eapply (store_state_open gp); eauto).
    assert (cur_exclusive s2 t offset (idx + 1)) as Hex2
      by (eapply (store_state_next gp); eauto).
    destruct (IH (cnt + 1) (idx + 1) s2 d1 ok s' Hwf2 Hd1 Hopen2 Hex2
                ltac:(lia) ltac:(lia) Hrun) as (Hnl2 & d' & Hd' & Hslots2).
    split.
    { intros Hnl. apply Hnl2. apply (no_leak_insert_live s1 _ m); [by apply Hnl1|done]. }
    exists d'. split; [done|]. intros k Hk.
    assert (slot_untouched gp (idx + 1) (idx + 1 + Z.of_nat n) k) as Hk'.
    { intros j Hj. apply Hk. lia. }
    destruct (Hslots1 k (Hnot k Hk)) as [Hp1 Hq1].
    destruct (Hslots2 k Hk') as [Hp2 Hq2].
    split; [by rewrite Hp2|]. intros q Hq.
    rewrite (Hq2 q) by (by rewrite Hp1). change (page_heap s2) with (page_heap s1).
    by apply Hq1.
Qed.

(** The same for the whole of [tls_write]. *)
Lemma tls_write_shape s self offset len buffer e d r s' :
  wf gp s → 0 ≤ offset →
  table_find self (hash_table s) = Some e → tls_heap s !! elem_tls e = Some d →
  tls_write self offset len buffer s = Ret r s' →
  (no_leak s → no_leak s') ∧
  ∃ d', tls_heap s' !! elem_tls e = Some d' ∧
    ∀ k, slot_untouched gp offset (u32 (offset + len)) k →
      pages d' !! k = pages d !! k ∧
      ∀ q, pages d !! k = Some q → page_heap s' !! q = page_heap s !! q.
Proof.
  intros Hwf Hoff Hfind Hd Hrun. unfold tls_write in Hrun.
  rewrite bind_get, Hfind in Hrun.
  rewrite (bind_Ret _ _ _ _ _ (deref_TLS_Ret _ _ _ Hd)) in Hrun.
  destruct (u32 (offset + len) >? size d) eqn:Hbound.
  { injection Hrun as <- <-. split; [done|]. by exists d. }
  destruct (wf_desc _ _ Hwf _ _ Hd) as (Hnum & _ & _).
  unfold unprotect_all, protect_all in Hrun.
  rewrite (bind_Ret _ _ _ _ _
             (setprot_all PROT_READ_WRITE _ _ _ Hd Hnum (wf_pages_mapped gp _ _ _ Hwf Hd)))
    in Hrun.
  set (s1 := with_mem _ s) in *.
  assert (wf gp s1) as Hwf1 by (apply wf_same_bytes; [done|apply protect_list_same_bytes]).
  pose proof (write_bytes_spec gp gp_pos (elem_tls e) offset buffer
                (Z.to_nat (u32 (offset + len) - offset)) 0 offset s1 d Hwf1 Hd
                (unprotected_open gp s _ d Hwf Hd)) as Hloop.
  unfold bind at 1 in Hrun.
  destruct (write_bytes _ offset buffer _ 0 offset s1) as [ok s2| | |] eqn:Hwb; [|done..].
  destruct Hloop as (Hwf2 & Hrel2 & _); [by intros _ ?|lia|lia|].
  destruct (write_bytes_shape (elem_tls e) offset buffer _ 0 offset s1 d ok s2 Hwf1 Hd
              (unprotected_open gp s _ d Hwf Hd) ltac:(by intros _ ?) ltac:(lia) Hoff Hwb)
    as (Hnl & d2 & Hd2 & Hslots).
  assert (∀ k, slot_untouched gp offset (u32 (offset + len)) k →
            slot_untouched gp offset
              (offset + Z.of_nat (Z.to_nat (u32 (offset + len) - offset))) k) as Hsub.
  { intros k Hk j Hj. apply Hk. lia. }
  assert (no_leak s → no_leak s2) as Hnl2.
  { intros H. apply Hnl. by apply no_leak_protect. }
  destruct ok.
  - destruct (wr_desc _ _ _ Hrel2 d Hd) as (d2' & Hd2' & _ & _ & Hnum2 & _).
    assert (d2' = d2) as -> by congruence.
    destruct (wf_desc _ _ Hwf2 _ _ Hd2) as (Hnum2' & _ & _).
    rewrite <- Hnum2 in Hrun.
    rewrite (bind_Ret _ _ _ _ _
               (setprot_all PROT_NONE (elem_tls e) d2 s2 Hd2 Hnum2'
                  (wf_pages_mapped gp _ _ _ Hwf2 Hd2))) in Hrun.
    injection Hrun as <- <-.
    split; [intros H; by apply no_leak_protect, Hnl2|].
    exists d2. split; [done|]. intros k Hk. by apply Hslots, Hsub.
  - injection Hrun as <- <-. split; [done|].
    exists d2. split; [done|]. intros k Hk. by apply Hslots, Hsub.
Qed.

End WriteShape.

(** ** Nothing mapped is lost *)

Lemma holders_pos_inv h p :
  (1 ≤ holders h p)%nat → ∃ t d, h !! t = Some d ∧ p ∈ pages d.
Proof.
  induction h as [|t d h Hn IH] using map_ind.
  - rewrite holders_empty. lia.
  - rewrite holders_insert_None by done. unfold indic.
    destruct (decide (p ∈ pages d)) as [Hin|Hnin].
    + intros _. exists t, d. split; [apply lookup_insert_eq|done].
    + intros Hpos. destruct (IH Hpos) as (t' & d' & Ht' & Hp').
      exists t', d'. split; [|done]. rewrite lookup_insert_ne; [done|].
      intros ->. congruence.
Qed.

Lemma release_pages_mem_sub l : ∀ ph mem a,
  is_Some ((release_pages l (ph, mem)).2 !! a) → is_Some (mem !! a).
Proof.
  induction l as [|p l IH]; intros ph mem a; [done|].
  rewrite release_pages_cons.
  destruct (release_page (ph, mem) p) as [ph1 mem1] eqn:Hrel.
  intros H%IH. unfold release_page in Hrel. simpl in Hrel.
  destruct (ph !! p) as [pg|]; [|by injection Hrel as <- <-].
  destruct (ref_count pg =? 1); injection Hrel as <- <-; [|done].
  destruct (decide (a = address pg)) as [->|Hne].
  - rewrite lookup_delete_eq in H. by destruct H.
  - by rewrite lookup_delete_ne in H.
Qed.

Lemma no_leak_ensure_init gp s : no_leak s → no_leak (ensure_init gp s).
Proof. unfold ensure_init. by destruct (initialized s =? 0). Qed.

Section NoLeak.

Variable gp : Z.
Hypothesis gp_pos : 0 < gp.

Lemma tls_read_no_leak s self offset len buffer r s' :
  wf gp s → 0 ≤ offset → tls_read self offset len buffer s = Ret r s' →
  no_leak s → no_leak s'.
Proof.
  intros Hwf Hoff Hr Hnl.
  pose proof (tls_read_spec gp gp_pos s self offset len buffer Hwf Hoff) as Hspec.
  destruct (table_find self (hash_table s)) as [e|].
  2:{ rewrite Hspec in Hr. by injection Hr as <- <-. }
  destruct Hspec as (d & Hd & Hspec).
  destruct (u32 (offset + len) >? size d).
  { rewrite Hspec in Hr. by injection Hr as <- <-. }
  rewrite Hr in Hspec. destruct Hspec as (out & -> & -> & _).
  unfold read_final. apply no_leak_same_keys; [done|].
  intros a. by rewrite !protect_list_dom.
Qed.

Lemma tls_write_no_leak s self offset len buffer r s' :
  wf gp s → 0 ≤ offset → tls_write self offset len buffer s = Ret r s' →
  no_leak s → no_leak s'.
Proof.
  intros Hwf Hoff Hr.
  destruct (table_find self (hash_table s)) as [e|] eqn:Hf.
  2:{ rewrite (tls_write_None s self offset len buffer Hf) in Hr. by injection Hr as <- <-. }
  destruct (wf_find gp s self e Hwf Hf) as (_ & _ & d & Hd & _).
  by destruct (tls_write_shape gp gp_pos s self offset len buffer e d r s' Hwf Hoff Hf Hd Hr).
Qed.

Lemma tls_destroy_no_leak s self r s' :
  wf gp s → tls_destroy self s = Ret r s' → no_leak s → no_leak s'.
Proof.
  intros Hwf Hr Hnl.
  destruct (table_find self (hash_table s)) as [e|] eqn:Hf.
  2:{ rewrite (tls_destroy_None s self Hf) in Hr. by injection Hr as <- <-. }
  destruct (wf_find gp s self e Hwf Hf) as (_ & _ & d & Hd & _).
  rewrite (tls_destroy_Ret gp s self e d Hwf Hf Hd) in Hr. injection Hr as <- <-.
  destruct (wf_desc _ _ Hwf _ _ Hd) as (_ & Hnd & _).
  intros a Ha. pose proof Ha as Hold. simpl in Hold. apply release_pages_mem_sub in Hold.
  destruct (Hnl a Hold) as (q & qg & Hq & Hqa).
  pose proof (destroy_heap_lookup gp s self e d Hwf Hd q) as Hlook.
  destruct (decide (q ∈ pages d)) as [Hin|Hnin]; [|exists q, qg; by rewrite Hlook].
  destruct (Z.eqb_spec (ref_count qg) 1) as [Hone|Hmany].
  - exfalso. simpl in Ha.
    assert ((release_pages (pages d) (page_heap s, mem s)).2 !! address qg = None) as Hgone.
    { apply (release_pages_mem_gone (pages d) _ _ q qg); try done.
      intros p pg Hp Hpg Heq. by apply (wf_addr _ _ Hwf p q pg qg). }
    rewrite <- Hqa, Hgone in Ha. by destruct Ha.
  - exists q, (mkPage (address qg) (ref_count qg - 1)).
    split; [|done]. rewrite Hlook, Hq. simpl. unfold released.
    by destruct (Z.eqb_spec (ref_count qg) 1).
Qed.

Lemma tls_clone_no_leak s self target r s' :
  wf gp s → tls_clone self target s = Ret r s' → no_leak s → no_leak s'.
Proof.
  intros Hwf Hr Hnl.
  destruct (tls_clone_eval gp s self target Hwf)
    as [[_ He]|(Hself & [[_ He]|(et & dt & Hf & Hdt &
          [[_ He]|[(_ & _ & He)|[(_ & _ & _ & He)|(_ & _ & _ & He)]]])])];
    rewrite He in Hr; try done; injection Hr as <- <-; try done.
  intros a Ha. destruct (Hnl a Ha) as (q & qg & Hq & Hqa).
  pose proof (clone_heap_lookup gp s self et dt Hwf Hdt q) as Hlook.
  destruct (decide (q ∈ pages dt)).
  - exists q, (shared qg). by rewrite Hlook, Hq.
  - exists q, qg. by rewrite Hlook.
Qed.

Lemma tls_create_no_leak s self sz r s' :
  wf gp s → tls_create gp self sz s = Ret r s' → no_leak s → no_leak s'.
Proof.
  intros Hwf0 Hr Hnl0. rewrite tls_create_ensure in Hr.
  pose proof (wf_ensure_init gp s Hwf0) as Hwf.
  destruct (ensure_init_initialized gp s Hwf0) as [Hi _].
  pose proof (no_leak_ensure_init gp s Hnl0) as Hnl.
  set (si := ensure_init gp s) in *. clearbody si.
  destruct (decide (r = 0)) as [->|Hr0].
  2:{ by destruct (tls_create_failure_state gp gp_pos si self sz r s' Hwf Hi Hr Hr0) as [o ->]. }
  destruct (tls_create_success_state gp gp_pos si self sz s' Hwf Hi Hr)
    as (Hf & s3 & cl & -> & Hb & Hlen & Hg & Hother).
  intros b Hb3. change (is_Some (mem s3 !! b)) in Hb3.
  change (∃ p pg, page_heap s3 !! p = Some pg ∧ address pg = b).
  destruct (decide (b ∈ cl.*2)) as [Hin|Hnin].
  - apply list_elem_of_fmap in Hin as ([p a] & -> & Hin).
    destruct (bd_new _ _ _ _ _ _ _ Hb p a Hin) as (Hpg & _).
    by exists p, (mkPage a 1).
  - rewrite (bd_old_mem _ _ _ _ _ _ _ Hb b Hnin) in Hb3.
    destruct (Hnl b Hb3) as (q & qg & Hq & Hqa). exists q, qg. split; [|done].
    rewrite (bd_old_pages _ _ _ _ _ _ _ Hb q); [done|].
    intros ([p a] & -> & Hin)%list_elem_of_fmap.
    destruct (bd_new _ _ _ _ _ _ _ Hb p a Hin) as (_ & _ & Hnone & _).
    simpl in Hq. congruence.
Qed.

Lemma reachable_no_leak s : reachable gp s → no_leak s.
Proof.
  intros Hreach. pose proof (reachable_wf gp gp_pos) as Hwf.
  induction Hreach as [o|s o Hs IH|s self sz r s' Hs IH Hsz Hr|s self r s' Hs IH Hr
                  |s self offset len buffer r s' Hs IH Ho Hl Hr
                  |s self offset len buffer r s' Hs IH Ho Hl Hr
                  |s self target r s' Hs IH Hr].
  - intros a. unfold initial_state. cbn [mem]. rewrite lookup_empty. by intros [? ?].
  - done.
  - by apply (tls_create_no_leak s self sz r s' (Hwf s Hs)).
  - by apply (tls_destroy_no_leak s self r s' (Hwf s Hs)).
  - apply (tls_read_no_leak s self offset len buffer r s' (Hwf s Hs)); [lia|done..].
  - apply (tls_write_no_leak s self offset len buffer r s' (Hwf s Hs)); [lia|done..].
  - by apply (tls_clone_no_leak s self target r s' (Hwf s Hs)).
Qed.

End NoLeak.

(** X19. Nothing is leaked.  In every reachable state each mapping is the
    page of a live page object, and each live page object is held by the
    page array of at least one live descriptor, which is the descriptor
    registered for its owner: a page stays mapped only as long as an area
    of a registered thread uses it. *)
Theorem nothing_is_leaked gp s :
  0 < gp → reachable gp s →
  (∀ a, is_Some (mem s !! a) →
     ∃ p pg, page_heap s !! p = Some pg ∧ address pg = a) ∧
  (∀ p pg, page_heap s !! p = Some pg →
     ∃ t d, tls_heap s !! t = Some d ∧ p ∈ pages d ∧
       table_find (tid d) (hash_table s) = Some (mkElem (tid d) t)).
Proof.
  intros Hgp Hreach. pose proof (reachable_wf gp Hgp s Hreach) as Hwf.
  split; [apply (reachable_no_leak gp Hgp s Hreach)|].
  intros p pg Hpg. destruct (wf_count _ _ Hwf p pg Hpg) as [Hcnt Hpos].
  destruct (holders_pos_inv (tls_heap s) p ltac:(lia)) as (t & d & Hd & Hp).
  exists t, d. split; [done|]. split; [done|].
  apply table_find_elem; [apply (wf_tids _ _ Hwf)| |done].
  by apply (wf_registered _ _ Hwf).
Qed.

Lemma nothing_is_leaked_witness :
  (∀ a, is_Some (mem (exec (tls_destroy 2) st_diverged) !! a) →
     ∃ p pg, page_heap (exec (tls_destroy 2) st_diverged) !! p = Some pg ∧
             address pg = a) ∧
  (∀ p pg, page_heap (exec (tls_destroy 2) st_diverged) !! p = Some pg →
     ∃ t d, tls_heap (exec (tls_destroy 2) st_diverged) !! t = Some d ∧ p ∈ pages d ∧
       table_find (tid d) (hash_table (exec (tls_destroy 2) st_diverged)) =
       Some (mkElem (tid d) t)).
Proof.
  apply (nothing_is_leaked 4096 (exec (tls_destroy 2) st_diverged)).
  - lia.
  - apply (reach_destroy 4096 st_diverged 2 0).
    + apply st_diverged_reachable.
    + vm_compute. reflexivity.
Defined.

(** X20. Copy-on-write copies only what is written.  In a reachable state,
    whatever [tls_write] returns, every slot of the caller's page array
    that holds none of the bytes of the range still points to the page
    object it pointed to, and that page object is untouched: a page shared
    with another area stays shared, with the same count. *)
Theorem write_leaves_other_pages_shared gp s self offset len buffer e d r s' :
  0 < gp → reachable gp s → 0 ≤ offset →
  table_find self (hash_table s) = Some e → tls_heap s !! elem_tls e = Some d →
  tls_write self offset len buffer s = Ret r s' →
  ∃ d', tls_heap s' !! elem_tls e = Some d' ∧
    ∀ k, slot_untouched gp offset (u32 (offset + len)) k →
      pages d' !! k = pages d !! k ∧
      ∀ q, pages d !! k = Some q → page_heap s' !! q = page_heap s !! q.
Proof.
  intros Hgp Hreach Hoff Hf Hd Hrun. pose proof (reachable_wf gp Hgp s Hreach) as Hwf.
  by destruct (tls_write_shape gp Hgp s self offset len buffer e d r s' Hwf Hoff Hf Hd Hrun).
Qed.

Lemma write_leaves_other_pages_shared_witness :
  ∃ d', tls_heap st_diverged !! elem_tls (mkElem 2 2) = Some d' ∧
    ∀ k, slot_untouched 4096 0 (u32 (0 + 1)) k →
      pages d' !! k = pages (mkTLS 2 8192 2 [1; 2]) !! k ∧
      ∀ q, pages (mkTLS 2 8192 2 [1; 2]) !! k = Some q →
           page_heap st_diverged !! q = page_heap st_cloned !! q.
Proof.
  apply (write_leaves_other_pages_shared 4096 st_cloned 2 0 1 [x58] (mkElem 2 2)
           (mkTLS 2 8192 2 [1; 2]) 0 st_diverged).
  - lia.
  - apply st_cloned_reachable.
  - lia.
  - vm_compute. reflexivity.
  - vm_compute. reflexivity.
  - apply st_diverged_run.
Defined.

(** ** Writing where nothing is shared *)

Section Unshared.

Variable gp : Z.
Hypothesis gp_pos : 0 < gp.

Lemma write_bytes_unshared t offset buffer n : ∀ cnt idx s d ok s',
  wf gp s → tls_heap s !! t = Some d → pages_open s t →
  cur_exclusive s t offset idx → 0 ≤ cnt → 0 ≤ idx →
  (∀ j p pg, idx ≤ j < idx + Z.of_nat n →
     pages d !! Z.to_nat (j / gp) = Some p → page_heap s !! p = Some pg →
     ref_count pg ≤ 1) →
  write_bytes t offset buffer n cnt idx s = Ret ok s' →
  ok = true ∧ oracle s' = oracle s ∧ page_heap s' = page_heap s ∧
  tls_heap s' = tls_heap s.
Proof.
  induction n as [|n IH]; intros cnt idx s d ok s' Hwf Ht Hopen Hex Hcnt Hidx Hone Hrun.
  - by injection Hrun as <- <-.
  - assert (page_size s = gp) as Hps by (by apply (wf_page_size gp s t d)).
    rewrite write_bytes_S in Hrun. unfold bind at 1 in Hrun.
    destruct (cow_check t offset idx s) as [ok1 s1| | |] eqn:Hck; [|done..].
    destruct (cow_check_cases gp gp_pos s t d offset idx ok1 s1 Hwf Ht Hopen Hck)
      as [[-> ->]|(p & pg & Hslot & Hpg & Hrc & _)].
    2:{ rewrite Hps in Hslot. pose proof (Hone idx p pg ltac:(lia) Hslot Hpg). lia. }
    destruct (pages d !! Z.to_nat (idx / page_size s)) as [p|] eqn:Hslot.
    2:{ by rewrite (bind_Undef _ _ _ (tls_page_None _ _ _ _ Ht Hslot)) in Hrun. }
    rewrite (bind_Ret _ _ _ _ _ (tls_page_Ret _ _ _ _ _ Ht Hslot)) in Hrun.
    destruct (Hopen d p Ht (list_elem_of_lookup_2 _ _ _ Hslot))
      as (pg & m & Hpg & Hm & Hprot).
    rewrite (bind_Ret _ _ _ _ _ (deref_page_Ret _ _ _ Hpg)) in Hrun.
    destruct (buffer !! Z.to_nat cnt) as [b|] eqn:Hbuf.
    2:{ by rewrite (bind_Undef _ _ _ (buffer_get_None _ _ _ Hbuf)) in Hrun. }
    rewrite (bind_Ret _ _ _ _ _ (buffer_get_Ret _ _ _ _ Hbuf)) in Hrun.
    assert (ref_count pg ≤ 1) as Hrc.
    { apply (Hone idx p pg); [lia|by rewrite <- Hps|done]. }
    assert (writable (m_prot m) = true) as Hw by (destruct Hprot as [->|[-> _]]; done).
    pose proof (store_off gp gp_pos s t d idx p pg m Hwf Ht Hslot Hpg Hm) as Hoff.
    rewrite (bind_Ret _ _ _ _ _ (store_Ret _ _ _ _ b Hm Hw Hoff)) in Hrun.
    set (s2 := with_mem _ s) in Hrun.
    assert (wf gp s2) as Hwf2 by (eapply (store_state_wf gp); eauto).
    assert (pages_open s2 t) as Hopen2 by (eapply (store_state_open gp); eauto).
    assert (cur_exclusive s2 t offset (idx + 1)) as Hex2
      by (eapply (store_state_next gp); eauto).
    apply (IH (cnt + 1) (idx + 1) s2 d ok s' Hwf2 Ht Hopen2 Hex2 ltac:(lia) ltac:(lia));
      [|done].
    intros j q qg Hj. apply Hone. lia.
Qed.

Lemma tls_write_unshared s self offset len buffer e d r s' :
  wf gp s → 0 ≤ offset →
  table_find self (hash_table s) = Some e → tls_heap s !! elem_tls e = Some d →
  u32 (offset + len) ≤ size d →
  (∀ j p pg, offset ≤ j < u32 (offset + len) →
     pages d !! Z.to_nat (j / gp) = Some p → page_heap s !! p = Some pg →
     ref_count pg ≤ 1) →
  tls_write self offset len buffer s = Ret r s' →
  r = 0 ∧ oracle s' = oracle s ∧ page_heap s' = page_heap s ∧ tls_heap s' = tls_heap s.
Proof.
  intros Hwf Hoff Hfind Hd Hin Hone Hrun. unfold tls_write in Hrun.
  rewrite bind_get, Hfind in Hrun.
  rewrite (bind_Ret _ _ _ _ _ (deref_TLS_Ret _ _ _ Hd)) in Hrun.
  destruct (Z.gtb_spec (u32 (offset + len)) (size d)) as [?|_]; [lia|].
  destruct (wf_desc _ _ Hwf _ _ Hd) as (Hnum & _ & _).
  unfold unprotect_all, protect_all in Hrun.
  rewrite (bind_Ret _ _ _ _ _
             (setprot_all PROT_READ_WRITE _ _ _ Hd Hnum (wf_pages_mapped gp _ _ _ Hwf Hd)))
    in Hrun.
  set (s1 := with_mem _ s) in *.
  assert (wf gp s1) as Hwf1 by (apply wf_same_bytes; [done|apply protect_list_same_bytes]).
  unfold bind at 1 in Hrun.
  destruct (write_bytes _ offset buffer _ 0 offset s1) as [ok s2| | |] eqn:Hwb; [|done..].
  pose proof (write_bytes_spec gp gp_pos (elem_tls e) offset buffer
                (Z.to_nat (u32 (offset + len) - offset)) 0 offset s1 d Hwf1 Hd
                (unprotected_open gp s _ d Hwf Hd)) as Hloop.
  rewrite Hwb in Hloop. destruct Hloop as (Hwf2 & Hrel2 & _); [by intros _ ?|lia|lia|].
  assert (∀ j p pg, offset ≤ j < offset + Z.of_nat (Z.to_nat (u32 (offset + len) - offset)) →
            pages d !! Z.to_nat (j / gp) = Some p → page_heap s1 !! p = Some pg →
            ref_count pg ≤ 1) as Hone1.
  { intros j p pg Hj. apply Hone. lia. }
  destruct (write_bytes_unshared (elem_tls e) offset buffer
              (Z.to_nat (u32 (offset + len) - offset)) 0 offset s1 d ok s2 Hwf1 Hd
              (unprotected_open gp s _ d Hwf Hd) ltac:(by intros _ ?) ltac:(lia) Hoff
              Hone1 Hwb) as (-> & Ho & Hph & Hth).
  destruct (wr_desc _ _ _ Hrel2 d Hd) as (d2 & Hd2 & _ & _ & Hnum2 & _).
  destruct (wf_desc _ _ Hwf2 _ _ Hd2) as (Hnum2' & _ & _).
  rewrite <- Hnum2 in Hrun.
  rewrite (bind_Ret _ _ _ _ _
             (setprot_all PROT_NONE (elem_tls e) d2 s2 Hd2 Hnum2'
                (wf_pages_mapped gp _ _ _ Hwf2 Hd2))) in Hrun.
  by injection Hrun as <- <-.
Qed.

End Unshared.

(** X21. A write allocates only to split shared pages.  In a reachable
    state, when no page holding a byte of the range is shared (each has
    count 1), a [tls_write] inside the area that returns makes no request
    to the operating system and so cannot fail for lack of memory: it
    returns 0 whatever the operating system would have answered, and the
    descriptors and the page objects are exactly as before. *)
Theorem write_to_unshared_pages_cannot_fail gp s self offset len buffer e d r s' :
  0 < gp → reachable gp s → 0 ≤ offset →
  table_find self (hash_table s) = Some e → tls_heap s !! elem_tls e = Some d →
  u32 (offset + len) ≤ size d →
  (∀ j p pg, offset ≤ j < u32 (offset + len) →
     pages d !! Z.to_nat (j / gp) = Some p → page_heap s !! p = Some pg →
     ref_count pg = 1) →
  tls_write self offset len buffer s = Ret r s' →
  r = 0 ∧ oracle s' = oracle s ∧ page_heap s' = page_heap s ∧ tls_heap s' = tls_heap s.
Proof.
  intros Hgp Hreach Hoff Hf Hd Hin Hone Hrun.
  pose proof (reachable_wf gp Hgp s Hreach) as Hwf.
  apply (tls_write_unshared gp Hgp s self offset len buffer e d r s'); try done.
  intros j p pg Hj Hp Hpg. rewrite (Hone j p pg Hj Hp Hpg). lia.
Qed.

Lemma write_to_unshared_pages_cannot_fail_witness :
  0 = 0 ∧
  oracle (exec (tls_write 1 100 3 [x61; x62; x63]) (with_oracle [false; false] st_created))
    = oracle (with_oracle [false; false] st_created) ∧
  page_heap (exec (tls_write 1 100 3 [x61; x62; x63]) (with_oracle [false; false] st_created))
    = page_heap (with_oracle [false; false] st_created) ∧
  tls_heap (exec (tls_write 1 100 3 [x61; x62; x63]) (with_oracle [false; false] st_created))
    = tls_heap (with_oracle [false; false] st_created).
Proof.
  apply (write_to_unshared_pages_cannot_fail 4096 (with_oracle [false; false] st_created)
           1 100 3 [x61; x62; x63] (mkElem 1 1) (mkTLS 1 8192 2 [1; 2]) 0
           (exec (tls_write 1 100 3 [x61; x62; x63]) (with_oracle [false; false] st_created))).
  - lia.
  - apply reach_os, st_created_reachable.
  - lia.
  - vm_compute. reflexivity.
  - vm_compute. reflexivity.
  - vm_compute. discriminate.
  - intros j p pg Hj Hp Hpg.
    assert (Z.to_nat (j / 4096) = 0%nat) as Hz.
    { change (u32 (100 + 3)) with 103 in Hj.
      assert (j / 4096 = 0) as -> by (apply Z.div_small; lia). reflexivity. }
    rewrite Hz in Hp. injection Hp as <-.
    vm_compute in Hpg. injection Hpg as <-. reflexivity.
  - vm_compute. reflexivity.
Defined.

(** ** [tls_protect] and [tls_unprotect] *)

(** X22. The two protection helpers change the protection of one page and
    nothing else.  For a live page object whose mapping is live,
    [tls_unprotect] makes the page read+write and a following [tls_protect]
    takes every access away again, the bytes of the page, every other
    mapping, the page objects, the descriptors and the registry staying as
    they are; when nothing is mapped at the page's address [mprotect] fails
    and either helper ends the process with status 1. *)
Theorem protect_changes_protection_only s p pg :
  page_heap s !! p = Some pg →
  (mem s !! address pg = None →
     tls_protect p s = Exit 1 ∧ tls_unprotect p s = Exit 1) ∧
  (∀ m, mem s !! address pg = Some m →
     ∃ s1 s2, tls_unprotect p s = Ret tt s1 ∧ tls_protect p s1 = Ret tt s2 ∧
       page_prot s1 p = Some PROT_READ_WRITE ∧ page_prot s2 p = Some PROT_NONE ∧
       page_bytes s1 p = Some (m_bytes m) ∧ page_bytes s2 p = Some (m_bytes m) ∧
       (∀ a, a ≠ address pg → mem s1 !! a = mem s !! a ∧ mem s2 !! a = mem s !! a) ∧
       page_heap s2 = page_heap s ∧ tls_heap s2 = tls_heap s ∧
       hash_table s2 = hash_table s).
Proof.
  intros Hpg. split.
  - intros Hnone.
    assert (∀ pr, tls_setprot pr p s = Exit 1) as Hexit.
    { intros pr. unfold tls_setprot.
      rewrite (bind_Ret _ _ _ _ _ (deref_page_Ret _ _ _ Hpg)).
      unfold mprotect, bind, get, ret. by rewrite Hnone. }
    split; [apply (Hexit PROT_NONE)|apply (Hexit PROT_READ_WRITE)].
  - intros m Hm.
    set (s1 := with_mem (alter (set_prot PROT_READ_WRITE) (address pg) (mem s)) s).
    assert (mem s1 !! address pg = Some (set_prot PROT_READ_WRITE m)) as Hm1
      by (simpl; by rewrite lookup_alter_eq, Hm).
    set (s2 := with_mem (alter (set_prot PROT_NONE) (address pg) (mem s1)) s1).
    exists s1, s2.
    split; [apply (tls_setprot_Ret s p pg m PROT_READ_WRITE Hpg Hm)|].
    split; [apply (tls_setprot_Ret s1 p pg _ PROT_NONE Hpg Hm1)|].
    assert (mem s2 !! address pg = Some (set_prot PROT_NONE (set_prot PROT_READ_WRITE m)))
      as Hm2 by (simpl; by rewrite !lookup_alter_eq, Hm).
    unfold page_prot, page_bytes.
    change (page_heap s1) with (page_heap s). change (page_heap s2) with (page_heap s).
    rewrite Hpg. cbn [mbind option_bind]. rewrite Hm1, Hm2. cbn [mbind option_bind].
    do 4 (split; [done|]). split; [|done].
    intros a Hne. simpl. by rewrite !lookup_alter_ne by done.
Qed.

Lemma protect_changes_protection_only_witness :
  (mem st_cow_failed !! address (mkPage 12288 1) = None →
     tls_protect 3 st_cow_failed = Exit 1 ∧ tls_unprotect 3 st_cow_failed = Exit 1) ∧
  (∀ m, mem st_cow_failed !! address (mkPage 12288 1) = Some m →
     ∃ s1 s2, tls_unprotect 3 st_cow_failed = Ret tt s1 ∧ tls_protect 3 s1 = Ret tt s2 ∧
       page_prot s1 3 = Some PROT_READ_WRITE ∧ page_prot s2 3 = Some PROT_NONE ∧
       page_bytes s1 3 = Some (m_bytes m) ∧ page_bytes s2 3 = Some (m_bytes m) ∧
       (∀ a, a ≠ address (mkPage 12288 1) →
          mem s1 !! a = mem st_cow_failed !! a ∧ mem s2 !! a = mem st_cow_failed !! a) ∧
       page_heap s2 = page_heap st_cow_failed ∧ tls_heap s2 = tls_heap st_cow_failed ∧
       hash_table s2 = hash_table st_cow_failed).
Proof.
  apply (protect_changes_protection_only st_cow_failed 3 (mkPage 12288 1)).
  vm_compute. reflexivity.
Defined.

(** ** The page count of a live area *)

Section Sized.

Variable gp : Z.
Hypothesis gp_pos : 0 < gp.

Lemma sized_same_heap s s' : tls_heap s' = tls_heap s → sized gp s → sized gp s'.
Proof. intros Heq Hs t d Hd. rewrite Heq in Hd. exact (Hs t d Hd). Qed.

Lemma tls_create_sized s self sz r s' :
  wf gp s → 0 ≤ sz < 2 ^ 32 → tls_create gp self sz s = Ret r s' →
  sized gp s → sized gp s'.
Proof.
  intros Hwf0 Hsz Hr Hs0. rewrite tls_create_ensure in Hr.
  pose proof (wf_ensure_init gp s Hwf0) as Hwf.
  destruct (ensure_init_initialized gp s Hwf0) as [Hi _].
  assert (sized gp (ensure_init gp s)) as Hs.
  { apply (sized_same_heap s); [|done]. by destruct (ensure_init_heaps gp s). }
  set (si := ensure_init gp s) in *. clearbody si.
  destruct (decide (r = 0)) as [->|Hr0].
  2:{ destruct (tls_create_failure_state gp gp_pos si self sz r s' Hwf Hi Hr Hr0) as [o ->].
      done. }
  destruct (tls_create_success_state gp gp_pos si self sz s' Hwf Hi Hr)
    as (Hf & s3 & cl & -> & Hb & Hlen & Hg & Hother).
  assert (0 < sz) as Hpos.
  { destruct (decide (sz ≤ 0)) as [Hle|]; [|lia].
    rewrite (tls_create_zero gp self sz si Hi Hf Hle) in Hr. done. }
  intros t d Hd. destruct (decide (t = fresh_key (tls_heap si))) as [->|Hne].
  - rewrite (fresh_area_desc gp si self sz cl s3 Hb) in Hd. injection Hd as <-.
    simpl. split; [lia|done].
  - change (tls_heap s3 !! t = Some d) in Hd. rewrite (Hother t Hne) in Hd. exact (Hs t d Hd).
Qed.

Lemma tls_destroy_sized s self r s' :
  wf gp s → tls_destroy self s = Ret r s' → sized gp s → sized gp s'.
Proof.
  intros Hwf Hr Hs.
  destruct (table_find self (hash_table s)) as [e|] eqn:Hf.
  2:{ rewrite (tls_destroy_None s self Hf) in Hr. by injection Hr as <- <-. }
  destruct (wf_find gp s self e Hwf Hf) as (_ & _ & d & Hd & _).
  rewrite (tls_destroy_Ret gp s self e d Hwf Hf Hd) in Hr. injection Hr as <- <-.
  intros t d' Hd'. unfold destroy_state in Hd'. cbn [tls_heap] in Hd'.
  apply lookup_delete_Some in Hd' as [_ Hd']. exact (Hs t d' Hd').
Qed.

Lemma tls_read_sized s self offset len buffer r s' :
  wf gp s → 0 ≤ offset → tls_read self offset len buffer s = Ret r s' →
  sized gp s → sized gp s'.
Proof.
  intros Hwf Hoff Hr Hs.
  pose proof (tls_read_spec gp gp_pos s self offset len buffer Hwf Hoff) as Hspec.
  destruct (table_find self (hash_table s)) as [e|].
  2:{ rewrite Hspec in Hr. by injection Hr as <- <-. }
  destruct Hspec as (d & Hd & Hspec).
  destruct (u32 (offset + len) >? size d).
  { rewrite Hspec in Hr. by injection Hr as <- <-. }
  rewrite Hr in Hspec. destruct Hspec as (out & -> & -> & _).
  by apply (sized_same_heap s).
Qed.

Lemma tls_write_sized s self offset len buffer r s' :
  wf gp s → 0 ≤ offset → tls_write self offset len buffer s = Ret r s' →
  sized gp s → sized gp s'.
Proof.
  intros Hwf Hoff Hr Hs.
  pose proof (tls_write_spec gp gp_pos s self offset len buffer Hwf Hoff) as Hspec.
  destruct (table_find self (hash_table s)) as [e|].
  2:{ rewrite Hspec in Hr. by injection Hr as <- <-. }
  destruct Hspec as (d & Hd & Hspec).
  destruct (u32 (offset + len) >? size d).
  { rewrite Hspec in Hr. by injection Hr as <- <-. }
  rewrite Hr in Hspec. destruct Hspec as (_ & Hrel & _).
  intros t d' Hd'. destruct (decide (t = elem_tls e)) as [->|Hne].
  - destruct (wr_desc _ _ _ Hrel d Hd) as (d2 & Hd2 & _ & Hsize & Hnum & _).
    assert (d2 = d') as -> by congruence.
    rewrite Hsize, Hnum. exact (Hs (elem_tls e) d Hd).
  - rewrite (wr_others _ _ _ Hrel t Hne) in Hd'. exact (Hs t d' Hd').
Qed.

Lemma tls_clone_sized s self target r s' :
  wf gp s → tls_clone self target s = Ret r s' → sized gp s → sized gp s'.
Proof.
  intros Hwf Hr Hs.
  destruct (tls_clone_eval gp s self target Hwf)
    as [[_ He]|(_ & [[_ He]|(et & dt & _ & Hdt &
          [[_ He]|[(_ & _ & He)|[(_ & _ & _ & He)|(_ & _ & _ & He)]]])])];
    rewrite He in Hr; try done; injection Hr as <- <-; try done.
  intros t d Hd. unfold clone_state in Hd. cbn [tls_heap] in Hd.
  apply lookup_insert_Some in Hd as [[_ <-]|[_ Hd]]; [|exact (Hs t d Hd)].
  simpl. exact (Hs (elem_tls et) dt Hdt).
Qed.

Lemma reachable_sized s : reachable gp s → sized gp s.
Proof.
  intros Hreach. pose proof (reachable_wf gp gp_pos) as Hwf.
  induction Hreach as [o|s o Hs IH|s self sz r s' Hs IH Hsz Hr|s self r s' Hs IH Hr
                  |s self offset len buffer r s' Hs IH Ho Hl Hr
                  |s self offset len buffer r s' Hs IH Ho Hl Hr
                  |s self target r s' Hs IH Hr].
  - intros t d Hd. unfold initial_state in Hd. cbn [tls_heap] in Hd.
    by rewrite lookup_empty in Hd.
  - done.
  - by apply (tls_create_sized s self sz r s' (Hwf s Hs)).
  - by apply (tls_destroy_sized s self r s' (Hwf s Hs)).
  - apply (tls_read_sized s self offset len buffer r s' (Hwf s Hs)); [lia|done..].
  - apply (tls_write_sized s self offset len buffer r s' (Hwf s Hs)); [lia|done..].
  - by apply (tls_clone_sized s self target r s' (Hwf s Hs)).
Qed.

(** An area whose size plus a page does not pass 2^32 has the pages that
    hold all its bytes. *)
Lemma sized_covered s t d :
  wf gp s → sized gp s → tls_heap s !! t = Some d → size d + gp - 1 < 2 ^ 32 →
  page_num d = (size d + gp - 1) / gp ∧
  size d ≤ Z.of_nat (length (pages d)) * gp.
Proof.
  intros Hwf Hs Hd Hno. destruct (Hs t d Hd) as [Hsz Hnum].
  destruct (wf_desc _ _ Hwf _ _ Hd) as (Hlen & _ & _).
  assert (page_num d = (size d + gp - 1) / gp) as Hceil.
  { rewrite Hnum. unfold create_page_num, u32. rewrite Z.mod_small; [done|lia]. }
  split; [done|]. rewrite <- Hlen, Hceil. by apply ceil_pages_cover.
Qed.



End Sized.

(** ** How a call can end *)

Section Outcomes.

Variable gp : Z.
Hypothesis gp_pos : 0 < gp.



End Outcomes.



(** ** Reading back what was written, in an area that has all its pages *)

(** X23. In a reachable state, for the area of the calling thread, of a
    size S with S + page_size - 1 < 2^32, and a range with
    offset + len <= S, when the two buffers hold [len] bytes: [tls_write]
    returns; it returns 0 when the operating system refuses nothing; and
    when it returns 0 the [tls_read] of the same range by the same thread
    that follows returns 0 with the first [len] bytes of its buffer equal
    to the first [len] bytes written. *)
Theorem round_trip_in_covered_area gp s self e d offset len buf out :
  0 < gp → reachable gp s →
  table_find self (hash_table s) = Some e → tls_heap s !! elem_tls e = Some d →
  size d + gp - 1 < 2 ^ 32 →
  0 ≤ offset → 0 ≤ len → offset + len ≤ size d →
  (Z.to_nat len ≤ length buf)%nat → (Z.to_nat len ≤ length out)%nat →
  ∃ r s1, tls_write self offset len buf s = Ret r s1 ∧
    (oracle s = [] → r = 0) ∧
    (r = 0 → ∃ res s2, tls_read self offset len out s1 = Ret (0, res) s2 ∧
       take (Z.to_nat len) res = take (Z.to_nat len) buf).
Proof.
  intros Hgp Hreach Hf Hd Hno Hoff Hlen Hin Hbuf Hout.
  pose proof (reachable_wf gp Hgp s Hreach) as Hwf.
  pose proof (reachable_sized gp Hgp s Hreach) as Hsized.
  destruct (sized_covered gp Hgp s _ d Hwf Hsized Hd Hno) as [Hceil _].
  destruct (Hsized _ d Hd) as [Hsz _].
  destruct (write_then_read_round_trip gp s self e d offset len buf out
              Hgp Hreach Hf Hd Hoff Hlen Hin ltac:(lia)) as [_ Htotal].
  apply Htotal; [|done..]. by rewrite (wf_page_size gp s _ _ Hwf Hd).
Qed.

Lemma round_trip_in_covered_area_witness :
  ∃ r s1, tls_write 2 4090 10 [x30; x31; x32; x33; x34; x35; x36; x37; x38; x39] st_cloned
            = Ret r s1 ∧
    (oracle st_cloned = [] → r = 0) ∧
    (r = 0 → ∃ res s2, tls_read 2 4090 10 (replicate 10 x00) s1 = Ret (0, res) s2 ∧
       take (Z.to_nat 10) res =
       take (Z.to_nat 10) [x30; x31; x32; x33; x34; x35; x36; x37; x38; x39]).
Proof.
  apply (round_trip_in_covered_area 4096 st_cloned 2 (mkElem 2 2) (mkTLS 2 8192 2 [1; 2])
           4090 10 [x30; x31; x32; x33; x34; x35; x36; x37; x38; x39] (replicate 10 x00)).
  - lia.
  - apply st_cloned_reachable.
  - vm_compute. reflexivity.
  - vm_compute. reflexivity.
  - vm_compute. reflexivity.
  - lia.
  - lia.
  - vm_compute. discriminate.
  - vm_compute. lia.
  - vm_compute. lia.
Defined.
